(** * Graph analysis engine of ambulance_shortest_route

    A shallow embedding of the algorithmic core of the repository:
    - [app/utils/dijkstra.js]   : [dijkstra], [hasNegativeWeights]
    - [app/utils/bellmanFord.js]: [bellmanFord]
    - [app/utils/graphTheoryAnalysis.js]: [calculateDegrees],
      [isGraphConnected], [analyzeEulerian], [analyzeHamiltonian] and the
      backtracking searches.

    Modelling conventions.
    - Node and edge identifiers are JavaScript strings, modelled by [string].
      Plain objects used as dictionaries ([graph], [distances], [previous],
      [degrees]) are [gmap string _]; a missing key is the JavaScript
      [undefined].  A finite map and a plain object differ on the names
      inherited from [Object.prototype]: a lookup of such a name finds the
      inherited member, and an assignment to [__proto__] stores nothing.
      [plain_key] and [plain_nodes] say that an id, or the node list, stays
      clear of this.
    - Edge weights are JavaScript numbers, that is doubles; the model covers
      the integer weights, as [Z], and adds them as integers.  Doubles add
      integers without rounding as long as the operands and the sum lie
      between [-2^53] and [2^53]; [safe_weights] bounds the weights so that
      every sum an engine forms does.  [Infinity], [-Infinity] and [NaN]
      are kept as separate values of [jsnum].
    - A call either returns a value, throws a [TypeError] (calling a method of
      [undefined]), or, in the model only, exhausts the recursion budget that
      replaces a [while] loop or a recursive call. *)

From Stdlib Require Import ZArith Lia.
From stdpp Require Import gmap strings list fin_maps fin_sets pretty.

Open Scope string_scope.
Open Scope Z_scope.
Open Scope list_scope.

(** ** JavaScript numbers *)

Inductive jsnum : Type :=
  | Num (z : Z)
  | PosInf
  | NegInf
  | NaN.

#[global] Instance jsnum_eq_dec : EqDecision jsnum.
Proof. solve_decision. Defined.

(** [ToNumber] of the result of a property read: [undefined] becomes [NaN]. *)
Definition to_number (o : option jsnum) : jsnum :=
  match o with Some x => x | None => NaN end.

(** [a + w] for a number [a] and a finite weight [w]. *)
Definition js_add (a : jsnum) (w : Z) : jsnum :=
  match a with
  | Num x => Num (x + w)
  | other => other
  end.

(** [a < b]: every comparison with [NaN] is false. *)
Definition js_lt (a b : jsnum) : bool :=
  match a, b with
  | Num x, Num y => bool_decide (x < y)
  | Num _, PosInf => true
  | NegInf, Num _ => true
  | NegInf, PosInf => true
  | _, _ => false
  end.

Definition js_gt (a b : jsnum) : bool := js_lt b a.

(** [o === Infinity] for the result [o] of a property read. *)
Definition is_infinity (o : option jsnum) : bool :=
  match o with Some PosInf => true | _ => false end.

(** ** Data model *)

Record Node : Type := mkNode { n_id : string }.

Record Edge : Type := mkEdge {
  e_id : string;
  e_from : string;
  e_to : string;
  e_weight : Z;
  e_blocked : bool
}.

Record Step : Type := mkStep {
  s_from : string;
  s_to : string;
  s_cost : Z;
  s_edgeId : string
}.

#[global] Instance Step_eq_dec : EqDecision Step.
Proof. solve_decision. Defined.

(** The route record.  [hasNegativeCycle] and [error] are optional fields:
    [None] is an absent property. *)
Record RouteResult : Type := mkRoute {
  path : list string;
  totalCost : jsnum;
  steps : list Step;
  found : bool;
  hasNegativeCycle : option bool;
  error : option string
}.

(** ** Outcomes of a call *)

Inductive outcome (A : Type) : Type :=
  | Returned (a : A)   (* normal completion *)
  | Thrown             (* TypeError: property access or call on undefined *)
  | OutOfFuel          (* model only: recursion budget exhausted *)
  | OffMap.            (* the predecessor walk reads an absent key *)
Arguments Returned {A} a.
Arguments Thrown {A}.
Arguments OutOfFuel {A}.
Arguments OffMap {A}.

Definition obind {A B} (m : outcome A) (f : A → outcome B) : outcome B :=
  match m with
  | Returned a => f a
  | Thrown => Thrown
  | OutOfFuel => OutOfFuel
  | OffMap => OffMap
  end.

Notation "'let*' x ':=' m 'in' k" := (obind m (λ x, k))
  (at level 10, x binder, m at level 200, k at level 200).

Definition returns {A} (m : outcome A) : Prop := ∃ a, m = Returned a.

(** [list.forEach(f)] over a body that may throw. *)
Fixpoint forEach {A S} (f : S → A → outcome S) (l : list A) (s : S) : outcome S :=
  match l with
  | [] => Returned s
  | x :: l' => let* s' := f s x in forEach f l' s'
  end.

Definition sum_costs (l : list Step) : Z := foldr (λ s acc, s_cost s + acc) 0 l.

(** The steps loop shared by both engines: for each consecutive pair of the
    path, look the edge up and push a step when one is found. *)
Fixpoint build_steps (lookup_edge : string → string → option Edge)
    (p : list string) : list Step :=
  match p with
  | a :: ((b :: _) as tl) =>
      match lookup_edge a b with
      | Some e => mkStep a b (e_weight e) (e_id e) :: build_steps lookup_edge tl
      | None => build_steps lookup_edge tl
      end
  | _ => []
  end.

(** ** dijkstra.js *)

Module Dijkstra.

Record Adj : Type := mkAdj { a_node : string; a_weight : Z; a_edgeId : string }.

Record PQItem : Type := mkItem { q_node : string; q_distance : jsnum }.

Definition not_found : RouteResult :=
  mkRoute [] (Num 0) [] false None None.

(** [nodes.forEach(node => graph[node.id] = [])] *)
Definition init_graph (nodes : list Node) : gmap string (list Adj) :=
  foldl (λ g n, <[n_id n := []]> g) ∅ nodes.

(** One iteration of [edges.forEach]: both [push] calls throw when
    [graph[edge.from]] (resp. [graph[edge.to]]) is undefined. *)
Definition add_edge (g : gmap string (list Adj)) (e : Edge)
    : outcome (gmap string (list Adj)) :=
  if e_blocked e then Returned g
  else
    match g !! e_from e with
    | None => Thrown
    | Some l1 =>
        let g1 := <[e_from e := l1 ++ [mkAdj (e_to e) (e_weight e) (e_id e)]]> g in
        match g1 !! e_to e with
        | None => Thrown
        | Some l2 =>
            Returned (<[e_to e := l2 ++ [mkAdj (e_from e) (e_weight e) (e_id e)]]> g1)
        end
    end.

Definition build_graph (nodes : list Node) (edges : list Edge)
    : outcome (gmap string (list Adj)) :=
  forEach add_edge edges (init_graph nodes).

(** [nodes.forEach(node => { distances[node.id] = Infinity; previous[node.id] = null })] *)
Definition init_distances (nodes : list Node) : gmap string jsnum :=
  foldl (λ d n, <[n_id n := PosInf]> d) ∅ nodes.

Definition init_previous (nodes : list Node) : gmap string (option string) :=
  foldl (λ p n, <[n_id n := None]> p) ∅ nodes.

(** [pq.sort((a, b) => a.distance - b.distance)]: a stable sort.  The
    comparator result is [NaN] when both distances are the same infinity and
    is then read as [+0]. *)
Definition cmp_le (a b : PQItem) : bool :=
  match q_distance a, q_distance b with
  | Num x, Num y => bool_decide (x ≤ y)
  | Num _, PosInf => true
  | NegInf, Num _ => true
  | NegInf, PosInf => true
  | PosInf, PosInf => true
  | NegInf, NegInf => true
  | NaN, _ => true
  | _, NaN => true
  | _, _ => false
  end.

Fixpoint pq_insert (x : PQItem) (l : list PQItem) : list PQItem :=
  match l with
  | [] => [x]
  | y :: l' => if cmp_le x y then x :: y :: l' else y :: pq_insert x l'
  end.

Definition pq_sort (l : list PQItem) : list PQItem := foldr pq_insert [] l.

Record State : Type := mkState {
  distances : gmap string jsnum;
  previous : gmap string (option string);
  visited : gset string;
  pq : list PQItem
}.

(** The body of [graph[currentNode].forEach(({ node: neighbor, weight }) => ...)]. *)
Definition relax (currentNode : string) (st : State) (a : Adj) : State :=
  if decide (a_node a ∈ visited st) then st
  else
    let newDistance := js_add (to_number (distances st !! currentNode)) (a_weight a) in
    if js_lt newDistance (to_number (distances st !! a_node a)) then
      mkState (<[a_node a := newDistance]> (distances st))
              (<[a_node a := Some currentNode]> (previous st))
              (visited st)
              (pq st ++ [mkItem (a_node a) newDistance])
    else st.

(** The [while (pq.length > 0)] loop. *)
Fixpoint loop (fuel : nat) (graph : gmap string (list Adj)) (endId : string)
    (st : State) : outcome State :=
  match fuel with
  | O => OutOfFuel
  | S fuel' =>
      match pq_sort (pq st) with
      | [] => Returned st
      | item :: rest =>
          let currentNode := q_node item in
          let currentDistance := q_distance item in
          if decide (currentNode ∈ visited st) then
            loop fuel' graph endId
              (mkState (distances st) (previous st) (visited st) rest)
          else
            let vis := {[currentNode]} ∪ visited st in
            let st1 := mkState (distances st) (previous st) vis rest in
            if decide (currentNode = endId) then Returned st1
            else if js_gt currentDistance (to_number (distances st !! currentNode))
            then loop fuel' graph endId st1
            else
              match graph !! currentNode with
              | None => Thrown
              | Some neighbors =>
                  loop fuel' graph endId (foldl (relax currentNode) st1 neighbors)
              end
      end
  end.

(** [while (current !== null) { path.unshift(current); current = previous[current] }] *)
Fixpoint walk_back (fuel : nat) (previous : gmap string (option string))
    (current : string) (acc : list string) : outcome (list string) :=
  match fuel with
  | O => OutOfFuel
  | S fuel' =>
      match previous !! current with
      | Some None => Returned (current :: acc)
      | Some (Some p) => walk_back fuel' previous p (current :: acc)
      | None => OffMap
      end
  end.

(** [edges.find(e => (e.from === from && e.to === to) || (e.to === from && e.from === to))] *)
Definition joins (a b : string) (e : Edge) : bool :=
  (bool_decide (e_from e = a) && bool_decide (e_to e = b))
  || (bool_decide (e_to e = a) && bool_decide (e_from e = b)).

Fixpoint find_edge (edges : list Edge) (a b : string) : option Edge :=
  match edges with
  | [] => None
  | e :: edges' => if joins a b e then Some e else find_edge edges' a b
  end.

(** Budget of the [while] loop: every pop is matched by a push, and there is
    one push for the origin and at most one per adjacency entry. *)
Definition loop_fuel (edges : list Edge) : nat := 2 * length edges + 2.

(** [dijkstra(nodes, edges, startId, endId)].  [!startId] holds for the empty
    string; [!graph[startId]] holds when the key is absent. *)
Definition dijkstra (nodes : list Node) (edges : list Edge)
    (startId endId : string) : outcome RouteResult :=
  if bool_decide (startId = "") || bool_decide (endId = "")
     || bool_decide (startId = endId)
  then Returned not_found
  else
    let* graph := build_graph nodes edges in
    match graph !! startId, graph !! endId with
    | Some _, Some _ =>
        let st0 := mkState (<[startId := Num 0]> (init_distances nodes))
                           (init_previous nodes) ∅ [mkItem startId (Num 0)] in
        let* st := loop (loop_fuel edges) graph endId st0 in
        if is_infinity (distances st !! endId) then Returned not_found
        else
          let* p := walk_back (S (length nodes)) (previous st) endId [] in
          Returned (mkRoute p (to_number (distances st !! endId))
                      (build_steps (find_edge edges) p) true None None)
    | _, _ => Returned not_found
    end.

(** [hasNegativeWeights(edges)] *)
Definition hasNegativeWeights (edges : list Edge) : bool :=
  existsb (λ e, negb (e_blocked e) && bool_decide (e_weight e < 0)) edges.

End Dijkstra.

(** ** bellmanFord.js *)

Module BellmanFord.

(** An entry of [bidirectionalEdges]. *)
Record DEdge : Type := mkDEdge {
  d_from : string; d_to : string; d_weight : Z; d_id : string
}.

Definition failure (hnc : bool) (msg : option string) : RouteResult :=
  mkRoute [] (Num 0) [] false (Some hnc) msg.

Definition activeEdges (edges : list Edge) : list Edge :=
  filter (λ e, e_blocked e = false) edges.

Definition bidirectional (active : list Edge) : list DEdge :=
  flat_map (λ e, [mkDEdge (e_from e) (e_to e) (e_weight e) (e_id e);
                  mkDEdge (e_to e) (e_from e) (e_weight e) (e_id e)]) active.

(** The template literal [`${a}-${b}`]. *)
Definition edge_key (a b : string) : string := String.append a (String.append "-" b).

(** [edgeMap.set(key1, edge); edgeMap.set(key2, edge)] for each active edge. *)
Definition build_edgeMap (active : list Edge) : gmap string Edge :=
  foldl (λ m e, <[edge_key (e_to e) (e_from e) := e]>
                  (<[edge_key (e_from e) (e_to e) := e]> m)) ∅ active.

Definition nodeIds (nodes : list Node) : gset string :=
  list_to_set (n_id <$> nodes).

Definition init_distances (nodes : list Node) : gmap string jsnum :=
  foldl (λ d n, <[n_id n := PosInf]> d) ∅ nodes.

Definition init_previous (nodes : list Node) : gmap string (option string) :=
  foldl (λ p n, <[n_id n := None]> p) ∅ nodes.

Record Labels : Type := mkLabels {
  distances : gmap string jsnum;
  previous : gmap string (option string)
}.

(** [distances[from] !== Infinity] and then [newDistance < distances[to]]. *)
Definition relaxable (d : gmap string jsnum) (e : DEdge) : bool :=
  negb (is_infinity (d !! d_from e))
  && js_lt (js_add (to_number (d !! d_from e)) (d_weight e))
           (to_number (d !! d_to e)).

(** The body of the inner [for (const edge of bidirectionalEdges)]. *)
Definition relax_edge (acc : Labels * bool) (e : DEdge) : Labels * bool :=
  let '(lb, updated) := acc in
  if relaxable (distances lb) e then
    (mkLabels (<[d_to e := js_add (to_number (distances lb !! d_from e)) (d_weight e)]>
                 (distances lb))
              (<[d_to e := Some (d_from e)]> (previous lb)),
     true)
  else (lb, updated).

Definition relax_pass (bi : list DEdge) (lb : Labels) : Labels * bool :=
  foldl relax_edge (lb, false) bi.

(** [for (iteration = 0; iteration < nodeCount - 1; iteration++)] with the
    early [break]. *)
Fixpoint relax_loop (iterations : nat) (bi : list DEdge) (lb : Labels) : Labels :=
  match iterations with
  | O => lb
  | S k =>
      let '(lb', updated) := relax_pass bi lb in
      if updated then relax_loop k bi lb' else lb'
  end.

(** The detection pass: collect the targets that can still be relaxed. *)
Definition detect (bi : list DEdge) (d : gmap string jsnum) : gset string :=
  foldl (λ s e, if relaxable d e then {[d_to e]} ∪ s else s) ∅ bi.

Definition propagate_pass (bi : list DEdge) (s : gset string) : gset string :=
  foldl (λ s e, if decide (d_from e ∈ s) then {[d_to e]} ∪ s else s) s bi.

(** [for (i = 0; i < nodeCount; i++)] over [propagate_pass]. *)
Fixpoint propagate (iterations : nat) (bi : list DEdge) (s : gset string) : gset string :=
  match iterations with
  | O => s
  | S k => propagate k bi (propagate_pass bi s)
  end.

(** [nodesInNegativeCycle] after detection and, when non-empty, propagation. *)
Definition tainted (nodeCount : nat) (bi : list DEdge) (d : gmap string jsnum)
    : gset string :=
  let s := detect bi d in
  if decide (s = ∅) then s else propagate nodeCount bi s.

(** The reconstruction loop, with its own cycle guard.  [inl] is the early
    return of the guard. *)
Fixpoint walk_back (fuel : nat) (previous : gmap string (option string))
    (current : string) (seen : gset string) (acc : list string)
    : outcome (unit + list string) :=
  match fuel with
  | O => OutOfFuel
  | S fuel' =>
      if decide (current ∈ seen) then Returned (inl ())
      else
        match previous !! current with
        | Some None => Returned (inr (current :: acc))
        | Some (Some p) =>
            walk_back fuel' previous p ({[current]} ∪ seen) (current :: acc)
        | None => OffMap
        end
  end.

(** [bellmanFord(nodes, edges, startId, endId)] *)
Definition bellmanFord (nodes : list Node) (edges : list Edge)
    (startId endId : string) : outcome RouteResult :=
  if bool_decide (nodes = []) then
    Returned (failure false (Some "Invalid input: nodes and edges are required"))
  else if bool_decide (startId = "") || bool_decide (endId = "") then
    Returned (failure false (Some "Start and end node IDs are required"))
  else if bool_decide (startId = endId) then
    Returned (mkRoute [startId] (Num 0) [] true (Some false) None)
  else if negb (bool_decide (startId ∈ nodeIds nodes))
          || negb (bool_decide (endId ∈ nodeIds nodes)) then
    Returned (failure false (Some "Start or end node not found in graph"))
  else
    let nodeCount := length nodes in
    let active := activeEdges edges in
    let bi := bidirectional active in
    let edgeMap := build_edgeMap active in
    if bool_decide (bi = []) then
      Returned (failure false (Some "No active edges in graph"))
    else
      let lb := relax_loop (nodeCount - 1) bi
                  (mkLabels (<[startId := Num 0]> (init_distances nodes))
                            (init_previous nodes)) in
      let neg := tainted nodeCount bi (distances lb) in
      let hnc := negb (bool_decide (neg = ∅)) in
      if bool_decide (endId ∈ neg) then
        Returned (mkRoute [] NegInf [] false (Some true)
                    (Some "Destination is affected by a negative weight cycle"))
      else if is_infinity (distances lb !! endId) then
        Returned (failure hnc None)
      else
        let* r := walk_back (S (length nodes)) (previous lb) endId ∅ [] in
        match r with
        | inl _ =>
            Returned (failure false (Some "Cycle detected in path reconstruction"))
        | inr p =>
            if bool_decide (head p ≠ Some startId) || bool_decide (last p ≠ Some endId)
            then Returned (failure hnc None)
            else
              Returned (mkRoute p (to_number (distances lb !! endId))
                          (build_steps (λ a b, edgeMap !! edge_key a b) p)
                          true (Some hnc) None)
        end.

End BellmanFord.

(** ** graphTheoryAnalysis.js *)

Module GraphTheory.

(** [degrees[k]++]: reading an absent key gives [undefined], whose increment
    is [NaN]. *)
Definition incr (d : gmap string jsnum) (k : string) : gmap string jsnum :=
  <[k := js_add (to_number (d !! k)) 1]> d.

(** [calculateDegrees(nodes, edges)] *)
Definition calculateDegrees (nodes : list Node) (edges : list Edge)
    : gmap string jsnum :=
  foldl (λ d e, if e_blocked e then d else incr (incr d (e_from e)) (e_to e))
        (foldl (λ d n, <[n_id n := Num 0]> d) ∅ nodes) edges.

Definition init_graph (nodes : list Node) : gmap string (list string) :=
  foldl (λ g n, <[n_id n := []]> g) ∅ nodes.

(** [graph[edge.from].push(edge.to); graph[edge.to].push(edge.from)] *)
Definition push_edge (g : gmap string (list string)) (e : Edge)
    : outcome (gmap string (list string)) :=
  if e_blocked e then Returned g
  else
    match g !! e_from e with
    | None => Thrown
    | Some l1 =>
        let g1 := <[e_from e := l1 ++ [e_to e]]> g in
        match g1 !! e_to e with
        | None => Thrown
        | Some l2 => Returned (<[e_to e := l2 ++ [e_from e]]> g1)
        end
    end.

(** The inner function [dfs(nodeId)] of [isGraphConnected]; the mutable
    [visited] set is threaded through. *)
Fixpoint dfs (fuel : nat) (graph : gmap string (list string)) (nodeId : string)
    (visited : gset string) : outcome (gset string) :=
  match fuel with
  | O => OutOfFuel
  | S fuel' =>
      match graph !! nodeId with
      | None => Thrown
      | Some neighbors =>
          forEach (λ vis neighbor,
                     if decide (neighbor ∈ vis) then Returned vis
                     else dfs fuel' graph neighbor vis)
                  neighbors ({[nodeId]} ∪ visited)
      end
  end.

Record Connectivity : Type := mkConn { connected : bool; components : nat }.

(** [isGraphConnected(nodes, edges)] *)
Definition isGraphConnected (nodes : list Node) (edges : list Edge)
    : outcome Connectivity :=
  match nodes with
  | [] => Returned (mkConn true 0)
  | [_] => Returned (mkConn true 1)
  | _ =>
      let* graph := forEach push_edge edges (init_graph nodes) in
      let* '(_, count) := forEach (λ (acc : gset string * nat) node,
                     if decide (n_id node ∈ acc.1) then Returned acc
                     else let* vis := dfs (length nodes) graph (n_id node) acc.1 in
                          Returned (vis, S acc.2))
                  nodes (∅, O) in
      Returned (mkConn (bool_decide (count = 1%nat)) count)
  end.

(** [degrees[nodeId] % 2 === 1] *)
Definition is_odd (x : jsnum) : bool :=
  match x with Num z => bool_decide (Z.rem z 2 = 1) | _ => false end.

(** The record returned by [analyzeEulerian]; the explanatory texts and
    [startEndVertices] are left out, and [oddDegreeVertices] is listed in the
    order of the map. *)
Record EulerianResult : Type := mkEulerian {
  hasEulerianCircuit : bool;
  hasEulerianPath : bool;
  oddDegreeVertices : list string;
  oddDegreeCount : nat;
  degrees : gmap string jsnum;
  eu_connected : option bool;
  eu_components : option nat
}.

Definition activeEdges (edges : list Edge) : list Edge :=
  filter (λ e, e_blocked e = false) edges.

Definition odd_vertices (degrees : gmap string jsnum) : list string :=
  (map_to_list (filter (λ kv, is_odd kv.2 = true) degrees)).*1.

(** [analyzeEulerian(nodes, edges)] *)
Definition analyzeEulerian (nodes : list Node) (edges : list Edge)
    : outcome EulerianResult :=
  let active := activeEdges edges in
  if bool_decide (active = []) then
    Returned (mkEulerian (bool_decide (length nodes ≤ 1)%nat)
                (bool_decide (length nodes ≤ 1)%nat)
                [] 0 (calculateDegrees nodes active) None None)
  else
    let* connectivity := isGraphConnected nodes active in
    let degrees := calculateDegrees nodes active in
    let odd := odd_vertices degrees in
    let oddCount := length odd in
    let '(circuit, pth) :=
      if negb (connected connectivity) then (false, false)
      else if bool_decide (oddCount = 0%nat) then (true, true)
      else if bool_decide (oddCount = 2%nat) then (false, true)
      else (false, false) in
    Returned (mkEulerian circuit pth odd oddCount degrees
                (Some (connected connectivity)) (Some (components connectivity))).

(** *** Hamiltonian analysis *)

(** A value that is a boolean or the string ["unknown"]. *)
Inductive tri : Type := Yes | No | Unknown.

Definition tri_of_bool (b : bool) : tri := if b then Yes else No.

Inductive Certainty : Type := Definite | Indeterminate.

(** [samplePath]: an array, [null], the text "Guaranteed to exist
    (construction not computed)", or no such property. *)
Inductive Sample : Type :=
  | SamplePath (p : list string)
  | SampleNull
  | SampleGuaranteed
  | SampleAbsent.

Record HamiltonianResult : Type := mkHamiltonian {
  hasHamiltonianCircuit : tri;
  hasHamiltonianPath : tri;
  certainty : Certainty;
  theoremApplied : string;
  samplePath : Sample
}.

(** Adjacency as a JavaScript [Set]: insertion ordered, no duplicates. *)
Definition set_add (x : string) (l : list string) : list string :=
  if decide (x ∈ l) then l else l ++ [x].

(** [graph[edge.from].add(edge.to); graph[edge.to].add(edge.from)] over the
    active edges. *)
Definition add_edge (g : gmap string (list string)) (e : Edge)
    : outcome (gmap string (list string)) :=
  match g !! e_from e with
  | None => Thrown
  | Some l1 =>
      let g1 := <[e_from e := set_add (e_to e) l1]> g in
      match g1 !! e_to e with
      | None => Thrown
      | Some l2 => Returned (<[e_to e := set_add (e_from e) l2]> g1)
      end
  end.

Definition SearchState : Type := gset string * list string.

(** [for (let neighbor of neighbors) if (!visited.has(neighbor)) if (rec(...)) return true] *)
Fixpoint try_neighbors (rec : string → SearchState → outcome (bool * SearchState))
    (neighbors : list string) (st : SearchState) : outcome (bool * SearchState) :=
  match neighbors with
  | [] => Returned (false, st)
  | nb :: rest =>
      if decide (nb ∈ st.1) then try_neighbors rec rest st
      else
        let* '(ok, st') := rec nb st in
        if ok then Returned (true, st') else try_neighbors rec rest st'
  end.

(** [hamiltonianPathDFS(current, graph, visited, path, targetLength)] *)
Fixpoint hamiltonianPathDFS (fuel : nat) (graph : gmap string (list string))
    (targetLength : nat) (current : string) (st : SearchState)
    : outcome (bool * SearchState) :=
  match fuel with
  | O => OutOfFuel
  | S fuel' =>
      let visited := {[current]} ∪ st.1 in
      let pth := st.2 ++ [current] in
      if decide (length pth = targetLength) then Returned (true, (visited, pth))
      else
        match graph !! current with
        | None => Thrown
        | Some neighbors =>
            let* '(ok, st') := try_neighbors (hamiltonianPathDFS fuel' graph targetLength)
                  neighbors (visited, pth) in
            if ok then Returned (true, st')
            else Returned (false, (st'.1 ∖ {[current]}, removelast st'.2))
        end
  end.

(** The loop over start vertices of [findHamiltonianPath]. *)
Fixpoint path_from_starts (graph : gmap string (list string)) (n : nat)
    (starts : list string) : outcome (option (list string)) :=
  match starts with
  | [] => Returned None
  | s :: rest =>
      let* '(ok, st') := hamiltonianPathDFS (S n) graph n s (∅, []) in
      if ok then Returned (Some st'.2) else path_from_starts graph n rest
  end.

(** [findHamiltonianPath(nodes, graph)] *)
Definition findHamiltonianPath (nodes : list Node)
    (graph : gmap string (list string)) : outcome (option (list string)) :=
  path_from_starts graph (length nodes) (n_id <$> nodes).

(** The neighbour loop of [hamiltonianCircuitDFS]: the caller marks the
    neighbour before the recursive call and unmarks it after a failure. *)
Fixpoint try_circuit_neighbors
    (rec : string → SearchState → outcome (bool * SearchState))
    (neighbors : list string) (st : SearchState) : outcome (bool * SearchState) :=
  match neighbors with
  | [] => Returned (false, st)
  | nb :: rest =>
      if decide (nb ∈ st.1) then try_circuit_neighbors rec rest st
      else
        let* '(ok, st') := rec nb ({[nb]} ∪ st.1, st.2 ++ [nb]) in
        if ok then Returned (true, st')
        else try_circuit_neighbors rec rest (st'.1 ∖ {[nb]}, removelast st'.2)
  end.

(** [hamiltonianCircuitDFS(start, current, graph, visited, path, targetLength)] *)
Fixpoint hamiltonianCircuitDFS (fuel : nat) (graph : gmap string (list string))
    (targetLength : nat) (start current : string) (st : SearchState)
    : outcome (bool * SearchState) :=
  match fuel with
  | O => OutOfFuel
  | S fuel' =>
      match graph !! current with
      | None => Thrown
      | Some neighbors =>
          if decide (length st.2 = targetLength) then
            Returned (bool_decide (start ∈ neighbors), st)
          else
            try_circuit_neighbors
              (hamiltonianCircuitDFS fuel' graph targetLength start) neighbors st
      end
  end.

(** [findHamiltonianCircuit(nodes, graph)]; with no node, [graph[undefined]]
    is read and the call throws. *)
Definition findHamiltonianCircuit (nodes : list Node)
    (graph : gmap string (list string)) : outcome (option (list string)) :=
  match n_id <$> nodes with
  | [] => Thrown
  | start :: _ =>
      let* '(ok, st') := hamiltonianCircuitDFS (S (length nodes)) graph (length nodes)
            start start ({[start]}, [start]) in
      Returned (if ok then Some st'.2 else None)
  end.

(** [Math.min(...Object.values(degrees))] *)
Definition js_min (a b : jsnum) : jsnum :=
  match a, b with
  | NaN, _ | _, NaN => NaN
  | NegInf, _ | _, NegInf => NegInf
  | PosInf, x | x, PosInf => x
  | Num x, Num y => Num (Z.min x y)
  end.

Definition minDegree (degrees : gmap string jsnum) : jsnum :=
  foldr js_min PosInf (map_to_list degrees).*2.

(** [minDegree >= n / 2] *)
Definition diracCondition (degrees : gmap string jsnum) (n : nat) : bool :=
  match minDegree degrees with
  | Num m => bool_decide (Z.of_nat n ≤ 2 * m)
  | PosInf => true
  | _ => false
  end.

(** [graph[u].has(v)]; [graph[u]] is defined for the identifier of a node. *)
Definition adjacent (graph : gmap string (list string)) (u v : string) : bool :=
  match graph !! u with
  | Some l => bool_decide (v ∈ l)
  | None => false
  end.

(** [degrees[u] + degrees[v] < n] *)
Definition degree_sum_lt (degrees : gmap string jsnum) (u v : string) (n : nat) : bool :=
  match to_number (degrees !! u), to_number (degrees !! v) with
  | Num a, Num b => bool_decide (a + b < Z.of_nat n)
  | _, _ => false
  end.

(** The double loop over the pairs [i < j]: [oreConditionSatisfied]. *)
Fixpoint oreCondition (graph : gmap string (list string))
    (degrees : gmap string jsnum) (n : nat) (ids : list string) : bool :=
  match ids with
  | [] => true
  | u :: rest =>
      forallb (λ v, adjacent graph u v || negb (degree_sum_lt degrees u v n)) rest
      && oreCondition graph degrees n rest
  end.

(** The body of [analyzeHamiltonian] after its special cases [n = 0, 1, 2]:
    adjacency sets, connectivity, Dirac, Ore, search or "unknown". *)
Definition analyzeHamiltonian_stages (nodes : list Node) (edges : list Edge)
    : outcome HamiltonianResult :=
  let active := activeEdges edges in
  let n := length nodes in
  let* graph := forEach add_edge active (init_graph nodes) in
  let* connectivity := isGraphConnected nodes active in
  let degrees := calculateDegrees nodes active in
  if negb (connected connectivity) then
    Returned (mkHamiltonian No No Definite "Connectivity requirement" SampleNull)
  else if diracCondition degrees n && bool_decide (3 ≤ n)%nat then
    Returned (mkHamiltonian Yes Yes Definite "Dirac's Theorem" SampleGuaranteed)
  else if oreCondition graph degrees n (n_id <$> nodes) && bool_decide (3 ≤ n)%nat then
    Returned (mkHamiltonian Yes Yes Definite "Ore's Theorem" SampleGuaranteed)
  else if bool_decide (n ≤ 8)%nat then
    let* hamiltonianPath := findHamiltonianPath nodes graph in
    let* hamiltonianCircuit := findHamiltonianCircuit nodes graph in
    Returned (mkHamiltonian
                (tri_of_bool (bool_decide (hamiltonianCircuit ≠ None)))
                (tri_of_bool (bool_decide (hamiltonianPath ≠ None)))
                Definite "Backtracking Algorithm (Exhaustive Search)"
                (match hamiltonianCircuit, hamiltonianPath with
                 | Some c, _ => SamplePath c
                 | None, Some p => SamplePath p
                 | None, None => SampleNull
                 end))
  else
    Returned (mkHamiltonian Unknown Unknown Indeterminate "NP-completeness"
                SampleAbsent).

(** [analyzeHamiltonian(nodes, edges)] *)
Definition analyzeHamiltonian (nodes : list Node) (edges : list Edge)
    : outcome HamiltonianResult :=
  let active := activeEdges edges in
  match nodes with
  | [] => Returned (mkHamiltonian Yes Yes Definite "Convention" (SamplePath []))
  | [a] => Returned (mkHamiltonian Yes Yes Definite "Convention" (SamplePath [n_id a]))
  | [a; b] =>
      let hasEdge :=
        existsb (λ e, (bool_decide (e_from e = n_id a) && bool_decide (e_to e = n_id b))
                      || (bool_decide (e_from e = n_id b) && bool_decide (e_to e = n_id a)))
                active in
      Returned (mkHamiltonian No (tri_of_bool hasEdge) Definite "Definition"
                  (if hasEdge then SamplePath [n_id a; n_id b] else SampleNull))
  | _ => analyzeHamiltonian_stages nodes edges
  end.

End GraphTheory.

(** ** Notions used to state the properties *)

Definition ids (nodes : list Node) : list string := n_id <$> nodes.

(** Every unblocked edge joins two listed nodes. *)
Definition endpoints_valid (nodes : list Node) (edges : list Edge) : Prop :=
  Forall (λ e, e_blocked e = false → e_from e ∈ ids nodes ∧ e_to e ∈ ids nodes) edges.

(** The endpoint pair of [e] is [{a, b}]. *)
Definition joins_pair (a b : string) (e : Edge) : Prop :=
  (e_from e = a ∧ e_to e = b) ∨ (e_to e = a ∧ e_from e = b).

(** [e] is the first edge of the list, in input order and whatever its
    [blocked] flag, whose endpoint pair is [{a, b}]. *)
Definition first_joining (edges : list Edge) (a b : string) (e : Edge) : Prop :=
  ∃ l1 l2, edges = l1 ++ e :: l2 ∧ joins_pair a b e
           ∧ Forall (λ e', ¬ joins_pair a b e') l1.

(** The steps a route shows, by the words of the description: one step per
    consecutive pair of the path that some edge joins, taken from the first
    such edge; a pair that no edge joins contributes nothing. *)
Inductive steps_of (edges : list Edge) : list string → list Step → Prop :=
  | steps_of_nil : steps_of edges [] []
  | steps_of_one a : steps_of edges [a] []
  | steps_of_edge a b rest e ss :
      first_joining edges a b e →
      steps_of edges (b :: rest) ss →
      steps_of edges (a :: b :: rest) (mkStep a b (e_weight e) (e_id e) :: ss)
  | steps_of_skip a b rest ss :
      Forall (λ e', ¬ joins_pair a b e') edges →
      steps_of edges (b :: rest) ss →
      steps_of edges (a :: b :: rest) ss.

(** ** Sample snapshots *)

Module Samples.

Definition nodesAB : list Node := [mkNode "A"; mkNode "B"].

(** Two parallel roads between A and B; the first one listed is blocked. *)
Definition parallelBlockedFirst : list Edge :=
  [mkEdge "e0" "A" "B" 100 true; mkEdge "e1" "A" "B" 1 false].

(** Two open parallel roads between A and B. *)
Definition parallelOpen : list Edge :=
  [mkEdge "e0" "A" "B" 1 false; mkEdge "e1" "A" "B" 5 false].

(** The six-node sample graph of the application. *)
Definition sampleNodes : list Node :=
  [mkNode "A"; mkNode "B"; mkNode "C"; mkNode "D"; mkNode "E"; mkNode "F"].

Definition sampleEdges : list Edge :=
  [mkEdge "1" "A" "B" 4 false; mkEdge "2" "A" "C" 2 false;
   mkEdge "3" "B" "C" 1 false; mkEdge "4" "B" "D" 5 false;
   mkEdge "5" "C" "D" 8 false; mkEdge "6" "C" "E" 10 false;
   mkEdge "7" "D" "E" 2 false; mkEdge "8" "D" "F" 6 false;
   mkEdge "9" "E" "F" 3 false].

(** The 4-cycle A-B-C-D-A. *)
Definition cycleNodes : list Node :=
  [mkNode "A"; mkNode "B"; mkNode "C"; mkNode "D"].

Definition cycleEdges : list Edge :=
  [mkEdge "1" "A" "B" 1 false; mkEdge "2" "B" "C" 1 false;
   mkEdge "3" "C" "D" 1 false; mkEdge "4" "D" "A" 1 false].

(** A star: the centre C joined to four leaves. *)
Definition starNodes : list Node :=
  [mkNode "C"; mkNode "L1"; mkNode "L2"; mkNode "L3"; mkNode "L4"].

Definition starEdges : list Edge :=
  [mkEdge "1" "C" "L1" 1 false; mkEdge "2" "C" "L2" 1 false;
   mkEdge "3" "C" "L3" 1 false; mkEdge "4" "C" "L4" 1 false].

(** A path on nine nodes. *)
Definition pathNodes9 : list Node :=
  [mkNode "1"; mkNode "2"; mkNode "3"; mkNode "4"; mkNode "5"; mkNode "6";
   mkNode "7"; mkNode "8"; mkNode "9"].

Definition pathEdges9 : list Edge :=
  [mkEdge "a" "1" "2" 1 false; mkEdge "b" "2" "3" 1 false;
   mkEdge "c" "3" "4" 1 false; mkEdge "d" "4" "5" 1 false;
   mkEdge "e" "5" "6" 1 false; mkEdge "f" "6" "7" 1 false;
   mkEdge "g" "7" "8" 1 false; mkEdge "h" "8" "9" 1 false].


End Samples.

(** ** Measures and invariants of the [dijkstra] loop *)

Module DijkstraInv.
Import Dijkstra.

(** Number of adjacency entries held by the nodes outside [vis]. *)
Definition adj_total (g : gmap string (list Adj)) (vis : gset string) : nat :=
  sum_list_with (λ kv : string * list Adj, length kv.2)
    (map_to_list (filter (λ kv : string * list Adj, kv.1 ∉ vis) g)).

(** Every adjacency entry points to a key of the graph. *)
Definition closed_graph (g : gmap string (list Adj)) : Prop :=
  ∀ u l a, g !! u = Some l → a ∈ l → is_Some (g !! a_node a).

(** The quantity that decreases along the [while] loop. *)
Definition potential (g : gmap string (list Adj)) (st : State) : nat :=
  (length (pq st) + adj_total g (visited st))%nat.

(** [chain p s v l]: following the predecessor links of [p] back from [v]
    ends at [s], whose link is [null]; [l] lists the nodes met, [s] first. *)
Inductive chain (p : gmap string (option string)) (s : string)
    : string → list string → Prop :=
  | chain_root : p !! s = Some None → chain p s s [s]
  | chain_step v u l :
      p !! v = Some (Some u) → chain p s u l → chain p s v (l ++ [v]).

(** What the loop maintains about the predecessor links. *)
Record path_inv (g : gmap string (list Adj)) (s : string) (st : State) : Prop := {
  pi_dom_prev : ∀ k, is_Some (previous st !! k) ↔ is_Some (g !! k);
  pi_dom_dist : ∀ k, is_Some (distances st !! k) ↔ is_Some (g !! k);
  pi_shape : ∀ k x, distances st !! k = Some x → x = PosInf ∨ ∃ z, x = Num z;
  pi_start : s ∈ visited st;
  pi_rooted : ∀ v, v ∈ visited st →
      ∃ l, chain (previous st) s v l ∧ NoDup l ∧ ∀ x, x ∈ l → x ∈ visited st;
  pi_fringe : ∀ v z, v ∉ visited st → distances st !! v = Some (Num z) →
      ∃ u, previous st !! v = Some (Some u) ∧ u ∈ visited st;
  pi_queue : ∀ item, item ∈ pq st →
      ∃ z, distances st !! q_node item = Some (Num z);
  pi_visited : ∀ v, v ∈ visited st → is_Some (g !! v)
}.

End DijkstraInv.

(** ** Invariants of the [bellmanFord] labels *)

Module BellmanFordInv.
Import BellmanFord.

(** The labels cover exactly the listed nodes, distances are finite or
    [Infinity], and predecessor links stay among the listed nodes. *)
Record labels_ok (nodes : list Node) (lb : Labels) : Prop := {
  lo_dom_dist : ∀ k, is_Some (distances lb !! k) ↔ k ∈ ids nodes;
  lo_dom_prev : ∀ k, is_Some (previous lb !! k) ↔ k ∈ ids nodes;
  lo_shape : ∀ k x, distances lb !! k = Some x → x = PosInf ∨ ∃ z, x = Num z;
  lo_links : ∀ v u, previous lb !! v = Some (Some u) → u ∈ ids nodes;
  lo_links_finite : ∀ v u, previous lb !! v = Some (Some u) →
      ∃ z, distances lb !! u = Some (Num z)
}.

End BellmanFordInv.

(** ** Connectivity, by the words of the description *)

(** Two identifiers are linked when an unblocked edge joins them. *)
Definition linked (edges : list Edge) (a b : string) : Prop :=
  ∃ e, e ∈ edges ∧ e_blocked e = false ∧ joins_pair a b e.

(** The snapshot is connected when every two listed nodes are linked by a
    sequence of unblocked edges. *)
Definition connected_graph (nodes : list Node) (edges : list Edge) : Prop :=
  ∀ a b, a ∈ ids nodes → b ∈ ids nodes → rtc (linked edges) a b.

(** [x] is an entry of the adjacency list stored under [k]. *)
Definition has_entry {A} (g : gmap string (list A)) (k : string) (x : A) : Prop :=
  ∃ l, g !! k = Some l ∧ x ∈ l.

Module GraphTheoryInv.
Import GraphTheory.

(** What a call [dfs(x)] started with the visited set [vis] leaves in
    [vis']: the old set and [x], and only nodes reachable from [x] whose
    neighbours are all visited. *)
Definition dfs_post (g : gmap string (list string)) (x : string)
    (vis vis' : gset string) : Prop :=
  vis ⊆ vis' ∧ x ∈ vis'
  ∧ ∀ y, y ∈ vis' → y ∉ vis →
      is_Some (g !! y) ∧ rtc (has_entry g) x y ∧ ∀ z, has_entry g y z → z ∈ vis'.

End GraphTheoryInv.

(** ** Degrees, by the words of the description *)

(** Contribution of one edge to the degree of [v]: an unblocked edge counts
    once for each of its endpoints equal to [v]. *)
Definition endpoint_count (v : string) (e : Edge) : Z :=
  if e_blocked e then 0
  else (if decide (e_from e = v) then 1 else 0) + (if decide (e_to e = v) then 1 else 0).

Definition degree (edges : list Edge) (v : string) : Z :=
  foldr (λ e acc, endpoint_count v e + acc) 0 edges.

(** The number of listed nodes of odd degree. *)
Definition odd_degree_count (nodes : list Node) (edges : list Edge) : nat :=
  length (filter (λ v, Z.odd (degree edges v) = true) (remove_dups (ids nodes))).

(** No edge of the snapshot is open. *)
Definition no_open_edge (edges : list Edge) : Prop :=
  Forall (λ e, e_blocked e = true) edges.

(** ** Hamiltonian paths and circuits, by the words of the description *)

(** Consecutive elements of [p] are related by [R]. *)
Fixpoint chained (R : string → string → Prop) (p : list string) : Prop :=
  match p with
  | a :: ((b :: _) as tl) => R a b ∧ chained R tl
  | _ => True
  end.

(** [p] visits every listed node exactly once, moving along unblocked edges. *)
Definition hamiltonian_path (nodes : list Node) (edges : list Edge)
    (p : list string) : Prop :=
  length p = length nodes ∧ NoDup p ∧ (∀ x, x ∈ p → x ∈ ids nodes)
  ∧ chained (linked edges) p.

(** A Hamiltonian path whose last vertex is adjacent to its first. *)
Definition hamiltonian_circuit (nodes : list Node) (edges : list Edge)
    (p : list string) : Prop :=
  hamiltonian_path nodes edges p
  ∧ ∃ a b, head p = Some a ∧ last p = Some b ∧ linked edges b a.

(** Dirac's condition: every listed node has degree at least [n / 2]. *)
Definition dirac (nodes : list Node) (edges : list Edge) : Prop :=
  ∀ v, v ∈ ids nodes → Z.of_nat (length nodes) ≤ 2 * degree edges v.

(** Ore's condition: every two distinct listed nodes that no unblocked edge
    joins have degrees summing to at least [n]. *)
Definition ore (nodes : list Node) (edges : list Edge) : Prop :=
  ∀ u v, u ∈ ids nodes → v ∈ ids nodes → u ≠ v → ¬ linked edges u v →
         Z.of_nat (length nodes) ≤ degree edges u + degree edges v.

(** ** Decision procedures for the notions above *)

#[global] Instance endpoints_valid_dec nodes edges :
  Decision (endpoints_valid nodes edges).
Proof. unfold endpoints_valid. apply _. Defined.

#[global] Instance joins_pair_dec a b e : Decision (joins_pair a b e).
Proof. unfold joins_pair. apply _. Defined.

#[global] Instance linked_dec edges a b : Decision (linked edges a b).
Proof.
  refine (cast_if (decide (Exists (λ e, e_blocked e = false ∧ joins_pair a b e) edges)));
    unfold linked; rewrite Exists_exists in *; naive_solver.
Defined.

(** ** Reachability along open roads between listed nodes *)

(** An unblocked edge joins the listed nodes [a] and [b]. *)
Definition road (nodes : list Node) (edges : list Edge) (a b : string) : Prop :=
  linked edges a b ∧ a ∈ ids nodes ∧ b ∈ ids nodes.

(** [b] can be reached from [a] along open roads between listed nodes. *)
Definition reachable (nodes : list Node) (edges : list Edge) : relation string :=
  rtc (road nodes edges).

(** One round of spreading a set along a list of directed pairs, and its
    iteration. *)
Definition hop (pairs : list (string * string)) (L : gset string) : gset string :=
  L ∪ list_to_set (filter (λ p : string * string, p.1 ∈ L) pairs).*2.

Fixpoint hops (pairs : list (string * string)) (k : nat) (L : gset string)
    : gset string :=
  match k with
  | O => L
  | S k' => hops pairs k' (hop pairs L)
  end.

(** The pairs of listed nodes joined by an entry of [bidirectionalEdges]. *)
Definition road_pairs (nodes : list Node) (bi : list BellmanFord.DEdge)
    : list (string * string) :=
  filter (λ p : string * string, p.1 ∈ ids nodes ∧ p.2 ∈ ids nodes)
    ((λ de, (BellmanFord.d_from de, BellmanFord.d_to de)) <$> bi).

(** The distance label of [v] is a number. *)
Definition finite_label (d : gmap string jsnum) (v : string) : Prop :=
  ∃ z, d !! v = Some (Num z).

(** Labels that are numbers belong to nodes reachable from the origin. *)
Definition sound_labels (nodes : list Node) (edges : list Edge) (s : string)
    (lb : BellmanFord.Labels) : Prop :=
  finite_label (BellmanFord.distances lb) s
  ∧ ∀ v, finite_label (BellmanFord.distances lb) v → reachable nodes edges s v.

(** The labels [bellmanFord] holds after its relaxation loop. *)
Definition final_labels (nodes : list Node) (edges : list Edge) (s : string)
    : BellmanFord.Labels :=
  BellmanFord.relax_loop (length nodes - 1)
    (BellmanFord.bidirectional (BellmanFord.activeEdges edges))
    (BellmanFord.mkLabels (<[s := Num 0]> (BellmanFord.init_distances nodes))
       (BellmanFord.init_previous nodes)).

(** What [bellmanFord] does once its guards are passed. *)
Definition bellmanFord_core (nodes : list Node) (edges : list Edge)
    (s t : string) : outcome RouteResult :=
  let bi := BellmanFord.bidirectional (BellmanFord.activeEdges edges) in
  let lb := final_labels nodes edges s in
  let neg := BellmanFord.tainted (length nodes) bi (BellmanFord.distances lb) in
  let hnc := negb (bool_decide (neg = ∅)) in
  if bool_decide (t ∈ neg) then
    Returned (mkRoute [] NegInf [] false (Some true)
                (Some "Destination is affected by a negative weight cycle"))
  else if is_infinity (BellmanFord.distances lb !! t) then
    Returned (BellmanFord.failure hnc None)
  else
    let* r := BellmanFord.walk_back (S (length nodes)) (BellmanFord.previous lb) t ∅ [] in
    match r with
    | inl _ =>
        Returned (BellmanFord.failure false
                    (Some "Cycle detected in path reconstruction"))
    | inr p =>
        if bool_decide (head p ≠ Some s) || bool_decide (last p ≠ Some t)
        then Returned (BellmanFord.failure hnc None)
        else
          Returned (mkRoute p (to_number (BellmanFord.distances lb !! t))
                      (build_steps
                         (λ a b, BellmanFord.build_edgeMap
                                   (BellmanFord.activeEdges edges)
                                 !! BellmanFord.edge_key a b) p)
                      true (Some hnc) None)
    end.

(** A triangle of roads with weight -1, and a fourth node S on its own. *)
Module NegativeSamples.

Definition nodes : list Node := [mkNode "S"; mkNode "A"; mkNode "B"; mkNode "C"].

Definition triangle : list Edge :=
  [mkEdge "1" "A" "B" (-1) false; mkEdge "2" "B" "C" (-1) false;
   mkEdge "3" "C" "A" (-1) false].

(** A road A-B of weight 1 followed by a toll road B-C of weight -1. *)
Definition tollNodes : list Node := [mkNode "A"; mkNode "B"; mkNode "C"].

Definition tollEdges (tollBlocked : bool) : list Edge :=
  [mkEdge "1" "A" "B" 1 false; mkEdge "2" "B" "C" (-1) tollBlocked].

End NegativeSamples.

(** ** Weighted walks and what the [dijkstra] loop knows about them *)

Module DijkstraOpt.
Import Dijkstra.

(** The adjacency list of [u] holds an entry for [v] of weight [w]. *)
Definition arc (g : gmap string (list Adj)) (u v : string) (w : Z) : Prop :=
  ∃ a, has_entry g u a ∧ a_node a = v ∧ a_weight a = w.

(** [gwalk g s v c]: adjacency entries lead from [s] to [v], their weights
    adding up to [c]. *)
Inductive gwalk (g : gmap string (list Adj)) (s : string) : string → Z → Prop :=
  | gwalk_here : gwalk g s s 0
  | gwalk_arc u v w c : gwalk g s u c → arc g u v w → gwalk g s v (c + w).

(** What the loop maintains about the distance labels when no weight is
    negative.  [skip] is the node that has been marked visited but whose
    neighbours are still being relaxed. *)
Record opt_inv (g : gmap string (list Adj)) (s : string) (skip : option string)
    (st : State) : Prop := {
  oi_real : ∀ v z, distances st !! v = Some (Num z) → gwalk g s v z;
  oi_settled : ∀ v, v ∈ visited st →
      ∃ z, distances st !! v = Some (Num z) ∧ ∀ c, gwalk g s v c → z ≤ c;
  oi_expanded : ∀ u v w, u ∈ visited st → Some u ≠ skip → arc g u v w →
      v ∉ visited st →
      ∃ zu zv, distances st !! u = Some (Num zu)
               ∧ distances st !! v = Some (Num zv) ∧ zv ≤ zu + w;
  oi_queued : ∀ v z, v ∉ visited st → distances st !! v = Some (Num z) →
      mkItem v (Num z) ∈ pq st;
  oi_queue : ∀ item, item ∈ pq st →
      ∃ z z', q_distance item = Num z
              ∧ distances st !! q_node item = Some (Num z') ∧ z' ≤ z
}.

(** The label of [t] when the loop is left: the least weight of a walk, or
    [Infinity] when there is none. *)
Definition settled (g : gmap string (list Adj)) (s t : string) (st : State) : Prop :=
  (∀ z, distances st !! t = Some (Num z) →
        gwalk g s t z ∧ ∀ c, gwalk g s t c → z ≤ c)
  ∧ (distances st !! t = Some PosInf → ∀ c, ¬ gwalk g s t c).

End DijkstraOpt.

(** ** Weighted walks, by the words of the description *)

(** [walk edges a b c]: unblocked edges lead from [a] to [b], their weights
    adding up to [c]. *)
Inductive walk (edges : list Edge) (a : string) : string → Z → Prop :=
  | walk_here : walk edges a a 0
  | walk_road b c e w :
      walk edges a b w → e ∈ edges → e_blocked e = false → joins_pair b c e →
      walk edges a c (w + e_weight e).

(** No unblocked edge has a negative weight. *)
Definition nonnegative (edges : list Edge) : Prop :=
  Forall (λ e, e_blocked e = false → 0 ≤ e_weight e) edges.

(** ** Costs along the predecessor links of [dijkstra] *)

Module DijkstraCost.
Import Dijkstra DijkstraOpt.

(** The label of a node is the label of its predecessor plus the weight of
    an adjacency entry between them. *)
Record cost_inv (g : gmap string (list Adj)) (s : string) (st : State) : Prop := {
  ci_start : distances st !! s = Some (Num 0);
  ci_link : ∀ v u, previous st !! v = Some (Some u) →
      u ∈ visited st
      ∧ ∃ zu w, distances st !! u = Some (Num zu) ∧ arc g u v w
                ∧ distances st !! v = Some (Num (zu + w))
}.

End DijkstraCost.

(** [walkn edges a b c n]: a walk of [n] edges. *)
Inductive walkn (edges : list Edge) (a : string) : string → Z → nat → Prop :=
  | walkn_here : walkn edges a a 0 0
  | walkn_road b c e w n :
      walkn edges a b w n → e ∈ edges → e_blocked e = false → joins_pair b c e →
      walkn edges a c (w + e_weight e) (S n).

(** No two edges of the list, blocked or not, join the same pair of nodes. *)
Fixpoint simple (edges : list Edge) : bool :=
  match edges with
  | [] => true
  | e :: edges' =>
      forallb (λ e', negb (Dijkstra.joins (e_from e) (e_to e) e')) edges'
      && simple edges'
  end.

(** ** Costs along the predecessor links of [bellmanFord] *)

Module BellmanFordCost.
Import BellmanFord.

(** A node without predecessor carries its initial label; a node with a
    predecessor got its label through an entry of [bidirectionalEdges], and
    the predecessor's label has not grown since. *)
Record link_inv (bi : list DEdge) (s : string) (lb : Labels) : Prop := {
  li_root : ∀ v, previous lb !! v = Some None →
      distances lb !! v = Some (if decide (v = s) then Num 0 else PosInf);
  li_link : ∀ v u, previous lb !! v = Some (Some u) →
      ∃ zu zv de, distances lb !! u = Some (Num zu)
                  ∧ distances lb !! v = Some (Num zv)
                  ∧ de ∈ bi ∧ d_from de = u ∧ d_to de = v
                  ∧ zu + d_weight de ≤ zv
}.

End BellmanFordCost.

(** Two directed entries of [bidirectionalEdges] with the same [edgeMap] key
    have the same endpoints. *)
Definition keys_faithful (edges : list Edge) : Prop :=
  let bi := BellmanFord.bidirectional (BellmanFord.activeEdges edges) in
  Forall (λ de,
    Forall (λ de',
      BellmanFord.edge_key (BellmanFord.d_from de) (BellmanFord.d_to de)
      = BellmanFord.edge_key (BellmanFord.d_from de') (BellmanFord.d_to de') →
      BellmanFord.d_from de = BellmanFord.d_from de'
      ∧ BellmanFord.d_to de = BellmanFord.d_to de') bi) bi.

#[global] Instance keys_faithful_dec edges : Decision (keys_faithful edges).
Proof. unfold keys_faithful. apply _. Defined.

(** ** Blocking one edge of a snapshot *)

(** The edge list [l1 ++ e :: l2] whose edge [e] carries the flag [b]. *)
Definition snapshot_with (l1 l2 : list Edge) (i f t : string) (w : Z) (b : bool)
    : list Edge :=
  l1 ++ mkEdge i f t w b :: l2.

Module BlockingSamples.

Definition nodes : list Node := [mkNode "S"; mkNode "A"; mkNode "B"; mkNode "T"].

(** The road S-A is the one that gets blocked; B-A is a toll road. *)
Definition before : list Edge := [].

Definition after : list Edge :=
  [mkEdge "2" "S" "B" 2 false; mkEdge "3" "B" "A" (-5) false;
   mkEdge "4" "A" "T" 1 false].

Definition edges (b : bool) : list Edge := snapshot_with before after "1" "S" "A" 1 b.

End BlockingSamples.



(** ** page.jsx: the editor state and its handlers *)

Module Editor.

(** The [type] of a node: ['normal'], ['ambulance'] or ['hospital']. *)
Inductive NodeType : Type := Normal | Ambulance | Hospital.

Record UINode : Type := mkUINode {
  u_id : string;
  u_label : string;
  u_type : NodeType
}.

(** The React state of [Home].  [None] is [null]; [nodeCounter] is an
    integer, printed in decimal by the template literals. *)
Record State : Type := mkState {
  nodes : list UINode;
  edges : list Edge;
  selectedNodeId : option string;
  selectedEdgeId : option string;
  ambulanceId : option string;
  hospitalId : option string;
  isEdgeModalOpen : bool;
  edgeToEdit : option Edge;
  algorithm : string;
  autoDetectAlgorithm : bool;
  routeResult : option RouteResult;
  nodeCounter : Z
}.

(** The setters called by the handlers. *)
Definition setNodes (v : list UINode) (st : State) : State :=
  mkState v (edges st) (selectedNodeId st) (selectedEdgeId st) (ambulanceId st)
    (hospitalId st) (isEdgeModalOpen st) (edgeToEdit st) (algorithm st)
    (autoDetectAlgorithm st) (routeResult st) (nodeCounter st).

Definition setEdges (v : list Edge) (st : State) : State :=
  mkState (nodes st) v (selectedNodeId st) (selectedEdgeId st) (ambulanceId st)
    (hospitalId st) (isEdgeModalOpen st) (edgeToEdit st) (algorithm st)
    (autoDetectAlgorithm st) (routeResult st) (nodeCounter st).

Definition setSelectedNodeId (v : option string) (st : State) : State :=
  mkState (nodes st) (edges st) v (selectedEdgeId st) (ambulanceId st)
    (hospitalId st) (isEdgeModalOpen st) (edgeToEdit st) (algorithm st)
    (autoDetectAlgorithm st) (routeResult st) (nodeCounter st).

Definition setSelectedEdgeId (v : option string) (st : State) : State :=
  mkState (nodes st) (edges st) (selectedNodeId st) v (ambulanceId st)
    (hospitalId st) (isEdgeModalOpen st) (edgeToEdit st) (algorithm st)
    (autoDetectAlgorithm st) (routeResult st) (nodeCounter st).

Definition setAmbulanceId (v : option string) (st : State) : State :=
  mkState (nodes st) (edges st) (selectedNodeId st) (selectedEdgeId st) v
    (hospitalId st) (isEdgeModalOpen st) (edgeToEdit st) (algorithm st)
    (autoDetectAlgorithm st) (routeResult st) (nodeCounter st).

Definition setHospitalId (v : option string) (st : State) : State :=
  mkState (nodes st) (edges st) (selectedNodeId st) (selectedEdgeId st)
    (ambulanceId st) v (isEdgeModalOpen st) (edgeToEdit st) (algorithm st)
    (autoDetectAlgorithm st) (routeResult st) (nodeCounter st).

Definition setIsEdgeModalOpen (v : bool) (st : State) : State :=
  mkState (nodes st) (edges st) (selectedNodeId st) (selectedEdgeId st)
    (ambulanceId st) (hospitalId st) v (edgeToEdit st) (algorithm st)
    (autoDetectAlgorithm st) (routeResult st) (nodeCounter st).

Definition setEdgeToEdit (v : option Edge) (st : State) : State :=
  mkState (nodes st) (edges st) (selectedNodeId st) (selectedEdgeId st)
    (ambulanceId st) (hospitalId st) (isEdgeModalOpen st) v (algorithm st)
    (autoDetectAlgorithm st) (routeResult st) (nodeCounter st).

Definition setAlgorithm (v : string) (st : State) : State :=
  mkState (nodes st) (edges st) (selectedNodeId st) (selectedEdgeId st)
    (ambulanceId st) (hospitalId st) (isEdgeModalOpen st) (edgeToEdit st) v
    (autoDetectAlgorithm st) (routeResult st) (nodeCounter st).

Definition setRouteResult (v : option RouteResult) (st : State) : State :=
  mkState (nodes st) (edges st) (selectedNodeId st) (selectedEdgeId st)
    (ambulanceId st) (hospitalId st) (isEdgeModalOpen st) (edgeToEdit st)
    (algorithm st) (autoDetectAlgorithm st) v (nodeCounter st).

Definition setNodeCounter (v : Z) (st : State) : State :=
  mkState (nodes st) (edges st) (selectedNodeId st) (selectedEdgeId st)
    (ambulanceId st) (hospitalId st) (isEdgeModalOpen st) (edgeToEdit st)
    (algorithm st) (autoDetectAlgorithm st) (routeResult st) v.

(** The state that the [useState] calls of [Home] start from. *)
Definition initial : State :=
  mkState [] [] None None None None false None "dijkstra" true None 1.

(** A string or [null] read as a condition: [null] and the empty string are
    falsy. *)
Definition truthy (o : option string) : bool :=
  match o with
  | Some s => negb (bool_decide (s = ""))
  | None => false
  end.

(** The node list as the engines read it: they only look at [id]. *)
Definition engine_nodes (st : State) : list Node :=
  (λ u, mkNode (u_id u)) <$> nodes st.

(** [handleAddNode] *)
Definition handleAddNode (st : State) : State :=
  let newNode := mkUINode ("N" +:+ pretty (nodeCounter st))
                          ("Node " +:+ pretty (nodeCounter st)) Normal in
  setNodeCounter (nodeCounter st + 1) (setNodes (nodes st ++ [newNode]) st).

(** [handleAddEdge]; [newId] is the value of [uuidv4()].  Both early returns
    only show an alert. *)
Definition handleAddEdge (newId : string) (st : State) : State :=
  match reverse (nodes st) with
  | lastNode :: secondLastNode :: _ =>
      let edgeExists :=
        existsb (λ e, (bool_decide (e_from e = u_id lastNode)
                       && bool_decide (e_to e = u_id secondLastNode))
                      || (bool_decide (e_from e = u_id secondLastNode)
                          && bool_decide (e_to e = u_id lastNode)))
                (edges st) in
      if edgeExists then st
      else setEdges (edges st ++ [mkEdge newId (u_id secondLastNode) (u_id lastNode)
                                    1 false]) st
  | _ => st
  end.

(** [handleDeleteNode] *)
Definition handleDeleteNode (st : State) : State :=
  match selectedNodeId st with
  | Some sel =>
      if bool_decide (sel = "") then st
      else
        let st1 := setNodes (filter (λ n, u_id n ≠ sel) (nodes st)) st in
        let st2 := setEdges (filter (λ e, e_from e ≠ sel ∧ e_to e ≠ sel) (edges st)) st1 in
        let st3 := if bool_decide (ambulanceId st = Some sel)
                   then setAmbulanceId None st2 else st2 in
        let st4 := if bool_decide (hospitalId st = Some sel)
                   then setHospitalId None st3 else st3 in
        setSelectedNodeId None st4
  | None => st
  end.

(** [handleDeleteEdge] *)
Definition handleDeleteEdge (st : State) : State :=
  match selectedEdgeId st with
  | Some sel =>
      if bool_decide (sel = "") then st
      else setSelectedEdgeId None
             (setEdges (filter (λ e, e_id e ≠ sel) (edges st)) st)
  | None => st
  end.

Definition with_type (t : NodeType) (n : UINode) : UINode :=
  mkUINode (u_id n) (u_label n) t.

(** [handleSetAmbulance(nodeId)]; [nodeId] is the value of a select box. *)
Definition handleSetAmbulance (nodeId : string) (st : State) : State :=
  if bool_decide (nodeId = "") then
    setNodes ((λ n, if bool_decide (Some (u_id n) = ambulanceId st)
                    then with_type Normal n else n) <$> nodes st)
      (setAmbulanceId None st)
  else
    setAmbulanceId (Some nodeId)
      (setNodes ((λ n, if bool_decide (Some (u_id n) = ambulanceId st)
                       then with_type Normal n
                       else if bool_decide (u_id n = nodeId)
                       then with_type Ambulance n else n) <$> nodes st) st).

(** [handleSetHospital(nodeId)] *)
Definition handleSetHospital (nodeId : string) (st : State) : State :=
  if bool_decide (nodeId = "") then
    setNodes ((λ n, if bool_decide (Some (u_id n) = hospitalId st)
                    then with_type Normal n else n) <$> nodes st)
      (setHospitalId None st)
  else
    setHospitalId (Some nodeId)
      (setNodes ((λ n, if bool_decide (Some (u_id n) = hospitalId st)
                       then with_type Normal n
                       else if bool_decide (u_id n = nodeId)
                       then with_type Hospital n else n) <$> nodes st) st).

(** [handleNodeSelect(nodeId)] *)
Definition handleNodeSelect (nodeId : string) (st : State) : State :=
  setSelectedEdgeId None (setSelectedNodeId (Some nodeId) st).

(** [handleEdgeSelect(edgeId)] *)
Definition handleEdgeSelect (edgeId : string) (st : State) : State :=
  let st1 := setSelectedNodeId None (setSelectedEdgeId (Some edgeId) st) in
  match find (λ e, bool_decide (e_id e = edgeId)) (edges st) with
  | Some edge => setIsEdgeModalOpen true (setEdgeToEdit (Some edge) st1)
  | None => st1
  end.

(** [handleSaveEdge(updatedEdge)] *)
Definition handleSaveEdge (updatedEdge : Edge) (st : State) : State :=
  setEdgeToEdit None
    (setIsEdgeModalOpen false
       (setEdges ((λ e, if bool_decide (e_id e = e_id updatedEdge)
                        then updatedEdge else e) <$> edges st) st)).

(** The object that the edge dialog passes to [handleSaveEdge]:
    [{ ...edge, weight, blocked }]. *)
Definition updatedEdge (edge : Edge) (weight : Z) (blocked : bool) : Edge :=
  mkEdge (e_id edge) (e_from edge) (e_to edge) weight blocked.

(** [handleClearGraph]; [confirmed] is the answer to [confirm(...)]. *)
Definition handleClearGraph (confirmed : bool) (st : State) : State :=
  if confirmed then
    mkState [] [] None None None None (isEdgeModalOpen st) (edgeToEdit st)
      (algorithm st) (autoDetectAlgorithm st) None 1
  else st.

(** [initializeSampleGraph]; [uuid k] is the value of the [k]-th call of
    [uuidv4()]. *)
Definition initializeSampleGraph (uuid : nat → string) (st : State) : State :=
  let sampleNodes :=
    [mkUINode "A" "Node A" Normal; mkUINode "B" "Node B" Normal;
     mkUINode "C" "Node C" Normal; mkUINode "D" "Node D" Normal;
     mkUINode "E" "Node E" Normal; mkUINode "F" "Node F" Normal] in
  let sampleEdges :=
    [mkEdge (uuid 0%nat) "A" "B" 4 false; mkEdge (uuid 1%nat) "A" "C" 2 false;
     mkEdge (uuid 2%nat) "B" "C" 1 false; mkEdge (uuid 3%nat) "B" "D" 5 false;
     mkEdge (uuid 4%nat) "C" "D" 8 false; mkEdge (uuid 5%nat) "C" "E" 10 false;
     mkEdge (uuid 6%nat) "D" "E" 2 false; mkEdge (uuid 7%nat) "D" "F" 6 false;
     mkEdge (uuid 8%nat) "E" "F" 3 false] in
  setNodeCounter 7
    (setHospitalId (Some "F")
       (setAmbulanceId (Some "A")
          (setEdges sampleEdges (setNodes sampleNodes st)))).

(** [handleResetToSample] *)
Definition handleResetToSample (confirmed : bool) (uuid : nat → string)
    (st : State) : State :=
  if confirmed then initializeSampleGraph uuid st else st.

(** The effect that follows [graphHasNegativeWeights]. *)
Definition autoDetect (st : State) : State :=
  if autoDetectAlgorithm st then
    setAlgorithm (if Dijkstra.hasNegativeWeights (edges st)
                  then "bellman-ford" else "dijkstra") st
  else st.

(** [calculateShortestPath] *)
Definition calculateShortestPath (st : State) : outcome State :=
  match ambulanceId st, hospitalId st with
  | Some a, Some h =>
      if bool_decide (a = "") || bool_decide (h = "") then
        Returned (setRouteResult None st)
      else
        let* result :=
          if bool_decide (algorithm st = "dijkstra")
          then Dijkstra.dijkstra (engine_nodes st) (edges st) a h
          else BellmanFord.bellmanFord (engine_nodes st) (edges st) a h in
        Returned (setRouteResult (Some result) st)
  | _, _ => Returned (setRouteResult None st)
  end.

End Editor.

(** ** States the editor can reach *)

Module EditorInv.
Import Editor.

(** Node ids are pairwise distinct, every edge joins two nodes of the list,
    no two edges join the same pair, edge ids are pairwise distinct, the
    edge under edit has the endpoints of the listed edge with its id, and
    the ids that [handleAddNode] will generate are still free. *)
Record well_formed (st : State) : Prop := {
  wf_nodes : NoDup (u_id <$> nodes st);
  wf_edges : Forall (λ e, e_from e ∈ u_id <$> nodes st ∧ e_to e ∈ u_id <$> nodes st)
               (edges st);
  wf_simple : simple (edges st) = true;
  wf_edge_ids : NoDup (e_id <$> edges st);
  wf_edit : ∀ e e', edgeToEdit st = Some e → e' ∈ edges st → e_id e' = e_id e →
      e_from e' = e_from e ∧ e_to e' = e_to e;
  wf_counter : ∀ k, nodeCounter st ≤ k → "N" +:+ pretty k ∉ u_id <$> nodes st
}.

(** One action of the user.  A [uuidv4()] value has never been used before;
    the edge dialog saves the edge under edit with a new weight and flag. *)
Inductive step : State → State → Prop :=
  | step_add_node st : step st (handleAddNode st)
  | step_add_edge st newId :
      newId ∉ e_id <$> edges st →
      (∀ e, edgeToEdit st = Some e → e_id e ≠ newId) →
      step st (handleAddEdge newId st)
  | step_delete_node st : step st (handleDeleteNode st)
  | step_delete_edge st : step st (handleDeleteEdge st)
  | step_set_ambulance st nodeId : step st (handleSetAmbulance nodeId st)
  | step_set_hospital st nodeId : step st (handleSetHospital nodeId st)
  | step_node_select st nodeId : step st (handleNodeSelect nodeId st)
  | step_edge_select st edgeId : step st (handleEdgeSelect edgeId st)
  | step_save_edge st edge weight blocked :
      edgeToEdit st = Some edge →
      step st (handleSaveEdge (updatedEdge edge weight blocked) st)
  | step_clear st confirmed : step st (handleClearGraph confirmed st)
  | step_reset st confirmed uuid :
      NoDup (uuid <$> seq 0 9) →
      (∀ e k, edgeToEdit st = Some e → (k < 9)%nat → e_id e ≠ uuid k) →
      step st (handleResetToSample confirmed uuid st)
  | step_auto_detect st : step st (autoDetect st).

End EditorInv.

(** ** Least weights and [bellmanFord] *)

Module BellmanFordOpt.
Import BellmanFord.

(** Labels that are numbers are weights of walks from the origin, whose own
    label is a number that is not positive. *)
Record real_labels (edges : list Edge) (s : string) (lb : Labels) : Prop := {
  rl_start : ∃ z, distances lb !! s = Some (Num z) ∧ z ≤ 0;
  rl_real : ∀ v z, distances lb !! v = Some (Num z) → walk edges s v z
}.

(** Every walk of at most [k] edges is matched by a label that is not
    larger than its weight. *)
Definition upper (edges : list Edge) (s : string) (k : nat) (lb : Labels) : Prop :=
  ∀ v c n, walkn edges s v c n → (n ≤ k)%nat →
           ∃ z, distances lb !! v = Some (Num z) ∧ z ≤ c.

(** No entry of [bidirectionalEdges] can be relaxed. *)
Definition stable (bi : list DEdge) (d : gmap string jsnum) : Prop :=
  ∀ de, de ∈ bi → relaxable d de = false.

(** The predecessor link of a node. *)
Definition pred_link (p : gmap string (option string)) : relation string :=
  λ a b, p !! a = Some (Some b).

(** Following predecessor links never comes back to where it started. *)
Definition acyclic (p : gmap string (option string)) : Prop :=
  ∀ x, ¬ tc (pred_link p) x x.

End BellmanFordOpt.

(** ** Where finite maps and integers stand for plain objects and doubles *)

(** The names every plain object inherits from [Object.prototype]: reading
    [obj[k]] for one of them finds the inherited member when [obj] has no
    entry of its own under [k], where a finite map finds nothing. *)
Definition object_prototype_keys : list string :=
  ["constructor"; "__defineGetter__"; "__defineSetter__"; "hasOwnProperty";
   "__lookupGetter__"; "__lookupSetter__"; "isPrototypeOf";
   "propertyIsEnumerable"; "toString"; "valueOf"; "__proto__";
   "toLocaleString"].

(** [k] is not such a name, so that [obj[k]] is a lookup in a finite map. *)
Definition plain_key (k : string) : Prop := k ∉ object_prototype_keys.

#[global] Instance plain_key_dec k : Decision (plain_key k).
Proof. unfold plain_key. apply _. Defined.

(** No node is called [__proto__]: the assignment [obj["__proto__"] = v]
    stores no entry in a plain object, where a finite map stores one. *)
Definition plain_nodes (nodes : list Node) : Prop := "__proto__" ∉ ids nodes.

#[global] Instance plain_nodes_dec nodes : Decision (plain_nodes nodes).
Proof. unfold plain_nodes. apply _. Defined.

(** Weights for which adding integers is what the code's arithmetic on
    doubles does.  A label of either engine is the weight of a walk; a walk
    grows by one edge per relaxation, [bellmanFord] relaxes at most
    [2 * length edges] entries in each of its at most [length nodes] passes,
    and one more weight is added when a candidate is formed.  With the bound
    below every such sum is an integer between [-2^53] and [2^53], and these
    are added without rounding; [safe_weights_keep_sums_exact] and
    [safe_weights_keep_dijkstra_sums_exact] prove the bound for the labels
    and candidates of the model. *)
Definition safe_weights (nodes : list Node) (edges : list Edge) : Prop :=
  Forall (λ e, Z.abs (e_weight e)
               * (2 * Z.of_nat (length edges) * Z.of_nat (length nodes) + 1)
               ≤ 2 ^ 53) edges.

#[global] Instance safe_weights_dec nodes edges : Decision (safe_weights nodes edges).
Proof. unfold safe_weights. apply _. Defined.

(** Snapshots with an open road to a node that is not listed. *)
Module DanglingSamples.

Definition road : Edge := mkEdge "x" "A" "Z" 1 false.

(** The 4-cycle and a road from A to the unlisted Z. *)
Definition cycleEdges : list Edge := Samples.cycleEdges ++ [road].

(** The star and a road from the leaf L1 to the unlisted Z. *)
Definition starEdges : list Edge :=
  Samples.starEdges ++ [mkEdge "x" "L1" "Z" 1 false].

(** The path on nine nodes and a road from its first node to the unlisted Z. *)
Definition pathEdges9 : list Edge :=
  Samples.pathEdges9 ++ [mkEdge "x" "1" "Z" 1 false].

End DanglingSamples.

(** A road A-B and, out of reach of both, a toll road C-D. *)
Module TollAsideSamples.

Definition nodes : list Node := [mkNode "A"; mkNode "B"; mkNode "C"; mkNode "D"].

Definition edges : list Edge :=
  [mkEdge "1" "A" "B" 2 false; mkEdge "2" "C" "D" (-1) false].

End TollAsideSamples.

(** ** Roads that [bellmanFord] can use *)

(** The edges left when the unblocked edges with an endpoint outside the
    node list are removed. *)
Definition valid_part (nodes : list Node) (edges : list Edge) : list Edge :=
  filter (λ e, e_blocked e = false → e_from e ∈ ids nodes ∧ e_to e ∈ ids nodes) edges.


(** ** The range in which doubles add integers exactly *)

(** Every label that is a number lies between [-B] and [B]. *)
Definition labels_within (B : Z) (d : gmap string jsnum) : Prop :=
  ∀ v z, d !! v = Some (Num z) → Z.abs z ≤ B.

(** ** Basic facts about outcomes *)

Lemma obind_returned {A B} (m : outcome A) (f : A → outcome B) b :
  obind m f = Returned b → ∃ a, m = Returned a ∧ f a = Returned b.
Proof. destruct m; simpl; try discriminate. eauto. Qed.

Lemma joins_spec a b e : Dijkstra.joins a b e = true ↔ joins_pair a b e.
Proof.
  unfold Dijkstra.joins, joins_pair.
  rewrite orb_true_iff, !andb_true_iff, !bool_decide_eq_true. tauto.
Qed.

Lemma find_edge_Some edges a b e :
  Dijkstra.find_edge edges a b = Some e → first_joining edges a b e.
Proof.
  induction edges as [|x edges IH]; simpl; [discriminate|].
  destruct (Dijkstra.joins a b x) eqn:Hj.
  - intros [= ->]. exists [], edges. split; [done|].
    split; [by apply joins_spec | constructor].
  - intros H. destruct (IH H) as (l1 & l2 & -> & Hjoin & Hall).
    exists (x :: l1), l2. split; [done|]. split; [done|].
    constructor; [|done]. rewrite <- joins_spec. congruence.
Qed.

Lemma find_edge_None edges a b :
  Dijkstra.find_edge edges a b = None → Forall (λ e', ¬ joins_pair a b e') edges.
Proof.
  induction edges as [|x edges IH]; simpl; [constructor|].
  destruct (Dijkstra.joins a b x) eqn:Hj; [discriminate|].
  intros H. constructor; [|by apply IH].
  rewrite <- joins_spec. congruence.
Qed.

Lemma build_steps_find_edge edges p :
  steps_of edges p (build_steps (Dijkstra.find_edge edges) p).
Proof.
  induction p as [|a [|b rest] IH]; simpl; [apply steps_of_nil|apply steps_of_one|].
  destruct (Dijkstra.find_edge edges a b) eqn:Hf.
  - apply steps_of_edge; [by apply find_edge_Some | exact IH].
  - apply steps_of_skip; [by apply find_edge_None | exact IH].
Qed.

(** What [dijkstra] returns when it reports a route. *)
Lemma dijkstra_found_inv nodes edges s t r :
  Dijkstra.dijkstra nodes edges s t = Returned r → found r = true →
  ∃ graph st,
    Dijkstra.build_graph nodes edges = Returned graph
    ∧ s ≠ "" ∧ t ≠ "" ∧ s ≠ t
    ∧ is_Some (graph !! s) ∧ is_Some (graph !! t)
    ∧ Dijkstra.loop (Dijkstra.loop_fuel edges) graph t
        (Dijkstra.mkState (<[s := Num 0]> (Dijkstra.init_distances nodes))
           (Dijkstra.init_previous nodes) ∅ [Dijkstra.mkItem s (Num 0)])
      = Returned st
    ∧ is_infinity (Dijkstra.distances st !! t) = false
    ∧ Dijkstra.walk_back (S (length nodes)) (Dijkstra.previous st) t []
      = Returned (path r)
    ∧ totalCost r = to_number (Dijkstra.distances st !! t)
    ∧ steps r = build_steps (Dijkstra.find_edge edges) (path r).
Proof.
  unfold Dijkstra.dijkstra. intros H Hf.
  destruct (bool_decide (s = "")) eqn:E1; simpl in H;
    [injection H as <-; discriminate|].
  destruct (bool_decide (t = "")) eqn:E2; simpl in H;
    [injection H as <-; discriminate|].
  destruct (bool_decide (s = t)) eqn:E3; simpl in H;
    [injection H as <-; discriminate|].
  apply bool_decide_eq_false in E1, E2, E3.
  apply obind_returned in H as (graph & Hg & H).
  destruct (graph !! s) as [ls|] eqn:Hs; [|injection H as <-; discriminate].
  destruct (graph !! t) as [lt|] eqn:Ht; [|injection H as <-; discriminate].
  apply obind_returned in H as (st & Hloop & H).
  destruct (is_infinity (Dijkstra.distances st !! t)) eqn:Hi;
    [injection H as <-; discriminate|].
  apply obind_returned in H as (p & Hp & H).
  injection H as <-. simpl.
  exists graph, st. rewrite Hs, Ht. repeat split; eauto.
Qed.

(** ** Steps of a route found by [dijkstra] *)

(** C10. When [dijkstra] reports a route, its steps are read off the edge
    list: for each consecutive pair of the path, the cost and edge id of the
    first listed edge (blocked or not) with that endpoint pair, and no step
    when no edge has it.  On a snapshot with a blocked road listed before an
    open parallel road, the step shows the blocked road's cost and id, and
    the total cost differs from the sum of the step costs. *)
Theorem dijkstra_steps_come_from_first_listed_edge :
  (∀ nodes edges s t r,
     Dijkstra.dijkstra nodes edges s t = Returned r → found r = true →
     steps_of edges (path r) (steps r))
  ∧ (∃ r,
       Dijkstra.dijkstra Samples.nodesAB Samples.parallelBlockedFirst "A" "B"
         = Returned r
       ∧ found r = true
       ∧ path r = ["A"; "B"]
       ∧ totalCost r = Num 1
       ∧ steps r = [mkStep "A" "B" 100 "e0"]
       ∧ totalCost r ≠ Num (sum_costs (steps r))).
Proof.
  split.
  - intros nodes edges s t r H Hf.
    destruct (dijkstra_found_inv _ _ _ _ _ H Hf)
      as (graph & st & _ & _ & _ & _ & _ & _ & _ & _ & _ & _ & ->).
    apply build_steps_find_edge.
  - eexists. split; [vm_compute; reflexivity|]. simpl.
    repeat split; discriminate.
Qed.

Lemma dijkstra_steps_come_from_first_listed_edge_witness :
  steps_of Samples.sampleEdges ["A"; "C"; "B"; "D"; "E"; "F"]
    [mkStep "A" "C" 2 "2"; mkStep "C" "B" 1 "3"; mkStep "B" "D" 5 "4";
     mkStep "D" "E" 2 "7"; mkStep "E" "F" 3 "9"].
Proof.
  exact (proj1 dijkstra_steps_come_from_first_listed_edge
           Samples.sampleNodes Samples.sampleEdges "A" "F"
           (mkRoute ["A"; "C"; "B"; "D"; "E"; "F"] (Num 13)
              [mkStep "A" "C" 2 "2"; mkStep "C" "B" 1 "3"; mkStep "B" "D" 5 "4";
               mkStep "D" "E" 2 "7"; mkStep "E" "F" 3 "9"] true None None)
           ltac:(vm_compute; reflexivity) eq_refl).
Defined.

(** ** Equal origin and destination *)

(** C2, as stated, fails for [dijkstra]: with origin and destination both
    the listed node A it reports no route. *)
Lemma dijkstra_same_endpoints_counterexample :
  "A" ∈ ids Samples.nodesAB
  ∧ ∃ r, Dijkstra.dijkstra Samples.nodesAB Samples.parallelOpen "A" "A" = Returned r
         ∧ found r = false ∧ path r = [].
Proof.
  split; [apply list_elem_of_here|].
  eexists. split; [vm_compute; reflexivity|]. done.
Qed.

(** C2, amended.  For a non-empty identifier [s] listed in the snapshot,
    [bellmanFord] from [s] to [s] reports the zero-cost singleton route
    [[s]] with no step, while the guard of [dijkstra] rejects equal
    endpoints and reports no route. *)
Theorem same_endpoints nodes edges s :
  s ∈ ids nodes → s ≠ "" →
  BellmanFord.bellmanFord nodes edges s s
    = Returned (mkRoute [s] (Num 0) [] true (Some false) None)
  ∧ Dijkstra.dijkstra nodes edges s s = Returned Dijkstra.not_found.
Proof.
  intros Hin Hne. split.
  - unfold BellmanFord.bellmanFord.
    destruct nodes as [|n nodes]; [by apply elem_of_nil in Hin|].
    rewrite bool_decide_eq_false_2 by done.
    rewrite (bool_decide_eq_false_2 (s = "")) by done. simpl.
    by rewrite bool_decide_eq_true_2.
  - unfold Dijkstra.dijkstra.
    rewrite (bool_decide_eq_true_2 (s = s)) by done.
    by rewrite orb_true_r.
Qed.

Lemma same_endpoints_witness :
  BellmanFord.bellmanFord Samples.nodesAB Samples.parallelOpen "A" "A"
    = Returned (mkRoute ["A"] (Num 0) [] true (Some false) None)
  ∧ Dijkstra.dijkstra Samples.nodesAB Samples.parallelOpen "A" "A"
    = Returned Dijkstra.not_found.
Proof.
  apply (same_endpoints Samples.nodesAB Samples.parallelOpen "A").
  - apply list_elem_of_here.
  - discriminate.
Defined.

(** ** Generic facts: maps built from the node list, [forEach] *)

Lemma fold_insert_lookup {V} (c : V) (nodes : list Node) (m0 : gmap string V) k :
  foldl (λ m n, <[n_id n := c]> m) m0 nodes !! k
  = if decide (k ∈ ids nodes) then Some c else m0 !! k.
Proof.
  revert m0. induction nodes as [|n nodes IH]; intros m0.
  - destruct (decide (k ∈ ids [])) as [Hin|_]; [|done]. by apply elem_of_nil in Hin.
  - change (foldl (λ m n, <[n_id n := c]> m) (<[n_id n := c]> m0) nodes !! k
            = if decide (k ∈ n_id n :: ids nodes) then Some c else m0 !! k).
    rewrite IH.
    destruct (decide (k ∈ ids nodes)) as [Hin|Hout];
      destruct (decide (k ∈ n_id n :: ids nodes)) as [Hin'|Hout']; try done.
    + exfalso. apply Hout'. by apply list_elem_of_further.
    + apply elem_of_cons in Hin' as [->|?]; [|done]. by rewrite lookup_insert_eq.
    + rewrite lookup_insert_ne; [done|]. intros <-. apply Hout', list_elem_of_here.
Qed.

Lemma fold_insert_empty_lookup {V} (c : V) (nodes : list Node) k :
  foldl (λ m n, <[n_id n := c]> m) (∅ : gmap string V) nodes !! k
  = if decide (k ∈ ids nodes) then Some c else None.
Proof. rewrite fold_insert_lookup. by rewrite lookup_empty. Qed.

Lemma forEach_invariant {A S} (P : S → Prop) (f : S → A → outcome S) l s s' :
  (∀ s x s', x ∈ l → P s → f s x = Returned s' → P s') →
  P s → forEach f l s = Returned s' → P s'.
Proof.
  revert s. induction l as [|x l IH]; intros s Hstep Hs; simpl.
  - by intros [= <-].
  - intros (s1 & H1 & H2)%obind_returned.
    apply (IH s1).
    + intros s0 y s0' Hin. apply Hstep. by apply list_elem_of_further.
    + apply (Hstep s x s1); [apply list_elem_of_here|done|done].
    + done.
Qed.

Lemma forEach_returns {A S} (P : S → Prop) (f : S → A → outcome S) l s :
  (∀ s x, x ∈ l → P s → ∃ s', f s x = Returned s' ∧ P s') →
  P s → ∃ s', forEach f l s = Returned s' ∧ P s'.
Proof.
  revert s. induction l as [|x l IH]; intros s Hstep Hs; simpl.
  - eauto.
  - destruct (Hstep s x) as (s1 & -> & H1); [apply list_elem_of_here|done|].
    simpl. apply IH; [|done].
    intros ?? Hin. apply Hstep. by apply list_elem_of_further.
Qed.

Lemma foldl_invariant {A S} (P : S → Prop) (f : S → A → S) l s :
  (∀ s x, x ∈ l → P s → P (f s x)) → P s → P (foldl f s l).
Proof.
  revert s. induction l as [|x l IH]; intros s Hstep Hs; simpl; [done|].
  apply IH.
  - intros ?? Hin. apply Hstep. by apply list_elem_of_further.
  - apply Hstep; [apply list_elem_of_here|done].
Qed.

(** ** The adjacency structure of [dijkstra] *)

Section DijkstraGraph.
Import Dijkstra DijkstraInv.

Lemma add_edge_lookup_is_Some g e g' k :
  add_edge g e = Returned g' → is_Some (g' !! k) ↔ is_Some (g !! k).
Proof.
  unfold add_edge. destruct (e_blocked e); [by intros [= <-]|].
  destruct (g !! e_from e) as [l1|] eqn:H1; [|done].
  destruct (<[_ := _]> g !! e_to e) as [l2|] eqn:H2; [|done].
  intros [= <-].
  assert (is_Some (g !! e_to e)) as Hto.
  { assert (is_Some (<[e_from e := l1 ++ [mkAdj (e_to e) (e_weight e) (e_id e)]]> g
                       !! e_to e)) as Hs by eauto.
    apply lookup_insert_is_Some' in Hs as [<-|?]; [by rewrite H1|done]. }
  rewrite !lookup_insert_is_Some'. split.
  - intros [<-|[<-|?]]; [done|by rewrite H1|done].
  - eauto.
Qed.

Lemma build_graph_lookup_is_Some nodes edges g k :
  build_graph nodes edges = Returned g → is_Some (g !! k) ↔ k ∈ ids nodes.
Proof.
  unfold build_graph. intros H.
  apply (forEach_invariant (λ g, is_Some (g !! k) ↔ k ∈ ids nodes) _ _ _ _) in H;
    [done| |].
  - intros s x s' _ Hs Hadd. by rewrite (add_edge_lookup_is_Some _ _ _ _ Hadd).
  - unfold init_graph. rewrite fold_insert_empty_lookup.
    destruct (decide (k ∈ ids nodes)); split; try done; try by eauto.
    all: by intros [? ?].
Qed.

Lemma add_edge_closed g e g' :
  closed_graph g → add_edge g e = Returned g' → closed_graph g'.
Proof.
  intros Hc Hadd u l a Hu Ha.
  rewrite (add_edge_lookup_is_Some _ _ _ _ Hadd).
  revert Hadd Hu. unfold add_edge. destruct (e_blocked e); [intros [= <-]; eauto|].
  destruct (g !! e_from e) as [l1|] eqn:H1; [|done].
  destruct (<[_ := _]> g !! e_to e) as [l2|] eqn:H2; [|done].
  intros [= <-] Hu.
  assert (is_Some (g !! e_to e)) as Hto.
  { rewrite lookup_insert_Some in H2. destruct H2 as [[<- _]|[_ ->]]; by eauto. }
  rewrite lookup_insert_Some in Hu. destruct Hu as [[<- <-]|[Hne Hu]].
  - apply elem_of_app in Ha as [Ha|Ha].
    + rewrite lookup_insert_Some in H2. destruct H2 as [[<- [= <-]]|[_ H2]].
      * apply elem_of_app in Ha as [Ha|Ha]; [eauto|].
        apply list_elem_of_singleton in Ha as ->. done.
      * eauto.
    + apply list_elem_of_singleton in Ha as ->. simpl. by rewrite H1.
  - rewrite lookup_insert_Some in Hu. destruct Hu as [[<- <-]|[Hne' Hu]]; [|eauto].
    apply elem_of_app in Ha as [Ha|Ha]; [eauto|].
    apply list_elem_of_singleton in Ha as ->. done.
Qed.

Lemma build_graph_closed nodes edges g :
  build_graph nodes edges = Returned g → closed_graph g.
Proof.
  unfold build_graph. apply forEach_invariant.
  - intros s x s' _. apply add_edge_closed.
  - intros u l a Hu. unfold init_graph in Hu.
    rewrite fold_insert_empty_lookup in Hu.
    destruct (decide _); [|done]. injection Hu as <-. by intros ?%elem_of_nil.
Qed.

Lemma build_graph_returns nodes edges :
  endpoints_valid nodes edges → returns (build_graph nodes edges).
Proof.
  unfold build_graph, endpoints_valid. rewrite Forall_forall. intros Hv.
  destruct (forEach_returns (λ g, ∀ k, is_Some (g !! k) ↔ k ∈ ids nodes)
              add_edge edges (init_graph nodes)) as (g & Hg & _).
  - intros g e He Hg. unfold add_edge.
    destruct (e_blocked e) eqn:Hb; [eauto|].
    destruct (Hv e He Hb) as [Hf Ht].
    apply Hg in Hf as [l1 H1]. rewrite H1.
    assert (is_Some (<[e_from e := l1 ++ [mkAdj (e_to e) (e_weight e) (e_id e)]]> g
                       !! e_to e)) as [l2 H2].
    { rewrite lookup_insert_is_Some. destruct (decide (e_from e = e_to e)); [by left|].
      right. split; [done|]. by apply Hg. }
    rewrite H2. eexists; split; [done|].
    intros k. rewrite <- Hg. rewrite !lookup_insert_is_Some.
    split.
    + intros [<-|[_ [<-|[_ ?]]]]; [by apply Hg|by rewrite H1|done].
    + intros Hk. destruct (decide (e_to e = k)); [by left|right].
      split; [done|]. destruct (decide (e_from e = k)); [by left|by right].
  - intros k. unfold init_graph. rewrite fold_insert_empty_lookup.
    destruct (decide (k ∈ ids nodes)); split; try done; try by eauto.
    all: by intros [? ?].
  - by exists g.
Qed.

End DijkstraGraph.

(** ** Termination of the [dijkstra] loop *)

Section DijkstraTermination.
Import Dijkstra DijkstraInv.
Local Open Scope nat_scope.

Lemma pq_insert_length x l : length (pq_insert x l) = S (length l).
Proof.
  induction l as [|y l IH]; simpl; [done|].
  destruct (cmp_le x y); simpl; by rewrite ?IH.
Qed.

Lemma pq_sort_length l : length (pq_sort l) = length l.
Proof.
  induction l as [|x l IH]; simpl; [done|].
  by rewrite pq_insert_length, IH.
Qed.

Lemma pq_insert_perm x l : pq_insert x l ≡ₚ x :: l.
Proof.
  induction l as [|y l IH]; simpl; [done|].
  destruct (cmp_le x y); [done|]. rewrite IH. apply Permutation_swap.
Qed.

Lemma pq_sort_perm l : pq_sort l ≡ₚ l.
Proof.
  induction l as [|x l IH]; simpl; [done|].
  by rewrite pq_insert_perm, IH.
Qed.

Lemma relax_visited cur st a : visited (relax cur st a) = visited st.
Proof. unfold relax. repeat case_match; done. Qed.

Lemma relax_pq_length cur st a : length (pq (relax cur st a)) ≤ S (length (pq st)).
Proof.
  unfold relax. repeat case_match; simpl; try lia.
  rewrite length_app. simpl. lia.
Qed.

Lemma foldl_relax_visited cur nbrs st :
  visited (foldl (relax cur) st nbrs) = visited st.
Proof.
  revert st. induction nbrs as [|a nbrs IH]; intros st; simpl; [done|].
  by rewrite IH, relax_visited.
Qed.

Lemma foldl_relax_pq_length cur nbrs st :
  length (pq (foldl (relax cur) st nbrs)) ≤ length (pq st) + length nbrs.
Proof.
  revert st. induction nbrs as [|a nbrs IH]; intros st; simpl; [lia|].
  pose proof (IH (relax cur st a)). pose proof (relax_pq_length cur st a). lia.
Qed.

Lemma adj_total_visit g vis cur nbrs :
  g !! cur = Some nbrs → cur ∉ vis →
  adj_total g ({[cur]} ∪ vis) + length nbrs = adj_total g vis.
Proof.
  intros Hg Hcur. unfold adj_total.
  assert (filter (λ kv : string * list Adj, kv.1 ∉ {[cur]} ∪ vis) g
          = delete cur (filter (λ kv : string * list Adj, kv.1 ∉ vis) g)) as ->.
  { apply map_eq. intros k. apply option_eq. intros l.
    rewrite lookup_delete_Some, !map_lookup_filter_Some. simpl.
    rewrite not_elem_of_union, not_elem_of_singleton. naive_solver. }
  rewrite <- (map_to_list_delete (filter _ g) cur nbrs).
  - simpl. lia.
  - rewrite map_lookup_filter_Some. done.
Qed.

Lemma adj_total_mono g vis cur : adj_total g ({[cur]} ∪ vis) ≤ adj_total g vis.
Proof.
  destruct (decide (cur ∈ vis)) as [Hin|Hout].
  - replace ({[cur]} ∪ vis) with vis by set_solver. done.
  - destruct (g !! cur) as [nbrs|] eqn:Hg.
    + pose proof (adj_total_visit g vis cur nbrs Hg Hout). lia.
    + unfold adj_total.
      assert (filter (λ kv : string * list Adj, kv.1 ∉ {[cur]} ∪ vis) g
              = filter (λ kv : string * list Adj, kv.1 ∉ vis) g) as ->; [|done].
      apply map_eq. intros k. apply option_eq. intros l.
      rewrite !map_lookup_filter_Some. simpl.
      rewrite not_elem_of_union, not_elem_of_singleton. naive_solver.
Qed.

(** The loop never exhausts a budget larger than the potential. *)
Lemma loop_terminates g t fuel st :
  potential g st < fuel → loop fuel g t st ≠ OutOfFuel.
Proof.
  revert st. induction fuel as [|fuel IH]; intros st Hpot; [lia|].
  simpl. pose proof (pq_sort_length (pq st)) as Hlen.
  destruct (pq_sort (pq st)) as [|item rest]; [done|]. simpl in Hlen.
  unfold potential in *.
  destruct (decide (q_node item ∈ visited st)).
  { apply IH. simpl. lia. }
  destruct (decide (q_node item = t)); [done|].
  pose proof (adj_total_mono g (visited st) (q_node item)).
  destruct (js_gt _ _).
  { apply IH. simpl. lia. }
  destruct (g !! q_node item) as [nbrs|] eqn:Hg; [|done].
  apply IH. rewrite foldl_relax_visited. simpl.
  pose proof (foldl_relax_pq_length (q_node item) nbrs
                (mkState (distances st) (previous st)
                   ({[q_node item]} ∪ visited st) rest)) as Hq.
  simpl in Hq.
  pose proof (adj_total_visit g (visited st) (q_node item) nbrs Hg ltac:(done)).
  lia.
Qed.

Lemma adj_total_insert_snoc g k l x :
  g !! k = Some l → adj_total (<[k := l ++ [x]]> g) ∅ = S (adj_total g ∅).
Proof.
  intros Hk. unfold adj_total.
  rewrite !map_filter_id by (intros; simpl; set_solver).
  rewrite <- (map_to_list_delete g k l Hk).
  rewrite <- insert_delete_eq.
  rewrite map_to_list_insert by apply lookup_delete_eq.
  simpl. rewrite length_app. simpl. lia.
Qed.

Lemma add_edge_adj_total g e g' :
  add_edge g e = Returned g' → adj_total g' ∅ ≤ adj_total g ∅ + 2.
Proof.
  unfold add_edge. destruct (e_blocked e); [intros [= <-]; lia|].
  destruct (g !! e_from e) as [l1|] eqn:H1; [|done].
  destruct (<[_ := _]> g !! e_to e) as [l2|] eqn:H2; [|done].
  intros [= <-].
  rewrite (adj_total_insert_snoc _ _ _ _ H2), (adj_total_insert_snoc _ _ _ _ H1). lia.
Qed.

Lemma forEach_add_edge_adj_total edges g g' :
  forEach add_edge edges g = Returned g' →
  adj_total g' ∅ ≤ adj_total g ∅ + 2 * length edges.
Proof.
  revert g. induction edges as [|e edges IH]; intros g; simpl.
  - intros [= <-]. lia.
  - intros (g1 & H1 & H2)%obind_returned.
    apply IH in H2. apply add_edge_adj_total in H1. lia.
Qed.

Lemma init_graph_adj_total nodes : adj_total (init_graph nodes) ∅ = 0.
Proof.
  unfold adj_total. rewrite map_filter_id by (intros; simpl; set_solver).
  assert (Forall (λ kv : string * list Adj, kv.2 = []) (map_to_list (init_graph nodes)))
    as Hall.
  { apply Forall_forall. intros [k l] Hkl%elem_of_map_to_list. simpl.
    unfold init_graph in Hkl. rewrite fold_insert_empty_lookup in Hkl.
    destruct (decide _); congruence. }
  induction Hall as [|[k l] rest Hnil _ IH]; simpl in *; [done|].
  subst l. done.
Qed.

Lemma build_graph_adj_total nodes edges g :
  build_graph nodes edges = Returned g → adj_total g ∅ ≤ 2 * length edges.
Proof.
  intros H%forEach_add_edge_adj_total. rewrite init_graph_adj_total in H. lia.
Qed.

(** The budget given by [dijkstra] is never exhausted. *)
Lemma dijkstra_loop_terminates nodes edges g t s d p :
  build_graph nodes edges = Returned g →
  loop (loop_fuel edges) g t (mkState d p ∅ [mkItem s (Num 0)]) ≠ OutOfFuel.
Proof.
  intros Hg. apply loop_terminates. unfold potential, loop_fuel. simpl.
  pose proof (build_graph_adj_total _ _ _ Hg). lia.
Qed.

End DijkstraTermination.

(** ** Predecessor links of the [dijkstra] loop *)

Section DijkstraPath.
Import Dijkstra DijkstraInv.

(** Induction principle of the loop: [P] holds between iterations and [Q]
    when the loop is left. *)
Lemma loop_invariant (P Q : State → Prop) g t :
  (∀ st item rest, P st → pq_sort (pq st) = item :: rest →
     q_node item ∈ visited st →
     P (mkState (distances st) (previous st) (visited st) rest)) →
  (∀ st item rest, P st → pq_sort (pq st) = item :: rest →
     q_node item ∉ visited st → q_node item = t →
     Q (mkState (distances st) (previous st) ({[q_node item]} ∪ visited st) rest)) →
  (∀ st item rest, P st → pq_sort (pq st) = item :: rest →
     q_node item ∉ visited st → q_node item ≠ t →
     js_gt (q_distance item) (to_number (distances st !! q_node item)) = true →
     P (mkState (distances st) (previous st) ({[q_node item]} ∪ visited st) rest)) →
  (∀ st item rest nbrs, P st → pq_sort (pq st) = item :: rest →
     q_node item ∉ visited st → q_node item ≠ t →
     js_gt (q_distance item) (to_number (distances st !! q_node item)) = false →
     g !! q_node item = Some nbrs →
     P (foldl (relax (q_node item))
          (mkState (distances st) (previous st) ({[q_node item]} ∪ visited st) rest)
          nbrs)) →
  (∀ st, P st → pq_sort (pq st) = [] → Q st) →
  ∀ fuel st st', P st → loop fuel g t st = Returned st' → Q st'.
Proof.
  intros Hskip Hbreak Hstale Hexpand Hempty.
  induction fuel as [|fuel IH]; intros st st' HP; simpl; [done|].
  destruct (pq_sort (pq st)) as [|item rest] eqn:Hsort.
  { intros [= <-]. by apply Hempty. }
  destruct (decide (q_node item ∈ visited st)) as [Hv|Hv].
  { apply IH. by eapply Hskip. }
  destruct (decide (q_node item = t)) as [Ht|Ht].
  { intros [= <-]. by eapply Hbreak. }
  destruct (js_gt _ _) eqn:Hgt.
  { apply IH. by eapply Hstale. }
  destruct (g !! q_node item) as [nbrs|] eqn:Hg; [|done].
  apply IH. by eapply Hexpand.
Qed.

Lemma chain_insert p s v l x y :
  x ∉ l → chain p s v l → chain (<[x := y]> p) s v l.
Proof.
  intros Hx Hc. induction Hc as [Hs|v u l Hv Hc IH].
  - apply chain_root. rewrite lookup_insert_ne; [done|].
    intros ->. apply Hx, list_elem_of_here.
  - apply not_elem_of_app in Hx as [Hx1 Hx2].
    apply chain_step with u; [|by apply IH].
    rewrite lookup_insert_ne; [done|].
    intros ->. apply Hx2, list_elem_of_here.
Qed.

Lemma chain_ends p s v l : chain p s v l → head l = Some s ∧ last l = Some v.
Proof.
  induction 1 as [|v u l _ _ [IH _]]; [done|].
  split; [|apply last_snoc].
  destruct l; [done|]. simpl in *. done.
Qed.

Lemma chain_walk_back p s v l acc fuel :
  chain p s v l → (length l ≤ fuel)%nat →
  walk_back fuel p v acc = Returned (l ++ acc).
Proof.
  intros Hc. revert acc fuel.
  induction Hc as [Hs|v u l Hv Hc IH]; intros acc fuel Hlen.
  - destruct fuel; simpl in *; [lia|]. by rewrite Hs.
  - rewrite length_app in Hlen. simpl in Hlen.
    destruct fuel; simpl; [lia|]. rewrite Hv.
    rewrite IH by lia. by rewrite <- app_assoc.
Qed.

(** How [relax] acts when it updates. *)
Lemma relax_cases cur st a :
  (∀ k x, distances st !! k = Some x → x = PosInf ∨ ∃ z, x = Num z) →
  relax cur st a = st
  ∨ ((a_node a ∉ visited st)
     ∧ (∃ z, distances st !! cur = Some (Num z)
        ∧ is_Some (distances st !! a_node a)
        ∧ js_lt (Num (z + a_weight a)) (to_number (distances st !! a_node a)) = true
        ∧ relax cur st a
          = mkState (<[a_node a := Num (z + a_weight a)]> (distances st))
                    (<[a_node a := Some cur]> (previous st))
                    (visited st)
                    (pq st ++ [mkItem (a_node a) (Num (z + a_weight a))]))).
Proof.
  intros Hsh.
  unfold relax. destruct (decide (a_node a ∈ visited st)); [by left|].
  destruct (js_lt _ _) eqn:Hlt; [|by left]. right. split; [done|].
  destruct (distances st !! cur) as [x|] eqn:Hc; [|done].
  destruct (Hsh _ _ Hc) as [->|[z ->]]; [done|].
  exists z. split; [done|]. split; [|done].
  destruct (distances st !! a_node a); [eauto|]. simpl in Hlt. done.
Qed.

Lemma relax_path_inv g s cur st a :
  cur ∈ visited st → path_inv g s st → path_inv g s (relax cur st a).
Proof.
  intros Hcur Hinv.
  destruct (relax_cases cur st a (pi_shape _ _ _ Hinv))
    as [->|(Hv & z & Hz & Hdom & Hlt & ->)]; [done|].
  destruct Hinv as [Hdp Hdd Hsh Hst Hroot Hfr Hq Hvis].
  assert (is_Some (previous st !! a_node a)) as Hpdom.
  { rewrite Hdp, <- Hdd. done. }
  split; simpl.
  - intros k. rewrite lookup_insert_is_Some', <- Hdp.
    split; [intros [<-|?]; done|eauto].
  - intros k. rewrite lookup_insert_is_Some', <- Hdd.
    split; [intros [<-|?]; done|eauto].
  - intros k x. rewrite lookup_insert_Some. intros [[_ <-]|[_ ?]]; eauto.
  - done.
  - intros v Hvv. destruct (Hroot v Hvv) as (l & Hc & Hnd & Hsub).
    exists l. split; [|done]. apply chain_insert; [|done].
    intros Hin. by apply Hv, Hsub.
  - intros v z' Hvn. rewrite lookup_insert_Some.
    intros [[<- _]|[Hne Hd]].
    + exists cur. split; [apply lookup_insert_eq|done].
    + destruct (Hfr v z' Hvn Hd) as (u & Hu & Huv). exists u.
      split; [by rewrite lookup_insert_ne|done].
  - intros item [Hin|Hin%list_elem_of_singleton]%elem_of_app.
    + destruct (Hq item Hin) as [z' Hz'].
      destruct (decide (a_node a = q_node item)) as [<-|Hne].
      * rewrite lookup_insert_eq. eauto.
      * rewrite lookup_insert_ne by done. eauto.
    + subst item. simpl. rewrite lookup_insert_eq. eauto.
  - done.
Qed.

Lemma foldl_relax_path_inv g s cur nbrs st :
  cur ∈ visited st → path_inv g s st → path_inv g s (foldl (relax cur) st nbrs).
Proof.
  intros Hcur Hinv.
  apply (foldl_invariant (λ st, cur ∈ visited st ∧ path_inv g s st)); [|done].
  intros st' a _ [H1 H2]. split; [by rewrite relax_visited|by apply relax_path_inv].
Qed.

Lemma path_inv_visit g s st item rest :
  path_inv g s st → pq_sort (pq st) = item :: rest → q_node item ∉ visited st →
  path_inv g s (mkState (distances st) (previous st)
                  ({[q_node item]} ∪ visited st) rest).
Proof.
  intros [Hdp Hdd Hsh Hst Hroot Hfr Hq Hvis] Hsort Hv.
  assert (∀ i, i ∈ item :: rest → i ∈ pq st) as Hsub.
  { intros i. rewrite <- Hsort. by rewrite pq_sort_perm. }
  destruct (Hq item) as [z Hz]; [apply Hsub, list_elem_of_here|].
  split; simpl; try done.
  - set_solver.
  - intros v [Hx%elem_of_singleton|Hvv]%elem_of_union.
    + subst v. destruct (Hfr _ _ Hv Hz) as (u & Hu & Huv).
      destruct (Hroot u Huv) as (l & Hc & Hnd & Hl).
      exists (l ++ [q_node item]). split; [by eapply chain_step|]. split.
      * apply NoDup_app. split; [done|]. split; [|apply NoDup_singleton].
        intros x Hx Hx'%list_elem_of_singleton. subst x. by apply Hv, Hl.
      * intros x [Hx|Hx%list_elem_of_singleton]%elem_of_app; set_solver.
    + destruct (Hroot v Hvv) as (l & Hc & Hnd & Hl).
      exists l. split; [done|]. split; [done|]. set_solver.
  - intros v z' Hvn Hd. destruct (Hfr v z') as (u & Hu & Huv); [set_solver|done|].
    exists u. split; [done|]. set_solver.
  - intros i Hi. apply Hq, Hsub. by apply list_elem_of_further.
  - intros v [Hx%elem_of_singleton|Hvv]%elem_of_union; [|by apply Hvis].
    subst v. rewrite <- Hdd. eauto.
Qed.

Lemma loop_path_inv g s t fuel st st' :
  path_inv g s st → loop fuel g t st = Returned st' → path_inv g s st'.
Proof.
  apply (loop_invariant (path_inv g s) (path_inv g s)).
  - intros st0 item rest [Hdp Hdd Hsh Hst Hroot Hfr Hq Hvis] Hsort Hv.
    split; simpl; try done.
    intros i Hi. apply Hq. rewrite <- (pq_sort_perm (pq st0)), Hsort.
    by apply list_elem_of_further.
  - intros st0 item rest Hinv Hsort Hv _. by apply path_inv_visit.
  - intros st0 item rest Hinv Hsort Hv _ _. by apply path_inv_visit.
  - intros st0 item rest nbrs Hinv Hsort Hv _ _ _.
    apply foldl_relax_path_inv; [simpl; set_solver|by apply path_inv_visit].
  - done.
Qed.

End DijkstraPath.

Section DijkstraRoute.
Import Dijkstra DijkstraInv.

Lemma loop_returns g s t fuel st :
  path_inv g s st → (potential g st < fuel)%nat → returns (loop fuel g t st).
Proof.
  revert st. induction fuel as [|fuel IH]; intros st Hinv Hpot; [lia|].
  simpl. pose proof (pq_sort_length (pq st)) as Hlen.
  destruct (pq_sort (pq st)) as [|item rest] eqn:Hsort; [by eexists|].
  simpl in Hlen. unfold potential in *.
  assert (item ∈ pq st) as Hitem.
  { rewrite <- (pq_sort_perm (pq st)), Hsort. apply list_elem_of_here. }
  destruct (decide (q_node item ∈ visited st)) as [Hv|Hv].
  { apply IH; [|simpl; lia].
    destruct Hinv as [Hdp Hdd Hsh Hst Hroot Hfr Hq Hvis]. split; simpl; try done.
    intros i Hi. apply Hq. rewrite <- (pq_sort_perm (pq st)), Hsort.
    by apply list_elem_of_further. }
  destruct (decide (q_node item = t)); [by eexists|].
  pose proof (adj_total_mono g (visited st) (q_node item)).
  pose proof (path_inv_visit g s st item rest Hinv Hsort Hv) as Hinv1.
  destruct (js_gt _ _).
  { apply IH; [done|simpl; lia]. }
  destruct (pi_queue _ _ _ Hinv item Hitem) as [z Hz].
  assert (is_Some (g !! q_node item)) as [nbrs Hg].
  { rewrite <- (pi_dom_dist _ _ _ Hinv). eauto. }
  rewrite Hg. apply IH.
  - apply foldl_relax_path_inv; [simpl; set_solver|done].
  - rewrite foldl_relax_visited. simpl.
    pose proof (foldl_relax_pq_length (q_node item) nbrs
                  (mkState (distances st) (previous st)
                     ({[q_node item]} ∪ visited st) rest)) as Hq.
    simpl in Hq.
    pose proof (adj_total_visit g (visited st) (q_node item) nbrs Hg Hv). lia.
Qed.

Lemma path_inv_chain_to g s st t z :
  path_inv g s st → distances st !! t = Some (Num z) →
  ∃ l, chain (previous st) s t l ∧ NoDup l ∧ ∀ x, x ∈ l → is_Some (g !! x).
Proof.
  intros Hinv Hz. destruct (decide (t ∈ visited st)) as [Hv|Hv].
  - destruct (pi_rooted _ _ _ Hinv t Hv) as (l & Hc & Hnd & Hl).
    exists l. split; [done|]. split; [done|].
    intros x Hx. by apply (pi_visited _ _ _ Hinv), Hl.
  - destruct (pi_fringe _ _ _ Hinv t z Hv Hz) as (u & Hu & Huv).
    destruct (pi_rooted _ _ _ Hinv u Huv) as (l & Hc & Hnd & Hl).
    exists (l ++ [t]). split; [by eapply chain_step|]. split.
    + apply NoDup_app. split; [done|]. split; [|apply NoDup_singleton].
      intros x Hx Hx'%list_elem_of_singleton. subst x. by apply Hv, Hl.
    + intros x [Hx|Hx%list_elem_of_singleton]%elem_of_app.
      * by apply (pi_visited _ _ _ Hinv), Hl.
      * subst x. rewrite <- (pi_dom_dist _ _ _ Hinv). eauto.
Qed.

Lemma NoDup_length_le_nodes (l : list string) (nodes : list Node) :
  NoDup l → (∀ x, x ∈ l → x ∈ ids nodes) → (length l ≤ length nodes)%nat.
Proof.
  intros Hnd Hsub. pose proof (NoDup_submseteq _ _ Hnd Hsub) as H.
  apply submseteq_length in H. unfold ids in H. by rewrite length_fmap in H.
Qed.

(** The state reached after the origin has been popped and expanded. *)
Lemma first_iteration g s t fuel d p nbrs :
  s ≠ t → g !! s = Some nbrs → d !! s = Some (Num 0) →
  loop (S fuel) g t (mkState d p ∅ [mkItem s (Num 0)])
  = loop fuel g t (foldl (relax s) (mkState d p ({[s]} ∪ ∅) []) nbrs).
Proof.
  intros Hst Hg Hd. simpl.
  destruct (decide (s ∈ (∅ : gset string))) as [Hin|_]; [set_solver|].
  destruct (decide (s = t)); [done|].
  rewrite Hd. simpl. by rewrite Hg.
Qed.

Lemma initial_path_inv nodes g s :
  (∀ k, is_Some (g !! k) ↔ k ∈ ids nodes) → is_Some (g !! s) →
  path_inv g s (mkState (<[s := Num 0]> (init_distances nodes))
                  (init_previous nodes) ({[s]} ∪ ∅) []).
Proof.
  intros Hdom Hs. assert (s ∈ ids nodes) as Hsin by (by apply Hdom).
  split; simpl.
  - intros k. rewrite Hdom. unfold init_previous.
    rewrite fold_insert_empty_lookup. destruct (decide (k ∈ ids nodes)); split; try done.
    all: by (eauto || intros [? ?]).
  - intros k. rewrite Hdom, lookup_insert_is_Some'. unfold init_distances.
    rewrite fold_insert_empty_lookup. destruct (decide (k ∈ ids nodes)); split; try done.
    + eauto.
    + intros [<-|[? ?]]; done.
  - intros k x. rewrite lookup_insert_Some. unfold init_distances.
    rewrite fold_insert_empty_lookup. destruct (decide (k ∈ ids nodes)).
    + intros [[_ <-]|[_ [= <-]]]; eauto.
    + intros [[_ <-]|[_ ?]]; [eauto|done].
  - set_solver.
  - intros v Hv. assert (v = s) as -> by set_solver.
    exists [s]. split; [|split; [apply NoDup_singleton|set_solver]].
    apply chain_root. unfold init_previous. rewrite fold_insert_empty_lookup.
    by rewrite decide_True.
  - intros v z Hv. rewrite lookup_insert_ne by set_solver. unfold init_distances.
    rewrite fold_insert_empty_lookup. by destruct (decide _).
  - by intros item Hi%elem_of_nil.
  - intros v Hv. assert (v = s) as -> by set_solver. done.
Qed.

(** Once the adjacency structure is built, [dijkstra] returns a record, and a
    reported route runs from the origin to the destination. *)
Lemma dijkstra_route nodes edges g s t :
  build_graph nodes edges = Returned g →
  ∃ r, dijkstra nodes edges s t = Returned r
       ∧ (found r = true → head (path r) = Some s ∧ last (path r) = Some t).
Proof.
  intros Hg. unfold dijkstra.
  destruct (bool_decide (s = "") || bool_decide (t = "") || bool_decide (s = t))
    eqn:Hguard; [by eexists|].
  apply orb_false_iff in Hguard as [_ Hst]. apply bool_decide_eq_false in Hst.
  rewrite Hg. cbn [obind].
  pose proof (λ k, build_graph_lookup_is_Some nodes edges g k Hg) as Hdom.
  destruct (g !! s) as [nbrs|] eqn:Hs; [|by eexists].
  destruct (g !! t) as [nbrt|] eqn:Ht; [|by eexists].
  assert (init_distances nodes !! s = Some PosInf) as Hds.
  { unfold init_distances. rewrite fold_insert_empty_lookup.
    rewrite decide_True; [done|]. apply Hdom. by rewrite Hs. }
  unfold loop_fuel.
  replace (2 * length edges + 2)%nat with (S (2 * length edges + 1)) by lia.
  rewrite (first_iteration g s t _ _ _ nbrs Hst Hs) by apply lookup_insert_eq.
  pose proof (initial_path_inv nodes g s Hdom ltac:(by rewrite Hs)) as Hinv0.
  destruct (loop_returns g s t (2 * length edges + 1)
              (foldl (relax s)
                 (mkState (<[s := Num 0]> (init_distances nodes))
                    (init_previous nodes) ({[s]} ∪ ∅) []) nbrs)) as [st Hloop].
  { apply foldl_relax_path_inv; [simpl; set_solver|done]. }
  { unfold potential. rewrite foldl_relax_visited. simpl.
    pose proof (foldl_relax_pq_length s nbrs
                  (mkState (<[s := Num 0]> (init_distances nodes))
                     (init_previous nodes) ({[s]} ∪ ∅) [])) as Hq.
    simpl in Hq.
    pose proof (adj_total_visit g ∅ s nbrs Hs ltac:(set_solver)).
    pose proof (build_graph_adj_total _ _ _ Hg). lia. }
  rewrite Hloop. cbn [obind].
  assert (path_inv g s st) as Hinv.
  { eapply loop_path_inv; [|exact Hloop].
    apply foldl_relax_path_inv; [simpl; set_solver|done]. }
  destruct (is_infinity (distances st !! t)) eqn:Hinf; [by eexists|].
  assert (∃ z, distances st !! t = Some (Num z)) as [z Hz].
  { assert (is_Some (distances st !! t)) as [x Hx].
    { rewrite (pi_dom_dist _ _ _ Hinv). by rewrite Ht. }
    destruct (pi_shape _ _ _ Hinv t x Hx) as [->|[z ->]]; [|eauto].
    rewrite Hx in Hinf. done. }
  destruct (path_inv_chain_to g s st t z Hinv Hz) as (l & Hc & Hnd & Hl).
  rewrite (chain_walk_back _ _ _ _ [] (S (length nodes)) Hc).
  - cbn [obind]. eexists. split; [done|]. simpl. intros _. rewrite app_nil_r.
    by eapply chain_ends.
  - pose proof (NoDup_length_le_nodes l nodes Hnd) as Hle.
    assert (length l ≤ length nodes)%nat; [|lia].
    apply Hle. intros x Hx. by apply Hdom, Hl.
Qed.

End DijkstraRoute.

(** ** [bellmanFord] always returns *)

Section BellmanFordTotal.
Import BellmanFord BellmanFordInv.

Lemma relaxable_cases d e :
  (∀ k x, d !! k = Some x → x = PosInf ∨ ∃ z, x = Num z) →
  relaxable d e = true →
  ∃ z, d !! d_from e = Some (Num z)
       ∧ is_Some (d !! d_to e)
       ∧ js_lt (Num (z + d_weight e)) (to_number (d !! d_to e)) = true.
Proof.
  intros Hsh. unfold relaxable. intros [Hinf Hlt]%andb_true_iff.
  destruct (d !! d_from e) as [x|] eqn:Hf; [|done].
  destruct (Hsh _ _ Hf) as [->|[z ->]]; [done|].
  exists z. split; [done|]. split; [|done].
  destruct (d !! d_to e); [eauto|done].
Qed.

Lemma relax_edge_labels_ok nodes lb b e :
  labels_ok nodes lb → labels_ok nodes (relax_edge (lb, b) e).1.
Proof.
  intros Hok. unfold relax_edge.
  destruct (relaxable (distances lb) e) eqn:Hr; [|done].
  destruct (relaxable_cases _ _ (lo_shape _ _ Hok) Hr) as (z & Hz & Hto & Hlt).
  destruct Hok as [Hdd Hdp Hsh Hlk Hlf].
  rewrite Hz. simpl. split; simpl.
  - intros k. rewrite lookup_insert_is_Some', <- Hdd.
    split; [intros [<-|?]; done|eauto].
  - intros k. rewrite lookup_insert_is_Some', <- Hdd.
    split; [intros [<-|?]; [done|by rewrite Hdd, <- Hdp]|].
    intros Hk. right. by rewrite Hdp, <- Hdd.
  - intros k x. rewrite lookup_insert_Some. intros [[_ <-]|[_ ?]]; eauto.
  - intros v u. rewrite lookup_insert_Some. intros [[_ [= <-]]|[_ ?]]; [|eauto].
    rewrite <- Hdd. eauto.
  - intros v u Hvu.
    assert (∃ z', distances lb !! u = Some (Num z')) as [z' Hz'].
    { apply lookup_insert_Some in Hvu as [[_ [= <-]]|[_ ?]]; eauto. }
    destruct (decide (d_to e = u)) as [<-|Hne].
    + rewrite lookup_insert_eq. eauto.
    + rewrite lookup_insert_ne by done. eauto.
Qed.

Lemma relax_pass_labels_ok nodes bi lb :
  labels_ok nodes lb → labels_ok nodes (relax_pass bi lb).1.
Proof.
  intros Hok. unfold relax_pass.
  apply (foldl_invariant (λ acc : Labels * bool, labels_ok nodes acc.1)); [|done].
  intros [lb' b] e _ H. by apply relax_edge_labels_ok.
Qed.

Lemma relax_loop_labels_ok nodes k bi lb :
  labels_ok nodes lb → labels_ok nodes (relax_loop k bi lb).
Proof.
  revert lb. induction k as [|k IH]; intros lb Hok; simpl; [done|].
  pose proof (relax_pass_labels_ok nodes bi lb Hok) as H.
  destruct (relax_pass bi lb) as [lb' updated]. simpl in H.
  destruct updated; [by apply IH|done].
Qed.

Lemma initial_labels_ok nodes s :
  s ∈ ids nodes →
  labels_ok nodes (mkLabels (<[s := Num 0]> (init_distances nodes)) (init_previous nodes)).
Proof.
  intros Hs. split; simpl.
  - intros k. rewrite lookup_insert_is_Some'. unfold init_distances.
    rewrite fold_insert_empty_lookup. destruct (decide (k ∈ ids nodes)); split; try done.
    + eauto.
    + intros [<-|[? ?]]; done.
  - intros k. unfold init_previous. rewrite fold_insert_empty_lookup.
    destruct (decide (k ∈ ids nodes)); split; try done.
    all: by (eauto || intros [? ?]).
  - intros k x. rewrite lookup_insert_Some. unfold init_distances.
    rewrite fold_insert_empty_lookup. destruct (decide (k ∈ ids nodes)).
    + intros [[_ <-]|[_ [= <-]]]; eauto.
    + intros [[_ <-]|[_ ?]]; [eauto|done].
  - intros v u. unfold init_previous. rewrite fold_insert_empty_lookup.
    by destruct (decide _).
  - intros v u. unfold init_previous. rewrite fold_insert_empty_lookup.
    by destruct (decide _).
Qed.

Lemma walk_back_returns nodes p fuel cur seen acc :
  (∀ k, is_Some (p !! k) ↔ k ∈ ids nodes) →
  (∀ v u, p !! v = Some (Some u) → u ∈ ids nodes) →
  cur ∈ ids nodes →
  (size ((list_to_set (ids nodes) : gset string) ∖ seen) < fuel)%nat →
  returns (walk_back fuel p cur seen acc).
Proof.
  intros Hdom Hlk. revert cur seen acc.
  induction fuel as [|fuel IH]; intros cur seen acc Hcur Hsize; [lia|].
  simpl. destruct (decide (cur ∈ seen)) as [Hin|Hout]; [by eexists|].
  destruct (p !! cur) as [[u|]|] eqn:Hp.
  - apply IH; [by eapply Hlk|].
    assert (list_to_set (ids nodes) ∖ ({[cur]} ∪ seen)
            ⊂ (list_to_set (ids nodes) : gset string) ∖ seen) as Hsub.
    { apply strict_spec_alt. split; [set_solver|].
      intros Heq. assert (cur ∈ (list_to_set (ids nodes) : gset string) ∖ seen) as Hc.
      { apply elem_of_difference. split; [by apply elem_of_list_to_set|done]. }
      rewrite <- Heq in Hc. set_solver. }
    apply subset_size in Hsub. lia.
  - by eexists.
  - apply Hdom in Hcur. rewrite Hp in Hcur. by destruct Hcur.
Qed.

Lemma size_ids_le nodes :
  (size (list_to_set (ids nodes) : gset string) ≤ length nodes)%nat.
Proof.
  unfold ids. induction nodes as [|n nodes IH].
  - change (size (∅ : gset string) ≤ 0)%nat. by rewrite size_empty.
  - change (size ({[n_id n]} ∪ list_to_set (n_id <$> nodes) : gset string)
            ≤ S (length nodes))%nat.
    rewrite size_union_alt.
    rewrite size_singleton.
    assert (size ((list_to_set (n_id <$> nodes) : gset string) ∖ {[n_id n]})
            ≤ size (list_to_set (n_id <$> nodes) : gset string))%nat.
    { apply subseteq_size. set_solver. }
    lia.
Qed.

(** [bellmanFord] returns a record on every snapshot and every pair of
    identifiers. *)
Lemma bellmanFord_returns nodes edges s t :
  returns (bellmanFord nodes edges s t).
Proof.
  unfold bellmanFord.
  destruct (bool_decide (nodes = [])); [by eexists|].
  destruct (bool_decide (s = "") || bool_decide (t = "")); [by eexists|].
  destruct (bool_decide (s = t)); [by eexists|].
  destruct (bool_decide (s ∈ nodeIds nodes)) eqn:Hs; [|by eexists].
  destruct (bool_decide (t ∈ nodeIds nodes)) eqn:Ht; [|by eexists].
  cbn [negb orb].
  apply bool_decide_eq_true in Hs, Ht. unfold nodeIds in Hs, Ht.
  apply elem_of_list_to_set in Hs, Ht.
  destruct (bool_decide (bidirectional (activeEdges edges) = [])); [by eexists|].
  set (lb := relax_loop _ _ _).
  assert (labels_ok nodes lb) as Hok.
  { apply relax_loop_labels_ok. by apply initial_labels_ok. }
  destruct (bool_decide (t ∈ tainted _ _ _)); [by eexists|].
  destruct (is_infinity _); [by eexists|].
  destruct (walk_back_returns nodes (previous lb) (S (length nodes)) t ∅ [])
    as [r Hr].
  - apply Hok.
  - apply Hok.
  - done.
  - pose proof (size_ids_le nodes).
    assert (size ((list_to_set (ids nodes) : gset string) ∖ ∅)
            ≤ size (list_to_set (ids nodes) : gset string))%nat.
    { apply subseteq_size. set_solver. }
    lia.
  - rewrite Hr. cbn [obind]. destruct r as [[]|p]; [by eexists|].
    destruct (_ || _); by eexists.
Qed.

End BellmanFordTotal.

(** ** Adjacency lists and the edges they come from *)

Lemma has_entry_insert {A} (g : gmap string (list A)) k l l' x y z :
  g !! k = Some l → (∀ z, z ∈ l' ↔ z ∈ l ∨ z = x) →
  has_entry (<[k := l']> g) y z ↔ has_entry g y z ∨ (y = k ∧ z = x).
Proof.
  intros Hk Hl'. unfold has_entry. split.
  - intros (l0 & Hy & Hz). apply lookup_insert_Some in Hy as [[<- <-]|[Hne Hy]].
    + apply Hl' in Hz as [Hz| ->]; eauto.
    + eauto.
  - intros [(l0 & Hy & Hz)|[-> ->]].
    + destruct (decide (k = y)) as [<-|Hne].
      * exists l'. rewrite lookup_insert_eq. split; [done|].
        apply Hl'. left. congruence.
      * exists l0. by rewrite lookup_insert_ne.
    + exists l'. rewrite lookup_insert_eq. split; [done|]. apply Hl'. by right.
Qed.

Lemma elem_of_snoc {A} (l : list A) x z : z ∈ l ++ [x] ↔ z ∈ l ∨ z = x.
Proof. by rewrite elem_of_app, list_elem_of_singleton. Qed.

Lemma joins_pair_sym a b e : joins_pair a b e ↔ joins_pair b a e.
Proof. unfold joins_pair. tauto. Qed.

Lemma linked_sym edges a b : linked edges a b → linked edges b a.
Proof. intros (e & He & Hb & Hj). exists e. by rewrite joins_pair_sym. Qed.

Lemma rtc_linked_sym edges a b : rtc (linked edges) a b → rtc (linked edges) b a.
Proof.
  induction 1 as [|a b c Hab _ IH]; [done|].
  eapply rtc_r; [exact IH|]. by apply linked_sym.
Qed.

Lemma linked_cons edges e a b :
  linked (e :: edges) a b ↔ (e_blocked e = false ∧ joins_pair a b e) ∨ linked edges a b.
Proof.
  unfold linked. split.
  - intros (e' & [->|He]%elem_of_cons & Hb & Hj); [by left|right; eauto].
  - intros [[Hb Hj]|(e' & He & Hb & Hj)].
    + exists e. split; [apply list_elem_of_here|done].
    + exists e'. split; [by apply list_elem_of_further|done].
Qed.

Section Connectivity.
Import GraphTheory GraphTheoryInv.

Lemma push_edge_spec g e g' :
  push_edge g e = Returned g' →
  (∀ k, is_Some (g' !! k) ↔ is_Some (g !! k))
  ∧ ∀ y z, has_entry g' y z
           ↔ has_entry g y z ∨ (e_blocked e = false ∧ joins_pair y z e).
Proof.
  unfold push_edge. destruct (e_blocked e) eqn:Hb.
  { intros [= <-]. split; [done|]. intros y z. split; [by left|].
    by intros [?|[? _]]. }
  destruct (g !! e_from e) as [l1|] eqn:H1; [|done].
  destruct (<[_ := _]> g !! e_to e) as [l2|] eqn:H2; [|done].
  intros [= <-]. split.
  - assert (is_Some (g !! e_to e)) as Hto.
    { assert (is_Some (<[e_from e := l1 ++ [e_to e]]> g !! e_to e)) as Hs by eauto.
      apply lookup_insert_is_Some' in Hs as [<-|?]; [by rewrite H1|done]. }
    intros k. rewrite !lookup_insert_is_Some'. split.
    + intros [<-|[<-|?]]; [done|by rewrite H1|done].
    + eauto.
  - intros y z.
    rewrite (has_entry_insert _ _ l2 _ (e_from e)) by (done || apply elem_of_snoc).
    rewrite (has_entry_insert _ _ l1 _ (e_to e)) by (done || apply elem_of_snoc).
    unfold joins_pair. naive_solver.
Qed.

Lemma forEach_push_edge_spec edges g g' :
  forEach push_edge edges g = Returned g' →
  (∀ k, is_Some (g' !! k) ↔ is_Some (g !! k))
  ∧ ∀ y z, has_entry g' y z ↔ has_entry g y z ∨ linked edges y z.
Proof.
  revert g. induction edges as [|e edges IH]; intros g; simpl.
  - intros [= <-]. split; [done|]. intros y z. split; [by left|].
    intros [?|(e & He & _)]; [done|]. by apply elem_of_nil in He.
  - intros (g1 & H1 & H2)%obind_returned.
    apply push_edge_spec in H1 as [Hd1 He1]. apply IH in H2 as [Hd2 He2].
    split; [intros k; by rewrite Hd2|].
    intros y z. rewrite He2, He1, linked_cons. tauto.
Qed.

Lemma init_graph_lookup nodes k :
  init_graph nodes !! k = if decide (k ∈ ids nodes) then Some [] else None.
Proof. unfold init_graph. apply fold_insert_empty_lookup. Qed.

Lemma init_graph_no_entry nodes y z : ¬ has_entry (init_graph nodes) y (z : string).
Proof.
  intros (l & Hl & Hz). rewrite init_graph_lookup in Hl.
  destruct (decide _); [|done]. injection Hl as <-. by apply elem_of_nil in Hz.
Qed.

Lemma forEach_push_edge_returns nodes edges :
  endpoints_valid nodes edges →
  ∃ g, forEach push_edge edges (init_graph nodes) = Returned g
       ∧ (∀ k, is_Some (g !! k) ↔ k ∈ ids nodes)
       ∧ ∀ y z, has_entry g y z ↔ linked edges y z.
Proof.
  intros Hv. unfold endpoints_valid in Hv. rewrite Forall_forall in Hv.
  destruct (forEach_returns (λ g, ∀ k, is_Some (g !! k) ↔ k ∈ ids nodes)
              push_edge edges (init_graph nodes)) as (g & Hg & Hdom).
  - intros g e He Hg. unfold push_edge.
    destruct (e_blocked e) eqn:Hb; [eauto|].
    destruct (Hv e He Hb) as [Hf Ht].
    apply Hg in Hf as [l1 H1]. rewrite H1.
    assert (is_Some (<[e_from e := l1 ++ [e_to e]]> g !! e_to e)) as [l2 H2].
    { rewrite lookup_insert_is_Some'. right. by apply Hg. }
    rewrite H2. eexists; split; [done|].
    intros k. rewrite <- Hg. rewrite !lookup_insert_is_Some'. split.
    + intros [<-|[<-|?]]; [by apply Hg|by rewrite H1|done].
    + eauto.
  - intros k. rewrite init_graph_lookup.
    destruct (decide (k ∈ ids nodes)); split; try done; try by eauto.
    all: by intros [? ?].
  - exists g. split; [done|]. split; [done|].
    apply forEach_push_edge_spec in Hg as [_ Hg]. intros y z. rewrite Hg.
    split; [|by right]. intros [H|H]; [|done]. by apply init_graph_no_entry in H.
Qed.

Lemma dfs_spec (g : gmap string (list string)) :
  (∀ y z, has_entry g y z → is_Some (g !! z)) →
  ∀ fuel x vis,
    is_Some (g !! x) → x ∉ vis → (size (dom g ∖ vis) ≤ fuel)%nat →
    ∃ vis', dfs fuel g x vis = Returned vis' ∧ dfs_post g x vis vis'.
Proof.
  intros Hclosed. induction fuel as [|fuel IH]; intros x vis [nbrs Hx] Hxv Hsize.
  { assert (x ∈ dom g ∖ vis) as Hin.
    { apply elem_of_difference. split; [|done]. apply elem_of_dom. eauto. }
    assert (size (dom g ∖ vis) ≠ 0)%nat; [|lia].
    apply size_non_empty_iff. set_solver. }
  simpl. rewrite Hx.
  set (body := λ (vis0 : gset string) (neighbor : string),
         if decide (neighbor ∈ vis0) then Returned vis0 else dfs fuel g neighbor vis0).
  set (J := λ cur : gset string, ∀ y, y ∈ cur → y ∉ vis → y ≠ x →
         is_Some (g !! y) ∧ rtc (has_entry g) x y ∧ ∀ z, has_entry g y z → z ∈ cur).
  assert (∀ rest cur, (∀ z, z ∈ rest → z ∈ nbrs) → {[x]} ∪ vis ⊆ cur → J cur →
            ∃ vf, forEach body rest cur = Returned vf ∧ cur ⊆ vf
                  ∧ (∀ z, z ∈ rest → z ∈ vf) ∧ J vf) as Hinner.
  { induction rest as [|z rest IHrest]; intros cur Hrest Hsub HJ.
    { exists cur. split; [done|]. split; [done|]. split; [|done].
      by intros z Hz%elem_of_nil. }
    simpl. unfold body at 1.
    assert (has_entry g x z) as Hxz.
    { exists nbrs. split; [done|]. apply Hrest, list_elem_of_here. }
    destruct (decide (z ∈ cur)) as [Hz|Hz].
    - simpl. destruct (IHrest cur) as (vf & Hvf & Hs & Hr & HJf); [|done|done|].
      { intros ??. apply Hrest. by apply list_elem_of_further. }
      exists vf. split; [done|]. split; [done|]. split; [|done].
      intros z' [->|?]%elem_of_cons; [by apply Hs|by apply Hr].
    - destruct (IH z cur) as (v1 & Hv1 & Hs1 & Hz1 & Hnew).
      + by eapply Hclosed.
      + done.
      + assert (dom g ∖ cur ⊂ dom g ∖ vis) as Hlt.
        { apply strict_spec_alt. split; [set_solver|]. intros Heq.
          assert (x ∈ dom g ∖ vis) as Hc.
          { apply elem_of_difference. split; [|done]. apply elem_of_dom. eauto. }
          rewrite <- Heq in Hc. set_solver. }
        apply subset_size in Hlt. lia.
      + rewrite Hv1. simpl. destruct (IHrest v1) as (vf & Hvf & Hs & Hr & HJf).
        * intros ??. apply Hrest. by apply list_elem_of_further.
        * set_solver.
        * intros y Hy Hyv Hyx. destruct (decide (y ∈ cur)) as [Hyc|Hyc].
          -- destruct (HJ y Hyc Hyv Hyx) as (? & ? & Hcl).
             split; [done|]. split; [done|]. intros z' Hz'. by apply Hs1, Hcl.
          -- destruct (Hnew y Hy Hyc) as (? & Hreach & Hcl).
             split; [done|]. split; [|done]. by eapply rtc_l.
        * exists vf. split; [done|]. split; [set_solver|]. split; [|done].
          intros z' [->|?]%elem_of_cons; [by apply Hs|by apply Hr]. }
  destruct (Hinner nbrs ({[x]} ∪ vis)) as (vf & Hvf & Hs & Hr & HJf).
  - done.
  - done.
  - intros y Hy Hyv Hyx. set_solver.
  - exists vf. split; [done|]. split; [set_solver|]. split; [set_solver|].
    intros y Hy Hyv. destruct (decide (y = x)) as [->|Hne].
    + split; [eauto|]. split; [done|]. intros z (l & Hl & Hz).
      rewrite Hx in Hl. injection Hl as <-. by apply Hr.
    + by apply HJf.
Qed.

End Connectivity.

Section ConnectivityResult.
Import GraphTheory GraphTheoryInv.

Lemma rtc_iff {A} (R1 R2 : relation A) x y :
  (∀ a b, R1 a b ↔ R2 a b) → rtc R1 x y ↔ rtc R2 x y.
Proof.
  intros H. split; induction 1 as [|a b c Hab _ IH]; try done.
  - eapply rtc_l; [by apply H|done].
  - eapply rtc_l; [by apply H|done].
Qed.

Lemma dom_of_ids {A} (g : gmap string A) nodes :
  (∀ k, is_Some (g !! k) ↔ k ∈ ids nodes) → dom g = list_to_set (ids nodes).
Proof.
  intros H. apply set_eq. intros k.
  by rewrite elem_of_dom, H, elem_of_list_to_set.
Qed.

(** The loop over the nodes that counts the components. *)
Lemma component_loop g nodes rest vis c :
  (∀ y z, has_entry g y z → is_Some (g !! z)) →
  (∀ k, is_Some (g !! k) ↔ k ∈ ids nodes) →
  (∀ n, n ∈ rest → n_id n ∈ ids nodes) →
  ∃ vis' c',
    forEach (λ (acc : gset string * nat) node,
               if decide (n_id node ∈ acc.1) then Returned acc
               else let* vis0 := dfs (length nodes) g (n_id node) acc.1 in
                    Returned (vis0, S acc.2))
            rest (vis, c) = Returned (vis', c')
    ∧ (c ≤ c')%nat
    ∧ (c' = c ↔ ∀ n, n ∈ rest → n_id n ∈ vis).
Proof.
  intros Hclosed Hdom. revert vis c.
  induction rest as [|n rest IH]; intros vis c Hrest.
  { exists vis, c. split; [done|]. split; [done|]. split; [|done].
    by intros _ n Hn%elem_of_nil. }
  simpl. destruct (decide (n_id n ∈ vis)) as [Hin|Hout].
  - simpl. destruct (IH vis c) as (vis' & c' & Hrun & Hle & Hiff).
    { intros ??. apply Hrest. by apply list_elem_of_further. }
    exists vis', c'. split; [done|]. split; [done|]. rewrite Hiff. split.
    + intros H n' [->|?]%elem_of_cons; [done|by apply H].
    + intros H n' Hn'. apply H. by apply list_elem_of_further.
  - destruct (dfs_spec g Hclosed (length nodes) (n_id n) vis) as (vis1 & Hdfs & Hpost).
    + apply Hdom, Hrest, list_elem_of_here.
    + done.
    + rewrite (dom_of_ids g nodes Hdom).
      etrans; [|apply size_ids_le]. apply subseteq_size. set_solver.
    + rewrite Hdfs. simpl.
      destruct (IH vis1 (S c)) as (vis' & c' & Hrun & Hle & Hiff).
      { intros ??. apply Hrest. by apply list_elem_of_further. }
      exists vis', c'. split; [done|]. split; [lia|]. split; [lia|].
      intros H. exfalso. apply Hout, H, list_elem_of_here.
Qed.

(** [isGraphConnected] decides connectivity on a snapshot whose unblocked
    edges join listed nodes. *)
Lemma isGraphConnected_spec nodes edges :
  endpoints_valid nodes edges →
  ∃ c, isGraphConnected nodes edges = Returned c
       ∧ (connected c = true ↔ connected_graph nodes edges).
Proof.
  intros Hv. unfold isGraphConnected.
  destruct nodes as [|n1 [|n2 rest]].
  { eexists. split; [done|]. split; [|done]. intros _ a b Ha. by apply elem_of_nil in Ha. }
  { eexists. split; [done|]. split; [|done]. intros _ a b Ha Hb.
    apply list_elem_of_singleton in Ha, Hb. by subst. }
  set (nodes := n1 :: n2 :: rest) in *.
  destruct (forEach_push_edge_returns nodes edges Hv) as (g & Hg & Hdom & Hadj).
  rewrite Hg. cbn [obind].
  assert (∀ y z, has_entry g y z → is_Some (g !! z)) as Hclosed.
  { intros y z Hyz. apply Hdom. apply Hadj in Hyz as (e & He & Hb & Hj).
    unfold endpoints_valid in Hv. rewrite Forall_forall in Hv.
    destruct (Hv e He Hb) as [Hf Ht]. destruct Hj as [[_ <-]|[_ <-]]; done. }
  assert (n_id n1 ∈ ids nodes) as Hn1 by apply list_elem_of_here.
  change (forEach ?f nodes ?a) with (forEach f (n1 :: n2 :: rest) a).
  cbn [forEach]. destruct (decide (n_id n1 ∈ (∅, 0%nat).1)) as [Hin|_]; [set_solver|].
  destruct (dfs_spec g Hclosed (length nodes) (n_id n1) ∅) as (vis1 & Hdfs & Hpost).
  { by apply Hdom. }
  { set_solver. }
  { rewrite (dom_of_ids g nodes Hdom).
    etrans; [|apply size_ids_le]. apply subseteq_size. set_solver. }
  cbn [fst snd]. rewrite Hdfs. cbn [obind].
  destruct (component_loop g nodes (n2 :: rest) vis1 1 Hclosed Hdom)
    as (vis' & c' & Hrun & Hle & Hiff).
  { intros n Hn. unfold ids. apply list_elem_of_fmap. exists n. split; [done|].
    by apply list_elem_of_further. }
  cbn [forEach] in Hrun. rewrite Hrun. cbn [obind]. eexists. split; [done|]. simpl.
  rewrite bool_decide_eq_true, Hiff.
  destruct Hpost as (_ & Hn1v & Hnew).
  assert (∀ y, y ∈ vis1 ↔ rtc (linked edges) (n_id n1) y) as Hvis.
  { intros y. rewrite <- (rtc_iff (has_entry g) (linked edges)) by apply Hadj. split.
    - intros Hy. apply Hnew; [done|set_solver].
    - revert y. apply rtc_ind_r; [done|]. intros a b _ Hab IH.
      destruct (Hnew a IH ltac:(set_solver)) as (_ & _ & Hcl). by apply Hcl. }
  split.
  - intros Hall a b Ha Hb.
    assert (∀ x, x ∈ ids nodes → rtc (linked edges) (n_id n1) x) as Hfrom.
    { intros x Hx. unfold ids in Hx.
      apply list_elem_of_fmap in Hx as (n & -> & Hn).
      apply elem_of_cons in Hn as [->|Hn]; [done|]. apply Hvis. by apply Hall. }
    etrans; [apply rtc_linked_sym, Hfrom, Ha|apply Hfrom, Hb].
  - intros Hconn n Hn. apply Hvis, Hconn; [done|].
    unfold ids. apply list_elem_of_fmap. exists n. split; [done|].
    by apply list_elem_of_further.
Qed.

End ConnectivityResult.

(** ** Degrees *)

Section Degrees.
Import GraphTheory.

Lemma endpoint_count_nonneg v e : 0 ≤ endpoint_count v e.
Proof. unfold endpoint_count. repeat case_match; lia. Qed.

Lemma degree_nonneg edges v : 0 ≤ degree edges v.
Proof.
  induction edges as [|e edges IH]; simpl; [done|].
  pose proof (endpoint_count_nonneg v e). lia.
Qed.

Lemma activeEdges_spec edges e :
  e ∈ activeEdges edges ↔ e ∈ edges ∧ e_blocked e = false.
Proof. unfold activeEdges. rewrite list_elem_of_filter. tauto. Qed.

Lemma activeEdges_nil edges : activeEdges edges = [] ↔ no_open_edge edges.
Proof.
  unfold no_open_edge. rewrite Forall_forall. split.
  - intros Hnil e He. destruct (e_blocked e) eqn:Hb; [done|].
    assert (e ∈ activeEdges edges) as Hin by (by apply activeEdges_spec).
    rewrite Hnil in Hin. by apply elem_of_nil in Hin.
  - intros Hall. destruct (activeEdges edges) as [|e l] eqn:Ha; [done|].
    assert (e ∈ activeEdges edges) as Hin by (rewrite Ha; apply list_elem_of_here).
    apply activeEdges_spec in Hin as [Hin Hb]. rewrite (Hall e Hin) in Hb. done.
Qed.

Lemma degree_activeEdges edges v : degree (activeEdges edges) v = degree edges v.
Proof.
  unfold activeEdges. induction edges as [|e edges IH]; [done|].
  rewrite filter_cons. destruct (decide (e_blocked e = false)) as [Hb|Hb]; simpl.
  - by rewrite IH.
  - rewrite IH. unfold endpoint_count. destruct (e_blocked e); [lia|done].
Qed.

Lemma linked_activeEdges edges a b : linked (activeEdges edges) a b ↔ linked edges a b.
Proof.
  unfold linked. split.
  - intros (e & He%activeEdges_spec & Hb & Hj). exists e. tauto.
  - intros (e & He & Hb & Hj). exists e. by rewrite activeEdges_spec.
Qed.

Lemma connected_activeEdges nodes edges :
  connected_graph nodes (activeEdges edges) ↔ connected_graph nodes edges.
Proof.
  unfold connected_graph. split; intros H a b Ha Hb.
  - apply (rtc_iff (linked (activeEdges edges)) (linked edges));
      [apply linked_activeEdges|by apply H].
  - apply (rtc_iff (linked (activeEdges edges)) (linked edges));
      [apply linked_activeEdges|by apply H].
Qed.

Lemma endpoints_valid_activeEdges nodes edges :
  endpoints_valid nodes edges → endpoints_valid nodes (activeEdges edges).
Proof.
  unfold endpoints_valid. rewrite !Forall_forall.
  intros H e He%activeEdges_spec. apply H, He.
Qed.

Lemma incr_lookup d k z k' :
  d !! k = Some (Num z) →
  incr d k !! k' = if decide (k = k') then Some (Num (z + 1)) else d !! k'.
Proof.
  intros Hk. unfold incr. rewrite Hk. simpl.
  destruct (decide (k = k')) as [<-|Hne].
  - by rewrite lookup_insert_eq.
  - by rewrite lookup_insert_ne.
Qed.

Lemma fold_degrees nodes edges (d0 : gmap string jsnum) (c : string → Z) :
  endpoints_valid nodes edges →
  (∀ k, d0 !! k = if decide (k ∈ ids nodes) then Some (Num (c k)) else None) →
  ∀ k, foldl (λ d e, if e_blocked e then d else incr (incr d (e_from e)) (e_to e))
         d0 edges !! k
       = if decide (k ∈ ids nodes) then Some (Num (c k + degree edges k)) else None.
Proof.
  unfold endpoints_valid. revert d0 c.
  induction edges as [|e edges IH]; intros d0 c Hv Hd0 k; simpl.
  { rewrite Hd0. destruct (decide _); [|done]. do 2 f_equal. lia. }
  apply Forall_cons in Hv as [He Hv].
  rewrite (IH _ (λ k, c k + endpoint_count k e)); [|done|].
  - destruct (decide _); [|done]. do 2 f_equal. lia.
  - intros k'. unfold endpoint_count. destruct (e_blocked e) eqn:Hb.
    { rewrite Hd0. destruct (decide _); [|done]. do 2 f_equal. lia. }
    destruct (He eq_refl) as [Hf Ht].
    assert (d0 !! e_from e = Some (Num (c (e_from e)))) as H1.
    { rewrite Hd0. by rewrite decide_True. }
    assert (∃ z, incr d0 (e_from e) !! e_to e = Some (Num z)
                 ∧ z = c (e_to e) + (if decide (e_from e = e_to e) then 1 else 0))
      as (z & H2 & Hz).
    { rewrite (incr_lookup _ _ _ _ H1). destruct (decide (e_from e = e_to e)) as [Heq|Hne].
      - eexists. split; [done|]. rewrite Heq. done.
      - eexists. split; [rewrite Hd0; by rewrite decide_True|]. lia. }
    rewrite (incr_lookup _ _ _ _ H2), (incr_lookup _ _ _ _ H1), Hd0.
    destruct (decide (e_to e = k')) as [Heq1|Hne1];
      destruct (decide (e_from e = k')) as [Heq2|Hne2].
    + rewrite decide_True in Hz by congruence. rewrite Heq1 in Hz, Ht.
      rewrite decide_True by done. do 2 f_equal; lia.
    + rewrite decide_False in Hz by congruence. rewrite Heq1 in Hz, Ht.
      rewrite decide_True by done. do 2 f_equal; lia.
    + rewrite Heq2 in Hf |- *. rewrite decide_True by done. do 2 f_equal; lia.
    + destruct (decide (k' ∈ ids nodes)); [|done]. do 2 f_equal; lia.
Qed.

(** [calculateDegrees] stores, for each listed node, its degree. *)
Lemma calculateDegrees_lookup nodes edges k :
  endpoints_valid nodes edges →
  calculateDegrees nodes edges !! k
  = if decide (k ∈ ids nodes) then Some (Num (degree edges k)) else None.
Proof.
  intros Hv. unfold calculateDegrees.
  rewrite (fold_degrees nodes edges _ (λ _, 0) Hv).
  - destruct (decide _); [|done]. do 2 f_equal.
  - intros k'. apply fold_insert_empty_lookup.
Qed.

Lemma is_odd_degree edges v : is_odd (Num (degree edges v)) = Z.odd (degree edges v).
Proof.
  pose proof (degree_nonneg edges v) as Hnn. simpl.
  rewrite Z.rem_mod_nonneg by lia. rewrite Zmod_odd.
  by destruct (Z.odd (degree edges v)).
Qed.

(** The count reported by [analyzeEulerian] is the number of listed nodes of
    odd degree. *)
Lemma odd_vertices_length nodes edges :
  endpoints_valid nodes edges →
  length (odd_vertices (calculateDegrees nodes edges)) = odd_degree_count nodes edges.
Proof.
  intros Hv. unfold odd_vertices, odd_degree_count.
  apply Permutation_length, NoDup_Permutation.
  - apply NoDup_fst_map_to_list.
  - apply NoDup_filter, NoDup_remove_dups.
  - intros x. rewrite list_elem_of_filter, elem_of_remove_dups, list_elem_of_fmap.
    split.
    + intros ([k v] & -> & Hkv%elem_of_map_to_list). simpl.
      apply map_lookup_filter_Some in Hkv as [Hk Hodd]. cbn [snd] in Hodd.
      rewrite (calculateDegrees_lookup _ _ _ Hv) in Hk.
      destruct (decide (k ∈ ids nodes)); [|done]. injection Hk as <-.
      by rewrite is_odd_degree in Hodd.
    + intros [Hodd Hin]. exists (x, Num (degree edges x)). split; [done|].
      apply elem_of_map_to_list, map_lookup_filter_Some. split.
      * rewrite (calculateDegrees_lookup _ _ _ Hv). by rewrite decide_True.
      * cbn [snd]. by rewrite is_odd_degree.
Qed.

End Degrees.

(** ** Eulerian analysis *)

(** C4, amended.  On a snapshot whose unblocked edges join listed nodes,
    none of them called [__proto__], [analyzeEulerian] returns a definite
    record that follows Euler's theorem: with no open edge, circuit and path
    are reported exactly when there is at most one node; otherwise both are
    refused on a disconnected graph, and on a connected one the number [k]
    of odd-degree nodes decides: [k = 0] gives circuit and path, [k = 2]
    gives a path and no circuit, any other [k] gives neither. *)
Theorem analyzeEulerian_applies_euler nodes edges :
  endpoints_valid nodes edges → plain_nodes nodes →
  ∃ r, GraphTheory.analyzeEulerian nodes edges = Returned r
    ∧ (no_open_edge edges →
         GraphTheory.hasEulerianCircuit r = bool_decide (length nodes ≤ 1)%nat
         ∧ GraphTheory.hasEulerianPath r = bool_decide (length nodes ≤ 1)%nat)
    ∧ (¬ no_open_edge edges → ¬ connected_graph nodes edges →
         GraphTheory.hasEulerianCircuit r = false
         ∧ GraphTheory.hasEulerianPath r = false)
    ∧ (¬ no_open_edge edges → connected_graph nodes edges →
         let k := odd_degree_count nodes edges in
         GraphTheory.oddDegreeCount r = k
         ∧ (k = 0%nat →
              GraphTheory.hasEulerianCircuit r = true
              ∧ GraphTheory.hasEulerianPath r = true)
         ∧ (k = 2%nat →
              GraphTheory.hasEulerianPath r = true
              ∧ GraphTheory.hasEulerianCircuit r = false)
         ∧ (k ≠ 0%nat → k ≠ 2%nat →
              GraphTheory.hasEulerianCircuit r = false
              ∧ GraphTheory.hasEulerianPath r = false)).
Proof.
  intros Hv _. unfold GraphTheory.analyzeEulerian.
  destruct (bool_decide (GraphTheory.activeEdges edges = [])) eqn:Hact.
  - apply bool_decide_eq_true, activeEdges_nil in Hact.
    eexists. split; [done|]. simpl. split; [done|]. split; intros Hn; by destruct Hn.
  - apply bool_decide_eq_false in Hact. rewrite activeEdges_nil in Hact.
    pose proof (endpoints_valid_activeEdges _ _ Hv) as Hva.
    destruct (isGraphConnected_spec nodes (GraphTheory.activeEdges edges) Hva)
      as (c & Hc & Hconn).
    rewrite connected_activeEdges in Hconn.
    rewrite Hc. cbn [obind].
    rewrite (odd_vertices_length _ _ Hva).
    assert (odd_degree_count nodes (GraphTheory.activeEdges edges)
            = odd_degree_count nodes edges) as ->.
    { unfold odd_degree_count. f_equal. apply list_filter_iff. intros v.
      by rewrite degree_activeEdges. }
    destruct (GraphTheory.connected c) eqn:Hcc; cbn [negb].
    + assert (connected_graph nodes edges) as Hcg by (by apply Hconn).
      destruct (bool_decide (odd_degree_count nodes edges = 0%nat)) eqn:H0;
        [|destruct (bool_decide (odd_degree_count nodes edges = 2%nat)) eqn:H2].
      * apply bool_decide_eq_true in H0. eexists. split; [done|]. simpl.
        split; [done|]. split; [done|]. intros _ _. repeat split; try done; lia.
      * apply bool_decide_eq_false in H0. apply bool_decide_eq_true in H2.
        eexists. split; [done|]. simpl.
        split; [done|]. split; [done|]. intros _ _. repeat split; try done; lia.
      * apply bool_decide_eq_false in H0, H2.
        eexists. split; [done|]. simpl.
        split; [done|]. split; [done|]. intros _ _. repeat split; try done; lia.
    + assert (¬ connected_graph nodes edges) as Hcg.
      { intros H. apply Hconn in H. done. }
      eexists. split; [done|]. simpl. split; [done|]. split; done.
Qed.

Lemma analyzeEulerian_applies_euler_witness :
  ∃ r, GraphTheory.analyzeEulerian Samples.cycleNodes Samples.cycleEdges = Returned r
       ∧ GraphTheory.hasEulerianCircuit r = true
       ∧ GraphTheory.hasEulerianPath r = true.
Proof.
  destruct (analyzeEulerian_applies_euler Samples.cycleNodes Samples.cycleEdges)
    as (r & Hr & _).
  - apply (bool_decide_unpack _). vm_compute. exact I.
  - apply (bool_decide_unpack _). vm_compute. exact I.
  - exists r. split; [exact Hr|].
    assert (Returned r = GraphTheory.analyzeEulerian Samples.cycleNodes Samples.cycleEdges)
      as Heq by (symmetry; exact Hr).
    vm_compute in Heq. injection Heq as ->. split; reflexivity.
Defined.

(** ** The backtracking searches *)

Section Backtracking.
Import GraphTheory.

Lemma chained_mono (R1 R2 : string → string → Prop) p :
  (∀ a b, R1 a b → R2 a b) → chained R1 p → chained R2 p.
Proof.
  intros H. induction p as [|a [|b p] IH]; simpl; try done.
  intros [Hab Hp]. split; [by apply H|by apply IH].
Qed.

Lemma list_to_set_snoc (l : list string) x :
  (list_to_set (l ++ [x]) : gset string) = {[x]} ∪ list_to_set l.
Proof. rewrite list_to_set_app_L. simpl. set_solver. Qed.

Lemma hamiltonianPathDFS_spec g n :
  (∀ y z, has_entry g y z → is_Some (g !! z)) →
  ∀ fuel cur pth,
    is_Some (g !! cur) → cur ∉ pth → NoDup pth →
    (length pth < n)%nat → (n ≤ fuel + length pth)%nat →
    (∃ vis' ext,
        hamiltonianPathDFS fuel g n cur (list_to_set pth, pth)
          = Returned (true, (vis', pth ++ cur :: ext))
        ∧ NoDup (pth ++ cur :: ext)
        ∧ length (pth ++ cur :: ext) = n
        ∧ chained (has_entry g) (cur :: ext))
    ∨ (hamiltonianPathDFS fuel g n cur (list_to_set pth, pth)
         = Returned (false, (list_to_set pth, pth))
       ∧ ∀ ext, NoDup (pth ++ cur :: ext) → length (pth ++ cur :: ext) = n →
                chained (has_entry g) (cur :: ext) → False).
Proof.
  intros Hkeys. induction fuel as [|fuel IH];
    intros cur pth [nbrs Hcur] Hnew Hnd Hlen Hfuel; [lia|].
  simpl. rewrite length_app. simpl.
  assert (NoDup (pth ++ [cur])) as Hnd1.
  { apply NoDup_app. split; [done|]. split; [|apply NoDup_singleton].
    intros x Hx Hx'%list_elem_of_singleton. by subst. }
  destruct (decide ((length pth + 1)%nat = n)) as [Hn|Hn].
  { left. exists ({[cur]} ∪ list_to_set pth), []. split; [done|].
    split; [done|]. split; [|done]. rewrite length_app. simpl. done. }
  rewrite Hcur.
  set (rec := hamiltonianPathDFS fuel g n).
  assert (∀ rest, (∀ z, z ∈ rest → z ∈ nbrs) →
            (∃ vis' y ext,
                try_neighbors rec rest (list_to_set (pth ++ [cur]), pth ++ [cur])
                  = Returned (true, (vis', (pth ++ [cur]) ++ y :: ext))
                ∧ y ∈ rest
                ∧ NoDup ((pth ++ [cur]) ++ y :: ext)
                ∧ length ((pth ++ [cur]) ++ y :: ext) = n
                ∧ chained (has_entry g) (y :: ext))
            ∨ (try_neighbors rec rest (list_to_set (pth ++ [cur]), pth ++ [cur])
                 = Returned (false, (list_to_set (pth ++ [cur]), pth ++ [cur]))
               ∧ ∀ y ext, y ∈ rest → NoDup ((pth ++ [cur]) ++ y :: ext) →
                   length ((pth ++ [cur]) ++ y :: ext) = n →
                   chained (has_entry g) (y :: ext) → False)) as Hinner.
  { induction rest as [|nb rest IHrest]; intros Hrest.
    { right. split; [done|]. by intros y ext Hy%elem_of_nil. }
    assert (∀ z, z ∈ rest → z ∈ nbrs) as Hrest'.
    { intros ??. apply Hrest. by apply list_elem_of_further. }
    simpl. destruct (decide (nb ∈ (list_to_set (pth ++ [cur]) : gset string)))
      as [Hin|Hout].
    - destruct (IHrest Hrest') as [(vis' & y & ext & Hrun & Hy & Hres)|[Hrun Hno]].
      + left. exists vis', y, ext. split; [done|]. split; [|done].
        by apply list_elem_of_further.
      + right. split; [done|]. intros y ext [->|Hy]%elem_of_cons; [|by eapply Hno].
        intros Hnd' _ _. apply NoDup_app in Hnd' as (_ & Hdisj & _).
        apply elem_of_list_to_set in Hin.
        apply (Hdisj nb Hin), list_elem_of_here.
    - assert (nb ∉ pth ++ [cur]) as Hnb.
      { intros Hc. apply Hout. by apply elem_of_list_to_set. }
      destruct (IH nb (pth ++ [cur])) as [(vis' & ext & Hrun & Hres)|[Hrun Hno]].
      + apply (Hkeys cur). exists nbrs. split; [done|]. apply Hrest, list_elem_of_here.
      + done.
      + done.
      + rewrite length_app. simpl. lia.
      + rewrite length_app. simpl. lia.
      + left. exists vis', nb, ext. fold rec in Hrun. rewrite Hrun. simpl.
        split; [done|]. split; [apply list_elem_of_here|done].
      + fold rec in Hrun. rewrite Hrun. simpl.
        destruct (IHrest Hrest') as [(vis' & y & ext & Hrun' & Hy & Hres)|[Hrun' Hno']].
        * left. exists vis', y, ext. split; [done|]. split; [|done].
          by apply list_elem_of_further.
        * right. split; [done|]. intros y ext [->|Hy]%elem_of_cons.
          -- apply Hno.
          -- by eapply Hno'. }
  rewrite <- list_to_set_snoc.
  destruct (Hinner nbrs ltac:(done)) as [(vis' & y & ext & Hrun & Hy & H1 & H2 & H3)|[Hrun Hno]].
  - left. exists vis', (y :: ext). rewrite Hrun. simpl.
    rewrite <- !app_assoc in *. simpl in *. split; [done|]. split; [done|].
    split; [done|]. split; [|done]. exists nbrs. done.
  - right. rewrite Hrun. simpl. rewrite removelast_last. split.
    + do 3 f_equal. rewrite list_to_set_snoc. set_solver.
    + intros [|y ext] Hnd' Hlen' Hch.
      * rewrite length_app in Hlen'. simpl in Hlen'. lia.
      * destruct Hch as [(l & Hl & Hy) Hch]. rewrite Hcur in Hl. injection Hl as <-.
        apply (Hno y ext Hy); [|by rewrite <- app_assoc|done].
        by rewrite <- app_assoc.
Qed.

End Backtracking.

Section BacktrackingTop.
Import GraphTheory.

Lemma path_from_starts_spec g n starts :
  (∀ y z, has_entry g y z → is_Some (g !! z)) →
  (∀ s, s ∈ starts → is_Some (g !! s)) → (0 < n)%nat →
  (∃ p, path_from_starts g n starts = Returned (Some p)
        ∧ NoDup p ∧ length p = n ∧ chained (has_entry g) p)
  ∨ (path_from_starts g n starts = Returned None
     ∧ ∀ s ext, s ∈ starts → NoDup (s :: ext) → length (s :: ext) = n →
                chained (has_entry g) (s :: ext) → False).
Proof.
  intros Hkeys Hstarts Hn. induction starts as [|s starts IH].
  { right. split; [done|]. by intros s ext Hs%elem_of_nil. }
  simpl.
  destruct (hamiltonianPathDFS_spec g n Hkeys (S n) s [])
    as [(vis' & ext & Hrun & Hres)|[Hrun Hno]].
  - apply Hstarts, list_elem_of_here.
  - apply not_elem_of_nil.
  - apply NoDup_nil_2.
  - simpl. lia.
  - simpl. lia.
  - left. exists (s :: ext). simpl in Hrun. rewrite Hrun. simpl. done.
  - simpl in Hrun. rewrite Hrun. simpl.
    destruct IH as [(p & Hp & Hres)|[Hp Hno']].
    + intros ??. apply Hstarts. by apply list_elem_of_further.
    + left. by exists p.
    + right. split; [done|]. intros s' ext [->|Hs]%elem_of_cons.
      * apply Hno.
      * by apply Hno'.
Qed.

Lemma hamiltonianCircuitDFS_spec g n start :
  (∀ y z, has_entry g y z → is_Some (g !! z)) →
  ∀ fuel cur pre,
    is_Some (g !! cur) → NoDup (pre ++ [cur]) →
    (length (pre ++ [cur]) ≤ n)%nat → (n < fuel + length (pre ++ [cur]))%nat →
    (∃ vis' ext b,
        hamiltonianCircuitDFS fuel g n start cur
          (list_to_set (pre ++ [cur]), pre ++ [cur])
          = Returned (true, (vis', (pre ++ [cur]) ++ ext))
        ∧ NoDup ((pre ++ [cur]) ++ ext)
        ∧ length ((pre ++ [cur]) ++ ext) = n
        ∧ chained (has_entry g) (cur :: ext)
        ∧ last (cur :: ext) = Some b ∧ has_entry g b start)
    ∨ (hamiltonianCircuitDFS fuel g n start cur
         (list_to_set (pre ++ [cur]), pre ++ [cur])
         = Returned (false, (list_to_set (pre ++ [cur]), pre ++ [cur]))
       ∧ ∀ ext b, NoDup ((pre ++ [cur]) ++ ext) →
           length ((pre ++ [cur]) ++ ext) = n →
           chained (has_entry g) (cur :: ext) →
           last (cur :: ext) = Some b → has_entry g b start → False).
Proof.
  intros Hkeys. induction fuel as [|fuel IH];
    intros cur pre [nbrs Hcur] Hnd Hlen Hfuel; [lia|].
  simpl. rewrite Hcur.
  destruct (decide (length (pre ++ [cur]) = n)) as [Hn|Hn].
  { destruct (decide (start ∈ nbrs)) as [Hs|Hs].
    - left. exists (list_to_set (pre ++ [cur])), [], cur.
      rewrite bool_decide_eq_true_2 by done. rewrite app_nil_r.
      repeat split; try done. by exists nbrs.
    - right. rewrite bool_decide_eq_false_2 by done. split; [done|].
      intros [|y ext] b _ Hlen' _ Hlast Hb.
      + injection Hlast as <-. destruct Hb as (l & Hl & Hb).
        rewrite Hcur in Hl. by injection Hl as <-.
      + rewrite length_app in Hlen'. simpl in Hlen'. lia. }
  set (rec := hamiltonianCircuitDFS fuel g n start).
  set (pth := pre ++ [cur]) in *.
  assert (∀ rest, (∀ z, z ∈ rest → z ∈ nbrs) →
            (∃ vis' y ext b,
                try_circuit_neighbors rec rest (list_to_set pth, pth)
                  = Returned (true, (vis', (pth ++ [y]) ++ ext))
                ∧ y ∈ rest
                ∧ NoDup ((pth ++ [y]) ++ ext)
                ∧ length ((pth ++ [y]) ++ ext) = n
                ∧ chained (has_entry g) (y :: ext)
                ∧ last (y :: ext) = Some b ∧ has_entry g b start)
            ∨ (try_circuit_neighbors rec rest (list_to_set pth, pth)
                 = Returned (false, (list_to_set pth, pth))
               ∧ ∀ y ext b, y ∈ rest → NoDup ((pth ++ [y]) ++ ext) →
                   length ((pth ++ [y]) ++ ext) = n →
                   chained (has_entry g) (y :: ext) →
                   last (y :: ext) = Some b → has_entry g b start → False))
    as Hinner.
  { induction rest as [|nb rest IHrest]; intros Hrest.
    { right. split; [done|]. by intros y ext b Hy%elem_of_nil. }
    assert (∀ z, z ∈ rest → z ∈ nbrs) as Hrest'.
    { intros ??. apply Hrest. by apply list_elem_of_further. }
    simpl. destruct (decide (nb ∈ (list_to_set pth : gset string))) as [Hin|Hout].
    - destruct (IHrest Hrest') as [(vis' & y & ext & b & Hrun & Hy & Hres)|[Hrun Hno]].
      + left. exists vis', y, ext, b. split; [done|]. split; [|done].
        by apply list_elem_of_further.
      + right. split; [done|]. intros y ext b [->|Hy]%elem_of_cons; [|by eapply Hno].
        intros Hnd' _ _ _ _. apply NoDup_app in Hnd' as (Hnd' & _ & _).
        apply NoDup_app in Hnd' as (_ & Hdisj & _).
        apply elem_of_list_to_set in Hin.
        apply (Hdisj nb Hin), list_elem_of_here.
    - assert (nb ∉ pth) as Hnb.
      { intros Hc. apply Hout. by apply elem_of_list_to_set. }
      assert (NoDup (pth ++ [nb])) as Hnd1.
      { apply NoDup_app. split; [done|]. split; [|apply NoDup_singleton].
        intros x Hx Hx'%list_elem_of_singleton. by subst. }
      rewrite <- list_to_set_snoc.
      destruct (IH nb pth) as [(vis' & ext & b & Hrun & Hres)|[Hrun Hno]].
      + apply (Hkeys cur). exists nbrs. split; [done|]. apply Hrest, list_elem_of_here.
      + done.
      + rewrite length_app. simpl. lia.
      + rewrite length_app. simpl. lia.
      + left. exists vis', nb, ext, b. fold rec in Hrun. rewrite Hrun. simpl.
        split; [done|]. split; [apply list_elem_of_here|done].
      + fold rec in Hrun. rewrite Hrun. simpl. rewrite removelast_last.
        replace ((list_to_set (pth ++ [nb]) : gset string) ∖ {[nb]})
          with (list_to_set pth : gset string).
        2:{ rewrite list_to_set_snoc.
            assert (nb ∉ (list_to_set pth : gset string)) by done. set_solver. }
        destruct (IHrest Hrest') as [(vis' & y & ext & b & Hrun' & Hy & Hres)|[Hrun' Hno']].
        * left. exists vis', y, ext, b. split; [done|]. split; [|done].
          by apply list_elem_of_further.
        * right. split; [done|]. intros y ext b [->|Hy]%elem_of_cons.
          -- apply Hno.
          -- by apply Hno'. }
  destruct (Hinner nbrs ltac:(done))
    as [(vis' & y & ext & b & Hrun & Hy & H1 & H2 & H3 & H4 & H5)|[Hrun Hno]].
  - left. exists vis', (y :: ext), b. rewrite Hrun.
    rewrite <- !app_assoc in *. simpl in *. split; [done|]. split; [done|].
    split; [done|]. split; [|done]. split; [|done]. by exists nbrs.
  - right. split; [done|]. intros [|y ext] b Hnd' Hlen' Hch Hlast Hb.
    + rewrite app_nil_r in Hlen'. done.
    + destruct Hch as [(l & Hl & Hy) Hch]. rewrite Hcur in Hl. injection Hl as <-.
      apply (Hno y ext b Hy); try done.
      * by rewrite <- app_assoc.
      * by rewrite <- app_assoc.
Qed.

End BacktrackingTop.

(** ** The adjacency sets of [analyzeHamiltonian], Dirac and Ore *)

Section HamiltonianGraph.
Import GraphTheory.

Lemma elem_of_set_add x l z : z ∈ set_add x l ↔ z ∈ l ∨ z = x.
Proof.
  unfold set_add. destruct (decide (x ∈ l)).
  - split; [by left|]. intros [?| ->]; done.
  - apply elem_of_snoc.
Qed.

Lemma add_edge_spec g e g' :
  add_edge g e = Returned g' →
  (∀ k, is_Some (g' !! k) ↔ is_Some (g !! k))
  ∧ ∀ y z, has_entry g' y z ↔ has_entry g y z ∨ joins_pair y z e.
Proof.
  unfold add_edge.
  destruct (g !! e_from e) as [l1|] eqn:H1; [|done].
  destruct (<[_ := _]> g !! e_to e) as [l2|] eqn:H2; [|done].
  intros [= <-]. split.
  - assert (is_Some (g !! e_to e)) as Hto.
    { assert (is_Some (<[e_from e := set_add (e_to e) l1]> g !! e_to e)) as Hs by eauto.
      apply lookup_insert_is_Some' in Hs as [<-|?]; [by rewrite H1|done]. }
    intros k. rewrite !lookup_insert_is_Some'. split.
    + intros [<-|[<-|?]]; [done|by rewrite H1|done].
    + eauto.
  - intros y z.
    rewrite (has_entry_insert _ _ l2 _ (e_from e)) by (done || apply elem_of_set_add).
    rewrite (has_entry_insert _ _ l1 _ (e_to e)) by (done || apply elem_of_set_add).
    unfold joins_pair. naive_solver.
Qed.

Lemma forEach_add_edge_spec active g g' :
  forEach add_edge active g = Returned g' →
  (∀ k, is_Some (g' !! k) ↔ is_Some (g !! k))
  ∧ ∀ y z, has_entry g' y z
           ↔ has_entry g y z ∨ ∃ e, e ∈ active ∧ joins_pair y z e.
Proof.
  revert g. induction active as [|e active IH]; intros g; simpl.
  - intros [= <-]. split; [done|]. intros y z. split; [by left|].
    intros [?|(e & He & _)]; [done|]. by apply elem_of_nil in He.
  - intros (g1 & H1 & H2)%obind_returned.
    apply add_edge_spec in H1 as [Hd1 He1]. apply IH in H2 as [Hd2 He2].
    split; [intros k; by rewrite Hd2|].
    intros y z. rewrite He2, He1. split.
    + intros [[?|?]|(e' & ? & ?)]; [by left|right..].
      * exists e. split; [apply list_elem_of_here|done].
      * exists e'. split; [by apply list_elem_of_further|done].
    + intros [?|(e' & [->|?]%elem_of_cons & ?)]; [by left; left|by left; right|].
      right. by exists e'.
Qed.

(** The adjacency sets are built whenever the unblocked edges join listed
    nodes, and they hold exactly the pairs joined by an unblocked edge. *)
Lemma hamiltonian_graph nodes edges :
  endpoints_valid nodes edges →
  ∃ g, forEach add_edge (activeEdges edges) (init_graph nodes) = Returned g
       ∧ (∀ k, is_Some (g !! k) ↔ k ∈ ids nodes)
       ∧ ∀ y z, has_entry g y z ↔ linked edges y z.
Proof.
  intros Hv. unfold endpoints_valid in Hv. rewrite Forall_forall in Hv.
  destruct (forEach_returns (λ g, ∀ k, is_Some (g !! k) ↔ k ∈ ids nodes)
              add_edge (activeEdges edges) (init_graph nodes)) as (g & Hg & Hdom).
  - intros g e [He Hb]%activeEdges_spec Hg. unfold add_edge.
    destruct (Hv e He Hb) as [Hf Ht].
    apply Hg in Hf as [l1 H1]. rewrite H1.
    assert (is_Some (<[e_from e := set_add (e_to e) l1]> g !! e_to e)) as [l2 H2].
    { rewrite lookup_insert_is_Some'. right. by apply Hg. }
    rewrite H2. eexists; split; [done|].
    intros k. rewrite <- Hg. rewrite !lookup_insert_is_Some'. split.
    + intros [<-|[<-|?]]; [by apply Hg|by rewrite H1|done].
    + eauto.
  - intros k. rewrite init_graph_lookup.
    destruct (decide (k ∈ ids nodes)); split; try done; try by eauto.
    all: by intros [? ?].
  - exists g. split; [done|]. split; [done|].
    apply forEach_add_edge_spec in Hg as [_ Hg]. intros y z. rewrite Hg.
    unfold linked. split.
    + intros [H|(e & [He Hb]%activeEdges_spec & Hj)]; [by apply init_graph_no_entry in H|].
      by exists e.
    + intros (e & He & Hb & Hj). right. exists e. by rewrite activeEdges_spec.
Qed.

Lemma adjacent_spec g edges u v :
  (∀ y z, has_entry g y z ↔ linked edges y z) →
  adjacent g u v = true ↔ linked edges u v.
Proof.
  intros Hadj. rewrite <- Hadj. unfold adjacent, has_entry.
  destruct (g !! u) as [l|]; [|split; [done|by intros (? & ? & ?)]].
  rewrite bool_decide_eq_true. split; [eauto|]. by intros (? & [= <-] & ?).
Qed.

Lemma degree_sum_lt_spec nodes edges u v :
  endpoints_valid nodes edges → u ∈ ids nodes → v ∈ ids nodes →
  degree_sum_lt (calculateDegrees nodes edges) u v (length nodes) = true
  ↔ degree edges u + degree edges v < Z.of_nat (length nodes).
Proof.
  intros Hv Hu Hvv. unfold degree_sum_lt.
  rewrite !(calculateDegrees_lookup _ _ _ Hv), !decide_True by done. simpl.
  apply bool_decide_eq_true.
Qed.

Lemma foldr_js_min (l : list jsnum) :
  (∀ x, x ∈ l → ∃ z, x = Num z) →
  (l = [] ∧ foldr js_min PosInf l = PosInf)
  ∨ ∃ m, foldr js_min PosInf l = Num m ∧ Num m ∈ l
         ∧ ∀ z, Num z ∈ l → m ≤ z.
Proof.
  induction l as [|x l IH]; intros Hall; [by left|]. right.
  destruct (Hall x) as [z ->]; [apply list_elem_of_here|].
  destruct IH as [[-> Hf]|(m & Hf & Hm & Hmin)].
  - intros ??. apply Hall. by apply list_elem_of_further.
  - exists z. simpl. split; [done|]. split; [apply list_elem_of_here|].
    intros z' [[= ->]|Hz']%elem_of_cons; [lia|]. by apply elem_of_nil in Hz'.
  - exists (Z.min z m). simpl. rewrite Hf. simpl. split; [done|]. split.
    + destruct (Z.min_spec z m) as [[_ ->]|[_ ->]];
        [apply list_elem_of_here|by apply list_elem_of_further].
    + intros z' [[= ->]|Hz']%elem_of_cons; [lia|]. apply Hmin in Hz'. lia.
Qed.

Lemma diracCondition_spec nodes edges :
  endpoints_valid nodes edges →
  diracCondition (calculateDegrees nodes edges) (length nodes) = true
  ↔ dirac nodes edges.
Proof.
  intros Hv. unfold diracCondition, minDegree, dirac.
  set (vals := (map_to_list (calculateDegrees nodes edges)).*2).
  assert (∀ x, x ∈ vals ↔ ∃ k, k ∈ ids nodes ∧ x = Num (degree edges k)) as Hvals.
  { intros x. unfold vals. rewrite list_elem_of_fmap. split.
    - intros ([k y] & -> & Hk%elem_of_map_to_list). simpl.
      rewrite (calculateDegrees_lookup _ _ _ Hv) in Hk.
      destruct (decide (k ∈ ids nodes)); [|done]. injection Hk as <-. eauto.
    - intros (k & Hk & ->). exists (k, Num (degree edges k)). split; [done|].
      apply elem_of_map_to_list. rewrite (calculateDegrees_lookup _ _ _ Hv).
      by rewrite decide_True. }
  destruct (foldr_js_min vals) as [[Hnil ->]|(m & -> & Hm & Hmin)].
  - intros x (k & _ & ->)%Hvals. eauto.
  - split; [|done]. intros _ v Hin.
    assert (Num (degree edges v) ∈ vals) as Hc by (apply Hvals; eauto).
    rewrite Hnil in Hc. by apply elem_of_nil in Hc.
  - rewrite bool_decide_eq_true. split.
    + intros Hle v Hin.
      assert (Num (degree edges v) ∈ vals) as Hc by (apply Hvals; eauto).
      apply Hmin in Hc. lia.
    + intros Hall. apply Hvals in Hm as (k & Hk & [= ->]). by apply Hall.
Qed.

Lemma oreCondition_true nodes edges g l :
  endpoints_valid nodes edges →
  (∀ y z, has_entry g y z ↔ linked edges y z) →
  (∀ x, x ∈ l → x ∈ ids nodes) →
  oreCondition g (calculateDegrees nodes edges) (length nodes) l = true →
  ∀ u v, u ∈ l → v ∈ l → u ≠ v → ¬ linked edges u v →
         Z.of_nat (length nodes) ≤ degree edges u + degree edges v.
Proof.
  intros Hv Hadj. induction l as [|a l IH]; intros Hl; simpl.
  { by intros _ u v Hu%elem_of_nil. }
  intros [Hhead Htail]%andb_true_iff. rewrite forallb_forall in Hhead.
  assert (∀ b, b ∈ l → ¬ linked edges a b →
            Z.of_nat (length nodes) ≤ degree edges a + degree edges b) as Ha.
  { intros b Hb Hnl. specialize (Hhead b ltac:(by apply list_elem_of_In)).
    apply orb_true_iff in Hhead as [Hadj'|Hsum].
    - by apply (adjacent_spec g edges) in Hadj'.
    - apply negb_true_iff in Hsum.
      destruct (decide (degree edges a + degree edges b < Z.of_nat (length nodes)))
        as [Hlt|]; [|lia].
      apply (degree_sum_lt_spec nodes edges a b Hv) in Hlt.
      + congruence.
      + apply Hl, list_elem_of_here.
      + by apply Hl, list_elem_of_further. }
  intros u v [->|Hu]%elem_of_cons [->|Hvv]%elem_of_cons Hne Hnl; try done.
  - by apply Ha.
  - rewrite Z.add_comm. apply Ha; [done|]. intros H. by apply Hnl, linked_sym.
  - apply IH; try done. intros ??. by apply Hl, list_elem_of_further.
Qed.

Lemma oreCondition_of_ore nodes edges g l :
  endpoints_valid nodes edges →
  (∀ y z, has_entry g y z ↔ linked edges y z) →
  (∀ x, x ∈ l → x ∈ ids nodes) → NoDup l → ore nodes edges →
  oreCondition g (calculateDegrees nodes edges) (length nodes) l = true.
Proof.
  intros Hv Hadj Hl Hnd Hore. induction l as [|a l IH]; [done|].
  apply NoDup_cons in Hnd as [Ha Hnd]. simpl. apply andb_true_iff. split.
  - apply forallb_forall. intros b Hb%list_elem_of_In.
    destruct (adjacent g a b) eqn:Hab; [done|]. simpl. apply negb_true_iff.
    apply not_true_is_false. intros Hlt.
    apply (degree_sum_lt_spec nodes edges a b Hv) in Hlt;
      [|apply Hl, list_elem_of_here|by apply Hl, list_elem_of_further].
    assert (¬ linked edges a b) as Hnl.
    { intros H. apply (adjacent_spec g edges a b Hadj) in H. congruence. }
    pose proof (Hore a b (Hl a (list_elem_of_here _ _))
                  (Hl b (list_elem_of_further _ _ _ Hb))) as H.
    assert (a ≠ b) as Hne by (intros ->; done).
    specialize (H Hne Hnl). lia.
  - apply IH; [|done]. intros ??. by apply Hl, list_elem_of_further.
Qed.

End HamiltonianGraph.

(** ** Hamiltonian analysis *)

Section HamiltonianAnalysis.
Import GraphTheory.

Lemma chained_app R l1 l2 :
  chained R (l1 ++ l2)
  ↔ chained R l1 ∧ chained R l2
    ∧ ∀ a b, last l1 = Some a → head l2 = Some b → R a b.
Proof.
  induction l1 as [|x [|y l1] IH]; simpl in *.
  - split; [|tauto]. intros H. split; [done|]. split; [done|]. by intros.
  - destruct l2 as [|z l2]; simpl.
    + split; [|done]. intros _. split; [done|]. split; [done|]. by intros.
    + split.
      * intros [Hxz Hl2]. split; [done|]. split; [done|].
        by intros a b [= <-] [= <-].
      * intros (_ & Hl2 & Hlink). split; [by apply Hlink|done].
  - rewrite IH. split.
    + intros (Hxy & Hl1 & Hl2 & Hlink). done.
    + intros ((Hxy & Hl1) & Hl2 & Hlink). done.
Qed.

Lemma hamiltonian_path_covers nodes edges p x :
  hamiltonian_path nodes edges p → x ∈ ids nodes → x ∈ p.
Proof.
  intros (Hlen & Hnd & Hsub & _) Hx.
  pose proof (NoDup_submseteq _ _ Hnd Hsub) as Hsm.
  apply submseteq_length_Permutation in Hsm.
  - by rewrite Hsm.
  - unfold ids. rewrite length_fmap. lia.
Qed.

Lemma circuit_rotate nodes edges p s :
  hamiltonian_circuit nodes edges p → s ∈ p →
  ∃ ext, hamiltonian_circuit nodes edges (s :: ext).
Proof.
  intros [(Hlen & Hnd & Hsub & Hch) (a & b & Ha & Hb & Hba)] Hs.
  apply list_elem_of_split in Hs as (p1 & p2 & ->).
  destruct p1 as [|x p1]; [exists p2; repeat split; eauto|].
  exists (p2 ++ x :: p1).
  assert ((s :: p2) ++ x :: p1 ≡ₚ (x :: p1) ++ s :: p2) as Hperm
    by apply Permutation_app_comm.
  simpl in Ha. injection Ha as <-.
  rewrite last_app in Hb. simpl in Hb.
  apply (chained_app _ (x :: p1) (s :: p2)) in Hch as (Hc1 & Hc2 & Hlink).
  split; [split; [|split; [|split]]|].
  - change (length ((s :: p2) ++ x :: p1) = length nodes). by rewrite Hperm.
  - change (NoDup ((s :: p2) ++ x :: p1)). by rewrite Hperm.
  - intros y Hy. apply Hsub. change (y ∈ (s :: p2) ++ x :: p1) in Hy.
    by rewrite Hperm in Hy.
  - change (chained (linked edges) ((s :: p2) ++ x :: p1)).
    apply chained_app. split; [done|]. split; [done|].
    intros a' b' Ha' [= <-].
    assert (last (s :: p2) = Some b) as Hb'.
    { destruct (last (s :: p2)) eqn:Hl; [done|]. by apply last_None in Hl. }
    rewrite Hb' in Ha'. by injection Ha' as <-.
  - destruct (last (x :: p1)) as [c|] eqn:Hc; [|by apply last_None in Hc].
    exists s, c. split; [done|]. split.
    + change (last ((s :: p2) ++ x :: p1) = Some c). rewrite last_app. by rewrite Hc.
    + by apply Hlink.
Qed.

Lemma dirac_activeEdges nodes edges :
  dirac nodes (activeEdges edges) ↔ dirac nodes edges.
Proof.
  unfold dirac. split; intros H v Hv; specialize (H v Hv);
    by rewrite degree_activeEdges in *.
Qed.

Lemma ore_activeEdges nodes edges :
  ore nodes (activeEdges edges) ↔ ore nodes edges.
Proof.
  unfold ore. split; intros H u v Hu Hv Hne Hnl.
  - rewrite <- !(degree_activeEdges edges). apply H; try done.
    by rewrite linked_activeEdges.
  - rewrite !degree_activeEdges. apply H; try done.
    by rewrite <- linked_activeEdges.
Qed.

(** The stages of [analyzeHamiltonian] up to the search, on a connected
    snapshot that meets neither sufficient condition. *)
Lemma analyzeHamiltonian_reaches_search nodes edges :
  endpoints_valid nodes edges → connected_graph nodes edges →
  (3 ≤ length nodes)%nat → ¬ dirac nodes edges → ¬ ore nodes edges →
  ∃ g, (∀ k, is_Some (g !! k) ↔ k ∈ ids nodes)
       ∧ (∀ y z, has_entry g y z ↔ linked edges y z)
       ∧ analyzeHamiltonian nodes edges
         = if bool_decide (length nodes ≤ 8)%nat then
             let* hamiltonianPath := findHamiltonianPath nodes g in
             let* hamiltonianCircuit := findHamiltonianCircuit nodes g in
             Returned (mkHamiltonian
                         (tri_of_bool (bool_decide (hamiltonianCircuit ≠ None)))
                         (tri_of_bool (bool_decide (hamiltonianPath ≠ None)))
                         Definite "Backtracking Algorithm (Exhaustive Search)"
                         (match hamiltonianCircuit, hamiltonianPath with
                          | Some c, _ => SamplePath c
                          | None, Some p => SamplePath p
                          | None, None => SampleNull
                          end))
           else
             Returned (mkHamiltonian Unknown Unknown Indeterminate "NP-completeness"
                         SampleAbsent).
Proof.
  intros Hv Hconn Hn Hnd Hno.
  destruct (hamiltonian_graph nodes edges Hv) as (g & Hg & Hdom & Hadj).
  exists g. split; [done|]. split; [done|].
  assert (analyzeHamiltonian nodes edges = analyzeHamiltonian_stages nodes edges) as ->.
  { destruct nodes as [|n1 [|n2 [|n3 rest]]]; simpl in Hn; try lia. done. }
  unfold analyzeHamiltonian_stages. rewrite Hg. cbn [obind].
  pose proof (endpoints_valid_activeEdges _ _ Hv) as Hva.
  destruct (isGraphConnected_spec nodes (activeEdges edges) Hva) as (c & -> & Hc).
  cbn [obind]. rewrite connected_activeEdges in Hc.
  apply Hc in Hconn. rewrite Hconn. cbn [negb].
  assert (diracCondition (calculateDegrees nodes (activeEdges edges)) (length nodes)
          = false) as ->.
  { apply not_true_is_false. intros H. apply Hnd.
    by apply dirac_activeEdges, diracCondition_spec. }
  cbn [andb].
  assert (oreCondition g (calculateDegrees nodes (activeEdges edges)) (length nodes)
            (n_id <$> nodes) = false) as ->.
  { apply not_true_is_false. intros H. apply Hno, ore_activeEdges.
    intros u v Hu Hvv. eapply (oreCondition_true nodes (activeEdges edges) g (ids nodes));
      try done.
    intros y z. by rewrite Hadj, linked_activeEdges. }
  done.
Qed.

(** C6, amended.  On a connected snapshot with more than eight nodes, whose
    unblocked edges join listed nodes, none of them called [__proto__], and
    which meets neither Dirac's nor Ore's condition, [analyzeHamiltonian]
    answers "unknown" for circuit and path, with certainty "unknown" and no
    sample path. *)
Theorem analyzeHamiltonian_indeterminate_above_eight nodes edges :
  endpoints_valid nodes edges → plain_nodes nodes →
  connected_graph nodes edges →
  (8 < length nodes)%nat → ¬ dirac nodes edges → ¬ ore nodes edges →
  analyzeHamiltonian nodes edges
  = Returned (mkHamiltonian Unknown Unknown Indeterminate "NP-completeness"
                SampleAbsent).
Proof.
  intros Hv _ Hconn Hn Hnd Hno.
  destruct (analyzeHamiltonian_reaches_search nodes edges Hv Hconn ltac:(lia) Hnd Hno)
    as (g & _ & _ & ->).
  by rewrite bool_decide_eq_false_2 by lia.
Qed.

End HamiltonianAnalysis.

Section HamiltonianSearch.
Import GraphTheory.

Lemma chained_keys (g : gmap string (list string)) p :
  (∀ y z, has_entry g y z → is_Some (g !! z)) →
  chained (has_entry g) p → (2 ≤ length p)%nat → ∀ x, x ∈ p → is_Some (g !! x).
Proof.
  intros Hkeys. induction p as [|a [|b p] IH]; simpl; try lia.
  intros [Hab Hch] _ x [->|Hx]%elem_of_cons.
  - destruct Hab as (l & Hl & _). eauto.
  - destruct p as [|c p].
    + apply list_elem_of_singleton in Hx as ->. by eapply Hkeys.
    + apply IH; [done|simpl; lia|done].
Qed.

Lemma findHamiltonianPath_spec nodes edges g :
  (∀ k, is_Some (g !! k) ↔ k ∈ ids nodes) →
  (∀ y z, has_entry g y z ↔ linked edges y z) →
  (2 ≤ length nodes)%nat →
  (∃ p, findHamiltonianPath nodes g = Returned (Some p)
        ∧ hamiltonian_path nodes edges p)
  ∨ (findHamiltonianPath nodes g = Returned None
     ∧ ¬ ∃ p, hamiltonian_path nodes edges p).
Proof.
  intros Hdom Hadj Hn.
  assert (∀ y z, has_entry g y z → is_Some (g !! z)) as Hkeys.
  { intros y z (l & Hl & Hz).
    assert (has_entry g z y) as (l' & Hl' & _); [|eauto].
    apply Hadj, linked_sym, Hadj. by exists l. }
  unfold findHamiltonianPath.
  destruct (path_from_starts_spec g (length nodes) (n_id <$> nodes) Hkeys)
    as [(p & Hrun & Hnd & Hlen & Hch)|[Hrun Hno]].
  - intros s Hs. by apply Hdom.
  - lia.
  - left. exists p. split; [done|]. split; [done|]. split; [done|]. split.
    + intros x Hx. apply Hdom. eapply chained_keys; eauto. lia.
    + eapply chained_mono; [|done]. intros a b. apply Hadj.
  - right. split; [done|]. intros (p & Hlen & Hnd & Hsub & Hch).
    destruct p as [|s ext]; [simpl in Hlen; lia|].
    apply (Hno s ext); try done.
    + apply Hsub, list_elem_of_here.
    + eapply chained_mono; [|done]. intros a b. apply Hadj.
Qed.

Lemma findHamiltonianCircuit_spec nodes edges g :
  (∀ k, is_Some (g !! k) ↔ k ∈ ids nodes) →
  (∀ y z, has_entry g y z ↔ linked edges y z) →
  (2 ≤ length nodes)%nat →
  (∃ p, findHamiltonianCircuit nodes g = Returned (Some p)
        ∧ hamiltonian_circuit nodes edges p)
  ∨ (findHamiltonianCircuit nodes g = Returned None
     ∧ ¬ ∃ p, hamiltonian_circuit nodes edges p).
Proof.
  intros Hdom Hadj Hn.
  assert (∀ y z, has_entry g y z → is_Some (g !! z)) as Hkeys.
  { intros y z (l & Hl & Hz).
    assert (has_entry g z y) as (l' & Hl' & _); [|eauto].
    apply Hadj, linked_sym, Hadj. by exists l. }
  unfold findHamiltonianCircuit.
  destruct nodes as [|n1 rest] eqn:Hnodes; [simpl in Hn; lia|].
  rewrite <- Hnodes in *.
  assert (n_id <$> nodes = n_id n1 :: (n_id <$> rest)) as -> by (by rewrite Hnodes).
  assert (n_id n1 ∈ ids nodes) as Hstart by (rewrite Hnodes; apply list_elem_of_here).
  assert ((({[n_id n1]}, [n_id n1]) : SearchState)
          = (list_to_set ([] ++ [n_id n1]), [] ++ [n_id n1])) as ->.
  { f_equal. simpl. set_solver. }
  destruct (hamiltonianCircuitDFS_spec g (length nodes) (n_id n1) Hkeys
              (S (length nodes)) (n_id n1) [])
    as [(vis' & ext & b & Hrun & Hnd & Hlen & Hch & Hlast & Hb)|[Hrun Hno]].
  - by apply Hdom.
  - simpl. apply NoDup_singleton.
  - simpl. lia.
  - simpl. lia.
  - left. rewrite Hrun. cbn [obind]. eexists. split; [done|]. simpl in *.
    split; [split; [done|split; [done|split]]|].
    + intros x Hx. apply Hdom. eapply (chained_keys g (n_id n1 :: ext)); eauto.
      simpl in *. lia.
    + eapply chained_mono; [|done]. intros a' b'. apply Hadj.
    + exists (n_id n1), b. split; [done|]. split; [done|]. by apply Hadj.
  - right. rewrite Hrun. cbn [obind]. split; [done|]. intros (p & Hp).
    destruct (circuit_rotate nodes edges p (n_id n1) Hp) as (ext & Hc).
    { eapply hamiltonian_path_covers; [apply Hp|done]. }
    destruct Hc as [(Hlen & Hnd & Hsub & Hch) (a & b & Ha & Hb & Hba)].
    injection Ha as <-.
    apply (Hno ext b); try done.
    + eapply chained_mono; [|done]. intros a' b'. apply Hadj.
    + by apply Hadj.
Qed.

(** C5, amended.  On a connected snapshot with 3 to 8 nodes, whose unblocked
    edges join listed nodes, none of them called [__proto__], and which meets
    neither Dirac's nor Ore's condition, [analyzeHamiltonian] returns a
    definite record obtained by the exhaustive search: a path is reported
    exactly when a Hamiltonian path exists, a circuit exactly when one whose
    last vertex is adjacent to its first exists, and both are refused
    otherwise; a reported sample is such a path.  The star with one centre
    and four leaves gets "no circuit, no path". *)
Theorem analyzeHamiltonian_exhaustive_search_exact :
  (∀ nodes edges,
     endpoints_valid nodes edges → plain_nodes nodes →
     connected_graph nodes edges →
     (3 ≤ length nodes ≤ 8)%nat → ¬ dirac nodes edges → ¬ ore nodes edges →
     ∃ r, analyzeHamiltonian nodes edges = Returned r
       ∧ certainty r = Definite
       ∧ theoremApplied r = "Backtracking Algorithm (Exhaustive Search)"
       ∧ ((hasHamiltonianPath r = Yes ∧ ∃ p, hamiltonian_path nodes edges p)
          ∨ (hasHamiltonianPath r = No ∧ ¬ ∃ p, hamiltonian_path nodes edges p))
       ∧ ((hasHamiltonianCircuit r = Yes ∧ ∃ p, hamiltonian_circuit nodes edges p)
          ∨ (hasHamiltonianCircuit r = No
             ∧ ¬ ∃ p, hamiltonian_circuit nodes edges p))
       ∧ (∀ p, samplePath r = SamplePath p → hamiltonian_path nodes edges p))
  ∧ analyzeHamiltonian Samples.starNodes Samples.starEdges
    = Returned (mkHamiltonian No No Definite
                  "Backtracking Algorithm (Exhaustive Search)" SampleNull).
Proof.
  split; [|by vm_compute].
  intros nodes edges Hv _ Hconn [Hn3 Hn8] Hnd Hno.
  destruct (analyzeHamiltonian_reaches_search nodes edges Hv Hconn Hn3 Hnd Hno)
    as (g & Hdom & Hadj & ->).
  rewrite bool_decide_eq_true_2 by done.
  destruct (findHamiltonianPath_spec nodes edges g Hdom Hadj ltac:(lia))
    as [(p & -> & Hp)|[-> Hp]];
    destruct (findHamiltonianCircuit_spec nodes edges g Hdom Hadj ltac:(lia))
      as [(c & -> & Hc)|[-> Hc]];
    cbn [obind]; eexists; (split; [done|]); simpl;
    (split; [done|]); (split; [done|]).
  - split; [left; eauto|]. split; [left; eauto|].
    intros ? [= <-]. apply Hc.
  - split; [left; eauto|]. split; [by right|]. by intros ? [= <-].
  - exfalso. apply Hp. exists c. apply Hc.
  - split; [by right|]. split; [by right|]. done.
Qed.

End HamiltonianSearch.

(** Connectivity of a concrete snapshot can be read off a run of
    [isGraphConnected]. *)
Lemma connected_graph_by_run nodes edges c :
  endpoints_valid nodes edges →
  GraphTheory.isGraphConnected nodes edges = Returned c →
  GraphTheory.connected c = true → connected_graph nodes edges.
Proof.
  intros Hv Hrun Hc. destruct (isGraphConnected_spec nodes edges Hv) as (c' & Hrun' & Hiff).
  rewrite Hrun in Hrun'. injection Hrun' as <-. by apply Hiff.
Qed.

Lemma star_hypotheses :
  endpoints_valid Samples.starNodes Samples.starEdges
  ∧ connected_graph Samples.starNodes Samples.starEdges
  ∧ ¬ dirac Samples.starNodes Samples.starEdges
  ∧ ¬ ore Samples.starNodes Samples.starEdges.
Proof.
  assert (endpoints_valid Samples.starNodes Samples.starEdges) as Hv.
  { apply (bool_decide_unpack _). vm_compute. exact I. }
  split; [done|]. split; [|split].
  - eapply (connected_graph_by_run _ _ _ Hv); [vm_compute; reflexivity|done].
  - intros H. specialize (H "L1"). vm_compute in H. apply H; [|done].
    apply list_elem_of_further, list_elem_of_here.
  - intros H. specialize (H "L1" "L2"). vm_compute in H. apply H; try done.
    + apply list_elem_of_further, list_elem_of_here.
    + do 2 apply list_elem_of_further. apply list_elem_of_here.
    + apply (bool_decide_eq_false_1 (linked Samples.starEdges "L1" "L2")).
      vm_compute. reflexivity.
Qed.

Lemma analyzeHamiltonian_exhaustive_search_exact_witness :
  ∃ r, GraphTheory.analyzeHamiltonian Samples.starNodes Samples.starEdges = Returned r
    ∧ GraphTheory.certainty r = GraphTheory.Definite
    ∧ GraphTheory.theoremApplied r = "Backtracking Algorithm (Exhaustive Search)"
    ∧ ((GraphTheory.hasHamiltonianPath r = GraphTheory.Yes
        ∧ ∃ p, hamiltonian_path Samples.starNodes Samples.starEdges p)
       ∨ (GraphTheory.hasHamiltonianPath r = GraphTheory.No
          ∧ ¬ ∃ p, hamiltonian_path Samples.starNodes Samples.starEdges p))
    ∧ ((GraphTheory.hasHamiltonianCircuit r = GraphTheory.Yes
        ∧ ∃ p, hamiltonian_circuit Samples.starNodes Samples.starEdges p)
       ∨ (GraphTheory.hasHamiltonianCircuit r = GraphTheory.No
          ∧ ¬ ∃ p, hamiltonian_circuit Samples.starNodes Samples.starEdges p))
    ∧ (∀ p, GraphTheory.samplePath r = GraphTheory.SamplePath p →
            hamiltonian_path Samples.starNodes Samples.starEdges p).
Proof.
  apply (proj1 analyzeHamiltonian_exhaustive_search_exact
           Samples.starNodes Samples.starEdges).
  - apply star_hypotheses.
  - apply (bool_decide_unpack _). vm_compute. exact I.
  - apply star_hypotheses.
  - simpl. lia.
  - apply star_hypotheses.
  - apply star_hypotheses.
Defined.

Lemma path9_hypotheses :
  endpoints_valid Samples.pathNodes9 Samples.pathEdges9
  ∧ connected_graph Samples.pathNodes9 Samples.pathEdges9
  ∧ ¬ dirac Samples.pathNodes9 Samples.pathEdges9
  ∧ ¬ ore Samples.pathNodes9 Samples.pathEdges9.
Proof.
  assert (endpoints_valid Samples.pathNodes9 Samples.pathEdges9) as Hv.
  { apply (bool_decide_unpack _). vm_compute. exact I. }
  split; [done|]. split; [|split].
  - eapply (connected_graph_by_run _ _ _ Hv); [vm_compute; reflexivity|done].
  - intros H. specialize (H "1"). vm_compute in H. apply H; [|done].
    apply list_elem_of_here.
  - intros H. specialize (H "1" "3"). vm_compute in H. apply H; try done.
    + apply list_elem_of_here.
    + do 2 apply list_elem_of_further. apply list_elem_of_here.
    + apply (bool_decide_eq_false_1 (linked Samples.pathEdges9 "1" "3")).
      vm_compute. reflexivity.
Qed.

Lemma analyzeHamiltonian_indeterminate_above_eight_witness :
  GraphTheory.analyzeHamiltonian Samples.pathNodes9 Samples.pathEdges9
  = Returned (GraphTheory.mkHamiltonian GraphTheory.Unknown GraphTheory.Unknown
                GraphTheory.Indeterminate "NP-completeness" GraphTheory.SampleAbsent).
Proof.
  apply (analyzeHamiltonian_indeterminate_above_eight
           Samples.pathNodes9 Samples.pathEdges9).
  - apply path9_hypotheses.
  - apply (bool_decide_unpack _). vm_compute. exact I.
  - apply path9_hypotheses.
  - simpl. lia.
  - apply path9_hypotheses.
  - apply path9_hypotheses.
Defined.

(** ** Normal completion of the four operations *)

Lemma analyzeEulerian_returns nodes edges :
  endpoints_valid nodes edges → returns (GraphTheory.analyzeEulerian nodes edges).
Proof.
  intros Hv. unfold GraphTheory.analyzeEulerian.
  destruct (bool_decide _); [by eexists|].
  destruct (isGraphConnected_spec nodes (GraphTheory.activeEdges edges)) as (c & -> & _).
  { by apply endpoints_valid_activeEdges. }
  cbn [obind]. by destruct (if negb _ then _ else _); eexists.
Qed.

Lemma analyzeHamiltonian_returns nodes edges :
  endpoints_valid nodes edges → returns (GraphTheory.analyzeHamiltonian nodes edges).
Proof.
  intros Hv.
  destruct (decide (length nodes ≤ 2)%nat) as [Hn|Hn].
  { destruct nodes as [|n1 [|n2 [|n3 rest]]]; simpl in Hn; try lia; by eexists. }
  assert (GraphTheory.analyzeHamiltonian nodes edges
          = GraphTheory.analyzeHamiltonian_stages nodes edges) as ->.
  { destruct nodes as [|n1 [|n2 [|n3 rest]]]; simpl in Hn; try lia. done. }
  unfold GraphTheory.analyzeHamiltonian_stages.
  destruct (hamiltonian_graph nodes edges Hv) as (g & -> & Hdom & Hadj).
  cbn [obind].
  destruct (isGraphConnected_spec nodes (GraphTheory.activeEdges edges)) as (c & -> & _).
  { by apply endpoints_valid_activeEdges. }
  cbn [obind].
  destruct (negb _); [by eexists|].
  destruct (_ && _); [by eexists|].
  destruct (_ && _); [by eexists|].
  destruct (bool_decide _); [|by eexists].
  destruct (findHamiltonianPath_spec nodes edges g Hdom Hadj ltac:(lia))
    as [(p & -> & _)|[-> _]];
    destruct (findHamiltonianCircuit_spec nodes edges g Hdom Hadj ltac:(lia))
      as [(c' & -> & _)|[-> _]];
    by eexists.
Qed.

Lemma dijkstra_returns nodes edges s t :
  endpoints_valid nodes edges → returns (Dijkstra.dijkstra nodes edges s t).
Proof.
  intros Hv. destruct (build_graph_returns nodes edges Hv) as [g Hg].
  destruct (dijkstra_route nodes edges g s t Hg) as (r & Hr & _). by exists r.
Qed.




(** ** Spreading a set along pairs *)

Section Hops.
Context (pairs : list (string * string)) (N : gset string).
Hypothesis targets_in : ∀ x y, (x, y) ∈ pairs → y ∈ N.

Lemma elem_of_hop L y : y ∈ hop pairs L ↔ y ∈ L ∨ ∃ x, x ∈ L ∧ (x, y) ∈ pairs.
Proof.
  unfold hop. rewrite elem_of_union, elem_of_list_to_set, list_elem_of_fmap.
  split.
  - intros [?|([x y'] & -> & [Hx Hp]%list_elem_of_filter)]; [by left|right].
    simpl in *. eauto.
  - intros [?|(x & Hx & Hp)]; [by left|right].
    exists (x, y). split; [done|]. by apply list_elem_of_filter.
Qed.

Lemma hop_incl L : L ⊆ hop pairs L.
Proof. intros x Hx. apply elem_of_hop. by left. Qed.

Lemma hop_within L : L ⊆ N → hop pairs L ⊆ N.
Proof.
  intros HL y [Hy|(x & Hx & Hp)]%elem_of_hop; [by apply HL|by eapply targets_in].
Qed.

Lemma hops_incl k L : L ⊆ hops pairs k L.
Proof.
  revert L. induction k as [|k IH]; intros L; simpl; [done|].
  etrans; [apply hop_incl|apply IH].
Qed.

Lemma hops_fixed k L : hop pairs L = L → hops pairs k L = L.
Proof.
  intros Hfix. induction k as [|k IH]; simpl; [done|]. by rewrite Hfix.
Qed.

Lemma hops_below k L M : L ⊆ M → hop pairs M = M → hops pairs k L ⊆ M.
Proof.
  revert L. induction k as [|k IH]; intros L HL HM; simpl; [done|].
  apply IH; [|done]. intros y [Hy|(x & Hx & Hp)]%elem_of_hop; [by apply HL|].
  rewrite <- HM. apply elem_of_hop. right. exists x. split; [by apply HL|done].
Qed.

(** After enough rounds the set no longer grows. *)
Lemma hops_closed k L :
  L ⊆ N → (size N ≤ size L + k)%nat →
  hop pairs (hops pairs k L) = hops pairs k L.
Proof.
  revert L. induction k as [|k IH]; intros L HL Hsize; simpl.
  - assert (L = N) as ->.
    { apply set_eq. intros x. split; [apply HL|]. intros Hx.
      destruct (decide (x ∈ L)) as [|Hn]; [done|].
      assert (L ⊂ N) as Hsub.
      { apply strict_spec_alt. split; [done|]. intros ->. done. }
      apply subset_size in Hsub. lia. }
    apply set_eq. intros x. split; [apply hop_within; done|apply hop_incl].
  - destruct (decide (hop pairs L = L)) as [Hfix|Hgrow].
    + rewrite Hfix. by rewrite hops_fixed.
    + apply IH; [by apply hop_within|].
      assert (L ⊂ hop pairs L) as Hsub.
      { apply strict_spec_alt. split; [apply hop_incl|]. intros Heq. by apply Hgrow. }
      apply subset_size in Hsub. lia.
Qed.

Lemma closed_rtc L x y :
  hop pairs L = L → x ∈ L → rtc (λ a b, (a, b) ∈ pairs) x y → y ∈ L.
Proof.
  intros Hfix Hx Hr. induction Hr as [|a b c Hab _ IH]; [done|].
  apply IH. rewrite <- Hfix. apply elem_of_hop. right. eauto.
Qed.

End Hops.

(** ** Facts about [bidirectionalEdges] *)

Section BellmanFordEdges.
Import BellmanFord BellmanFordInv.

Lemma elem_of_bidirectional active de :
  de ∈ bidirectional active
  ↔ ∃ e, e ∈ active
         ∧ (de = mkDEdge (e_from e) (e_to e) (e_weight e) (e_id e)
            ∨ de = mkDEdge (e_to e) (e_from e) (e_weight e) (e_id e)).
Proof.
  unfold bidirectional. rewrite list_elem_of_In, in_flat_map. split.
  - intros (e & He%list_elem_of_In & Hde). exists e. split; [done|].
    simpl in Hde. destruct Hde as [<-|[<-|[]]]; eauto.
  - intros (e & He & Hde). exists e. split; [by apply list_elem_of_In|].
    simpl. destruct Hde as [->| ->]; eauto.
Qed.

Lemma bidirectional_linked edges de :
  de ∈ bidirectional (activeEdges edges) → linked edges (d_from de) (d_to de).
Proof.
  intros (e & He & Hde)%elem_of_bidirectional.
  apply list_elem_of_filter in He as [Hb He].
  exists e. split; [done|]. split; [done|].
  destruct Hde as [->| ->]; simpl; [by left|by right].
Qed.

Lemma linked_bidirectional edges x y :
  linked edges x y →
  ∃ de, de ∈ bidirectional (activeEdges edges) ∧ d_from de = x ∧ d_to de = y.
Proof.
  intros (e & He & Hb & Hj).
  assert (e ∈ activeEdges edges) as Ha by (by apply list_elem_of_filter).
  destruct Hj as [[<- <-]|[<- <-]].
  - exists (mkDEdge (e_from e) (e_to e) (e_weight e) (e_id e)).
    split; [|done]. apply elem_of_bidirectional. eauto.
  - exists (mkDEdge (e_to e) (e_from e) (e_weight e) (e_id e)).
    split; [|done]. apply elem_of_bidirectional. eauto.
Qed.

Lemma elem_of_road_pairs nodes edges x y :
  (x, y) ∈ road_pairs nodes (bidirectional (activeEdges edges)) ↔ road nodes edges x y.
Proof.
  unfold road_pairs, road. rewrite list_elem_of_filter, list_elem_of_fmap. simpl.
  split.
  - intros [[Hx Hy] (de & [= -> ->] & Hde)]. split; [|done].
    by apply bidirectional_linked.
  - intros (Hl & Hx & Hy). split; [done|].
    destruct (linked_bidirectional edges x y Hl) as (de & Hde & <- & <-). eauto.
Qed.

Lemma road_sym nodes edges x y : road nodes edges x y → road nodes edges y x.
Proof. intros (Hl & Hx & Hy). split; [by apply linked_sym|done]. Qed.

Lemma reachable_sym nodes edges x y :
  reachable nodes edges x y → reachable nodes edges y x.
Proof.
  induction 1 as [|a b c Hab _ IH]; [done|].
  eapply rtc_r; [exact IH|]. by apply road_sym.
Qed.

End BellmanFordEdges.

(** ** Labels computed by the relaxation passes *)

Section BellmanFordLabels.
Import BellmanFord BellmanFordInv.

Lemma hops_pred pairs (P : string → Prop) k L :
  (∀ x y, P x → (x, y) ∈ pairs → P y) →
  (∀ x, x ∈ L → P x) → ∀ x, x ∈ hops pairs k L → P x.
Proof.
  intros Hstep. revert L. induction k as [|k IH]; intros L HL; simpl; [done|].
  apply IH. intros y [Hy|(x & Hx & Hp)]%elem_of_hop; [by apply HL|].
  eapply Hstep; [apply HL, Hx|done].
Qed.

Lemma relax_edge_finite nodes lb b e v :
  labels_ok nodes lb → finite_label (distances lb) v →
  finite_label (distances (relax_edge (lb, b) e).1) v.
Proof.
  intros Hok [z Hz]. unfold relax_edge.
  destruct (relaxable (distances lb) e) eqn:Hr; [|by exists z].
  destruct (relaxable_cases _ _ (lo_shape _ _ Hok) Hr) as (zf & Hzf & _ & _).
  rewrite Hzf. simpl. destruct (decide (d_to e = v)) as [<-|Hne].
  - exists (zf + d_weight e). apply lookup_insert_eq.
  - exists z. by rewrite lookup_insert_ne.
Qed.

Lemma relax_edge_spreads nodes lb b e :
  labels_ok nodes lb → finite_label (distances lb) (d_from e) →
  d_to e ∈ ids nodes →
  finite_label (distances (relax_edge (lb, b) e).1) (d_to e).
Proof.
  intros Hok [zf Hzf] Hto. unfold relax_edge.
  destruct (relaxable (distances lb) e) eqn:Hr.
  - rewrite Hzf. simpl. eexists. apply lookup_insert_eq.
  - apply (lo_dom_dist _ _ Hok) in Hto as [x Hx].
    destruct (lo_shape _ _ Hok _ _ Hx) as [->|[z ->]]; [|by exists z].
    unfold relaxable in Hr. rewrite Hzf, Hx in Hr. done.
Qed.

Lemma foldl_relax_edge_finite nodes bi lb b v :
  labels_ok nodes lb → finite_label (distances lb) v →
  finite_label (distances (foldl relax_edge (lb, b) bi).1) v.
Proof.
  revert lb b. induction bi as [|e bi IH]; intros lb b Hok Hv; cbn [foldl]; [done|].
  pose proof (relax_edge_labels_ok nodes lb b e Hok) as Hok'.
  pose proof (relax_edge_finite nodes lb b e v Hok Hv) as Hv'.
  destruct (relax_edge (lb, b) e) as [lb' b']. by apply IH.
Qed.

(** A pass makes the target of every entry finite when its source is. *)
Lemma pass_spreads nodes bi lb de :
  labels_ok nodes lb → de ∈ bi → finite_label (distances lb) (d_from de) →
  d_to de ∈ ids nodes →
  finite_label (distances (relax_pass bi lb).1) (d_to de).
Proof.
  unfold relax_pass. generalize false. revert lb.
  induction bi as [|e bi IH]; intros lb b Hok Hde Hfrom Hto; [by apply elem_of_nil in Hde|].
  cbn [foldl].
  pose proof (relax_edge_labels_ok nodes lb b e Hok) as Hok'.
  apply elem_of_cons in Hde as [->|Hde].
  - pose proof (relax_edge_spreads nodes lb b e Hok Hfrom Hto) as Hv'.
    destruct (relax_edge (lb, b) e) as [lb' b']. by apply (foldl_relax_edge_finite nodes).
  - pose proof (relax_edge_finite nodes lb b e _ Hok Hfrom) as Hv'.
    destruct (relax_edge (lb, b) e) as [lb' b']. by apply IH.
Qed.

Lemma foldl_relax_edge_flag bi lb b lb' :
  foldl relax_edge (lb, b) bi = (lb', false) → b = false ∧ lb' = lb.
Proof.
  revert lb b. induction bi as [|e bi IH]; intros lb b; cbn [foldl].
  - by intros [= -> ->].
  - unfold relax_edge at 2. destruct (relaxable (distances lb) e).
    + intros H%IH. by destruct H.
    + apply IH.
Qed.

Lemma pass_no_update bi lb lb' : relax_pass bi lb = (lb', false) → lb' = lb.
Proof. intros H%foldl_relax_edge_flag. apply H. Qed.

(** Finite labels after the relaxation loop cover what [k] rounds of
    spreading reach. *)
Lemma relax_loop_covers nodes edges k lb L :
  labels_ok nodes lb →
  (∀ x, x ∈ L → finite_label (distances lb) x) →
  ∀ x, x ∈ hops (road_pairs nodes (bidirectional (activeEdges edges))) k L →
       finite_label (distances (relax_loop k (bidirectional (activeEdges edges)) lb)) x.
Proof.
  set (bi := bidirectional (activeEdges edges)).
  revert lb L. induction k as [|k IH]; intros lb L Hok HL; simpl; [done|].
  pose proof (relax_pass_labels_ok nodes bi lb Hok) as Hok'.
  assert (∀ lb0, labels_ok nodes lb0 →
            ∀ x y, finite_label (distances lb0) x → (x, y) ∈ road_pairs nodes bi →
                   finite_label (distances (relax_pass bi lb0).1) y) as Hspread.
  { intros lb0 Hok0 x y Hx (Hl & _ & Hy)%elem_of_road_pairs.
    destruct (linked_bidirectional edges x y Hl) as (de & Hde & <- & <-).
    by apply (pass_spreads nodes). }
  assert (∀ y, y ∈ hop (road_pairs nodes bi) L →
               finite_label (distances (relax_pass bi lb).1) y) as Hhop.
  { intros y [Hy|(x & Hx & Hp)]%elem_of_hop.
    - unfold relax_pass. apply (foldl_relax_edge_finite nodes); [done|by apply HL].
    - eapply Hspread; [done|apply HL, Hx|done]. }
  destruct (relax_pass bi lb) as [lb' updated] eqn:Hpass. simpl in *.
  destruct updated; [by apply IH|].
  apply pass_no_update in Hpass as Heq. subst lb'.
  apply hops_pred; [|done].
  intros x y Hx Hp. pose proof (Hspread lb Hok x y Hx Hp) as H.
  by rewrite Hpass in H.
Qed.

Lemma relax_edge_sound nodes edges s lb b e :
  labels_ok nodes lb → e ∈ bidirectional (activeEdges edges) →
  sound_labels nodes edges s lb →
  sound_labels nodes edges s (relax_edge (lb, b) e).1.
Proof.
  intros Hok He [Hs Hsound]. split; [by apply (relax_edge_finite nodes)|].
  unfold relax_edge. destruct (relaxable (distances lb) e) eqn:Hr; [|done].
  destruct (relaxable_cases _ _ (lo_shape _ _ Hok) Hr) as (zf & Hzf & Hto & _).
  rewrite Hzf. simpl. intros v [z Hz].
  apply lookup_insert_Some in Hz as [[<- _]|[_ Hz]]; [|apply Hsound; by exists z].
  eapply rtc_r; [apply Hsound; by exists zf|].
  split; [by apply bidirectional_linked|]. split.
  - apply (lo_dom_dist _ _ Hok). eauto.
  - by apply (lo_dom_dist _ _ Hok).
Qed.

Lemma relax_pass_sound nodes edges s lb :
  labels_ok nodes lb → sound_labels nodes edges s lb →
  sound_labels nodes edges s (relax_pass (bidirectional (activeEdges edges)) lb).1.
Proof.
  intros Hok Hs. unfold relax_pass.
  apply (foldl_invariant
           (λ acc : Labels * bool, labels_ok nodes acc.1 ∧ sound_labels nodes edges s acc.1));
    [|done].
  intros [lb' b] e He [H1 H2]. split.
  - by apply relax_edge_labels_ok.
  - by apply relax_edge_sound.
Qed.

Lemma relax_loop_sound nodes edges s k lb :
  labels_ok nodes lb → sound_labels nodes edges s lb →
  sound_labels nodes edges s (relax_loop k (bidirectional (activeEdges edges)) lb).
Proof.
  revert lb. induction k as [|k IH]; intros lb Hok Hs; simpl; [done|].
  pose proof (relax_pass_labels_ok nodes (bidirectional (activeEdges edges)) lb Hok).
  pose proof (relax_pass_sound nodes edges s lb Hok Hs).
  destruct (relax_pass _ lb) as [lb' updated]. simpl in *.
  destruct updated; [by apply IH|done].
Qed.

End BellmanFordLabels.

(** ** Detection and propagation of negative cycles *)

Section BellmanFordTaint.
Import BellmanFord BellmanFordInv.

Lemma propagate_pass_incl bi T : T ⊆ propagate_pass bi T.
Proof.
  unfold propagate_pass. revert T. induction bi as [|e bi IH]; intros T; simpl; [done|].
  etrans; [|apply IH]. destruct (decide _); set_solver.
Qed.

Lemma propagate_pass_spreads bi T de :
  de ∈ bi → d_from de ∈ T → d_to de ∈ propagate_pass bi T.
Proof.
  unfold propagate_pass. revert T. induction bi as [|e bi IH]; intros T Hde Hfrom;
    [by apply elem_of_nil in Hde|].
  simpl. apply elem_of_cons in Hde as [->|Hde].
  - rewrite decide_True by done.
    apply (propagate_pass_incl bi ({[d_to e]} ∪ T)). set_solver.
  - apply IH; [done|]. destruct (decide _); set_solver.
Qed.

Lemma propagate_covers nodes edges k L T :
  L ⊆ T →
  hops (road_pairs nodes (bidirectional (activeEdges edges))) k L
  ⊆ propagate k (bidirectional (activeEdges edges)) T.
Proof.
  revert L T. induction k as [|k IH]; intros L T HL; simpl; [done|].
  apply IH. intros y [Hy|(x & Hx & Hp)]%elem_of_hop.
  - by apply propagate_pass_incl, HL.
  - apply elem_of_road_pairs in Hp as (Hl & _ & _).
    destruct (linked_bidirectional edges x y Hl) as (de & Hde & <- & <-).
    apply propagate_pass_spreads; [done|by apply HL].
Qed.

Lemma elem_of_detect_from bi d (S0 : gset string) x :
  x ∈ foldl (λ s e, if relaxable d e then {[d_to e]} ∪ s else s) S0 bi
  ↔ x ∈ S0 ∨ ∃ de, de ∈ bi ∧ relaxable d de = true ∧ d_to de = x.
Proof.
  revert S0. induction bi as [|e bi IH]; intros S0; simpl.
  - split; [by left|]. intros [?|(de & Hde & _)]; [done|]. by apply elem_of_nil in Hde.
  - rewrite IH. split.
    + intros [Hx|(de & Hde & Hr & Hto)].
      * destruct (relaxable d e) eqn:Hr; [|by left].
        apply elem_of_union in Hx as [->%elem_of_singleton|Hx]; [|by left].
        right. exists e. split; [apply list_elem_of_here|done].
      * right. exists de. split; [by apply list_elem_of_further|done].
    + intros [Hx|(de & [->|Hde]%elem_of_cons & Hr & Hto)].
      * left. destruct (relaxable d e); set_solver.
      * left. rewrite Hr. set_solver.
      * right. eauto.
Qed.

Lemma elem_of_detect bi d x :
  x ∈ detect bi d ↔ ∃ de, de ∈ bi ∧ relaxable d de = true ∧ d_to de = x.
Proof.
  unfold detect. rewrite elem_of_detect_from. split; [|by right].
  intros [H|H]; [set_solver|done].
Qed.

Lemma rtc_road_pairs nodes edges x y :
  rtc (λ a b, (a, b) ∈ road_pairs nodes (bidirectional (activeEdges edges))) x y
  ↔ reachable nodes edges x y.
Proof. apply rtc_iff. intros a b. apply elem_of_road_pairs. Qed.

Lemma road_pairs_targets nodes bi x y :
  (x, y) ∈ road_pairs nodes bi → y ∈ (list_to_set (ids nodes) : gset string).
Proof.
  unfold road_pairs. intros [[_ Hy] _]%list_elem_of_filter.
  by apply elem_of_list_to_set.
Qed.

(** Everything reachable from a listed node is reached by [n - 1] rounds of
    spreading, and hence by more. *)
Lemma hops_reach nodes edges k x y :
  x ∈ ids nodes → (length nodes ≤ S k)%nat → reachable nodes edges x y →
  y ∈ hops (road_pairs nodes (bidirectional (activeEdges edges))) k {[x]}.
Proof.
  intros Hx Hk Hr.
  eapply (closed_rtc _ _ x y).
  - apply (hops_closed _ (list_to_set (ids nodes))).
    + intros a b. apply road_pairs_targets.
    + intros a ->%elem_of_singleton. by apply elem_of_list_to_set.
    + rewrite size_singleton. pose proof (size_ids_le nodes). lia.
  - apply hops_incl. set_solver.
  - by apply rtc_road_pairs.
Qed.

Lemma final_labels_ok nodes edges s :
  s ∈ ids nodes → labels_ok nodes (final_labels nodes edges s).
Proof. intros Hs. apply relax_loop_labels_ok. by apply initial_labels_ok. Qed.

Lemma final_labels_sound nodes edges s :
  s ∈ ids nodes → sound_labels nodes edges s (final_labels nodes edges s).
Proof.
  intros Hs. apply relax_loop_sound; [by apply initial_labels_ok|].
  split; simpl.
  - exists 0. apply lookup_insert_eq.
  - intros v [z Hz]. apply lookup_insert_Some in Hz as [[<- _]|[_ Hz]]; [done|].
    unfold init_distances in Hz. rewrite fold_insert_empty_lookup in Hz.
    by destruct (decide _).
Qed.

Lemma final_labels_reached nodes edges s y :
  s ∈ ids nodes → reachable nodes edges s y →
  finite_label (distances (final_labels nodes edges s)) y.
Proof.
  intros Hs Hr. unfold final_labels.
  apply (relax_loop_covers nodes edges _ _ {[s]}).
  - by apply initial_labels_ok.
  - intros x ->%elem_of_singleton. exists 0. simpl. apply lookup_insert_eq.
  - apply hops_reach; [done| |done].
    destruct nodes; [by apply elem_of_nil in Hs|]. simpl. lia.
Qed.

(** An open edge of negative weight between listed nodes, one of them
    reachable from the origin, taints every node reachable from the origin. *)
Lemma negative_edge_taints nodes edges s e y :
  s ∈ ids nodes → e ∈ edges → e_blocked e = false → e_weight e < 0 →
  e_from e ∈ ids nodes → e_to e ∈ ids nodes →
  reachable nodes edges s (e_from e) → reachable nodes edges s y →
  y ∈ tainted (length nodes) (bidirectional (activeEdges edges))
        (distances (final_labels nodes edges s)).
Proof.
  intros Hs He Hb Hw Hf Ht Hrf Hry.
  set (bi := bidirectional (activeEdges edges)).
  set (d := distances (final_labels nodes edges s)).
  assert (e ∈ activeEdges edges) as Ha by (by apply list_elem_of_filter).
  assert (road nodes edges (e_from e) (e_to e)) as Hroad.
  { split; [|done]. exists e. split; [done|]. split; [done|]. by left. }
  assert (reachable nodes edges s (e_to e)) as Hrt.
  { unfold reachable. eapply rtc_r; [exact Hrf|exact Hroad]. }
  destruct (final_labels_reached nodes edges s _ Hs Hrf) as [zf Hzf].
  destruct (final_labels_reached nodes edges s _ Hs Hrt) as [zt Hzt].
  fold d in Hzf, Hzt.
  assert (∃ x0, x0 ∈ detect bi d ∧ reachable nodes edges s x0) as (x0 & Hdet & Hrx).
  { destruct (decide (zf + e_weight e < zt)) as [Hlt|Hge].
    - exists (e_to e). split; [|done]. apply elem_of_detect.
      exists (mkDEdge (e_from e) (e_to e) (e_weight e) (e_id e)).
      split; [apply elem_of_bidirectional; eauto|]. split; [|done].
      unfold relaxable. simpl. rewrite Hzf, Hzt. simpl.
      by rewrite bool_decide_eq_true_2.
    - exists (e_from e). split; [|done]. apply elem_of_detect.
      exists (mkDEdge (e_to e) (e_from e) (e_weight e) (e_id e)).
      split; [apply elem_of_bidirectional; eauto|]. split; [|done].
      unfold relaxable. simpl. rewrite Hzf, Hzt. simpl.
      rewrite bool_decide_eq_true_2; [done|lia]. }
  unfold tainted. fold bi d.
  destruct (decide (detect bi d = ∅)) as [Hempty|_]; [set_solver|].
  assert (x0 ∈ ids nodes) as Hx0.
  { destruct (final_labels_reached nodes edges s x0 Hs Hrx) as [z Hz].
    apply (lo_dom_dist _ _ (final_labels_ok nodes edges s Hs)). eauto. }
  apply (propagate_covers nodes edges (length nodes) {[x0]}); [set_solver|].
  apply hops_reach; [done|lia|].
  etrans; [apply reachable_sym, Hrx|done].
Qed.

End BellmanFordTaint.

(** ** Negative edges and [bellmanFord] *)

Section BellmanFordNegative.
Import BellmanFord BellmanFordInv.

Lemma bellmanFord_past_guards nodes edges s t :
  s ≠ "" → t ≠ "" → s ≠ t → s ∈ ids nodes → t ∈ ids nodes →
  bidirectional (activeEdges edges) ≠ [] →
  bellmanFord nodes edges s t = bellmanFord_core nodes edges s t.
Proof.
  intros Hs Ht Hst Hsin Htin Hbi. unfold bellmanFord.
  destruct nodes as [|n0 nodes0] eqn:Hnodes; [by apply elem_of_nil in Hsin|].
  rewrite <- Hnodes in *.
  rewrite (bool_decide_eq_false_2 (nodes = [])) by (by rewrite Hnodes).
  rewrite (bool_decide_eq_false_2 (s = "")), (bool_decide_eq_false_2 (t = "")) by done.
  rewrite (bool_decide_eq_false_2 (s = t)) by done.
  rewrite (bool_decide_eq_true_2 (s ∈ nodeIds nodes))
    by (by apply elem_of_list_to_set).
  rewrite (bool_decide_eq_true_2 (t ∈ nodeIds nodes))
    by (by apply elem_of_list_to_set).
  rewrite (bool_decide_eq_false_2 (bidirectional (activeEdges edges) = [])) by done.
  done.
Qed.

Lemma reachable_listed nodes edges s x :
  s ∈ ids nodes → reachable nodes edges s x → x ∈ ids nodes.
Proof.
  intros Hs Hr. induction Hr as [|a b c Hab _ IH]; [done|].
  apply IH. apply Hab.
Qed.

Lemma walk_back_elements p fuel cur seen acc pth :
  walk_back fuel p cur seen acc = Returned (inr pth) →
  ∀ x, x ∈ pth → x ∈ acc ∨ x = cur ∨ ∃ v, p !! v = Some (Some x).
Proof.
  revert cur seen acc. induction fuel as [|fuel IH]; intros cur seen acc; simpl; [done|].
  destruct (decide (cur ∈ seen)); [done|].
  destruct (p !! cur) as [[u|]|] eqn:Hp; [| |done].
  - intros H x Hx. destruct (IH _ _ _ H x Hx) as [[->|Hacc]%elem_of_cons|[->|Hv]]; eauto.
  - intros [= <-] x [->|Hx]%elem_of_cons; eauto.
Qed.

(** With distinct listed endpoints, an open negative edge between listed
    nodes that is reachable from the origin makes [bellmanFord] report a
    negative cycle and no route. *)
Lemma bellmanFord_negative_edge_result nodes edges s t e :
  s ≠ "" → t ≠ "" → s ≠ t → s ∈ ids nodes → t ∈ ids nodes →
  e ∈ edges → e_blocked e = false → e_weight e < 0 →
  e_from e ∈ ids nodes → e_to e ∈ ids nodes →
  reachable nodes edges s (e_from e) →
  ∃ r, bellmanFord nodes edges s t = Returned r
       ∧ found r = false ∧ hasNegativeCycle r = Some true.
Proof.
  intros Hs Ht Hst Hsin Htin He Hb Hw Hf Hto Hr.
  rewrite bellmanFord_past_guards; try done.
  2:{ intros Hnil.
      assert (mkDEdge (e_from e) (e_to e) (e_weight e) (e_id e)
              ∈ bidirectional (activeEdges edges)) as Hin.
      { apply elem_of_bidirectional. exists e. split; [|by left].
        by apply list_elem_of_filter. }
      rewrite Hnil in Hin. by apply elem_of_nil in Hin. }
  unfold bellmanFord_core.
  pose proof (λ y, negative_edge_taints nodes edges s e y Hsin He Hb Hw Hf Hto Hr)
    as Htaint.
  destruct (bool_decide (t ∈ tainted _ _ _)) eqn:Htt; [by eexists|].
  apply bool_decide_eq_false in Htt.
  assert (tainted (length nodes) (bidirectional (activeEdges edges))
            (distances (final_labels nodes edges s)) ≠ ∅) as Hne.
  { intros Heq. specialize (Htaint s ltac:(done)). rewrite Heq in Htaint. set_solver. }
  rewrite (bool_decide_eq_false_2 _ Hne).
  destruct (is_infinity _) eqn:Hinf; [by eexists|].
  exfalso. apply Htt, Htaint.
  apply (final_labels_sound nodes edges s Hsin).
  pose proof (final_labels_ok nodes edges s Hsin) as Hok.
  apply (lo_dom_dist _ _ Hok) in Htin as [x Hx].
  destruct (lo_shape _ _ Hok _ _ Hx) as [->|[z ->]]; [|by exists z].
  by rewrite Hx in Hinf.
Qed.

(** C9, as stated, fails: with origin and destination both A, next to the
    open road A-B of weight -1, [bellmanFord] reports the route [A] and no
    negative cycle. *)
Lemma negative_edge_same_endpoints_counterexample :
  let edges := [mkEdge "e" "A" "B" (-1) false] in
  reachable Samples.nodesAB edges "A" "A"
  ∧ bellmanFord Samples.nodesAB edges "A" "A"
    = Returned (mkRoute ["A"] (Num 0) [] true (Some false) None).
Proof. split; [done|by vm_compute]. Qed.

(** C9, amended.  On a snapshot with no node called [__proto__] and with
    integer weights within [safe_weights], for distinct, non-empty, listed
    origin and destination: whenever an open edge of negative weight between
    listed nodes is reachable from the origin along open roads,
    [bellmanFord] reports [hasNegativeCycle = true] and [found = false];
    hence every open edge joining two nodes of a route it reports has a
    non-negative weight. *)
Theorem bellmanFord_rejects_reachable_negative_edge nodes edges s t :
  plain_nodes nodes → safe_weights nodes edges →
  s ≠ "" → t ≠ "" → s ≠ t → s ∈ ids nodes → t ∈ ids nodes →
  ∃ r, bellmanFord nodes edges s t = Returned r
    ∧ (∀ e, e ∈ edges → e_blocked e = false → e_weight e < 0 →
            e_from e ∈ ids nodes → e_to e ∈ ids nodes →
            reachable nodes edges s (e_from e) →
            found r = false ∧ hasNegativeCycle r = Some true)
    ∧ (found r = true →
       ∀ a b e, a ∈ path r → b ∈ path r → e ∈ edges → e_blocked e = false →
                joins_pair a b e → 0 ≤ e_weight e).
Proof.
  intros _ _ Hs Ht Hst Hsin Htin.
  destruct (bellmanFord_returns nodes edges s t) as [r Hr].
  exists r. split; [done|].
  assert (∀ e, e ∈ edges → e_blocked e = false → e_weight e < 0 →
            e_from e ∈ ids nodes → e_to e ∈ ids nodes →
            reachable nodes edges s (e_from e) →
            found r = false ∧ hasNegativeCycle r = Some true) as Hneg.
  { intros e He Hb Hw Hf Hto Hreach.
    destruct (bellmanFord_negative_edge_result nodes edges s t e) as (r' & Hr' & Hres);
      try done.
    rewrite Hr in Hr'. by injection Hr' as <-. }
  split; [done|].
  intros Hfound a b e Ha Hbp He Hb Hj.
  destruct (decide (0 ≤ e_weight e)) as [|Hw]; [done|]. exfalso.
  assert (∀ x, x ∈ path r → reachable nodes edges s x) as Hpath.
  { destruct (decide (bidirectional (activeEdges edges) = [])) as [Hnil|Hbi].
    { exfalso. revert Hr Hfound. unfold bellmanFord.
      destruct (bool_decide (nodes = [])); [by intros [= <-]|].
      destruct (bool_decide (s = "") || bool_decide (t = "")); [by intros [= <-]|].
      rewrite (bool_decide_eq_false_2 (s = t)) by done.
      destruct (negb _ || negb _); [by intros [= <-]|].
      rewrite (bool_decide_eq_true_2 _ Hnil). by intros [= <-]. }
    rewrite bellmanFord_past_guards in Hr by done. unfold bellmanFord_core in Hr.
    pose proof (final_labels_ok nodes edges s Hsin) as Hok.
    pose proof (final_labels_sound nodes edges s Hsin) as [_ Hsound].
    destruct (bool_decide (t ∈ _)); [injection Hr as <-; done|].
    destruct (is_infinity _) eqn:Hinf; [injection Hr as <-; done|].
    apply obind_returned in Hr as ([[]|p] & Hwalk & Hr); [injection Hr as <-; done|].
    destruct (_ || _); injection Hr as <-; [done|]. simpl.
    intros x Hx. apply Hsound.
    destruct (walk_back_elements _ _ _ _ _ _ Hwalk x Hx) as [Hn|[->|[v Hv]]].
    - by apply elem_of_nil in Hn.
    - apply (lo_dom_dist _ _ Hok) in Htin as [y Hy].
      destruct (lo_shape _ _ Hok _ _ Hy) as [->|[z ->]]; [|by exists z].
      by rewrite Hy in Hinf.
    - by apply (lo_links_finite _ _ Hok v). }
  assert (a ∈ ids nodes ∧ b ∈ ids nodes) as [Hain Hbin].
  { split; apply (reachable_listed nodes edges s); try done; by apply Hpath. }
  assert (found r = false) as Hf; [|congruence].
  destruct Hj as [[Hfa Htb]|[Hta Hfb]].
  - apply (Hneg e); try done; try lia; try congruence.
    rewrite Hfa. by apply Hpath.
  - apply (Hneg e); try done; try lia; try congruence.
    rewrite Hfb. by apply Hpath.
Qed.

Lemma bellmanFord_rejects_reachable_negative_edge_witness :
  ∃ r, bellmanFord NegativeSamples.tollNodes (NegativeSamples.tollEdges false) "A" "B"
       = Returned r
       ∧ found r = false ∧ hasNegativeCycle r = Some true.
Proof.
  destruct (bellmanFord_rejects_reachable_negative_edge
              NegativeSamples.tollNodes (NegativeSamples.tollEdges false) "A" "B")
    as (r & Hr & Hneg & _).
  - apply (bool_decide_unpack _). vm_compute. exact I.
  - apply (bool_decide_unpack _). vm_compute. exact I.
  - done.
  - done.
  - done.
  - apply list_elem_of_here.
  - apply list_elem_of_further, list_elem_of_here.
  - exists r. split; [exact Hr|].
    apply (Hneg (mkEdge "2" "B" "C" (-1) false)).
    + apply list_elem_of_further, list_elem_of_here.
    + reflexivity.
    + reflexivity.
    + apply list_elem_of_further, list_elem_of_here.
    + do 2 apply list_elem_of_further. apply list_elem_of_here.
    + apply rtc_once. split; [|split].
      * exists (mkEdge "1" "A" "B" 1 false).
        split; [apply list_elem_of_here|]. split; [reflexivity|].
        left. split; reflexivity.
      * apply list_elem_of_here.
      * apply list_elem_of_further, list_elem_of_here.
Defined.

End BellmanFordNegative.

Section BellmanFordTaintedDestination.
Import BellmanFord BellmanFordInv.

(** C3, as stated, fails: the triangle A-B-C has weights summing to -3 and
    the destination A lies on it, but from the origin S, which no road
    leaves, [bellmanFord] reports no negative cycle. *)
Lemma negative_triangle_counterexample :
  reachable NegativeSamples.nodes NegativeSamples.triangle "A" "A"
  ∧ Forall (λ e, e_blocked e = false) NegativeSamples.triangle
  ∧ foldr (λ e acc, e_weight e + acc) 0 NegativeSamples.triangle = -3
  ∧ bellmanFord NegativeSamples.nodes NegativeSamples.triangle "S" "A"
    = Returned (mkRoute [] (Num 0) [] false (Some false) None).
Proof.
  split; [done|]. split; [by repeat constructor|]. split; by vm_compute.
Qed.

(** C3, amended.  On a snapshot with no node called [__proto__] and with
    integer weights within [safe_weights], for distinct, non-empty, listed
    origin and destination: when the destination is in the set tainted by
    the detection pass and its propagation, [bellmanFord] returns
    [found = false] and [hasNegativeCycle = true]; this is the case whenever
    a triangle of open roads between listed nodes has a negative total
    weight, can be reached from the origin, and reaches the destination. *)
Theorem bellmanFord_tainted_destination nodes edges s t :
  plain_nodes nodes → safe_weights nodes edges →
  s ≠ "" → t ≠ "" → s ≠ t → s ∈ ids nodes → t ∈ ids nodes →
  let tainted_record :=
    mkRoute [] NegInf [] false (Some true)
      (Some "Destination is affected by a negative weight cycle") in
  (t ∈ tainted (length nodes) (bidirectional (activeEdges edges))
         (distances (final_labels nodes edges s)) →
   bellmanFord nodes edges s t = Returned tainted_record)
  ∧ (∀ a b c e1 e2 e3,
       e1 ∈ edges → e2 ∈ edges → e3 ∈ edges →
       e_blocked e1 = false → e_blocked e2 = false → e_blocked e3 = false →
       joins_pair a b e1 → joins_pair b c e2 → joins_pair c a e3 →
       a ∈ ids nodes → b ∈ ids nodes → c ∈ ids nodes →
       e_weight e1 + e_weight e2 + e_weight e3 < 0 →
       reachable nodes edges s a → reachable nodes edges a t →
       bellmanFord nodes edges s t = Returned tainted_record).
Proof.
  intros _ _ Hs Ht Hst Hsin Htin rec.
  assert (t ∈ tainted (length nodes) (bidirectional (activeEdges edges))
            (distances (final_labels nodes edges s)) →
          bellmanFord nodes edges s t = Returned rec) as Hpart1.
  { intros Htaint. rewrite bellmanFord_past_guards; try done.
    - unfold bellmanFord_core. by rewrite bool_decide_eq_true_2.
    - intros Hnil. rewrite Hnil in Htaint. unfold tainted in Htaint.
      simpl in Htaint. set_solver. }
  split; [done|].
  intros a b c e1 e2 e3 He1 He2 He3 Hb1 Hb2 Hb3 Hj1 Hj2 Hj3 Ha Hb Hc Hw Hsa Hat.
  apply Hpart1.
  assert (reachable nodes edges s t) as Hreach by (by etrans).
  assert (road nodes edges a b) as Hab.
  { split; [|done]. by exists e1. }
  assert (road nodes edges b c) as Hbc.
  { split; [|done]. by exists e2. }
  assert (reachable nodes edges s b) as Hsb.
  { unfold reachable. eapply rtc_r; [exact Hsa|exact Hab]. }
  assert (reachable nodes edges s c) as Hsc.
  { unfold reachable. eapply rtc_r; [exact Hsb|exact Hbc]. }
  assert (∀ x y e, joins_pair x y e → x ∈ ids nodes → y ∈ ids nodes →
            reachable nodes edges s x → reachable nodes edges s y →
            e_from e ∈ ids nodes ∧ e_to e ∈ ids nodes
            ∧ reachable nodes edges s (e_from e)) as Hends.
  { intros x y e [[-> ->]|[-> ->]] Hx Hy Hrx Hry; done. }
  assert (e_weight e1 < 0 ∨ e_weight e2 < 0 ∨ e_weight e3 < 0) as [H|[H|H]] by lia.
  - destruct (Hends a b e1) as (? & ? & ?); try done.
    by apply (negative_edge_taints nodes edges s e1).
  - destruct (Hends b c e2) as (? & ? & ?); try done.
    by apply (negative_edge_taints nodes edges s e2).
  - destruct (Hends c a e3) as (? & ? & ?); try done.
    by apply (negative_edge_taints nodes edges s e3).
Qed.

Lemma bellmanFord_tainted_destination_witness :
  bellmanFord NegativeSamples.nodes
    (mkEdge "0" "S" "A" 1 false :: NegativeSamples.triangle) "S" "B"
  = Returned (mkRoute [] NegInf [] false (Some true)
                (Some "Destination is affected by a negative weight cycle")).
Proof.
  apply (bellmanFord_tainted_destination NegativeSamples.nodes
           (mkEdge "0" "S" "A" 1 false :: NegativeSamples.triangle) "S" "B").
  - apply (bool_decide_unpack _). vm_compute. exact I.
  - apply (bool_decide_unpack _). vm_compute. exact I.
  - done.
  - done.
  - done.
  - apply list_elem_of_here.
  - do 2 apply list_elem_of_further. apply list_elem_of_here.
  - apply (bool_decide_unpack _). vm_compute. exact I.
Defined.

End BellmanFordTaintedDestination.

(** ** Claim C1: the shape of a reported route *)

Section RouteShape.
Import Dijkstra BellmanFord.

(** Claim C1.  On two parallel roads between A and B, the first one listed
    blocked and of weight 100, the second open and of weight 1, [dijkstra]
    reports a route from A to B of [totalCost] 1 whose only step is the
    blocked road, of cost 100: the costs of the steps add up to 100, not to
    [totalCost].  On two open parallel roads of weights 1 and 5,
    [bellmanFord] reports [totalCost] 1 with one step of cost 5.  In both
    cases the path itself starts at the origin and ends at the
    destination. *)
Theorem totalCost_differs_from_sum_of_steps :
  (∃ r, dijkstra Samples.nodesAB Samples.parallelBlockedFirst "A" "B" = Returned r
        ∧ found r = true
        ∧ path r = ["A"; "B"]
        ∧ totalCost r = Num 1
        ∧ steps r = [mkStep "A" "B" 100 "e0"]
        ∧ sum_costs (steps r) = 100)
  ∧ (∃ r, bellmanFord Samples.nodesAB Samples.parallelOpen "A" "B" = Returned r
        ∧ found r = true
        ∧ path r = ["A"; "B"]
        ∧ totalCost r = Num 1
        ∧ steps r = [mkStep "A" "B" 5 "e1"]
        ∧ sum_costs (steps r) = 5).
Proof.
  split; eexists; (split; [by vm_compute|]); by repeat split.
Qed.

End RouteShape.

(** ** [dijkstra] computes least weights when no weight is negative *)

Section DijkstraOptimal.
Import Dijkstra DijkstraInv DijkstraOpt.

Lemma pq_sort_head_min l item rest :
  (∀ i, i ∈ l → ∃ z, q_distance i = Num z) →
  pq_sort l = item :: rest →
  ∀ i z zi, i ∈ l → q_distance item = Num z → q_distance i = Num zi → z ≤ zi.
Proof.
  revert item rest. induction l as [|x l IH]; intros item rest Hnum; [done|].
  simpl. destruct (pq_sort l) as [|y r] eqn:Hs.
  - assert (l = []) as ->.
    { apply nil_length_inv. by rewrite <- (pq_sort_length l), Hs. }
    simpl. intros [= <- <-] i z zi Hi%list_elem_of_singleton. subst i.
    intros H1 H2. rewrite H1 in H2. injection H2 as <-. lia.
  - destruct (Hnum x) as [zx Hx]; [apply list_elem_of_here|].
    destruct (Hnum y) as [zy Hy].
    { apply list_elem_of_further. rewrite <- (pq_sort_perm l), Hs.
      apply list_elem_of_here. }
    assert (∀ i zi, i ∈ l → q_distance i = Num zi → zy ≤ zi) as Hmin.
    { intros i zi Hi Hzi. eapply (IH y r); eauto.
      intros j Hj. apply Hnum. by apply list_elem_of_further. }
    simpl. unfold cmp_le at 1. rewrite Hx, Hy.
    destruct (bool_decide (zx ≤ zy)) eqn:Hle.
    + apply bool_decide_eq_true in Hle.
      intros [= <- <-] i z zi Hi Hz Hzi. rewrite Hx in Hz. injection Hz as <-.
      apply elem_of_cons in Hi as [->|Hi].
      * rewrite Hx in Hzi. injection Hzi as <-. lia.
      * specialize (Hmin i zi Hi Hzi). lia.
    + apply bool_decide_eq_false in Hle.
      intros [= <- <-] i z zi Hi Hz Hzi. rewrite Hy in Hz. injection Hz as <-.
      apply elem_of_cons in Hi as [->|Hi].
      * rewrite Hx in Hzi. injection Hzi as <-. lia.
      * by apply (Hmin i).
Qed.

Context (g : gmap string (list Adj)) (s : string).
Hypothesis nonneg : ∀ u v w, arc g u v w → 0 ≤ w.

Lemma gwalk_nonneg v c : gwalk g s v c → 0 ≤ c.
Proof.
  induction 1 as [|u v w c _ IH Harc]; [done|].
  specialize (nonneg _ _ _ Harc). lia.
Qed.

(** A walk that leaves the visited set passes a labelled unvisited node no
    farther than its end. *)
Lemma frontier st v c :
  s ∈ visited st → opt_inv g s None st → gwalk g s v c → v ∉ visited st →
  ∃ y zy, (y ∉ visited st) ∧ distances st !! y = Some (Num zy) ∧ zy ≤ c.
Proof.
  intros Hs Hopt Hw. induction Hw as [|u v w c Hw IH Harc]; intros Hv; [done|].
  pose proof (nonneg _ _ _ Harc) as Hnn.
  destruct (decide (u ∈ visited st)) as [Hu|Hu].
  - destruct (oi_settled _ _ _ _ Hopt u Hu) as (zu & Hzu & Hmin).
    destruct (oi_expanded _ _ _ _ Hopt u v w Hu ltac:(done) Harc Hv)
      as (zu' & zv & Hzu' & Hzv & Hle).
    rewrite Hzu in Hzu'. injection Hzu' as <-.
    exists v, zv. split; [done|]. split; [done|].
    specialize (Hmin c Hw). lia.
  - destruct (IH Hu) as (y & zy & Hy & Hzy & Hle).
    exists y, zy. split; [done|]. split; [done|]. lia.
Qed.

(** The popped item carries the label of its node, and that label is the
    least weight of a walk to it. *)
Lemma pop_settled st item rest :
  s ∈ visited st → opt_inv g s None st →
  pq_sort (pq st) = item :: rest → q_node item ∉ visited st →
  ∃ z, q_distance item = Num z ∧ distances st !! q_node item = Some (Num z)
       ∧ ∀ c, gwalk g s (q_node item) c → z ≤ c.
Proof.
  intros Hs Hopt Hsort Hv.
  assert (item ∈ pq st) as Hitem.
  { rewrite <- (pq_sort_perm (pq st)), Hsort. apply list_elem_of_here. }
  assert (∀ i, i ∈ pq st → ∃ z, q_distance i = Num z) as Hnum.
  { intros i Hi. destruct (oi_queue _ _ _ _ Hopt i Hi) as (z & _ & Hz & _). eauto. }
  destruct (oi_queue _ _ _ _ Hopt item Hitem) as (z & z' & Hz & Hz' & Hle).
  pose proof (pq_sort_head_min _ _ _ Hnum Hsort) as Hmin.
  pose proof (oi_queued _ _ _ _ Hopt _ _ Hv Hz') as Hfresh.
  pose proof (Hmin _ z z' Hfresh Hz eq_refl) as Hle'. simpl in Hle'.
  assert (z = z') as <- by lia.
  exists z. split; [done|]. split; [done|].
  intros c Hw. destruct (frontier st _ c Hs Hopt Hw Hv) as (y & zy & Hy & Hzy & Hc).
  pose proof (oi_queued _ _ _ _ Hopt _ _ Hy Hzy) as Hyq.
  pose proof (Hmin _ z zy Hyq Hz eq_refl). lia.
Qed.

Lemma visit_opt_inv st item rest :
  s ∈ visited st → opt_inv g s None st →
  pq_sort (pq st) = item :: rest → q_node item ∉ visited st →
  opt_inv g s (Some (q_node item))
    (mkState (distances st) (previous st) ({[q_node item]} ∪ visited st) rest).
Proof.
  intros Hs Hopt Hsort Hv.
  destruct (pop_settled st item rest Hs Hopt Hsort Hv) as (z & Hz & Hd & Hmin).
  assert (∀ i, i ∈ pq st ↔ i = item ∨ i ∈ rest) as Hpq.
  { intros i. rewrite <- (pq_sort_perm (pq st)), Hsort. apply elem_of_cons. }
  destruct Hopt as [Hreal Hset Hexp Hqd Hq]. split; simpl.
  - done.
  - intros v [Hx%elem_of_singleton|Hvv]%elem_of_union; [|by apply Hset].
    subst v. eauto.
  - intros u v w [Hx%elem_of_singleton|Hu]%elem_of_union Hne Harc Hvn.
    + by subst u.
    + apply Hexp; [done|done|done|set_solver].
  - intros v z' Hvn Hz'.
    destruct (proj1 (Hpq _) (Hqd v z' ltac:(set_solver) Hz')) as [Heq|Hin]; [|done].
    subst item. simpl in Hvn. set_solver.
  - intros i Hi. apply Hq, Hpq. by right.
Qed.

Lemma skip_opt_inv st item rest :
  opt_inv g s None st → pq_sort (pq st) = item :: rest →
  q_node item ∈ visited st →
  opt_inv g s None (mkState (distances st) (previous st) (visited st) rest).
Proof.
  intros Hopt Hsort Hv.
  assert (∀ i, i ∈ pq st ↔ i = item ∨ i ∈ rest) as Hpq.
  { intros i. rewrite <- (pq_sort_perm (pq st)), Hsort. apply elem_of_cons. }
  destruct Hopt as [Hreal Hset Hexp Hqd Hq]. split; simpl; try done.
  - intros v z' Hvn Hz'.
    destruct (proj1 (Hpq _) (Hqd v z' Hvn Hz')) as [Heq|Hin]; [|done].
    subst item. done.
  - intros i Hi. apply Hq, Hpq. by right.
Qed.

(** Relaxing one neighbour of the node under expansion. *)
Lemma relax_opt_inv cur st a done :
  closed_graph g →
  cur ∈ visited st → path_inv g s st → arc g cur (a_node a) (a_weight a) →
  opt_inv g s (Some cur) st →
  (∀ b, b ∈ done → a_node b ∉ visited st →
     ∃ zu zv, distances st !! cur = Some (Num zu)
              ∧ distances st !! a_node b = Some (Num zv) ∧ zv ≤ zu + a_weight b) →
  opt_inv g s (Some cur) (relax cur st a)
  ∧ (∀ b, b ∈ done ++ [a] → a_node b ∉ visited (relax cur st a) →
       ∃ zu zv, distances (relax cur st a) !! cur = Some (Num zu)
                ∧ distances (relax cur st a) !! a_node b = Some (Num zv)
                ∧ zv ≤ zu + a_weight b).
Proof.
  intros Hclosed Hcur Hinv Harc Hopt Hdone.
  destruct (oi_settled _ _ _ _ Hopt cur Hcur) as (zc & Hzc & _).
  assert (is_Some (distances st !! a_node a)) as [xa Hxa].
  { rewrite (pi_dom_dist _ _ _ Hinv).
    destruct Harc as (a' & (l & Hl & Ha') & <- & _). by eapply Hclosed. }
  assert (relax cur st a
          = if decide (a_node a ∈ visited st) then st
            else if js_lt (Num (zc + a_weight a)) (to_number (distances st !! a_node a))
            then mkState (<[a_node a := Num (zc + a_weight a)]> (distances st))
                   (<[a_node a := Some cur]> (previous st)) (visited st)
                   (pq st ++ [mkItem (a_node a) (Num (zc + a_weight a))])
            else st) as Heq.
  { unfold relax. by rewrite Hzc. }
  rewrite Heq. clear Heq.
  destruct (decide (a_node a ∈ visited st)) as [Hv|Hv].
  { split; [done|].
    intros b [Hb|Hb%list_elem_of_singleton]%elem_of_app Hbv; [by apply Hdone|].
    by subst b. }
  destruct (js_lt _ _) eqn:Hlt.
  2:{ split; [done|].
      intros b [Hb|Hb%list_elem_of_singleton]%elem_of_app Hbv; [by apply Hdone|].
      subst b. exists zc. rewrite Hxa in Hlt.
      destruct (pi_shape _ _ _ Hinv _ _ Hxa) as [->|[za ->]]; [done|].
      exists za. split; [done|]. split; [done|].
      simpl in Hlt. apply bool_decide_eq_false in Hlt. lia. }
  - assert (cur ≠ a_node a) as Hne by (by intros ->).
    assert (∀ zv, distances st !! a_node a = Some (Num zv) → zc + a_weight a < zv)
      as Hless.
    { intros zv Hzv. rewrite Hzv in Hlt. simpl in Hlt.
      by apply bool_decide_eq_true in Hlt. }
    destruct Hopt as [Hreal Hset Hexp Hqd Hq]. split; [split|]; simpl.
    + intros v z. rewrite lookup_insert_Some. intros [[<- [= <-]]|[_ Hd]]; [|eauto].
      eapply gwalk_arc; [by apply Hreal|done].
    + intros v Hvv. destruct (Hset v Hvv) as (z & Hz & Hmin).
      exists z. split; [|done]. rewrite lookup_insert_ne; [done|by intros <-].
    + intros u v w Hu Hsk Hw Hvn.
      destruct (Hexp u v w Hu Hsk Hw Hvn) as (zu & zv & Hzu & Hzv & Hle).
      exists zu. rewrite (lookup_insert_ne _ _ u) by (by intros <-).
      destruct (decide (a_node a = v)) as [<-|Hnv].
      * rewrite lookup_insert_eq. exists (zc + a_weight a).
        split; [done|]. split; [done|]. specialize (Hless _ Hzv). lia.
      * rewrite lookup_insert_ne by done. eauto.
    + intros v z Hvn. rewrite lookup_insert_Some. intros [[<- [= <-]]|[_ Hd]].
      * apply elem_of_app. right. apply list_elem_of_here.
      * apply elem_of_app. left. by apply Hqd.
    + intros i [Hi|Hi%list_elem_of_singleton]%elem_of_app.
      * destruct (Hq i Hi) as (z & z' & Hz & Hz' & Hle).
        exists z. destruct (decide (a_node a = q_node i)) as [Hi'|Hi'].
        -- rewrite <- Hi', lookup_insert_eq. exists (zc + a_weight a).
           split; [done|]. split; [done|]. rewrite <- Hi' in Hz'.
           specialize (Hless _ Hz'). lia.
        -- rewrite lookup_insert_ne by done. eauto.
      * subst i. simpl. rewrite lookup_insert_eq. eauto with lia.
    + intros b Hb Hbv. exists zc. rewrite lookup_insert_ne by done.
      destruct (decide (a_node a = a_node b)) as [Hab|Hab].
      * rewrite <- Hab, lookup_insert_eq. exists (zc + a_weight a).
        split; [done|]. split; [done|].
        apply elem_of_app in Hb as [Hb|Hb%list_elem_of_singleton]; [|subst b; lia].
        destruct (Hdone b Hb Hbv) as (zu & zv & Hzu & Hzv & Hle).
        rewrite Hzc in Hzu. injection Hzu as <-. rewrite <- Hab in Hzv.
        specialize (Hless _ Hzv). lia.
      * rewrite lookup_insert_ne by done.
        apply elem_of_app in Hb as [Hb|Hb%list_elem_of_singleton]; [|by subst b].
        destruct (Hdone b Hb Hbv) as (zu & zv & Hzu & Hzv & Hle).
        rewrite Hzc in Hzu. injection Hzu as <-. eauto.
Qed.

Lemma foldl_relax_opt_inv cur rest : ∀ st done,
  closed_graph g → cur ∈ visited st → path_inv g s st →
  (∀ a, a ∈ rest → arc g cur (a_node a) (a_weight a)) →
  opt_inv g s (Some cur) st →
  (∀ b, b ∈ done → a_node b ∉ visited st →
     ∃ zu zv, distances st !! cur = Some (Num zu)
              ∧ distances st !! a_node b = Some (Num zv) ∧ zv ≤ zu + a_weight b) →
  let st' := foldl (relax cur) st rest in
  opt_inv g s (Some cur) st'
  ∧ (∀ b, b ∈ done ++ rest → a_node b ∉ visited st' →
       ∃ zu zv, distances st' !! cur = Some (Num zu)
                ∧ distances st' !! a_node b = Some (Num zv) ∧ zv ≤ zu + a_weight b).
Proof.
  induction rest as [|a rest IH]; intros st done Hclosed Hcur Hinv Harcs Hopt Hdone.
  { simpl. split; [done|]. by rewrite app_nil_r. }
  simpl.
  destruct (relax_opt_inv cur st a done Hclosed Hcur Hinv) as [Hopt' Hdone']; try done.
  { apply Harcs, list_elem_of_here. }
  specialize (IH (relax cur st a) (done ++ [a]) Hclosed).
  rewrite <- app_assoc in IH. simpl in IH. apply IH; try done.
  - by rewrite relax_visited.
  - by apply relax_path_inv.
  - intros b Hb. by apply Harcs, list_elem_of_further.
Qed.

(** Once every neighbour of [cur] has been relaxed the invariant holds with
    no node set aside. *)
Lemma expand_opt_inv cur st nbrs :
  closed_graph g → cur ∈ visited st → path_inv g s st → g !! cur = Some nbrs →
  opt_inv g s (Some cur) st →
  opt_inv g s None (foldl (relax cur) st nbrs).
Proof.
  intros Hclosed Hcur Hinv Hg Hopt.
  destruct (foldl_relax_opt_inv cur nbrs st [] Hclosed Hcur Hinv) as [Hopt' Hall];
    try done.
  { intros a Ha. exists a. split; [by exists nbrs|done]. }
  { by intros b Hb%elem_of_nil. }
  simpl in Hopt', Hall.
  destruct Hopt' as [Hreal Hset Hexp Hqd Hq]. split; try done.
  intros u v w Hu _ Harc Hvn.
  destruct (decide (u = cur)) as [->|Hne].
  - destruct Harc as (a & (l & Hl & Ha) & <- & <-).
    rewrite Hg in Hl. injection Hl as <-. by apply Hall.
  - apply Hexp; try done. by intros [= ->].
Qed.

(** The label of the destination when the loop is left. *)
Lemma loop_settled t fuel st st' :
  closed_graph g →
  path_inv g s st → opt_inv g s None st →
  loop fuel g t st = Returned st' → settled g s t st'.
Proof.
  intros Hclosed Hinv Hopt.
  apply (loop_invariant (λ st, path_inv g s st ∧ opt_inv g s None st)
           (settled g s t)); [| | | | |by split].
  - intros st0 item rest [Hi Ho] Hsort Hv. split; [|by eapply skip_opt_inv].
    destruct Hi as [Hdp Hdd Hsh Hst Hroot Hfr Hq Hvis]. split; simpl; try done.
    intros i Hi. apply Hq. rewrite <- (pq_sort_perm (pq st0)), Hsort.
    by apply list_elem_of_further.
  - intros st0 item rest [Hi Ho] Hsort Hv Ht.
    destruct (pop_settled st0 item rest (pi_start _ _ _ Hi) Ho Hsort Hv)
      as (z & Hz & Hd & Hmin).
    rewrite Ht in Hd, Hmin. split; simpl; rewrite Hd.
    + intros z' [= <-]. split; [|done]. by apply (oi_real _ _ _ _ Ho).
    + done.
  - intros st0 item rest [Hi Ho] Hsort Hv _ Hgt.
    destruct (pop_settled st0 item rest (pi_start _ _ _ Hi) Ho Hsort Hv)
      as (z & Hz & Hd & Hmin).
    rewrite Hz, Hd in Hgt. simpl in Hgt. apply bool_decide_eq_true in Hgt. lia.
  - intros st0 item rest nbrs [Hi Ho] Hsort Hv _ _ Hg.
    pose proof (path_inv_visit g s st0 item rest Hi Hsort Hv) as Hi1.
    split; [apply foldl_relax_path_inv; [simpl; set_solver|done]|].
    apply expand_opt_inv; try done; [simpl; set_solver|].
    by apply visit_opt_inv; [apply (pi_start _ _ _ Hi)|..].
  - intros st0 [Hi Ho] Hsort.
    assert (pq st0 = []) as Hpq.
    { apply nil_length_inv. by rewrite <- (pq_sort_length (pq st0)), Hsort. }
    destruct (decide (t ∈ visited st0)) as [Ht|Ht].
    + destruct (oi_settled _ _ _ _ Ho t Ht) as (z & Hz & Hmin).
      split; rewrite Hz; [|done]. intros z' [= <-]. split; [|done].
      by apply (oi_real _ _ _ _ Ho).
    + split.
      * intros z Hz. pose proof (oi_queued _ _ _ _ Ho t z Ht Hz) as Hin.
        rewrite Hpq in Hin. by apply elem_of_nil in Hin.
      * intros _ c Hw.
        destruct (frontier st0 t c (pi_start _ _ _ Hi) Ho Hw Ht)
          as (y & zy & Hy & Hzy & _).
        pose proof (oi_queued _ _ _ _ Ho y zy Hy Hzy) as Hin.
        rewrite Hpq in Hin. by apply elem_of_nil in Hin.
Qed.

Lemma initial_opt_inv nodes :
  opt_inv g s (Some s)
    (mkState (<[s := Num 0]> (init_distances nodes)) (init_previous nodes)
       ({[s]} ∪ ∅) []).
Proof.
  assert (∀ v z, <[s := Num 0]> (init_distances nodes) !! v = Some (Num z)
                 → v = s ∧ z = 0) as Hfin.
  { intros v z. rewrite lookup_insert_Some. intros [[<- [= <-]]|[_ Hd]]; [done|].
    unfold init_distances in Hd. rewrite fold_insert_empty_lookup in Hd.
    by destruct (decide _). }
  split; simpl.
  - intros v z [-> ->]%Hfin. apply gwalk_here.
  - intros v Hv. assert (v = s) as -> by set_solver.
    exists 0. rewrite lookup_insert_eq. split; [done|]. apply gwalk_nonneg.
  - intros u v w Hu Hne. assert (u = s) as -> by set_solver. done.
  - intros v z Hv [-> ->]%Hfin. set_solver.
  - by intros i Hi%elem_of_nil.
Qed.

End DijkstraOptimal.

Section DijkstraLeast.
Import Dijkstra DijkstraInv DijkstraOpt.

Lemma add_edge_entries g e g' :
  add_edge g e = Returned g' →
  ∀ y a, has_entry g' y a
         ↔ has_entry g y a
           ∨ (e_blocked e = false
              ∧ ((y = e_from e ∧ a = mkAdj (e_to e) (e_weight e) (e_id e))
                 ∨ (y = e_to e ∧ a = mkAdj (e_from e) (e_weight e) (e_id e)))).
Proof.
  unfold add_edge. destruct (e_blocked e) eqn:Hb.
  { intros [= <-] y a. split; [by left|]. by intros [?|[? _]]. }
  destruct (g !! e_from e) as [l1|] eqn:H1; [|done].
  destruct (<[_ := _]> g !! e_to e) as [l2|] eqn:H2; [|done].
  intros [= <-] y a.
  rewrite (has_entry_insert _ _ l2 _ (mkAdj (e_from e) (e_weight e) (e_id e)))
    by (done || apply elem_of_snoc).
  rewrite (has_entry_insert _ _ l1 _ (mkAdj (e_to e) (e_weight e) (e_id e)))
    by (done || apply elem_of_snoc).
  naive_solver.
Qed.

Lemma forEach_add_edge_arc edges : ∀ g g',
  forEach add_edge edges g = Returned g' →
  ∀ u v w, arc g' u v w
           ↔ arc g u v w
             ∨ ∃ e, e ∈ edges ∧ e_blocked e = false ∧ joins_pair u v e
                    ∧ e_weight e = w.
Proof.
  induction edges as [|e edges IH]; intros g g'; simpl.
  - intros [= <-] u v w. split; [by left|].
    intros [?|(e & He & _)]; [done|]. by apply elem_of_nil in He.
  - intros (g1 & H1 & H2)%obind_returned u v w.
    rewrite (IH _ _ H2). pose proof (add_edge_entries _ _ _ H1) as He.
    unfold arc. split.
    + intros [(a & Ha & Hn & Hw)|(e' & He' & Hb & Hj & Hw)].
      * apply He in Ha as [Ha|[Hb [[-> ->]|[-> ->]]]]; simpl in *.
        -- left. eauto.
        -- right. exists e. split; [apply list_elem_of_here|].
           unfold joins_pair. eauto.
        -- right. exists e. split; [apply list_elem_of_here|].
           unfold joins_pair. eauto.
      * right. exists e'. split; [by apply list_elem_of_further|done].
    + intros [(a & Ha & Hn & Hw)|(e' & [->|He']%elem_of_cons & Hb & Hj & Hw)].
      * left. exists a. split; [|done]. apply He. by left.
      * left. destruct Hj as [[<- <-]|[<- <-]].
        -- exists (mkAdj (e_to e) (e_weight e) (e_id e)). split; [|done].
           apply He. right. eauto.
        -- exists (mkAdj (e_from e) (e_weight e) (e_id e)). split; [|done].
           apply He. right. eauto.
      * right. eauto.
Qed.

(** The adjacency entries are the unblocked edges, in both directions. *)
Lemma arc_spec nodes edges g u v w :
  build_graph nodes edges = Returned g →
  arc g u v w
  ↔ ∃ e, e ∈ edges ∧ e_blocked e = false ∧ joins_pair u v e ∧ e_weight e = w.
Proof.
  intros Hg. unfold build_graph in Hg.
  rewrite (forEach_add_edge_arc _ _ _ Hg). split; [|by right].
  intros [(a & (l & Hl & Ha) & _)|H]; [|done].
  unfold init_graph in Hl. rewrite fold_insert_empty_lookup in Hl.
  destruct (decide _); [|done]. injection Hl as <-. by apply elem_of_nil in Ha.
Qed.

Lemma gwalk_walk nodes edges g s v c :
  build_graph nodes edges = Returned g → gwalk g s v c ↔ walk edges s v c.
Proof.
  intros Hg. split.
  - induction 1 as [|u v w c _ IH Harc]; [apply walk_here|].
    apply (arc_spec _ _ _ _ _ _ Hg) in Harc as (e & He & Hb & Hj & <-).
    by eapply walk_road.
  - induction 1 as [|b c e w _ IH He Hb Hj]; [apply gwalk_here|].
    eapply gwalk_arc; [done|]. apply (arc_spec _ _ _ _ _ _ Hg). eauto.
Qed.

(** With no negative weight, [dijkstra] reports a route exactly when a walk
    leads from the origin to the destination, and its [totalCost] is then the
    least weight of such a walk. *)
Lemma dijkstra_least nodes edges s t :
  endpoints_valid nodes edges → nonnegative edges →
  s ≠ "" → t ≠ "" → s ≠ t → s ∈ ids nodes → t ∈ ids nodes →
  ∃ r, dijkstra nodes edges s t = Returned r
       ∧ (found r = true →
            ∃ z, totalCost r = Num z ∧ walk edges s t z
                 ∧ ∀ c, walk edges s t c → z ≤ c)
       ∧ (found r = false → ∀ c, ¬ walk edges s t c).
Proof.
  intros Hvalid Hnn Hs0 Ht0 Hst Hsin Htin.
  destruct (build_graph_returns nodes edges Hvalid) as [g Hg].
  pose proof (λ k, build_graph_lookup_is_Some nodes edges g k Hg) as Hdom.
  pose proof (build_graph_closed _ _ _ Hg) as Hclosed.
  assert (∀ u v w, arc g u v w → 0 ≤ w) as Harcs.
  { intros u v w (e & He & Hb & _ & <-)%(arc_spec _ _ _ _ _ _ Hg).
    unfold nonnegative in Hnn. rewrite Forall_forall in Hnn. by apply Hnn. }
  unfold dijkstra.
  rewrite !bool_decide_eq_false_2 by done. cbn [orb].
  rewrite Hg. cbn [obind].
  assert (is_Some (g !! s)) as [nbrs Hs] by (by apply Hdom).
  assert (is_Some (g !! t)) as [nbrt Ht] by (by apply Hdom).
  rewrite Hs, Ht.
  unfold loop_fuel.
  replace (2 * length edges + 2)%nat with (S (2 * length edges + 1)) by lia.
  rewrite (first_iteration g s t _ _ _ nbrs Hst Hs) by apply lookup_insert_eq.
  pose proof (initial_path_inv nodes g s Hdom ltac:(by rewrite Hs)) as Hinv0.
  set (st1 := foldl (relax s)
                (mkState (<[s := Num 0]> (init_distances nodes))
                   (init_previous nodes) ({[s]} ∪ ∅) []) nbrs).
  assert (path_inv g s st1) as Hinv1.
  { apply foldl_relax_path_inv; [simpl; set_solver|done]. }
  assert (opt_inv g s None st1) as Hopt1.
  { apply expand_opt_inv; try done; [simpl; set_solver|].
    by apply initial_opt_inv. }
  destruct (loop_returns g s t (2 * length edges + 1) st1) as [st Hloop]; [done| |].
  { unfold potential, st1. rewrite foldl_relax_visited. simpl.
    pose proof (foldl_relax_pq_length s nbrs
                  (mkState (<[s := Num 0]> (init_distances nodes))
                     (init_previous nodes) ({[s]} ∪ ∅) [])) as Hq.
    simpl in Hq.
    pose proof (adj_total_visit g ∅ s nbrs Hs ltac:(set_solver)).
    pose proof (build_graph_adj_total _ _ _ Hg). lia. }
  rewrite Hloop. cbn [obind].
  pose proof (loop_path_inv _ _ _ _ _ _ Hinv1 Hloop) as Hinv.
  destruct (loop_settled g s Harcs t _ _ _ Hclosed Hinv1 Hopt1 Hloop) as [Hfin Hinf].
  assert (is_Some (distances st !! t)) as [x Hx].
  { rewrite (pi_dom_dist _ _ _ Hinv). by rewrite Ht. }
  rewrite Hx.
  destruct (pi_shape _ _ _ Hinv t x Hx) as [->|[z ->]]; cbn [is_infinity to_number].
  - eexists. split; [done|]. split; [done|]. intros _ c Hw.
    apply (Hinf Hx c). by apply (gwalk_walk nodes edges).
  - destruct (path_inv_chain_to g s st t z Hinv Hx) as (l & Hc & Hnd & Hl).
    rewrite (chain_walk_back _ _ _ _ [] (S (length nodes)) Hc).
    + cbn [obind]. eexists. split; [done|]. simpl. split; [|done]. intros _.
      destruct (Hfin z Hx) as [Hw Hmin]. exists z. split; [done|].
      split; [by apply (gwalk_walk nodes edges g)|].
      intros c Hc'. by apply Hmin, (gwalk_walk nodes edges).
    + pose proof (NoDup_length_le_nodes l nodes Hnd) as Hle.
      assert (length l ≤ length nodes)%nat; [|lia].
      apply Hle. intros y Hy. by apply Hdom, Hl.
Qed.

End DijkstraLeast.

(** ** The reported cost and the steps of [dijkstra] *)

Section DijkstraCosts.
Import Dijkstra DijkstraInv DijkstraOpt DijkstraCost.

Lemma relax_cost_inv g s cur st a :
  cur ∈ visited st → path_inv g s st → arc g cur (a_node a) (a_weight a) →
  cost_inv g s st → cost_inv g s (relax cur st a).
Proof.
  intros Hcur Hinv Harc [Hs Hlink].
  destruct (relax_cases cur st a (pi_shape _ _ _ Hinv))
    as [->|(Hv & z & Hz & _ & _ & ->)]; [done|].
  assert (cur ≠ a_node a) as Hne by (by intros ->).
  split; simpl.
  - rewrite lookup_insert_ne; [done|]. intros <-. apply Hv, (pi_start _ _ _ Hinv).
  - intros v u. rewrite lookup_insert_Some. intros [[<- [= <-]]|[Hnv Hp]].
    + split; [done|]. exists z, (a_weight a).
      rewrite lookup_insert_ne by done. by rewrite lookup_insert_eq.
    + destruct (Hlink v u Hp) as (Hu & zu & w & Hzu & Hw & Hzv).
      split; [done|]. exists zu, w.
      rewrite (lookup_insert_ne _ _ u) by (by intros <-).
      by rewrite (lookup_insert_ne _ _ v) by done.
Qed.

Lemma foldl_relax_cost_inv g s cur nbrs st :
  cur ∈ visited st → path_inv g s st → g !! cur = Some nbrs →
  cost_inv g s st → cost_inv g s (foldl (relax cur) st nbrs).
Proof.
  intros Hcur Hinv Hg Hcost.
  apply (foldl_invariant
           (λ st, cur ∈ visited st ∧ path_inv g s st ∧ cost_inv g s st));
    [|done].
  intros st' a Ha (H1 & H2 & H3). split; [by rewrite relax_visited|].
  split; [by apply relax_path_inv|]. apply relax_cost_inv; try done.
  exists a. split; [by exists nbrs|done].
Qed.

Lemma loop_cost_inv g s t fuel st st' :
  path_inv g s st → cost_inv g s st →
  loop fuel g t st = Returned st' → cost_inv g s st'.
Proof.
  intros Hinv Hcost.
  assert (∀ st vis q, cost_inv g s st → visited st ⊆ vis →
            cost_inv g s (mkState (distances st) (previous st) vis q)) as Hgrow.
  { intros st0 vis q [Hs Hlink] Hsub. split; simpl; [done|].
    intros v u Hp. destruct (Hlink v u Hp) as [Hu Hrest]. split; [set_solver|done]. }
  intros Hloop.
  apply (loop_invariant (λ st, path_inv g s st ∧ cost_inv g s st)
           (cost_inv g s) g t) with (fuel := fuel) (st := st); try done.
  - intros st0 item rest [Hi Hc] Hsort Hv. split; [|by apply Hgrow].
    destruct Hi as [Hdp Hdd Hsh Hst Hroot Hfr Hq Hvis]. split; simpl; try done.
    intros i Hi. apply Hq. rewrite <- (pq_sort_perm (pq st0)), Hsort.
    by apply list_elem_of_further.
  - intros st0 item rest [Hi Hc] Hsort Hv _. apply Hgrow; [done|set_solver].
  - intros st0 item rest [Hi Hc] Hsort Hv _ _.
    split; [by apply path_inv_visit|]. apply Hgrow; [done|set_solver].
  - intros st0 item rest nbrs [Hi Hc] Hsort Hv _ _ Hg.
    pose proof (path_inv_visit g s st0 item rest Hi Hsort Hv) as Hi1.
    split; [apply foldl_relax_path_inv; [simpl; set_solver|done]|].
    apply foldl_relax_cost_inv; try done; [simpl; set_solver|].
    apply Hgrow; [done|set_solver].
  - by intros st0 [_ Hc] _.
Qed.

Lemma initial_cost_inv g nodes s :
  cost_inv g s (mkState (<[s := Num 0]> (init_distances nodes))
                  (init_previous nodes) ({[s]} ∪ ∅) []).
Proof.
  split; simpl; [apply lookup_insert_eq|].
  intros v u Hp. unfold init_previous in Hp.
  rewrite fold_insert_empty_lookup in Hp. by destruct (decide _).
Qed.

(** The state in which the loop of [dijkstra] ends. *)
Lemma dijkstra_final_state nodes edges g s t st :
  build_graph nodes edges = Returned g → s ≠ t → is_Some (g !! s) →
  loop (loop_fuel edges) g t
    (mkState (<[s := Num 0]> (init_distances nodes)) (init_previous nodes) ∅
       [mkItem s (Num 0)]) = Returned st →
  path_inv g s st ∧ cost_inv g s st.
Proof.
  intros Hg Hst [nbrs Hs]. unfold loop_fuel.
  replace (2 * length edges + 2)%nat with (S (2 * length edges + 1)) by lia.
  rewrite (first_iteration g s t _ _ _ nbrs Hst Hs) by apply lookup_insert_eq.
  pose proof (λ k, build_graph_lookup_is_Some nodes edges g k Hg) as Hdom.
  pose proof (initial_path_inv nodes g s Hdom ltac:(by rewrite Hs)) as Hinv0.
  intros Hloop.
  assert (path_inv g s
            (foldl (relax s)
               (mkState (<[s := Num 0]> (init_distances nodes))
                  (init_previous nodes) ({[s]} ∪ ∅) []) nbrs)) as Hinv1.
  { apply foldl_relax_path_inv; [simpl; set_solver|done]. }
  split; [by eapply loop_path_inv|].
  eapply loop_cost_inv; [exact Hinv1| |exact Hloop].
  apply foldl_relax_cost_inv; try done; [simpl; set_solver|].
  apply initial_cost_inv.
Qed.

End DijkstraCosts.

Section DijkstraReport.
Import Dijkstra DijkstraInv DijkstraOpt DijkstraCost.

Lemma sum_costs_app l1 l2 : sum_costs (l1 ++ l2) = sum_costs l1 + sum_costs l2.
Proof. induction l1 as [|x l1 IH]; simpl; [done|]. rewrite IH. lia. Qed.

Lemma build_steps_snoc f l u v :
  last l = Some u →
  build_steps f (l ++ [v])
  = build_steps f l
    ++ match f u v with
       | Some e => [mkStep u v (e_weight e) (e_id e)]
       | None => []
       end.
Proof.
  induction l as [|a [|b l] IH]; [done| |].
  - intros [= ->]. simpl. by destruct (f u v).
  - intros Hl. specialize (IH Hl).
    change (build_steps f ((a :: b :: l) ++ [v]))
      with (match f a b with
            | Some e => mkStep a b (e_weight e) (e_id e) :: build_steps f ((b :: l) ++ [v])
            | None => build_steps f ((b :: l) ++ [v])
            end).
    change (build_steps f (a :: b :: l))
      with (match f a b with
            | Some e => mkStep a b (e_weight e) (e_id e) :: build_steps f (b :: l)
            | None => build_steps f (b :: l)
            end).
    rewrite IH. by destruct (f a b).
Qed.

Lemma simple_unique edges a b e e' :
  simple edges = true → e ∈ edges → e' ∈ edges →
  joins_pair a b e → joins_pair a b e' → e = e'.
Proof.
  assert (∀ x y, joins_pair a b x → joins_pair a b y →
                 joins (e_from x) (e_to x) y = true) as Hj.
  { intros x y Hx Hy. apply joins_spec. unfold joins_pair in *. naive_solver. }
  induction edges as [|x edges IH]; [by intros _ ?%elem_of_nil|].
  simpl. intros [Hall Hs]%andb_true_iff He He' Hje Hje'.
  rewrite forallb_forall in Hall.
  assert (∀ y, y ∈ edges → joins_pair a b x → joins_pair a b y → False) as Hno.
  { intros y Hy Hx Hjy. apply list_elem_of_In, Hall in Hy.
    rewrite (Hj x y Hx Hjy) in Hy. done. }
  apply elem_of_cons in He as [->|He]; apply elem_of_cons in He' as [->|He'].
  - done.
  - destruct (Hno e' He' Hje Hje').
  - destruct (Hno e He Hje' Hje).
  - by apply IH.
Qed.

Lemma chain_chained g s st v l :
  cost_inv g s st → chain (previous st) s v l →
  chained (λ a b, ∃ w, arc g a b w) l.
Proof.
  intros Hcost. induction 1 as [|v u l Hp Hc IH]; [done|].
  apply chained_app. split; [done|]. split; [done|].
  intros a b Ha [= <-]. destruct (chain_ends _ _ _ _ Hc) as [_ Hlast].
  rewrite Hlast in Ha. injection Ha as <-.
  destruct (ci_link _ _ _ Hcost _ _ Hp) as (_ & zu & w & _ & Hw & _). eauto.
Qed.

(** Along a chain of predecessor links whose labels add up edge by edge, the
    label of the last node is the sum of the costs of the steps. *)
Lemma chain_sum (p : gmap string (option string)) (d : gmap string jsnum)
    (f : string → string → option Edge) s v l :
  d !! s = Some (Num 0) →
  (∀ v u, p !! v = Some (Some u) →
     ∃ zu e, d !! u = Some (Num zu) ∧ f u v = Some e
             ∧ d !! v = Some (Num (zu + e_weight e))) →
  chain p s v l →
  d !! v = Some (Num (sum_costs (build_steps f l))).
Proof.
  intros Hs Hlink. induction 1 as [|v u l Hp Hc IH]; [done|].
  destruct (chain_ends _ _ _ _ Hc) as [_ Hlast].
  destruct (Hlink _ _ Hp) as (zu & e & Hzu & He & Hzv).
  rewrite IH in Hzu. injection Hzu as <-.
  rewrite (build_steps_snoc f l u v Hlast), sum_costs_app, He. simpl.
  rewrite Hzv. do 2 f_equal. lia.
Qed.

Lemma chain_cost g s st (f : string → string → option Edge) v l :
  cost_inv g s st →
  (∀ a b w, arc g a b w → ∃ e, f a b = Some e ∧ e_weight e = w) →
  chain (previous st) s v l →
  distances st !! v = Some (Num (sum_costs (build_steps f l))).
Proof.
  intros Hcost Hf. apply chain_sum; [apply (ci_start _ _ _ Hcost)|].
  intros v' u Hp.
  destruct (ci_link _ _ _ Hcost _ _ Hp) as (_ & zu & w & Hzu & Hw & Hzv).
  destruct (Hf _ _ _ Hw) as (e & He & <-). eauto.
Qed.

Lemma chain_steps_length g s st (f : string → string → option Edge) v l :
  cost_inv g s st →
  (∀ a b w, arc g a b w → is_Some (f a b)) →
  chain (previous st) s v l →
  S (length (build_steps f l)) = length l.
Proof.
  intros Hcost Hf. induction 1 as [|v u l Hp Hc IH]; [done|].
  destruct (chain_ends _ _ _ _ Hc) as [_ Hlast].
  destruct (ci_link _ _ _ Hcost _ _ Hp) as (_ & zu & w & _ & Hw & _).
  rewrite (build_steps_snoc f l u v Hlast), !length_app.
  destruct (Hf _ _ _ Hw) as [e ->]. simpl. lia.
Qed.

(** What a found route of [dijkstra] is made of. *)
Lemma dijkstra_found_chain nodes edges s t r :
  dijkstra nodes edges s t = Returned r → found r = true →
  ∃ g st,
    build_graph nodes edges = Returned g
    ∧ path_inv g s st ∧ cost_inv g s st
    ∧ chain (previous st) s t (path r) ∧ NoDup (path r)
    ∧ (∀ x, x ∈ path r → x ∈ ids nodes)
    ∧ totalCost r = to_number (distances st !! t)
    ∧ steps r = build_steps (find_edge edges) (path r).
Proof.
  intros Hr Hf.
  destruct (dijkstra_found_inv _ _ _ _ _ Hr Hf)
    as (g & st & Hg & _ & _ & Hst & Hs & Ht & Hloop & Hinf & Hwalk & Hcost & Hsteps).
  destruct (dijkstra_final_state _ _ _ _ _ _ Hg Hst Hs Hloop) as [Hinv Hci].
  pose proof (λ k, build_graph_lookup_is_Some nodes edges g k Hg) as Hdom.
  assert (∃ z, distances st !! t = Some (Num z)) as [z Hz].
  { assert (is_Some (distances st !! t)) as [x Hx].
    { by rewrite (pi_dom_dist _ _ _ Hinv). }
    destruct (pi_shape _ _ _ Hinv t x Hx) as [->|[z ->]]; [|eauto].
    by rewrite Hx in Hinf. }
  destruct (path_inv_chain_to g s st t z Hinv Hz) as (l & Hc & Hnd & Hl).
  assert (length l ≤ S (length nodes))%nat as Hlen.
  { pose proof (NoDup_length_le_nodes l nodes Hnd) as Hle.
    assert (length l ≤ length nodes)%nat; [|lia].
    apply Hle. intros y Hy. by apply Hdom, Hl. }
  rewrite (chain_walk_back _ _ _ _ [] _ Hc Hlen), app_nil_r in Hwalk.
  injection Hwalk as Hpath. subst l.
  exists g, st. do 5 (split; [done|]). split; [|done].
  intros x Hx. by apply Hdom, Hl.
Qed.

End DijkstraReport.

(** ** The reported cost and the steps of [bellmanFord] *)

Section BellmanFordCosts.
Import BellmanFord BellmanFordInv BellmanFordCost.

Lemma relax_edge_link_inv nodes bi s lb b e :
  labels_ok nodes lb → e ∈ bi →
  link_inv bi s lb → link_inv bi s (relax_edge (lb, b) e).1.
Proof.
  intros Hok He [Hroot Hlink]. unfold relax_edge.
  destruct (relaxable (distances lb) e) eqn:Hr; [|done].
  destruct (relaxable_cases _ _ (lo_shape _ _ Hok) Hr) as (z & Hz & [x Hx] & Hlt).
  rewrite Hz. simpl.
  assert (∀ zt, distances lb !! d_to e = Some (Num zt) → z + d_weight e < zt) as Hless.
  { intros zt Hzt. rewrite Hzt in Hlt. simpl in Hlt.
    by apply bool_decide_eq_true in Hlt. }
  split; simpl.
  - intros v. rewrite lookup_insert_Some. intros [[_ ?]|[Hne Hp]]; [done|].
    rewrite lookup_insert_ne by done. by apply Hroot.
  - intros v u. rewrite lookup_insert_Some. intros [[<- [= <-]]|[Hne Hp]].
    + rewrite lookup_insert_eq.
      destruct (decide (d_to e = d_from e)) as [Heq|Hneq].
      * rewrite Heq, lookup_insert_eq.
        exists (z + d_weight e), (z + d_weight e), e.
        do 4 (split; [done|]). split; [done|].
        rewrite Heq in Hless. specialize (Hless _ Hz). lia.
      * rewrite lookup_insert_ne by done.
        exists z, (z + d_weight e), e. rewrite Hz. do 5 (split; [done|]). lia.
    + destruct (Hlink v u Hp) as (zu & zv & de & Hzu & Hzv & Hde & Hf & Ht & Hle).
      rewrite (lookup_insert_ne _ _ v) by done.
      destruct (decide (d_to e = u)) as [Heq|Hneq].
      * rewrite Heq, lookup_insert_eq.
        exists (z + d_weight e), zv, de. do 5 (split; [done|]).
        rewrite Heq in Hless. specialize (Hless _ Hzu). lia.
      * rewrite lookup_insert_ne by done. exists zu, zv, de. done.
Qed.

Lemma relax_pass_link_inv nodes bi s lb :
  labels_ok nodes lb → link_inv bi s lb → link_inv bi s (relax_pass bi lb).1.
Proof.
  intros Hok Hli. unfold relax_pass.
  apply (foldl_invariant
           (λ acc : Labels * bool, labels_ok nodes acc.1 ∧ link_inv bi s acc.1));
    [|done].
  intros [lb' b] e He [H1 H2]. split; [by apply relax_edge_labels_ok|].
  by eapply relax_edge_link_inv.
Qed.

Lemma relax_loop_link_inv nodes k bi s lb :
  labels_ok nodes lb → link_inv bi s lb → link_inv bi s (relax_loop k bi lb).
Proof.
  revert lb. induction k as [|k IH]; intros lb Hok Hli; simpl; [done|].
  pose proof (relax_pass_labels_ok nodes bi lb Hok) as H1.
  pose proof (relax_pass_link_inv nodes bi s lb Hok Hli) as H2.
  destruct (relax_pass bi lb) as [lb' updated]. simpl in H1, H2.
  destruct updated; [by apply IH|done].
Qed.

Lemma final_labels_link_inv nodes edges s :
  s ∈ ids nodes →
  link_inv (bidirectional (activeEdges edges)) s (final_labels nodes edges s).
Proof.
  intros Hs. apply (relax_loop_link_inv nodes); [by apply initial_labels_ok|].
  split; simpl.
  - intros v Hv. unfold init_previous in Hv. rewrite fold_insert_empty_lookup in Hv.
    destruct (decide (v ∈ ids nodes)) as [Hin|]; [|done].
    destruct (decide (v = s)) as [->|Hne]; [apply lookup_insert_eq|].
    rewrite lookup_insert_ne by done. unfold init_distances.
    rewrite fold_insert_empty_lookup. by rewrite decide_True.
  - intros v u Hp. unfold init_previous in Hp. rewrite fold_insert_empty_lookup in Hp.
    by destruct (decide _).
Qed.

(** The reconstruction loop returns the chain of predecessor links that
    ends at the node it starts from, without repetition. *)
Lemma walk_back_chain p fuel : ∀ cur seen acc pth,
  walk_back fuel p cur seen acc = Returned (inr pth) →
  ∃ root l, pth = l ++ acc ∧ DijkstraInv.chain p root cur l.
Proof.
  induction fuel as [|fuel IH]; intros cur seen acc pth; [done|].
  simpl. destruct (decide (cur ∈ seen)); [done|].
  destruct (p !! cur) as [[u|]|] eqn:Hp; [| |done].
  - intros (root & l & -> & Hc)%IH. exists root, (l ++ [cur]).
    split; [by rewrite <- app_assoc|]. by eapply DijkstraInv.chain_step.
  - intros [= <-]. exists cur, [cur]. split; [done|].
    by apply DijkstraInv.chain_root.
Qed.

Lemma walk_back_NoDup p fuel : ∀ cur seen acc pth,
  walk_back fuel p cur seen acc = Returned (inr pth) →
  NoDup acc → (∀ x, x ∈ acc → x ∈ seen) → NoDup pth.
Proof.
  induction fuel as [|fuel IH]; intros cur seen acc pth; [done|].
  simpl. destruct (decide (cur ∈ seen)) as [|Hout]; [done|].
  assert (NoDup acc → (∀ x, x ∈ acc → x ∈ seen) → NoDup (cur :: acc)) as Hnd.
  { intros Hacc Hsub. apply NoDup_cons. split; [|done]. intros Hin. by apply Hout, Hsub. }
  destruct (p !! cur) as [[u|]|] eqn:Hp; [| |done].
  - intros Hw Hacc Hsub. apply (IH _ _ _ _ Hw); [by apply Hnd|].
    intros x [->|Hx]%elem_of_cons; set_solver.
  - intros [= <-] Hacc Hsub. by apply Hnd.
Qed.

Lemma build_edgeMap_from active : ∀ (m : gmap string Edge) k e,
  foldl (λ m e, <[edge_key (e_to e) (e_from e) := e]>
                  (<[edge_key (e_from e) (e_to e) := e]> m)) m active !! k = Some e →
  m !! k = Some e
  ∨ (e ∈ active
     ∧ (k = edge_key (e_from e) (e_to e) ∨ k = edge_key (e_to e) (e_from e))).
Proof.
  induction active as [|x active IH]; intros m k e; simpl; [by left|].
  intros [Hm|[He Hk]]%IH.
  - apply lookup_insert_Some in Hm as [[<- <-]|[_ Hm]].
    { right. split; [apply list_elem_of_here|by right]. }
    apply lookup_insert_Some in Hm as [[<- <-]|[_ Hm]]; [|by left].
    right. split; [apply list_elem_of_here|by left].
  - right. split; [by apply list_elem_of_further|done].
Qed.

Lemma build_edgeMap_lookup active k e :
  build_edgeMap active !! k = Some e →
  e ∈ active
  ∧ (k = edge_key (e_from e) (e_to e) ∨ k = edge_key (e_to e) (e_from e)).
Proof.
  intros [Hm|H]%build_edgeMap_from; [|done]. by rewrite lookup_empty in Hm.
Qed.

Lemma build_edgeMap_keeps active : ∀ (m : gmap string Edge) k,
  is_Some (m !! k) →
  is_Some (foldl (λ m e, <[edge_key (e_to e) (e_from e) := e]>
                           (<[edge_key (e_from e) (e_to e) := e]> m)) m active !! k).
Proof.
  induction active as [|x active IH]; intros m k Hk; simpl; [done|].
  apply IH. rewrite !lookup_insert_is_Some'. eauto.
Qed.

Lemma build_edgeMap_is_Some active e :
  e ∈ active →
  is_Some (build_edgeMap active !! edge_key (e_from e) (e_to e))
  ∧ is_Some (build_edgeMap active !! edge_key (e_to e) (e_from e)).
Proof.
  unfold build_edgeMap. generalize (∅ : gmap string Edge).
  induction active as [|x active IH]; intros m He; [by apply elem_of_nil in He|].
  simpl. apply elem_of_cons in He as [->|He]; [|by apply IH].
  split; apply build_edgeMap_keeps; rewrite !lookup_insert_is_Some'; eauto.
Qed.

(** What [bellmanFord] returns when it reports a route. *)
Lemma bellmanFord_found_inv nodes edges s t r :
  bellmanFord nodes edges s t = Returned r → found r = true →
  (s = t ∧ r = mkRoute [s] (Num 0) [] true (Some false) None)
  ∨ (s ≠ t ∧ s ∈ ids nodes ∧ t ∈ ids nodes
     ∧ let bi := bidirectional (activeEdges edges) in
       let lb := final_labels nodes edges s in
       let neg := tainted (length nodes) bi (distances lb) in
       (t ∉ neg) ∧ is_infinity (distances lb !! t) = false
       ∧ ∃ p, walk_back (S (length nodes)) (previous lb) t ∅ [] = Returned (inr p)
              ∧ head p = Some s ∧ last p = Some t
              ∧ r = mkRoute p (to_number (distances lb !! t))
                      (build_steps (λ a b, build_edgeMap (activeEdges edges)
                                             !! edge_key a b) p)
                      true (Some (negb (bool_decide (neg = ∅)))) None).
Proof.
  unfold bellmanFord. intros H Hf.
  destruct (bool_decide (nodes = [])); [injection H as <-; discriminate|].
  destruct (bool_decide (s = "") || bool_decide (t = ""));
    [injection H as <-; discriminate|].
  destruct (bool_decide (s = t)) eqn:Hst.
  { apply bool_decide_eq_true in Hst. injection H as <-. by left. }
  apply bool_decide_eq_false in Hst.
  destruct (bool_decide (s ∈ nodeIds nodes)) eqn:Hs; simpl in H;
    [|injection H as <-; discriminate].
  destruct (bool_decide (t ∈ nodeIds nodes)) eqn:Ht; simpl in H;
    [|injection H as <-; discriminate].
  apply bool_decide_eq_true, elem_of_list_to_set in Hs, Ht.
  destruct (bool_decide (bidirectional (activeEdges edges) = []));
    [injection H as <-; discriminate|].
  fold (final_labels nodes edges s) in H.
  destruct (bool_decide (t ∈ _)) eqn:Hneg; [injection H as <-; discriminate|].
  apply bool_decide_eq_false in Hneg.
  destruct (is_infinity _) eqn:Hinf; [injection H as <-; discriminate|].
  apply obind_returned in H as ([[]|p] & Hw & H); [injection H as <-; discriminate|].
  destruct (bool_decide (head p ≠ Some s)) eqn:Hh; simpl in H;
    [injection H as <-; discriminate|].
  destruct (bool_decide (last p ≠ Some t)) eqn:Hl; simpl in H;
    [injection H as <-; discriminate|].
  apply bool_decide_eq_false in Hh, Hl.
  right. do 3 (split; [done|]). simpl. do 2 (split; [done|]).
  exists p. split; [done|].
  split; [by destruct (decide (head p = Some s)) as [|Hn]; [|destruct (Hh Hn)]|].
  split; [by destruct (decide (last p = Some t)) as [|Hn]; [|destruct (Hl Hn)]|].
  by injection H as <-.
Qed.

(** A target that can still be relaxed after the loop taints every node
    that the origin reaches. *)
Lemma detected_taints_component nodes edges s x0 y :
  s ∈ ids nodes →
  x0 ∈ detect (bidirectional (activeEdges edges))
         (distances (final_labels nodes edges s)) →
  reachable nodes edges s y →
  y ∈ tainted (length nodes) (bidirectional (activeEdges edges))
        (distances (final_labels nodes edges s)).
Proof.
  intros Hs Hdet Hry.
  set (bi := bidirectional (activeEdges edges)) in *.
  set (d := distances (final_labels nodes edges s)) in *.
  pose proof (final_labels_ok nodes edges s Hs) as Hok.
  apply elem_of_detect in Hdet as Hde. destruct Hde as (de & Hde & Hr & <-).
  destruct (relaxable_cases _ _ (lo_shape _ _ Hok) Hr) as (z & Hz & Hto & _).
  assert (d_from de ∈ ids nodes) as Hfin.
  { apply (lo_dom_dist _ _ Hok). fold d. eauto. }
  assert (d_to de ∈ ids nodes) as Htin by (by apply (lo_dom_dist _ _ Hok)).
  assert (reachable nodes edges s (d_from de)) as Hrf.
  { apply (final_labels_sound nodes edges s Hs). by exists z. }
  assert (reachable nodes edges s (d_to de)) as Hrt.
  { unfold reachable. eapply rtc_r; [exact Hrf|].
    split; [by apply bidirectional_linked|done]. }
  unfold tainted. fold bi d.
  destruct (decide (detect bi d = ∅)) as [Hempty|_]; [set_solver|].
  apply (propagate_covers nodes edges (length nodes) {[d_to de]}); [set_solver|].
  apply hops_reach; [done|lia|].
  etrans; [apply reachable_sym, Hrt|done].
Qed.

(** When a route is reported no entry of [bidirectionalEdges] can still be
    relaxed. *)
Lemma found_no_detect nodes edges s t :
  s ∈ ids nodes →
  t ∉ tainted (length nodes) (bidirectional (activeEdges edges))
        (distances (final_labels nodes edges s)) →
  is_infinity (distances (final_labels nodes edges s) !! t) = false →
  t ∈ ids nodes →
  detect (bidirectional (activeEdges edges))
    (distances (final_labels nodes edges s)) = ∅.
Proof.
  intros Hs Hneg Hinf Ht.
  pose proof (final_labels_ok nodes edges s Hs) as Hok.
  assert (reachable nodes edges s t) as Hrt.
  { apply (final_labels_sound nodes edges s Hs).
    apply (lo_dom_dist _ _ Hok) in Ht as [x Hx].
    destruct (lo_shape _ _ Hok _ _ Hx) as [->|[z ->]]; [by rewrite Hx in Hinf|].
    by exists z. }
  apply set_eq. intros x0. split; [|set_solver].
  intros Hx0. destruct Hneg. by eapply detected_taints_component.
Qed.

End BellmanFordCosts.

(** ** What a reported route is made of *)

Section Reports.
Import Dijkstra DijkstraInv DijkstraOpt DijkstraCost.
Import BellmanFord BellmanFordInv BellmanFordCost.

Lemma chain_root_link (p : gmap string (option string)) s v l :
  chain p s v l → p !! s = Some None.
Proof. by induction 1. Qed.

Lemma chain_chained_links (p : gmap string (option string)) s v l :
  chain p s v l → chained (λ a b, p !! b = Some (Some a)) l.
Proof.
  induction 1 as [|v u l Hp Hc IH]; [done|].
  apply chained_app. split; [done|]. split; [done|].
  intros a b Ha [= <-]. destruct (chain_ends _ _ _ _ Hc) as [_ Hlast].
  rewrite Hlast in Ha. by injection Ha as <-.
Qed.

Lemma chain_steps_count (p : gmap string (option string))
    (f : string → string → option Edge) s v l :
  (∀ v u, p !! v = Some (Some u) → is_Some (f u v)) →
  chain p s v l → S (length (build_steps f l)) = length l.
Proof.
  intros Hf. induction 1 as [|v u l Hp Hc IH]; [done|].
  destruct (chain_ends _ _ _ _ Hc) as [_ Hlast].
  rewrite (build_steps_snoc f l u v Hlast), !length_app.
  destruct (Hf v u Hp) as [e ->]. simpl. lia.
Qed.

Lemma build_steps_elem f p st :
  st ∈ build_steps f p →
  ∃ a b e, f a b = Some e ∧ st = mkStep a b (e_weight e) (e_id e).
Proof.
  induction p as [|a [|b p] IH]; [by intros ?%elem_of_nil|by intros ?%elem_of_nil|].
  change (build_steps f (a :: b :: p))
    with (match f a b with
          | Some e => mkStep a b (e_weight e) (e_id e) :: build_steps f (b :: p)
          | None => build_steps f (b :: p)
          end).
  destruct (f a b) as [e|] eqn:Hf; [|done].
  intros [->|Hin]%elem_of_cons; [eauto|by apply IH].
Qed.

(** The route of [dijkstra]: a chain of unblocked edges from the origin to
    the destination that repeats no node, with one step per edge; its cost
    is the sum of the step costs when no two edges join the same pair. *)
Lemma dijkstra_report nodes edges s t r :
  Dijkstra.dijkstra nodes edges s t = Returned r → found r = true →
  head (path r) = Some s ∧ last (path r) = Some t ∧ NoDup (path r)
  ∧ (∀ x, x ∈ path r → x ∈ ids nodes)
  ∧ chained (linked edges) (path r)
  ∧ S (length (steps r)) = length (path r)
  ∧ (simple edges = true → totalCost r = Num (sum_costs (steps r))).
Proof.
  intros Hr Hf.
  destruct (dijkstra_found_chain _ _ _ _ _ Hr Hf)
    as (g & st & Hg & Hinv & Hci & Hc & Hnd & Hl & Hcost & Hsteps).
  destruct (chain_ends _ _ _ _ Hc) as [Hhead Hlast].
  assert (∀ a b w, arc g a b w →
            ∃ e0, e0 ∈ edges ∧ e_blocked e0 = false ∧ joins_pair a b e0
                  ∧ e_weight e0 = w
                  ∧ ∃ e1, find_edge edges a b = Some e1 ∧ e1 ∈ edges
                          ∧ joins_pair a b e1) as Harc.
  { intros a b w (e0 & He0 & Hb & Hj & Hw)%(arc_spec _ _ _ _ _ _ Hg).
    exists e0. do 4 (split; [done|]).
    destruct (find_edge edges a b) as [e1|] eqn:Hfind.
    - apply find_edge_Some in Hfind as (l1 & l2 & -> & Hj1 & _).
      exists e1. split; [done|]. split; [|done].
      apply elem_of_app. right. apply list_elem_of_here.
    - apply find_edge_None in Hfind. rewrite Forall_forall in Hfind.
      destruct (Hfind e0 He0 Hj). }
  do 3 (split; [done|]). split; [done|]. split; [|split].
  - eapply chained_mono; [|by eapply chain_chained].
    intros a b [w (e0 & He0 & Hb & Hj & _)%Harc]. by exists e0.
  - rewrite Hsteps. eapply chain_steps_length; [done| |done].
    intros a b w (e0 & _ & _ & _ & _ & e1 & -> & _)%Harc. eauto.
  - intros Hsimple. rewrite Hcost, Hsteps.
    rewrite (chain_cost g s st (find_edge edges) t (path r)); [done|done| |done].
    intros a b w (e0 & He0 & _ & Hj0 & Hw & e1 & Hfind & He1 & Hj1)%Harc.
    exists e1. split; [done|].
    by rewrite (simple_unique edges a b e1 e0 Hsimple He1 He0 Hj1 Hj0).
Qed.

(** The same for [bellmanFord]; a reported route also means that no
    negative cycle was detected. *)
Lemma bellmanFord_report nodes edges s t r :
  BellmanFord.bellmanFord nodes edges s t = Returned r → found r = true →
  head (path r) = Some s ∧ last (path r) = Some t ∧ NoDup (path r)
  ∧ (s ≠ t → ∀ x, x ∈ path r → x ∈ ids nodes)
  ∧ chained (linked edges) (path r)
  ∧ hasNegativeCycle r = Some false
  ∧ (simple edges = true → keys_faithful edges →
     totalCost r = Num (sum_costs (steps r)) ∧ S (length (steps r)) = length (path r)).
Proof.
  intros Hr Hf.
  destruct (bellmanFord_found_inv _ _ _ _ _ Hr Hf)
    as [[<- ->]|(Hst & Hs & Ht & Hneg & Hinf & p & Hw & Hhead & Hlast & ->)]; simpl.
  { do 2 (split; [done|]). split; [apply NoDup_singleton|]. done. }
  set (bi := bidirectional (activeEdges edges)) in *.
  set (lb := final_labels nodes edges s) in *.
  pose proof (final_labels_ok nodes edges s Hs) as Hok.
  pose proof (final_labels_link_inv nodes edges s Hs) as Hli. fold bi lb in Hli.
  pose proof (found_no_detect nodes edges s t Hs Hneg Hinf Ht) as Hdet.
  fold bi lb in Hdet.
  destruct (walk_back_chain _ _ _ _ _ _ Hw) as (root & l & Hp & Hc).
  rewrite app_nil_r in Hp. subst l.
  destruct (chain_ends _ _ _ _ Hc) as [Hroot _].
  rewrite Hhead in Hroot. injection Hroot as <-.
  pose proof (chain_chained_links _ _ _ _ Hc) as Hlinks.
  do 2 (split; [done|]).
  split; [by apply (walk_back_NoDup _ _ _ _ _ _ Hw); [apply NoDup_nil|set_solver]|].
  split; [|split; [|split]].
  - intros _ x Hx.
    destruct (walk_back_elements _ _ _ _ _ _ Hw x Hx) as [Hin|[-> |[v Hv]]];
      [by apply elem_of_nil in Hin|done|].
    by apply (lo_links _ _ Hok v).
  - eapply chained_mono; [|exact Hlinks].
    intros a b Hab. destruct (li_link _ _ _ Hli _ _ Hab)
      as (zu & zv & de & _ & _ & Hde & <- & <- & _).
    by apply bidirectional_linked.
  - unfold tainted. fold bi lb. rewrite Hdet.
    by destruct (decide ((∅ : gset string) = ∅)).
  - intros Hsimple Hkeys.
    assert (∀ v u, previous lb !! v = Some (Some u) →
              ∃ zu e, distances lb !! u = Some (Num zu)
                      ∧ build_edgeMap (activeEdges edges) !! edge_key u v = Some e
                      ∧ distances lb !! v = Some (Num (zu + e_weight e))) as Hstep.
    { intros v u Hp.
      destruct (li_link _ _ _ Hli _ _ Hp) as (zu & zv & de & Hzu & Hzv & Hde & Hfu & Htv & Hle).
      assert (relaxable (distances lb) de = false) as Hnr.
      { destruct (relaxable (distances lb) de) eqn:Hrel; [|done].
        assert (d_to de ∈ detect bi (distances lb)) as Hin.
        { apply elem_of_detect. by exists de. }
        rewrite Hdet in Hin. set_solver. }
      unfold relaxable in Hnr. rewrite Hfu, Htv, Hzu, Hzv in Hnr. simpl in Hnr.
      apply bool_decide_eq_false in Hnr.
      assert (zv = zu + d_weight de) as -> by lia.
      apply elem_of_bidirectional in Hde as Hde0. destruct Hde0 as (e0 & He0 & Hor).
      assert (joins_pair u v e0 ∧ e_weight e0 = d_weight de
              ∧ is_Some (build_edgeMap (activeEdges edges) !! edge_key u v))
        as (Hj0 & Hw0 & [e1 He1]).
      { destruct (build_edgeMap_is_Some _ _ He0) as [H1 H2].
        destruct Hor as [-> | ->]; simpl in *; subst u v.
        - split; [by left|done].
        - split; [by right|done]. }
      exists zu, e1. split; [done|]. split; [done|].
      apply build_edgeMap_lookup in He1 as [He1 Hk].
      assert (joins_pair u v e1) as Hj1.
      { unfold keys_faithful in Hkeys. fold bi in Hkeys.
        rewrite Forall_forall in Hkeys. specialize (Hkeys de Hde).
        rewrite Forall_forall in Hkeys.
        destruct Hk as [Hk|Hk].
        - destruct (Hkeys (mkDEdge (e_from e1) (e_to e1) (e_weight e1) (e_id e1)))
            as [H1 H2].
          + apply elem_of_bidirectional. eauto.
          + by rewrite Hfu, Htv.
          + simpl in *. left. by rewrite <- H1, <- H2, Hfu, Htv.
        - destruct (Hkeys (mkDEdge (e_to e1) (e_from e1) (e_weight e1) (e_id e1)))
            as [H1 H2].
          + apply elem_of_bidirectional. eauto.
          + by rewrite Hfu, Htv.
          + simpl in *. right. by rewrite <- H1, <- H2, Hfu, Htv. }
      apply list_elem_of_filter in He0 as [_ He0].
      apply list_elem_of_filter in He1 as [_ He1].
      rewrite (simple_unique edges u v e1 e0 Hsimple He1 He0 Hj1 Hj0).
      by rewrite Hw0. }
    split.
    + assert (∃ z, distances lb !! t = Some (Num z)) as [z Hz].
      { eexists. eapply (chain_sum (previous lb) (distances lb)); [|exact Hstep|exact Hc].
        rewrite (li_root _ _ _ Hli s (chain_root_link _ _ _ _ Hc)).
        by rewrite decide_True. }
      rewrite Hz. simpl. f_equal.
      assert (distances lb !! t
              = Some (Num (sum_costs
                             (build_steps (λ a b, build_edgeMap (activeEdges edges)
                                                    !! edge_key a b) p)))) as Hsum.
      { eapply (chain_sum (previous lb) (distances lb)); [|exact Hstep|exact Hc].
        rewrite (li_root _ _ _ Hli s (chain_root_link _ _ _ _ Hc)).
        by rewrite decide_True. }
      rewrite Hz in Hsum. by injection Hsum.
    + eapply chain_steps_count; [|exact Hc].
      intros v u Hp. destruct (Hstep v u Hp) as (zu & e & _ & -> & _). eauto.
Qed.

End Reports.

(** ** Claim C1: the shape of a reported route, amended *)

Section RouteShapeAmended.
Import Dijkstra BellmanFord.

(** C1, amended.  Whenever [dijkstra] or [bellmanFord] returns
    [found = true], the path is non-empty, starts at the origin and ends at
    the destination; and if no two edges of the snapshot join the same pair
    of nodes (and distinct pairs have distinct [edgeMap] keys), [totalCost]
    is the sum of the costs of the returned steps. *)
Theorem found_route_shape nodes edges s t r :
  dijkstra nodes edges s t = Returned r ∨ bellmanFord nodes edges s t = Returned r →
  found r = true →
  path r ≠ [] ∧ head (path r) = Some s ∧ last (path r) = Some t
  ∧ (simple edges = true → keys_faithful edges →
     totalCost r = Num (sum_costs (steps r))).
Proof.
  intros [Hr|Hr] Hf.
  - destruct (dijkstra_report _ _ _ _ _ Hr Hf) as (Hh & Hl & _ & _ & _ & _ & Hc).
    split; [by destruct (path r)|]. do 2 (split; [done|]). intros Hs _. by apply Hc.
  - destruct (bellmanFord_report _ _ _ _ _ Hr Hf) as (Hh & Hl & _ & _ & _ & _ & Hc).
    split; [by destruct (path r)|]. do 2 (split; [done|]).
    intros Hs Hk. by apply Hc.
Qed.

Lemma found_route_shape_witness :
  let r := mkRoute ["A"; "C"; "B"; "D"; "E"; "F"] (Num 13)
             [mkStep "A" "C" 2 "2"; mkStep "C" "B" 1 "3"; mkStep "B" "D" 5 "4";
              mkStep "D" "E" 2 "7"; mkStep "E" "F" 3 "9"] true None None in
  dijkstra Samples.sampleNodes Samples.sampleEdges "A" "F" = Returned r
  ∧ totalCost r = Num (sum_costs (steps r)).
Proof.
  intros r.
  assert (dijkstra Samples.sampleNodes Samples.sampleEdges "A" "F" = Returned r) as Hr.
  { vm_compute. reflexivity. }
  split; [exact Hr|].
  apply (found_route_shape Samples.sampleNodes Samples.sampleEdges "A" "F" r
           (or_introl Hr) eq_refl).
  - vm_compute. reflexivity.
  - apply (bool_decide_unpack _). vm_compute. exact I.
Defined.

End RouteShapeAmended.

(** ** Claim C7: blocking an edge *)

Section Blocking.
Import Dijkstra BellmanFord.

Lemma walk_mono edges edges' a b c :
  (∀ e, e ∈ edges → e_blocked e = false → e ∈ edges') →
  walk edges a b c → walk edges' a b c.
Proof.
  intros Hsub. induction 1 as [|b c e w _ IH He Hb Hj]; [apply walk_here|].
  eapply walk_road; eauto.
Qed.

Lemma snapshot_with_open l1 l2 i f t w b e :
  e ∈ snapshot_with l1 l2 i f t w true → e_blocked e = false →
  e ∈ snapshot_with l1 l2 i f t w b.
Proof.
  unfold snapshot_with. rewrite !elem_of_app, !elem_of_cons.
  intros [?|[->|?]] Hb; [by left|done|by right; right].
Qed.

Lemma snapshot_with_valid nodes l1 l2 i f t w :
  endpoints_valid nodes (snapshot_with l1 l2 i f t w false) →
  endpoints_valid nodes (snapshot_with l1 l2 i f t w true).
Proof.
  unfold endpoints_valid. rewrite !Forall_forall. intros H e He Hb.
  apply H; [|done]. by apply snapshot_with_open.
Qed.



End Blocking.

(** ** Further properties of the two engines *)

Section EngineProperties.
Import Dijkstra BellmanFord.

Lemma hasNegativeWeights_false edges :
  hasNegativeWeights edges = false → nonnegative edges.
Proof.
  unfold hasNegativeWeights, nonnegative. intros H. apply Forall_forall.
  intros e He Hb. destruct (decide (0 ≤ e_weight e)) as [|Hneg]; [done|].
  assert (existsb (λ e, negb (e_blocked e) && bool_decide (e_weight e < 0)) edges
          = true) as Hex; [|by rewrite H in Hex].
  apply existsb_exists. exists e. split; [by apply list_elem_of_In|].
  rewrite Hb. simpl. apply bool_decide_eq_true. lia.
Qed.

Lemma bellmanFord_steps_inv nodes edges s t r :
  bellmanFord nodes edges s t = Returned r →
  steps r = []
  ∨ ∃ p, steps r = build_steps (λ a b, build_edgeMap (activeEdges edges)
                                         !! edge_key a b) p.
Proof.
  unfold bellmanFord. intros H.
  repeat match type of H with
         | (if ?b then _ else _) = _ =>
             destruct b; [injection H as <-; by left|]
         end.
  apply obind_returned in H as ([[]|p] & _ & H); [injection H as <-; by left|].
  destruct (_ || _); injection H as <-; [by left|right; by exists p].
Qed.

(** On a snapshot whose unblocked edges join listed nodes, none of them
    called [__proto__], with integer weights within [safe_weights] and none
    of them negative on an unblocked edge, which is what [hasNegativeWeights]
    tests, [dijkstra] finds a route exactly when unblocked edges lead from
    the origin to the destination, and its [totalCost] is then the least
    total weight of such a walk. *)
Theorem dijkstra_finds_least_cost nodes edges s t :
  endpoints_valid nodes edges → plain_nodes nodes → safe_weights nodes edges →
  hasNegativeWeights edges = false →
  s ≠ "" → t ≠ "" → s ≠ t → s ∈ ids nodes → t ∈ ids nodes →
  ∃ r, dijkstra nodes edges s t = Returned r
       ∧ (found r = true →
            ∃ z, totalCost r = Num z ∧ walk edges s t z
                 ∧ ∀ c, walk edges s t c → z ≤ c)
       ∧ (found r = false → ∀ c, ¬ walk edges s t c).
Proof.
  intros Hv _ _ Hn. apply dijkstra_least; [done|]. by apply hasNegativeWeights_false.
Qed.

Lemma dijkstra_finds_least_cost_witness :
  ∃ r, dijkstra Samples.sampleNodes Samples.sampleEdges "A" "F" = Returned r
       ∧ (found r = true →
            ∃ z, totalCost r = Num z ∧ walk Samples.sampleEdges "A" "F" z
                 ∧ ∀ c, walk Samples.sampleEdges "A" "F" c → z ≤ c)
       ∧ (found r = false → ∀ c, ¬ walk Samples.sampleEdges "A" "F" c).
Proof.
  apply dijkstra_finds_least_cost.
  - apply (bool_decide_unpack _). vm_compute. exact I.
  - apply (bool_decide_unpack _). vm_compute. exact I.
  - apply (bool_decide_unpack _). vm_compute. exact I.
  - vm_compute. reflexivity.
  - discriminate.
  - discriminate.
  - discriminate.
  - apply (bool_decide_unpack _). vm_compute. exact I.
  - apply (bool_decide_unpack _). vm_compute. exact I.
Defined.

(** The path of a route found by [dijkstra] repeats no node, stays among
    the listed nodes, moves along unblocked edges, and comes with exactly one
    step per edge. *)
Theorem dijkstra_path_is_simple_route nodes edges s t r :
  dijkstra nodes edges s t = Returned r → found r = true →
  NoDup (path r) ∧ (∀ x, x ∈ path r → x ∈ ids nodes)
  ∧ chained (linked edges) (path r)
  ∧ S (length (steps r)) = length (path r).
Proof.
  intros Hr Hf.
  by destruct (dijkstra_report _ _ _ _ _ Hr Hf) as (_ & _ & ? & ? & ? & ? & _).
Qed.

Lemma dijkstra_path_is_simple_route_witness :
  let r := mkRoute ["A"; "C"; "B"; "D"; "E"; "F"] (Num 13)
             [mkStep "A" "C" 2 "2"; mkStep "C" "B" 1 "3"; mkStep "B" "D" 5 "4";
              mkStep "D" "E" 2 "7"; mkStep "E" "F" 3 "9"] true None None in
  NoDup (path r) ∧ (∀ x, x ∈ path r → x ∈ ids Samples.sampleNodes)
  ∧ chained (linked Samples.sampleEdges) (path r)
  ∧ S (length (steps r)) = length (path r).
Proof.
  intros r.
  apply (dijkstra_path_is_simple_route Samples.sampleNodes Samples.sampleEdges
           "A" "F" r).
  - vm_compute. reflexivity.
  - reflexivity.
Defined.

(** On a snapshot whose unblocked edges join listed nodes, none of them
    called [__proto__], an origin or a destination that is not a listed node
    gives the not-found record, provided neither id is a name that plain
    objects inherit from [Object.prototype]. *)
Theorem dijkstra_unknown_endpoint nodes edges s t :
  endpoints_valid nodes edges → plain_nodes nodes →
  plain_key s → plain_key t → s ∉ ids nodes ∨ t ∉ ids nodes →
  dijkstra nodes edges s t = Returned Dijkstra.not_found.
Proof.
  intros Hv _ _ _ Hst. unfold dijkstra. destruct (_ || _); [done|].
  destruct (build_graph_returns nodes edges Hv) as [g Hg]. rewrite Hg. cbn [obind].
  pose proof (λ k, build_graph_lookup_is_Some nodes edges g k Hg) as Hdom.
  destruct (g !! s) as [ls|] eqn:Hs; [|done].
  destruct (g !! t) as [lt|] eqn:Ht; [|done].
  destruct Hst as [Hn|Hn]; destruct Hn; apply Hdom; eauto.
Qed.

Lemma dijkstra_unknown_endpoint_witness :
  dijkstra Samples.sampleNodes Samples.sampleEdges "A" "Z" = Returned Dijkstra.not_found.
Proof.
  apply dijkstra_unknown_endpoint.
  - apply (bool_decide_unpack _). vm_compute. exact I.
  - apply (bool_decide_unpack _). vm_compute. exact I.
  - apply (bool_decide_unpack _). vm_compute. exact I.
  - apply (bool_decide_unpack _). vm_compute. exact I.
  - right. apply (bool_decide_unpack _). vm_compute. exact I.
Defined.

(** The path of a route found by [bellmanFord] repeats no node and moves
    along unblocked edges; for distinct endpoints it stays among the listed
    nodes. *)
Theorem bellmanFord_path_is_simple_route nodes edges s t r :
  bellmanFord nodes edges s t = Returned r → found r = true →
  NoDup (path r) ∧ chained (linked edges) (path r)
  ∧ (s ≠ t → ∀ x, x ∈ path r → x ∈ ids nodes).
Proof.
  intros Hr Hf.
  by destruct (bellmanFord_report _ _ _ _ _ Hr Hf) as (_ & _ & ? & ? & ? & _).
Qed.

Lemma bellmanFord_path_is_simple_route_witness :
  let r := mkRoute ["A"; "C"; "B"; "D"; "E"; "F"] (Num 13)
             [mkStep "A" "C" 2 "2"; mkStep "C" "B" 1 "3"; mkStep "B" "D" 5 "4";
              mkStep "D" "E" 2 "7"; mkStep "E" "F" 3 "9"] true (Some false) None in
  NoDup (path r) ∧ chained (linked Samples.sampleEdges) (path r)
  ∧ ("A" ≠ "F" → ∀ x, x ∈ path r → x ∈ ids Samples.sampleNodes).
Proof.
  intros r.
  apply (bellmanFord_path_is_simple_route Samples.sampleNodes Samples.sampleEdges
           "A" "F" r).
  - vm_compute. reflexivity.
  - reflexivity.
Defined.



(** Every step that [bellmanFord] returns carries the weight and the id of
    an unblocked edge of the snapshot. *)
Theorem bellmanFord_steps_use_unblocked_edges nodes edges s t :
  ∃ r, bellmanFord nodes edges s t = Returned r
       ∧ ∀ st, st ∈ steps r →
           ∃ e, e ∈ edges ∧ e_blocked e = false
                ∧ s_cost st = e_weight e ∧ s_edgeId st = e_id e.
Proof.
  destruct (bellmanFord_returns nodes edges s t) as [r Hr]. exists r.
  split; [done|]. intros st Hst.
  destruct (bellmanFord_steps_inv _ _ _ _ _ Hr) as [Hnil|[p Hp]].
  { rewrite Hnil in Hst. by apply elem_of_nil in Hst. }
  rewrite Hp in Hst. apply build_steps_elem in Hst as (a & b & e & He & ->).
  apply build_edgeMap_lookup in He as [He _].
  apply list_elem_of_filter in He as [Hb He]. by exists e.
Qed.

End EngineProperties.

(** ** Degrees add up to twice the number of unblocked edges *)

Section Handshake.
Import GraphTheory.










End Handshake.

(** ** Further properties of the graph analysis *)

Section AnalysisProperties.
Import GraphTheory.

(** [isGraphConnected] answers [connected] exactly when every two listed
    nodes are joined by a chain of unblocked edges; at least one component is
    counted as soon as there is a node. *)
Theorem isGraphConnected_decides_connectivity nodes edges :
  endpoints_valid nodes edges →
  ∃ c, isGraphConnected nodes edges = Returned c
       ∧ (connected c = true ↔ connected_graph nodes edges).
Proof. apply isGraphConnected_spec. Qed.

Lemma isGraphConnected_decides_connectivity_witness :
  ∃ c, isGraphConnected Samples.starNodes Samples.starEdges = Returned c
       ∧ (connected c = true ↔ connected_graph Samples.starNodes Samples.starEdges).
Proof.
  apply isGraphConnected_decides_connectivity.
  apply (bool_decide_unpack _). vm_compute. exact I.
Defined.





(** On at least three connected nodes with distinct ids, none of them
    called [__proto__], in a snapshot whose unblocked edges join listed
    nodes, the answer "circuit and path exist" is given by Dirac's theorem
    exactly when every node has degree at least [n / 2], and otherwise by
    Ore's theorem when every two distinct nodes that no unblocked edge joins
    have degrees adding up to at least [n]; no search is run in either
    case. *)
Theorem analyzeHamiltonian_sufficient_conditions nodes edges :
  endpoints_valid nodes edges → plain_nodes nodes →
  connected_graph nodes edges →
  (3 ≤ length nodes)%nat → NoDup (ids nodes) →
  (dirac nodes edges →
   analyzeHamiltonian nodes edges
   = Returned (mkHamiltonian Yes Yes Definite "Dirac's Theorem" SampleGuaranteed))
  ∧ (¬ dirac nodes edges → ore nodes edges →
     analyzeHamiltonian nodes edges
     = Returned (mkHamiltonian Yes Yes Definite "Ore's Theorem" SampleGuaranteed)).
Proof.
  intros Hv _ Hconn Hn Hnd.
  destruct (hamiltonian_graph nodes edges Hv) as (g & Hg & Hdom & Hadj).
  assert (analyzeHamiltonian nodes edges = analyzeHamiltonian_stages nodes edges) as ->.
  { destruct nodes as [|n1 [|n2 [|n3 rest]]]; simpl in Hn; try lia. done. }
  unfold analyzeHamiltonian_stages. rewrite Hg. cbn [obind].
  pose proof (endpoints_valid_activeEdges _ _ Hv) as Hva.
  destruct (isGraphConnected_spec nodes (activeEdges edges) Hva) as (c & -> & Hc).
  cbn [obind]. rewrite connected_activeEdges in Hc.
  apply Hc in Hconn. rewrite Hconn. cbn [negb].
  rewrite (bool_decide_eq_true_2 (3 ≤ length nodes)%nat) by done.
  split.
  - intros Hd. apply dirac_activeEdges, (diracCondition_spec _ _ Hva) in Hd.
    by rewrite Hd.
  - intros Hd Ho.
    assert (diracCondition (calculateDegrees nodes (activeEdges edges)) (length nodes)
            = false) as ->.
    { apply not_true_is_false. intros H. apply Hd.
      by apply dirac_activeEdges, diracCondition_spec. }
    cbn [andb].
    rewrite (oreCondition_of_ore nodes (activeEdges edges) g (n_id <$> nodes));
      try done.
    + intros y z. by rewrite Hadj, linked_activeEdges.
    + by apply ore_activeEdges.
Qed.

Lemma analyzeHamiltonian_sufficient_conditions_witness :
  (dirac Samples.cycleNodes Samples.cycleEdges →
   analyzeHamiltonian Samples.cycleNodes Samples.cycleEdges
   = Returned (mkHamiltonian Yes Yes Definite "Dirac's Theorem" SampleGuaranteed))
  ∧ (¬ dirac Samples.cycleNodes Samples.cycleEdges →
     ore Samples.cycleNodes Samples.cycleEdges →
     analyzeHamiltonian Samples.cycleNodes Samples.cycleEdges
     = Returned (mkHamiltonian Yes Yes Definite "Ore's Theorem" SampleGuaranteed)).
Proof.
  apply analyzeHamiltonian_sufficient_conditions.
  - apply (bool_decide_unpack _). vm_compute. exact I.
  - apply (bool_decide_unpack _). vm_compute. exact I.
  - apply (connected_graph_by_run _ _ (mkConn true 1)).
    + apply (bool_decide_unpack _). vm_compute. exact I.
    + vm_compute. reflexivity.
    + reflexivity.
  - simpl. lia.
  - apply (bool_decide_unpack _). vm_compute. exact I.
Defined.

(** With at most two nodes of distinct ids, the answer on the Hamiltonian
    path is exact, and a sample path that is returned is one. *)
Theorem analyzeHamiltonian_small_graphs nodes edges :
  (length nodes ≤ 2)%nat → NoDup (ids nodes) →
  ∃ r, analyzeHamiltonian nodes edges = Returned r
       ∧ certainty r = Definite
       ∧ ((hasHamiltonianPath r = Yes ∧ ∃ p, hamiltonian_path nodes edges p)
          ∨ (hasHamiltonianPath r = No ∧ ¬ ∃ p, hamiltonian_path nodes edges p))
       ∧ (∀ p, samplePath r = SamplePath p → hamiltonian_path nodes edges p).
Proof.
  intros Hn Hnd. destruct nodes as [|a [|b [|c rest]]]; simpl in Hn; try lia.
  - eexists. split; [done|]. split; [done|].
    assert (hamiltonian_path [] edges []) as Hp.
    { split; [done|]. split; [apply NoDup_nil_2|]. done. }
    split; [left; eauto|]. by intros p [= <-].
  - eexists. split; [done|]. split; [done|].
    assert (hamiltonian_path [a] edges [n_id a]) as Hp.
    { split; [done|]. split; [apply NoDup_singleton|]. split; [|done].
      intros x Hx. exact Hx. }
    split; [left; eauto|]. by intros p [= <-].
  - unfold analyzeHamiltonian.
    set (hasEdge := existsb _ _).
    assert (hasEdge = true ↔ linked edges (n_id a) (n_id b)) as Hedge.
    { unfold hasEdge. rewrite existsb_exists. split.
      - intros (e & He & Hj). apply list_elem_of_In, list_elem_of_filter in He as [Hb He].
        exists e. split; [done|]. split; [done|].
        rewrite orb_true_iff, !andb_true_iff, !bool_decide_eq_true in Hj.
        unfold joins_pair. tauto.
      - intros (e & He & Hb & Hj). exists e. split.
        + apply list_elem_of_In, list_elem_of_filter. done.
        + rewrite orb_true_iff, !andb_true_iff, !bool_decide_eq_true.
          unfold joins_pair in Hj. tauto. }
    apply NoDup_cons in Hnd as [Hab _].
    assert (n_id a ≠ n_id b) as Hne.
    { intros Heq. apply Hab. rewrite Heq. apply list_elem_of_here. }
    eexists. split; [done|]. split; [done|]. simpl.
    assert (linked edges (n_id a) (n_id b) → hamiltonian_path [a; b] edges [n_id a; n_id b])
      as Hyes.
    { intros Hl. split; [done|]. split.
      - apply NoDup_cons. split; [|apply NoDup_singleton].
        by intros ?%list_elem_of_singleton.
      - split; [by intros x Hx|]. by split. }
    destruct hasEdge eqn:Hhas; simpl.
    + pose proof (Hyes (proj1 Hedge eq_refl)) as Hp.
      split; [left; eauto|]. by intros p [= <-].
    + split; [|done]. right. split; [done|]. intros (p & Hlen & Hndp & Hin & Hch).
      destruct p as [|x [|y [|z p]]]; try done.
      destruct Hch as [Hxy _].
      assert (x ≠ y) as Hxy_ne.
      { apply NoDup_cons in Hndp as [Hx _]. intros ->. apply Hx, list_elem_of_here. }
      assert (x ∈ [n_id a; n_id b]) as Hx by (apply Hin, list_elem_of_here).
      assert (y ∈ [n_id a; n_id b]) as Hy
        by (apply Hin, list_elem_of_further, list_elem_of_here).
      assert (linked edges (n_id a) (n_id b)) as Hl.
      { set_unfold in Hx. set_unfold in Hy.
        destruct Hx as [->|[->|[]]]; destruct Hy as [->|[->|[]]]; try done.
        by apply linked_sym. }
      apply Hedge in Hl. done.
Qed.

Lemma analyzeHamiltonian_small_graphs_witness :
  ∃ r, analyzeHamiltonian Samples.nodesAB Samples.parallelOpen = Returned r
       ∧ certainty r = Definite
       ∧ ((hasHamiltonianPath r = Yes
           ∧ ∃ p, hamiltonian_path Samples.nodesAB Samples.parallelOpen p)
          ∨ (hasHamiltonianPath r = No
             ∧ ¬ ∃ p, hamiltonian_path Samples.nodesAB Samples.parallelOpen p))
       ∧ (∀ p, samplePath r = SamplePath p
               → hamiltonian_path Samples.nodesAB Samples.parallelOpen p).
Proof.
  apply analyzeHamiltonian_small_graphs.
  - simpl. lia.
  - apply (bool_decide_unpack _). vm_compute. exact I.
Defined.

End AnalysisProperties.

(** ** The editor keeps its snapshots well formed *)

Section EditorProperties.
Import Editor EditorInv.

Lemma simple_snoc l x :
  simple (l ++ [x]) = true
  ↔ simple l = true ∧ ∀ e, e ∈ l → Dijkstra.joins (e_from e) (e_to e) x = false.
Proof.
  induction l as [|y l IH]; simpl.
  - split; [|done]. intros _. split; [done|]. by intros e ?%elem_of_nil.
  - rewrite !andb_true_iff, IH, forallb_app, andb_true_iff. simpl.
    rewrite andb_true_r, negb_true_iff. split.
    + intros [[Hall Hx] [Hs Hl]]. split; [done|].
      intros e [->|He]%elem_of_cons; [done|by apply Hl].
    + intros [[Hall Hs] Hl]. split; [split; [done|]|split; [done|]].
      * apply Hl, list_elem_of_here.
      * intros e He. by apply Hl, list_elem_of_further.
Qed.

Lemma simple_filter (P : Edge → Prop) `{∀ e, Decision (P e)} l :
  simple l = true → simple (filter P l) = true.
Proof.
  induction l as [|y l IH]; [done|]. simpl.
  intros [Hall Hs]%andb_true_iff. rewrite filter_cons.
  destruct (decide (P y)); [|by apply IH]. simpl.
  rewrite IH by done. rewrite andb_true_r.
  rewrite forallb_forall in Hall. apply forallb_forall.
  intros e He. apply Hall. apply list_elem_of_In.
  apply list_elem_of_In, list_elem_of_filter in He as [_ He]. done.
Qed.

Lemma simple_fmap (f : Edge → Edge) l :
  (∀ e, e ∈ l → e_from (f e) = e_from e ∧ e_to (f e) = e_to e) →
  simple (f <$> l) = simple l.
Proof.
  induction l as [|y l IH]; [done|]. intros Hf. rewrite fmap_cons. cbn [simple].
  rewrite IH by (intros e He; by apply Hf, list_elem_of_further).
  f_equal. destruct (Hf y) as [-> ->]; [apply list_elem_of_here|].
  assert (∀ l', (∀ e, e ∈ l' → e_from (f e) = e_from e ∧ e_to (f e) = e_to e) →
            forallb (λ e', negb (Dijkstra.joins (e_from y) (e_to y) e')) (f <$> l')
            = forallb (λ e', negb (Dijkstra.joins (e_from y) (e_to y) e')) l') as Hall.
  { induction l' as [|z l' IH']; [done|]. intros Hl'. rewrite fmap_cons. cbn [forallb].
    rewrite IH' by (intros e He; by apply Hl', list_elem_of_further).
    f_equal. unfold Dijkstra.joins.
    by destruct (Hl' z) as [-> ->]; [apply list_elem_of_here|]. }
  apply Hall. intros e He. by apply Hf, list_elem_of_further.
Qed.

Lemma reverse_last_two {A} (l : list A) x y rest :
  reverse l = x :: y :: rest → l = reverse rest ++ [y; x].
Proof.
  intros H. rewrite <- (reverse_involutive l), H.
  rewrite !reverse_cons, <- app_assoc. done.
Qed.

Lemma handleAddNode_well_formed st : well_formed st → well_formed (handleAddNode st).
Proof.
  intros [Hn He Hs Hi Hed Hc]. split; simpl.
  - rewrite fmap_app. apply NoDup_app. split; [done|]. simpl.
    split; [|apply NoDup_singleton].
    intros x Hx ->%list_elem_of_singleton. by apply (Hc (nodeCounter st)).
  - eapply Forall_impl; [exact He|]. intros e [H1 H2].
    rewrite fmap_app, !elem_of_app. by split; left.
  - done.
  - done.
  - done.
  - intros k Hk. rewrite fmap_app, elem_of_app. simpl.
    intros [Hin|Heq%list_elem_of_singleton].
    + apply (Hc k); [lia|done].
    + apply (inj (String.append "N")) in Heq. apply (inj pretty) in Heq. lia.
Qed.

Lemma handleAddEdge_well_formed newId st :
  newId ∉ e_id <$> edges st →
  (∀ e, edgeToEdit st = Some e → e_id e ≠ newId) →
  well_formed st → well_formed (handleAddEdge newId st).
Proof.
  intros Hfresh Hedit Hwf. unfold handleAddEdge.
  destruct (reverse (nodes st)) as [|lastNode [|secondLastNode rest]] eqn:Hrev;
    [done|done|].
  destruct (existsb _ _) eqn:Hex; [done|].
  apply reverse_last_two in Hrev.
  destruct Hwf as [Hn He Hs Hi Hed Hc]. split; simpl; try done.
  - apply Forall_app. split; [done|]. apply Forall_singleton. simpl.
    rewrite Hrev, fmap_app, !elem_of_app. simpl. split; right.
    + apply list_elem_of_here.
    + apply list_elem_of_further, list_elem_of_here.
  - apply simple_snoc. split; [done|]. intros e Hin.
    apply not_true_is_false. intros Hj.
    assert (existsb
              (λ e, (bool_decide (e_from e = u_id lastNode)
                     && bool_decide (e_to e = u_id secondLastNode))
                    || (bool_decide (e_from e = u_id secondLastNode)
                        && bool_decide (e_to e = u_id lastNode))) (edges st) = true)
      as Hex'; [|by rewrite Hex in Hex'].
    apply existsb_exists. exists e. split; [by apply list_elem_of_In|].
    unfold Dijkstra.joins in Hj. simpl in Hj.
    rewrite orb_true_iff, !andb_true_iff, !bool_decide_eq_true in *.
    destruct Hj as [[H1 H2]|[H1 H2]]; [right|left]; by rewrite <- ?H1, <- ?H2.
  - rewrite fmap_app. apply NoDup_app. split; [done|]. simpl.
    split; [|apply NoDup_singleton].
    by intros x Hx ->%list_elem_of_singleton.
  - intros e e' Hee [Hin|Heq%list_elem_of_singleton]%elem_of_app Hid.
    + by apply (Hed e e').
    + subst e'. simpl in Hid. by destruct (Hedit e Hee).
Qed.

Lemma handleDeleteNode_well_formed st : well_formed st → well_formed (handleDeleteNode st).
Proof.
  intros Hwf. unfold handleDeleteNode.
  destruct (selectedNodeId st) as [sel|]; [|done].
  destruct (bool_decide (sel = "")); [done|].
  assert (∀ st0, nodes st0 = filter (λ n, u_id n ≠ sel) (nodes st) →
            edges st0 = filter (λ e, e_from e ≠ sel ∧ e_to e ≠ sel) (edges st) →
            edgeToEdit st0 = edgeToEdit st → nodeCounter st0 = nodeCounter st →
            well_formed st0) as Hgen.
  { intros st0 Hnodes Hedges Hedit Hcount.
    destruct Hwf as [Hn He Hs Hi Hed Hc].
    assert (∀ x, x ∈ u_id <$> nodes st → x ≠ sel →
                 x ∈ u_id <$> filter (λ n, u_id n ≠ sel) (nodes st)) as Hkeep.
    { intros x (n & -> & Hin)%list_elem_of_fmap Hne. apply list_elem_of_fmap.
      exists n. split; [done|]. by apply list_elem_of_filter. }
    assert (∀ x, x ∈ u_id <$> filter (λ n, u_id n ≠ sel) (nodes st) →
                 x ∈ u_id <$> nodes st) as Hsub.
    { intros x (n & -> & [_ Hin]%list_elem_of_filter)%list_elem_of_fmap.
      apply list_elem_of_fmap. eauto. }
    split; rewrite ?Hnodes, ?Hedges, ?Hedit, ?Hcount.
    - eapply sublist_NoDup; [exact Hn|]. apply fmap_sublist, sublist_filter.
    - apply Forall_forall. intros e [[Hf Ht] Hin]%list_elem_of_filter.
      rewrite Forall_forall in He. destruct (He e Hin) as [H1 H2].
      split; by apply Hkeep.
    - by apply simple_filter.
    - eapply sublist_NoDup; [exact Hi|]. apply fmap_sublist, sublist_filter.
    - intros e e' Hee [_ Hin]%list_elem_of_filter Hid. by apply (Hed e e').
    - intros k Hk Hin. by apply (Hc k Hk), Hsub. }
  apply Hgen; by repeat (destruct (bool_decide _)).
Qed.

Lemma handleDeleteEdge_well_formed st : well_formed st → well_formed (handleDeleteEdge st).
Proof.
  intros Hwf. unfold handleDeleteEdge.
  destruct (selectedEdgeId st) as [sel|]; [|done].
  destruct (bool_decide (sel = "")); [done|].
  destruct Hwf as [Hn He Hs Hi Hed Hc]. split; simpl; try done.
  - apply Forall_forall. intros e [_ Hin]%list_elem_of_filter.
    rewrite Forall_forall in He. by apply He.
  - by apply simple_filter.
  - eapply sublist_NoDup; [exact Hi|]. apply fmap_sublist, sublist_filter.
  - intros e e' Hee [_ Hin]%list_elem_of_filter Hid. by apply (Hed e e').
Qed.

(** Changing the types of nodes changes no id. *)
Lemma retype_ids (f : UINode → UINode) (l : list UINode) :
  (∀ n, u_id (f n) = u_id n) → u_id <$> (f <$> l) = u_id <$> l.
Proof.
  intros Hf. rewrite <- list_fmap_compose. apply list_fmap_ext.
  intros i n _. apply Hf.
Qed.

Lemma retype_well_formed st st' :
  u_id <$> nodes st' = u_id <$> nodes st → edges st' = edges st →
  edgeToEdit st' = edgeToEdit st → nodeCounter st' = nodeCounter st →
  well_formed st → well_formed st'.
Proof.
  intros Hn' He' Hed' Hc' [Hn He Hs Hi Hed Hc].
  split; rewrite ?Hn', ?He', ?Hed', ?Hc'; done.
Qed.

Lemma handleSetAmbulance_well_formed nodeId st :
  well_formed st → well_formed (handleSetAmbulance nodeId st).
Proof.
  apply retype_well_formed; unfold handleSetAmbulance;
    destruct (bool_decide (nodeId = "")); simpl; try done.
  all: apply retype_ids; intros n; by repeat (destruct (bool_decide _)).
Qed.

Lemma handleSetHospital_well_formed nodeId st :
  well_formed st → well_formed (handleSetHospital nodeId st).
Proof.
  apply retype_well_formed; unfold handleSetHospital;
    destruct (bool_decide (nodeId = "")); simpl; try done.
  all: apply retype_ids; intros n; by repeat (destruct (bool_decide _)).
Qed.

Lemma handleEdgeSelect_well_formed edgeId st :
  well_formed st → well_formed (handleEdgeSelect edgeId st).
Proof.
  intros [Hn He Hs Hi Hed Hc]. unfold handleEdgeSelect.
  destruct (find _ _) as [edge|] eqn:Hfind; [|by split].
  split; simpl; try done.
  intros e e' [= <-] Hin Hid.
  apply find_some in Hfind as [Hedge _]. apply list_elem_of_In in Hedge.
  assert (e' = edge) as ->; [|done].
  apply list_elem_of_lookup in Hin as [i Hi'], Hedge as [j Hj].
  assert (i = j) as ->.
  { eapply (NoDup_lookup (e_id <$> edges st)); [done| |].
    - by rewrite list_lookup_fmap, Hi'.
    - rewrite list_lookup_fmap, Hj. simpl. congruence. }
  congruence.
Qed.

Lemma handleSaveEdge_well_formed edge weight blocked st :
  edgeToEdit st = Some edge →
  well_formed st → well_formed (handleSaveEdge (updatedEdge edge weight blocked) st).
Proof.
  intros Hedit [Hn He Hs Hi Hed Hc].
  set (f := λ e, if bool_decide (e_id e = e_id edge)
                 then updatedEdge edge weight blocked else e).
  assert (∀ e, e ∈ edges st →
            e_id (f e) = e_id e ∧ e_from (f e) = e_from e ∧ e_to (f e) = e_to e) as Hf.
  { intros e Hin. unfold f. destruct (bool_decide _) eqn:Hid; [|done].
    apply bool_decide_eq_true in Hid. simpl in Hid.
    destruct (Hed edge e Hedit Hin Hid) as [-> ->]. done. }
  split; simpl; fold f; try done.
  - apply Forall_fmap, Forall_forall. intros e Hin.
    change (e_from (f e) ∈ u_id <$> nodes st ∧ e_to (f e) ∈ u_id <$> nodes st).
    rewrite Forall_forall in He. destruct (Hf e Hin) as (_ & -> & ->). by apply He.
  - rewrite simple_fmap; [done|]. intros e Hin. by destruct (Hf e Hin) as (_ & ? & ?).
  - rewrite <- list_fmap_compose.
    rewrite (list_fmap_ext (e_id ∘ f) e_id (edges st)); [done|].
    intros i e Hi'. simpl. apply Hf. by eapply list_elem_of_lookup_2.
Qed.

Lemma initializeSampleGraph_well_formed uuid st :
  NoDup (uuid <$> seq 0 9) →
  (∀ e k, edgeToEdit st = Some e → (k < 9)%nat → e_id e ≠ uuid k) →
  well_formed (initializeSampleGraph uuid st).
Proof.
  intros Huuid Hedit. split; simpl.
  - apply (bool_decide_unpack _). vm_compute. exact I.
  - repeat (apply Forall_cons; split; [split; apply (bool_decide_unpack _); vm_compute; exact I|]).
    apply Forall_nil_2.
  - reflexivity.
  - exact Huuid.
  - intros e e' Hee Hin Hid. exfalso.
    repeat (apply elem_of_cons in Hin as [->|Hin];
            [simpl in Hid; symmetry in Hid; revert Hid; apply (Hedit e); [done|lia]|]).
    by apply elem_of_nil in Hin.
  - intros k Hk Hin.
    repeat (apply elem_of_cons in Hin as [Hin|Hin]; [discriminate Hin|]).
    by apply elem_of_nil in Hin.
Qed.

(** Every action of the user keeps the state well formed. *)
Lemma step_well_formed st st' : well_formed st → step st st' → well_formed st'.
Proof.
  intros Hwf Hstep. destruct Hstep.
  - by apply handleAddNode_well_formed.
  - by apply handleAddEdge_well_formed.
  - by apply handleDeleteNode_well_formed.
  - by apply handleDeleteEdge_well_formed.
  - by apply handleSetAmbulance_well_formed.
  - by apply handleSetHospital_well_formed.
  - by destruct Hwf.
  - by apply handleEdgeSelect_well_formed.
  - by apply handleSaveEdge_well_formed.
  - destruct confirmed; [|done]. split; simpl; try done.
    + apply NoDup_nil_2.
    + apply NoDup_nil_2.
    + by intros e e' _ ?%elem_of_nil.
    + by intros k _ ?%elem_of_nil.
  - destruct confirmed; [|done]. by apply initializeSampleGraph_well_formed.
  - unfold autoDetect. destruct (autoDetectAlgorithm st); [|done]. by destruct Hwf.
Qed.

Lemma initial_well_formed : well_formed initial.
Proof.
  split; simpl; try done.
  - apply NoDup_nil_2.
  - apply NoDup_nil_2.
  - by intros k _ ?%elem_of_nil.
Qed.

Lemma engine_ids st : ids (engine_nodes st) = u_id <$> nodes st.
Proof. unfold ids, engine_nodes. by rewrite <- list_fmap_compose. Qed.

Lemma well_formed_endpoints_valid st :
  well_formed st → endpoints_valid (engine_nodes st) (edges st).
Proof.
  intros Hwf. unfold endpoints_valid. rewrite engine_ids.
  eapply Forall_impl; [apply (wf_edges _ Hwf)|]. by intros e He _.
Qed.

Lemma steps_well_formed st st' :
  well_formed st → rtc step st st' → well_formed st'.
Proof.
  intros Hwf Hsteps. induction Hsteps as [|st st1 st2 Hstep _ IH]; [done|].
  apply IH. by eapply step_well_formed.
Qed.

(** Whatever the user does, a well-formed state stays well formed: node
    ids stay distinct, every edge keeps joining two listed nodes, and no two
    edges join the same pair. *)
Theorem editor_keeps_well_formed st st' :
  well_formed st → rtc step st st' → well_formed st'.
Proof.
  intros Hwf Hsteps. destruct (steps_well_formed st st' Hwf Hsteps). by split.
Qed.

Lemma editor_keeps_well_formed_witness :
  well_formed (handleAddEdge "e" (handleAddNode (handleAddNode initial))).
Proof.
  apply (editor_keeps_well_formed initial).
  - exact initial_well_formed.
  - eapply rtc_l; [apply step_add_node|].
    eapply rtc_l; [apply step_add_node|].
    apply rtc_once. apply step_add_edge.
    + intros Hin. simpl in Hin. by apply elem_of_nil in Hin.
    + intros e He. discriminate He.
Defined.

(** On every state that the editor reaches from its initial state, with or
    without loading the sample graph, both engines and both analyses return a
    result for any origin and destination whose ids are not names that plain
    objects inherit from [Object.prototype]; and so does the recomputation
    of the route when the ambulance and the hospital ids are not such
    names. *)
Theorem reachable_states_are_served st s t :
  rtc step initial st → plain_key s → plain_key t →
  returns (Dijkstra.dijkstra (engine_nodes st) (edges st) s t)
  ∧ returns (BellmanFord.bellmanFord (engine_nodes st) (edges st) s t)
  ∧ returns (GraphTheory.analyzeEulerian (engine_nodes st) (edges st))
  ∧ returns (GraphTheory.analyzeHamiltonian (engine_nodes st) (edges st))
  ∧ ((∀ a, ambulanceId st = Some a → plain_key a) →
     (∀ h, hospitalId st = Some h → plain_key h) →
     returns (calculateShortestPath st)).
Proof.
  intros Hreach _ _.
  pose proof (steps_well_formed _ _ initial_well_formed Hreach) as Hwf.
  pose proof (well_formed_endpoints_valid st Hwf) as Hv.
  split; [by apply dijkstra_returns|]. split; [apply bellmanFord_returns|].
  split; [by apply analyzeEulerian_returns|].
  split; [by apply analyzeHamiltonian_returns|].
  intros _ _. unfold calculateShortestPath.
  destruct (ambulanceId st) as [a|]; [|by eexists].
  destruct (hospitalId st) as [h|]; [|by eexists].
  destruct (_ || _); [by eexists|].
  destruct (bool_decide (algorithm st = "dijkstra")).
  - destruct (dijkstra_returns (engine_nodes st) (edges st) a h Hv) as [r ->].
    by eexists.
  - destruct (bellmanFord_returns (engine_nodes st) (edges st) a h) as [r ->].
    by eexists.
Qed.

Lemma reachable_states_are_served_witness :
  let st := handleDeleteNode
              (handleNodeSelect "B" (initializeSampleGraph pretty initial)) in
  returns (Dijkstra.dijkstra (engine_nodes st) (edges st) "A" "F")
  ∧ returns (BellmanFord.bellmanFord (engine_nodes st) (edges st) "A" "F")
  ∧ returns (GraphTheory.analyzeEulerian (engine_nodes st) (edges st))
  ∧ returns (GraphTheory.analyzeHamiltonian (engine_nodes st) (edges st))
  ∧ returns (calculateShortestPath st).
Proof.
  intros st.
  destruct (reachable_states_are_served st "A" "F") as (Hd & Hb & He & Hh & Hc).
  - eapply rtc_l; [apply (step_reset initial true pretty)|].
    + apply (bool_decide_unpack _). vm_compute. exact I.
    + intros e k He. discriminate He.
    + eapply rtc_l; [apply (step_node_select _ "B")|].
      apply rtc_once. apply step_delete_node.
  - apply (bool_decide_unpack _). vm_compute. exact I.
  - apply (bool_decide_unpack _). vm_compute. exact I.
  - do 4 (split; [assumption|]). apply Hc.
    + intros a Ha. vm_compute in Ha. injection Ha as <-.
      apply (bool_decide_unpack _). vm_compute. exact I.
    + intros h Hh'. vm_compute in Hh'. injection Hh' as <-.
      apply (bool_decide_unpack _). vm_compute. exact I.
Defined.

(** Deleting the selected node removes it, every edge that touches it, and
    its role as ambulance or hospital: nothing in the new state refers to
    it, and everything else is kept. *)
Theorem handleDeleteNode_leaves_no_reference st sel :
  selectedNodeId st = Some sel → sel ≠ "" →
  let st' := handleDeleteNode st in
  (sel ∉ u_id <$> nodes st')
  ∧ Forall (λ e, e_from e ≠ sel ∧ e_to e ≠ sel) (edges st')
  ∧ ambulanceId st' ≠ Some sel ∧ hospitalId st' ≠ Some sel
  ∧ selectedNodeId st' = None
  ∧ (∀ n, n ∈ nodes st' ↔ n ∈ nodes st ∧ u_id n ≠ sel)
  ∧ (∀ e, e ∈ edges st' ↔ e ∈ edges st ∧ e_from e ≠ sel ∧ e_to e ≠ sel)
  ∧ (ambulanceId st ≠ Some sel → ambulanceId st' = ambulanceId st)
  ∧ (hospitalId st ≠ Some sel → hospitalId st' = hospitalId st).
Proof.
  intros Hsel Hne st'.
  assert (nodes st' = filter (λ n, u_id n ≠ sel) (nodes st)
          ∧ edges st' = filter (λ e, e_from e ≠ sel ∧ e_to e ≠ sel) (edges st)
          ∧ ambulanceId st' = (if bool_decide (ambulanceId st = Some sel)
                               then None else ambulanceId st)
          ∧ hospitalId st' = (if bool_decide (hospitalId st = Some sel)
                              then None else hospitalId st)
          ∧ selectedNodeId st' = None) as (Hn & He & Ha & Hh & Hs).
  { unfold st', handleDeleteNode. rewrite Hsel.
    rewrite bool_decide_eq_false_2 by done.
    by destruct (bool_decide (ambulanceId st = Some sel));
      destruct (bool_decide (hospitalId st = Some sel)). }
  rewrite Hn, He, Ha, Hh, Hs. clear Hn He Ha Hh Hs.
  split; [|split; [|split; [|split; [|split; [|split; [|split; [|split]]]]]]].
  - intros (n & Hn & [Hid _]%list_elem_of_filter)%list_elem_of_fmap. by apply Hid.
  - apply Forall_forall. by intros e [He _]%list_elem_of_filter.
  - destruct (bool_decide (ambulanceId st = Some sel)) eqn:Ha; [done|].
    by apply bool_decide_eq_false in Ha.
  - destruct (bool_decide (hospitalId st = Some sel)) eqn:Hh; [done|].
    by apply bool_decide_eq_false in Hh.
  - done.
  - intros n. rewrite list_elem_of_filter. tauto.
  - intros e. rewrite list_elem_of_filter. tauto.
  - intros Ha. by rewrite bool_decide_eq_false_2.
  - intros Hh. by rewrite bool_decide_eq_false_2.
Qed.

Lemma handleDeleteNode_leaves_no_reference_witness :
  let st := handleNodeSelect "B" (initializeSampleGraph pretty initial) in
  let st' := handleDeleteNode st in
  ("B" ∉ u_id <$> nodes st')
  ∧ Forall (λ e, e_from e ≠ "B" ∧ e_to e ≠ "B") (edges st')
  ∧ ambulanceId st' ≠ Some "B" ∧ hospitalId st' ≠ Some "B"
  ∧ selectedNodeId st' = None
  ∧ (∀ n, n ∈ nodes st' ↔ n ∈ nodes st ∧ u_id n ≠ "B")
  ∧ (∀ e, e ∈ edges st' ↔ e ∈ edges st ∧ e_from e ≠ "B" ∧ e_to e ≠ "B")
  ∧ (ambulanceId st ≠ Some "B" → ambulanceId st' = ambulanceId st)
  ∧ (hospitalId st ≠ Some "B" → hospitalId st' = hospitalId st).
Proof.
  intros st. apply handleDeleteNode_leaves_no_reference.
  - reflexivity.
  - discriminate.
Defined.

(** [handleAddEdge] never puts a second edge between two nodes: it leaves
    the edges alone, or appends one unblocked edge of weight 1 between the
    last two nodes when no edge joins them yet. *)
Theorem handleAddEdge_never_doubles_an_edge newId st :
  simple (edges st) = true →
  let st' := handleAddEdge newId st in
  simple (edges st') = true
  ∧ nodes st' = nodes st
  ∧ (edges st' = edges st
     ∨ ∃ a b, edges st' = edges st ++ [mkEdge newId a b 1 false]
              ∧ a ∈ u_id <$> nodes st ∧ b ∈ u_id <$> nodes st
              ∧ ∀ e, e ∈ edges st → ¬ joins_pair a b e).
Proof.
  intros Hs st'. unfold st', handleAddEdge.
  destruct (reverse (nodes st)) as [|lastNode [|secondLastNode rest]] eqn:Hrev;
    [by eauto|by eauto|].
  destruct (existsb _ _) eqn:Hex; [by eauto|].
  apply reverse_last_two in Hrev. simpl.
  assert (∀ e, e ∈ edges st → ¬ joins_pair (u_id secondLastNode) (u_id lastNode) e)
    as Hnone.
  { intros e Hin Hj.
    assert (existsb
              (λ e, (bool_decide (e_from e = u_id lastNode)
                     && bool_decide (e_to e = u_id secondLastNode))
                    || (bool_decide (e_from e = u_id secondLastNode)
                        && bool_decide (e_to e = u_id lastNode))) (edges st) = true)
      as Hex'; [|by rewrite Hex in Hex'].
    apply existsb_exists. exists e. split; [by apply list_elem_of_In|].
    rewrite orb_true_iff, !andb_true_iff, !bool_decide_eq_true.
    unfold joins_pair in Hj. tauto. }
  split; [|split; [done|right]].
  - apply simple_snoc. split; [done|]. intros e Hin.
    apply not_true_is_false. intros Hj. apply (Hnone e Hin).
    apply joins_spec in Hj. unfold joins_pair in *. simpl in Hj.
    destruct Hj as [[H1 H2]|[H1 H2]]; [left|right]; done.
  - exists (u_id secondLastNode), (u_id lastNode). split; [done|].
    rewrite Hrev, fmap_app, !elem_of_app. simpl. split; [|split; [|done]]; right.
    + apply list_elem_of_here.
    + apply list_elem_of_further, list_elem_of_here.
Qed.

Lemma handleAddEdge_never_doubles_an_edge_witness :
  let st := initializeSampleGraph pretty initial in
  let st' := handleAddEdge "new" st in
  simple (edges st') = true
  ∧ nodes st' = nodes st
  ∧ (edges st' = edges st
     ∨ ∃ a b, edges st' = edges st ++ [mkEdge "new" a b 1 false]
              ∧ a ∈ u_id <$> nodes st ∧ b ∈ u_id <$> nodes st
              ∧ ∀ e, e ∈ edges st → ¬ joins_pair a b e).
Proof.
  intros st. apply handleAddEdge_never_doubles_an_edge. reflexivity.
Defined.

(** With automatic selection switched on, in a well-formed state with no
    node called [__proto__], with integer weights within [safe_weights] and
    no unblocked edge of negative weight, the route shown for a distinct,
    listed ambulance and hospital comes from [dijkstra]; it is a route of
    least total weight, the costs of its steps add up to [totalCost], and
    when no route is shown none exists. *)
Theorem auto_detected_route_is_least st a h :
  well_formed st → plain_nodes (engine_nodes st) →
  safe_weights (engine_nodes st) (edges st) →
  autoDetectAlgorithm st = true →
  Dijkstra.hasNegativeWeights (edges st) = false →
  ambulanceId st = Some a → hospitalId st = Some h →
  a ≠ "" → h ≠ "" → a ≠ h →
  a ∈ u_id <$> nodes st → h ∈ u_id <$> nodes st →
  ∃ st' r,
    calculateShortestPath (autoDetect st) = Returned st'
    ∧ algorithm st' = "dijkstra" ∧ routeResult st' = Some r
    ∧ (found r = true →
         ∃ z, totalCost r = Num z ∧ walk (edges st) a h z
              ∧ (∀ c, walk (edges st) a h c → z ≤ c)
              ∧ sum_costs (steps r) = z)
    ∧ (found r = false → ∀ c, ¬ walk (edges st) a h c).
Proof.
  intros Hwf _ _ Hauto Hneg Ha Hh Ha0 Hh0 Hah Hain Hhin.
  pose proof (well_formed_endpoints_valid st Hwf) as Hv.
  destruct (dijkstra_least (engine_nodes st) (edges st) a h)
    as (r & Hr & Hfound & Hnone); try done.
  { by apply hasNegativeWeights_false. }
  { by rewrite engine_ids. }
  { by rewrite engine_ids. }
  unfold autoDetect. rewrite Hauto, Hneg.
  unfold calculateShortestPath. simpl. rewrite Ha, Hh.
  rewrite !bool_decide_eq_false_2 by done. simpl.
  change (engine_nodes (setAlgorithm "dijkstra" st)) with (engine_nodes st).
  rewrite Hr. cbn [obind].
  eexists _, r. split; [done|]. split; [done|]. split; [done|]. split; [|done].
  intros Hf. destruct (Hfound Hf) as (z & Hz & Hw & Hmin).
  exists z. do 3 (split; [done|]).
  destruct (dijkstra_report _ _ _ _ _ Hr Hf) as (_ & _ & _ & _ & _ & _ & Hsum).
  rewrite (Hsum (wf_simple _ Hwf)) in Hz. by injection Hz.
Qed.

Lemma auto_detected_route_is_least_witness :
  let st := initializeSampleGraph pretty initial in
  ∃ st' r,
    calculateShortestPath (autoDetect st) = Returned st'
    ∧ algorithm st' = "dijkstra" ∧ routeResult st' = Some r
    ∧ (found r = true →
         ∃ z, totalCost r = Num z ∧ walk (edges st) "A" "F" z
              ∧ (∀ c, walk (edges st) "A" "F" c → z ≤ c)
              ∧ sum_costs (steps r) = z)
    ∧ (found r = false → ∀ c, ¬ walk (edges st) "A" "F" c).
Proof.
  intros st. apply auto_detected_route_is_least.
  - apply initializeSampleGraph_well_formed.
    + apply (bool_decide_unpack _). vm_compute. exact I.
    + intros e k He. discriminate He.
  - apply (bool_decide_unpack _). vm_compute. exact I.
  - apply (bool_decide_unpack _). vm_compute. exact I.
  - reflexivity.
  - vm_compute. reflexivity.
  - reflexivity.
  - reflexivity.
  - discriminate.
  - discriminate.
  - discriminate.
  - apply (bool_decide_unpack _). vm_compute. exact I.
  - apply (bool_decide_unpack _). vm_compute. exact I.
Defined.

End EditorProperties.

(** ** Shortest walks need fewer edges than there are nodes *)

Section ShortWalks.
Import Dijkstra DijkstraInv DijkstraOpt DijkstraCost.

Lemma walkn_walk edges s v c n : walkn edges s v c n → walk edges s v c.
Proof. induction 1; [apply walk_here|by eapply walk_road]. Qed.

Lemma walk_walkn edges s v c : walk edges s v c → ∃ n, walkn edges s v c n.
Proof.
  induction 1 as [|b c e w _ [n IH] He Hb Hj]; [exists O; apply walkn_here|].
  exists (S n). by eapply walkn_road.
Qed.

Lemma walk_nonnegative edges s v c : nonnegative edges → walk edges s v c → 0 ≤ c.
Proof.
  unfold nonnegative. rewrite Forall_forall. intros Hnn.
  induction 1 as [|b c e w _ IH He Hb Hj]; [done|].
  specialize (Hnn e He Hb). lia.
Qed.

Lemma walk_listed nodes edges s v c :
  endpoints_valid nodes edges → walk edges s v c → v = s ∨ v ∈ ids nodes.
Proof.
  unfold endpoints_valid. rewrite Forall_forall. intros Hv.
  induction 1 as [|b c e w _ _ He Hb Hj]; [by left|]. right.
  destruct (Hv e He Hb) as [Hf Ht]. by destruct Hj as [[_ <-]|[_ <-]].
Qed.

Lemma chain_walkn nodes edges g s st v l :
  build_graph nodes edges = Returned g → cost_inv g s st →
  chain (previous st) s v l →
  ∃ z, distances st !! v = Some (Num z) ∧ walkn edges s v z (length l - 1).
Proof.
  intros Hg Hcost. induction 1 as [|v u l Hp Hc (zu & Hzu & IH)].
  - exists 0. split; [apply (ci_start _ _ _ Hcost)|apply walkn_here].
  - destruct (ci_link _ _ _ Hcost _ _ Hp) as (_ & zu' & w & Hzu' & Hw & Hzv).
    rewrite Hzu in Hzu'. injection Hzu' as <-.
    apply (arc_spec _ _ _ _ _ _ Hg) in Hw as (e & He & Hb & Hj & <-).
    exists (zu + e_weight e). split; [done|].
    assert (length l ≠ 0)%nat as Hlen by (destruct Hc; simpl; rewrite ?length_app; simpl; lia).
    replace (length (l ++ [v]) - 1)%nat with (S (length l - 1))
      by (rewrite length_app; simpl; lia).
    by eapply walkn_road.
Qed.

(** The state in which the loop of [dijkstra] ends when no weight is
    negative. *)
Lemma dijkstra_loop_settles nodes edges g s t :
  build_graph nodes edges = Returned g → nonnegative edges →
  s ≠ t → s ∈ ids nodes →
  ∃ st, loop (loop_fuel edges) g t
          (mkState (<[s := Num 0]> (init_distances nodes)) (init_previous nodes) ∅
             [mkItem s (Num 0)]) = Returned st
        ∧ path_inv g s st ∧ cost_inv g s st ∧ settled g s t st.
Proof.
  intros Hg Hnn Hst Hsin.
  pose proof (λ k, build_graph_lookup_is_Some nodes edges g k Hg) as Hdom.
  pose proof (build_graph_closed _ _ _ Hg) as Hclosed.
  assert (∀ u v w, arc g u v w → 0 ≤ w) as Harcs.
  { intros u v w (e & He & Hb & _ & <-)%(arc_spec _ _ _ _ _ _ Hg).
    unfold nonnegative in Hnn. rewrite Forall_forall in Hnn. by apply Hnn. }
  assert (is_Some (g !! s)) as [nbrs Hs] by (by apply Hdom).
  unfold loop_fuel.
  replace (2 * length edges + 2)%nat with (S (2 * length edges + 1)) by lia.
  rewrite (first_iteration g s t _ _ _ nbrs Hst Hs) by apply lookup_insert_eq.
  pose proof (initial_path_inv nodes g s Hdom ltac:(by rewrite Hs)) as Hinv0.
  set (st1 := foldl (relax s)
                (mkState (<[s := Num 0]> (init_distances nodes))
                   (init_previous nodes) ({[s]} ∪ ∅) []) nbrs).
  assert (path_inv g s st1) as Hinv1.
  { apply foldl_relax_path_inv; [simpl; set_solver|done]. }
  assert (opt_inv g s None st1) as Hopt1.
  { apply expand_opt_inv; try done; [simpl; set_solver|].
    by apply initial_opt_inv. }
  assert (cost_inv g s st1) as Hcost1.
  { apply foldl_relax_cost_inv; try done; [simpl; set_solver|].
    apply initial_cost_inv. }
  destruct (loop_returns g s t (2 * length edges + 1) st1) as [st Hloop]; [done| |].
  { unfold potential, st1. rewrite foldl_relax_visited. simpl.
    pose proof (foldl_relax_pq_length s nbrs
                  (mkState (<[s := Num 0]> (init_distances nodes))
                     (init_previous nodes) ({[s]} ∪ ∅) [])) as Hq.
    simpl in Hq.
    pose proof (adj_total_visit g ∅ s nbrs Hs ltac:(set_solver)).
    pose proof (build_graph_adj_total _ _ _ Hg). lia. }
  exists st. split; [done|].
  split; [by eapply loop_path_inv|].
  split; [by eapply loop_cost_inv|].
  by eapply (loop_settled g s Harcs).
Qed.

(** With no negative weight, every walk is matched by one that is not
    heavier and has fewer edges than there are nodes. *)
Lemma least_walk_short nodes edges s v c :
  endpoints_valid nodes edges → nonnegative edges → s ∈ ids nodes →
  walk edges s v c →
  ∃ c' n, walkn edges s v c' n ∧ (n < length nodes)%nat ∧ c' ≤ c.
Proof.
  intros Hv Hnn Hs Hw.
  assert (0 < length nodes)%nat as Hpos.
  { destruct nodes; [by apply elem_of_nil in Hs|simpl; lia]. }
  destruct (decide (v = s)) as [->|Hne].
  { exists 0, O. split; [apply walkn_here|]. split; [done|].
    by eapply walk_nonnegative. }
  destruct (walk_listed _ _ _ _ _ Hv Hw) as [?|Hvin]; [done|].
  destruct (build_graph_returns nodes edges Hv) as [g Hg].
  pose proof (λ k, build_graph_lookup_is_Some nodes edges g k Hg) as Hdom.
  destruct (dijkstra_loop_settles nodes edges g s v Hg Hnn ltac:(done) Hs)
    as (st & _ & Hinv & Hcost & Hfin & Hinf).
  assert (is_Some (distances st !! v)) as [x Hx].
  { rewrite (pi_dom_dist _ _ _ Hinv). by apply Hdom. }
  destruct (pi_shape _ _ _ Hinv v x Hx) as [->|[z ->]].
  { destruct (Hinf Hx c). by apply (gwalk_walk nodes edges). }
  destruct (Hfin z Hx) as [_ Hmin].
  destruct (path_inv_chain_to g s st v z Hinv Hx) as (l & Hc & Hnd & Hl).
  destruct (chain_walkn nodes edges g s st v l Hg Hcost Hc) as (z' & Hz' & Hwn).
  rewrite Hx in Hz'. injection Hz' as <-.
  exists z, (length l - 1)%nat. split; [done|]. split.
  - pose proof (NoDup_length_le_nodes l nodes Hnd) as Hle.
    assert (length l ≤ length nodes)%nat; [|lia].
    apply Hle. intros y Hy. by apply Hdom, Hl.
  - by apply Hmin, (gwalk_walk nodes edges).
Qed.

End ShortWalks.

(** ** Labels of [bellmanFord] against the weights of walks *)

Section BellmanFordLeast.
Import BellmanFord BellmanFordInv BellmanFordCost BellmanFordOpt.

Lemma bidirectional_edge edges de :
  de ∈ bidirectional (activeEdges edges) →
  ∃ e, e ∈ edges ∧ e_blocked e = false ∧ joins_pair (d_from de) (d_to de) e
       ∧ d_weight de = e_weight e ∧ d_id de = e_id e.
Proof.
  intros (e & [Hb He]%list_elem_of_filter & Hde)%elem_of_bidirectional.
  exists e. do 2 (split; [done|]).
  destruct Hde as [-> | ->]; simpl; split; try done; [by left|by right].
Qed.

Lemma edge_bidirectional edges e a b :
  e ∈ edges → e_blocked e = false → joins_pair a b e →
  ∃ de, de ∈ bidirectional (activeEdges edges)
        ∧ d_from de = a ∧ d_to de = b ∧ d_weight de = e_weight e.
Proof.
  intros He Hb Hj.
  assert (e ∈ activeEdges edges) as Ha by (by apply list_elem_of_filter).
  destruct Hj as [[<- <-]|[<- <-]].
  - exists (mkDEdge (e_from e) (e_to e) (e_weight e) (e_id e)).
    split; [|done]. apply elem_of_bidirectional. exists e. split; [done|by left].
  - exists (mkDEdge (e_to e) (e_from e) (e_weight e) (e_id e)).
    split; [|done]. apply elem_of_bidirectional. exists e. split; [done|by right].
Qed.

(** A label only goes down when an entry is relaxed. *)
Lemma relax_edge_lowers nodes lb b e v z :
  labels_ok nodes lb → distances lb !! v = Some (Num z) →
  ∃ z', distances (relax_edge (lb, b) e).1 !! v = Some (Num z') ∧ z' ≤ z.
Proof.
  intros Hok Hz. unfold relax_edge.
  destruct (relaxable (distances lb) e) eqn:Hr; [|exists z; by split].
  destruct (relaxable_cases _ _ (lo_shape _ _ Hok) Hr) as (zf & Hzf & _ & Hlt).
  rewrite Hzf. simpl. destruct (decide (d_to e = v)) as [Heq|Hne].
  - rewrite Heq, lookup_insert_eq. exists (zf + d_weight e). split; [done|].
    rewrite Heq, Hz in Hlt. simpl in Hlt. apply bool_decide_eq_true in Hlt. lia.
  - rewrite lookup_insert_ne by done. exists z. by split.
Qed.

Lemma foldl_relax_edge_lowers nodes bi : ∀ lb b v z,
  labels_ok nodes lb → distances lb !! v = Some (Num z) →
  ∃ z', distances (foldl relax_edge (lb, b) bi).1 !! v = Some (Num z') ∧ z' ≤ z.
Proof.
  induction bi as [|e bi IH]; intros lb b v z Hok Hz; cbn [foldl].
  { exists z. by split. }
  destruct (relax_edge_lowers nodes lb b e v z Hok Hz) as (z1 & Hz1 & Hle1).
  pose proof (relax_edge_labels_ok nodes lb b e Hok) as Hok1.
  destruct (relax_edge (lb, b) e) as [lb1 b1]. simpl in *.
  destruct (IH lb1 b1 v z1 Hok1 Hz1) as (z2 & Hz2 & Hle2).
  exists z2. split; [done|lia].
Qed.

Lemma relax_edge_real nodes edges s lb b e :
  labels_ok nodes lb → e ∈ bidirectional (activeEdges edges) →
  real_labels edges s lb → real_labels edges s (relax_edge (lb, b) e).1.
Proof.
  intros Hok He [(z0 & Hz0 & Hle0) Hreal]. split.
  { destruct (relax_edge_lowers nodes lb b e s z0 Hok Hz0) as (z' & Hz' & Hle).
    exists z'. split; [done|lia]. }
  unfold relax_edge. destruct (relaxable (distances lb) e) eqn:Hr; [|done].
  destruct (relaxable_cases _ _ (lo_shape _ _ Hok) Hr) as (zf & Hzf & _ & _).
  rewrite Hzf. simpl. intros v z.
  rewrite lookup_insert_Some. intros [[<- [= <-]]|[_ Hz]]; [|by apply Hreal].
  destruct (bidirectional_edge edges e He) as (e0 & He0 & Hb0 & Hj & -> & _).
  eapply walk_road; [by apply Hreal|done..].
Qed.

Lemma relax_pass_real nodes edges s lb :
  labels_ok nodes lb → real_labels edges s lb →
  real_labels edges s (relax_pass (bidirectional (activeEdges edges)) lb).1.
Proof.
  intros Hok Hs. unfold relax_pass.
  apply (foldl_invariant
           (λ acc : Labels * bool, labels_ok nodes acc.1 ∧ real_labels edges s acc.1));
    [|done].
  intros [lb' b] e He [H1 H2]. split.
  - by apply relax_edge_labels_ok.
  - by apply (relax_edge_real nodes).
Qed.

Lemma relax_loop_real nodes edges s k lb :
  labels_ok nodes lb → real_labels edges s lb →
  real_labels edges s (relax_loop k (bidirectional (activeEdges edges)) lb).
Proof.
  revert lb. induction k as [|k IH]; intros lb Hok Hs; simpl; [done|].
  pose proof (relax_pass_labels_ok nodes (bidirectional (activeEdges edges)) lb Hok).
  pose proof (relax_pass_real nodes edges s lb Hok Hs).
  destruct (relax_pass _ lb) as [lb' updated]. simpl in *.
  destruct updated; [by apply IH|done].
Qed.

Lemma initial_labels_real nodes edges s :
  real_labels edges s
    (mkLabels (<[s := Num 0]> (init_distances nodes)) (init_previous nodes)).
Proof.
  split; simpl.
  - exists 0. split; [apply lookup_insert_eq|done].
  - intros v z Hz. apply lookup_insert_Some in Hz as [[<- [= <-]]|[_ Hz]];
      [apply walk_here|].
    unfold init_distances in Hz. rewrite fold_insert_empty_lookup in Hz.
    by destruct (decide _).
Qed.

Lemma final_labels_real nodes edges s :
  s ∈ ids nodes → real_labels edges s (final_labels nodes edges s).
Proof.
  intros Hs. apply (relax_loop_real nodes); [by apply initial_labels_ok|].
  apply initial_labels_real.
Qed.

(** Once no entry can be relaxed, every walk from the origin is matched by
    a label that is not larger than its weight. *)
Lemma stable_labels_least nodes edges s lb v c :
  endpoints_valid nodes edges → labels_ok nodes lb → real_labels edges s lb →
  stable (bidirectional (activeEdges edges)) (distances lb) →
  walk edges s v c →
  ∃ z, distances lb !! v = Some (Num z) ∧ z ≤ c.
Proof.
  intros Hv Hok [(z0 & Hz0 & Hle0) _] Hst.
  unfold endpoints_valid in Hv. rewrite Forall_forall in Hv.
  induction 1 as [|b c e w _ (zb & Hzb & Hle) He Hb Hj].
  { exists z0. by split. }
  destruct (edge_bidirectional edges e b c He Hb Hj) as (de & Hde & Hf & Ht & Hw).
  assert (c ∈ ids nodes) as Hc.
  { destruct (Hv e He Hb). by destruct Hj as [[_ <-]|[_ <-]]. }
  apply (lo_dom_dist _ _ Hok) in Hc as [x Hx].
  specialize (Hst de Hde). unfold relaxable in Hst.
  rewrite Hf, Ht, Hzb, Hx, Hw in Hst. simpl in Hst.
  destruct (lo_shape _ _ Hok c x Hx) as [->|[zc ->]]; [done|].
  simpl in Hst. apply bool_decide_eq_false in Hst. exists zc. split; [done|lia].
Qed.

Lemma detect_empty_stable bi d : detect bi d = ∅ → stable bi d.
Proof.
  intros Hd de Hde. destruct (relaxable d de) eqn:Hr; [|done].
  assert (d_to de ∈ detect bi d) as Hin by (apply elem_of_detect; eauto).
  rewrite Hd in Hin. set_solver.
Qed.

Lemma stable_detect_empty bi d : stable bi d → detect bi d = ∅.
Proof.
  intros Hst. apply set_eq. intros x. rewrite elem_of_detect. split; [|set_solver].
  intros (de & Hde & Hr & _). by rewrite (Hst de Hde) in Hr.
Qed.

(** A route found by [bellmanFord] between two different nodes costs what
    the lightest walk costs, whatever the signs of the weights. *)
Lemma bellmanFord_found_least nodes edges s t r :
  endpoints_valid nodes edges → s ≠ t →
  bellmanFord nodes edges s t = Returned r → found r = true →
  ∃ z, totalCost r = Num z ∧ walk edges s t z ∧ ∀ c, walk edges s t c → z ≤ c.
Proof.
  intros Hv Hne Hr Hf.
  destruct (bellmanFord_found_inv nodes edges s t r Hr Hf)
    as [[? _]|(_ & Hs & Ht & Hnt & Hfin & p & _ & _ & _ & ->)]; [done|].
  pose proof (found_no_detect nodes edges s t Hs Hnt Hfin Ht) as Hd.
  apply detect_empty_stable in Hd.
  pose proof (final_labels_ok nodes edges s Hs) as Hok.
  pose proof (final_labels_real nodes edges s Hs) as Hreal.
  destruct (proj2 (lo_dom_dist _ _ Hok t) Ht) as [x Hx].
  destruct (lo_shape _ _ Hok t x Hx) as [->|[z ->]]; [by rewrite Hx in Hfin|].
  exists z. simpl. rewrite Hx. split; [done|].
  split; [by apply (rl_real _ _ _ Hreal)|].
  intros c Hc.
  destruct (stable_labels_least nodes edges s _ t c Hv Hok Hreal Hd Hc) as (z' & Hz' & Hle).
  rewrite Hx in Hz'. injection Hz' as <-. done.
Qed.

End BellmanFordLeast.

(** ** [bellmanFord] when no weight is negative *)

Section BellmanFordNonnegative.
Import BellmanFord BellmanFordInv BellmanFordCost BellmanFordOpt.

(** Relaxing an entry leaves its target with a label that is at most the
    label of its origin plus its weight. *)
Lemma relax_edge_settles nodes lb b e zu :
  labels_ok nodes lb → d_to e ∈ ids nodes →
  distances lb !! d_from e = Some (Num zu) →
  ∃ zv, distances (relax_edge (lb, b) e).1 !! d_to e = Some (Num zv)
        ∧ zv ≤ zu + d_weight e.
Proof.
  intros Hok Hto Hzu. unfold relax_edge.
  destruct (relaxable (distances lb) e) eqn:Hr.
  - rewrite Hzu. simpl. rewrite lookup_insert_eq. eexists. split; [done|lia].
  - apply (lo_dom_dist _ _ Hok) in Hto as [x Hx].
    unfold relaxable in Hr. rewrite Hzu, Hx in Hr. simpl in Hr.
    destruct (lo_shape _ _ Hok _ x Hx) as [->|[zc ->]]; [done|].
    simpl in Hr. apply bool_decide_eq_false in Hr. exists zc. split; [done|lia].
Qed.

Lemma foldl_relax_edge_settles nodes bi : ∀ lb b de zu,
  labels_ok nodes lb → de ∈ bi → d_to de ∈ ids nodes →
  distances lb !! d_from de = Some (Num zu) →
  ∃ zv, distances (foldl relax_edge (lb, b) bi).1 !! d_to de = Some (Num zv)
        ∧ zv ≤ zu + d_weight de.
Proof.
  induction bi as [|e bi IH]; intros lb b de zu Hok Hde Hto Hzu;
    [by apply elem_of_nil in Hde|].
  cbn [foldl]. pose proof (relax_edge_labels_ok nodes lb b e Hok) as Hok1.
  apply elem_of_cons in Hde as [->|Hde].
  - destruct (relax_edge_settles nodes lb b e zu Hok Hto Hzu) as (z1 & Hz1 & Hle1).
    destruct (relax_edge (lb, b) e) as [lb1 b1]. simpl in *.
    destruct (foldl_relax_edge_lowers nodes bi lb1 b1 _ z1 Hok1 Hz1) as (z2 & Hz2 & Hle2).
    exists z2. split; [done|lia].
  - destruct (relax_edge_lowers nodes lb b e _ zu Hok Hzu) as (z1 & Hz1 & Hle1).
    destruct (relax_edge (lb, b) e) as [lb1 b1]. simpl in *.
    destruct (IH lb1 b1 de z1 Hok1 Hde Hto Hz1) as (z2 & Hz2 & Hle2).
    exists z2. split; [done|lia].
Qed.

(** One more pass accounts for walks with one more edge. *)
Lemma relax_pass_upper nodes edges s k lb :
  endpoints_valid nodes edges → labels_ok nodes lb → real_labels edges s lb →
  upper edges s k lb →
  upper edges s (S k) (relax_pass (bidirectional (activeEdges edges)) lb).1.
Proof.
  intros Hv Hok Hreal Hup v c n Hw Hn.
  unfold endpoints_valid in Hv. rewrite Forall_forall in Hv.
  destruct Hw as [|b v e w n' Hw' He Hb Hj].
  - destruct (rl_start _ _ _ (relax_pass_real nodes edges s lb Hok Hreal))
      as (z & Hz & Hle). by exists z.
  - destruct (Hup b w n' Hw' ltac:(lia)) as (zb & Hzb & Hle).
    destruct (edge_bidirectional edges e b v He Hb Hj) as (de & Hde & Hf & Ht & Hwt).
    assert (v ∈ ids nodes) as Hvin.
    { destruct (Hv e He Hb). by destruct Hj as [[_ <-]|[_ <-]]. }
    destruct (foldl_relax_edge_settles nodes _ lb false de zb Hok Hde) as (zv & Hzv & Hle').
    { by rewrite Ht. }
    { by rewrite Hf. }
    rewrite Ht in Hzv. exists zv. split; [done|lia].
Qed.

Lemma foldl_relax_edge_quiet bi : ∀ lb b lb',
  foldl relax_edge (lb, b) bi = (lb', false) → stable bi (distances lb).
Proof.
  induction bi as [|e bi IH]; intros lb b lb'; cbn [foldl].
  { intros _ de Hde. by apply elem_of_nil in Hde. }
  unfold relax_edge at 2. destruct (relaxable (distances lb) e) eqn:Hr.
  - intros H%foldl_relax_edge_flag. by destruct H.
  - intros H de Hde. apply elem_of_cons in Hde as [->|Hde]; [done|].
    by apply (IH lb b lb').
Qed.

(** The relaxation loop stops early only on stable labels, and otherwise
    has accounted for walks with as many edges as it made passes. *)
Lemma relax_loop_upper nodes edges s k : ∀ j lb,
  endpoints_valid nodes edges → labels_ok nodes lb → real_labels edges s lb →
  upper edges s j lb →
  let lb' := relax_loop k (bidirectional (activeEdges edges)) lb in
  stable (bidirectional (activeEdges edges)) (distances lb')
  ∨ upper edges s (j + k) lb'.
Proof.
  induction k as [|k IH]; intros j lb Hv Hok Hreal Hup; simpl.
  { right. by rewrite Nat.add_0_r. }
  pose proof (relax_pass_labels_ok nodes (bidirectional (activeEdges edges)) lb Hok) as H1.
  pose proof (relax_pass_real nodes edges s lb Hok Hreal) as H2.
  pose proof (relax_pass_upper nodes edges s j lb Hv Hok Hreal Hup) as H3.
  destruct (relax_pass _ lb) as [lb' updated] eqn:Hpass. simpl in H1, H2, H3.
  destruct updated.
  - replace (j + S k)%nat with (S j + k)%nat by lia. by apply IH.
  - left. pose proof (pass_no_update _ _ _ Hpass) as ->.
    by apply (foldl_relax_edge_quiet _ lb false lb).
Qed.

Lemma initial_labels_upper nodes edges s :
  upper edges s 0
    (mkLabels (<[s := Num 0]> (init_distances nodes)) (init_previous nodes)).
Proof.
  intros v c n Hw Hn. destruct Hw; [|lia].
  exists 0. split; [apply lookup_insert_eq|done].
Qed.

(** With no negative weight the labels are stable when the relaxation loop
    is over. *)
Lemma final_labels_stable nodes edges s :
  endpoints_valid nodes edges → nonnegative edges → s ∈ ids nodes →
  stable (bidirectional (activeEdges edges)) (distances (final_labels nodes edges s)).
Proof.
  intros Hv Hnn Hs.
  pose proof (final_labels_ok nodes edges s Hs) as Hok.
  pose proof (final_labels_real nodes edges s Hs) as Hreal.
  destruct (relax_loop_upper nodes edges s (length nodes - 1) 0 _ Hv
              (initial_labels_ok nodes s Hs) (initial_labels_real nodes edges s)
              (initial_labels_upper nodes edges s)) as [Hst|Hup]; [done|].
  fold (final_labels nodes edges s) in Hup.
  intros de Hde. destruct (relaxable _ de) eqn:Hr; [|done].
  destruct (relaxable_cases _ _ (lo_shape _ _ Hok) Hr) as (zf & Hzf & _ & Hlt).
  destruct (bidirectional_edge edges de Hde) as (e & He & Hb & Hj & Hw & _).
  assert (walk edges s (d_to de) (zf + e_weight e)) as Hwalk.
  { eapply walk_road; [by apply (rl_real _ _ _ Hreal)|done..]. }
  destruct (least_walk_short nodes edges s _ _ Hv Hnn Hs Hwalk) as (c' & n & Hwn & Hn & Hle).
  destruct (Hup _ _ _ Hwn ltac:(simpl; lia)) as (z & Hz & Hle').
  rewrite Hz, Hw in Hlt. simpl in Hlt. apply bool_decide_eq_true in Hlt. lia.
Qed.

(** *** The predecessor links never close a cycle *)

Lemma pred_link_order bi s lb a b :
  (∀ de, de ∈ bi → 0 ≤ d_weight de) → link_inv bi s lb →
  rtc (pred_link (previous lb)) a b →
  ∀ za, distances lb !! a = Some (Num za) →
  ∃ zb, distances lb !! b = Some (Num zb) ∧ zb ≤ za.
Proof.
  intros Hnn Hli. induction 1 as [a|a y b Hay _ IH]; intros za Hza.
  { exists za. by split. }
  destruct (li_link _ _ _ Hli a y Hay) as (zu & zv & de & Hzu & Hzv & Hde & _ & _ & Hle).
  rewrite Hza in Hzv. injection Hzv as <-.
  destruct (IH zu Hzu) as (zb & Hzb & Hle'). exists zb. split; [done|].
  specialize (Hnn de Hde). lia.
Qed.

Lemma tc_insert_link (p : gmap string (option string)) v u x y :
  tc (pred_link (<[v := Some u]> p)) x y →
  tc (pred_link p) x y ∨ (rtc (pred_link p) x v ∧ rtc (pred_link p) u y).
Proof.
  assert (∀ a b, pred_link (<[v := Some u]> p) a b →
                 (a = v ∧ b = u) ∨ (a ≠ v ∧ pred_link p a b)) as Hstep.
  { intros a b. unfold pred_link. rewrite lookup_insert_Some.
    intros [[-> [= ->]]|[? ?]]; [by left|by right]. }
  induction 1 as [x y Hxy|x z y Hxz _ IH].
  - destruct (Hstep _ _ Hxy) as [[-> ->]|[_ H]]; [by right|left; by apply tc_once].
  - destruct (Hstep _ _ Hxz) as [[-> ->]|[_ H]].
    + right. split; [done|]. destruct IH as [H|[_ H]]; [by apply tc_rtc|done].
    + destruct IH as [H'|[H1 H2]].
      * left. by eapply tc_l.
      * right. split; [by eapply rtc_l|done].
Qed.

Lemma relax_edge_acyclic nodes bi s lb b e :
  (∀ de, de ∈ bi → 0 ≤ d_weight de) → labels_ok nodes lb → link_inv bi s lb →
  e ∈ bi → acyclic (previous lb) → acyclic (previous (relax_edge (lb, b) e).1).
Proof.
  intros Hnn Hok Hli He Hac. unfold relax_edge.
  destruct (relaxable (distances lb) e) eqn:Hr; [|done].
  destruct (relaxable_cases _ _ (lo_shape _ _ Hok) Hr) as (zf & Hzf & _ & Hlt).
  simpl. intros x [Hx|[H1 H2]]%tc_insert_link; [by apply (Hac x)|].
  assert (rtc (pred_link (previous lb)) (d_from e) (d_to e)) as Hrtc
    by (by etrans).
  destruct (pred_link_order bi s lb _ _ Hnn Hli Hrtc zf Hzf) as (zt & Hzt & Hle).
  rewrite Hzt in Hlt. simpl in Hlt. apply bool_decide_eq_true in Hlt.
  specialize (Hnn e He). lia.
Qed.

Lemma relax_pass_acyclic nodes bi s lb :
  (∀ de, de ∈ bi → 0 ≤ d_weight de) → labels_ok nodes lb → link_inv bi s lb →
  acyclic (previous lb) → acyclic (previous (relax_pass bi lb).1).
Proof.
  intros Hnn Hok Hli Hac. unfold relax_pass.
  apply (foldl_invariant
           (λ acc : Labels * bool,
              labels_ok nodes acc.1 ∧ link_inv bi s acc.1 ∧ acyclic (previous acc.1)));
    [|done].
  intros [lb' b] e He (H1 & H2 & H3). split; [by apply relax_edge_labels_ok|].
  split; [by eapply relax_edge_link_inv|]. by eapply relax_edge_acyclic.
Qed.

Lemma relax_loop_acyclic nodes k bi s : ∀ lb,
  (∀ de, de ∈ bi → 0 ≤ d_weight de) → labels_ok nodes lb → link_inv bi s lb →
  acyclic (previous lb) → acyclic (previous (relax_loop k bi lb)).
Proof.
  induction k as [|k IH]; intros lb Hnn Hok Hli Hac; simpl; [done|].
  pose proof (relax_pass_labels_ok nodes bi lb Hok) as H1.
  pose proof (relax_pass_link_inv nodes bi s lb Hok Hli) as H2.
  pose proof (relax_pass_acyclic nodes bi s lb Hnn Hok Hli Hac) as H3.
  destruct (relax_pass bi lb) as [lb' updated]. simpl in H1, H2, H3.
  destruct updated; [by apply IH|done].
Qed.

Lemma bidirectional_nonnegative edges :
  nonnegative edges →
  ∀ de, de ∈ bidirectional (activeEdges edges) → 0 ≤ d_weight de.
Proof.
  unfold nonnegative. rewrite Forall_forall. intros Hnn de Hde.
  destruct (bidirectional_edge edges de Hde) as (e & He & Hb & _ & -> & _).
  by apply Hnn.
Qed.

Lemma final_labels_acyclic nodes edges s :
  nonnegative edges → s ∈ ids nodes →
  acyclic (previous (final_labels nodes edges s)).
Proof.
  intros Hnn Hs.
  apply (relax_loop_acyclic nodes _ _ s).
  - by apply bidirectional_nonnegative.
  - by apply initial_labels_ok.
  - split; simpl.
    + intros v Hv. unfold init_previous in Hv. rewrite fold_insert_empty_lookup in Hv.
      destruct (decide (v ∈ ids nodes)) as [Hin|]; [|done].
      destruct (decide (v = s)) as [->|Hne]; [apply lookup_insert_eq|].
      rewrite lookup_insert_ne by done. unfold init_distances.
      rewrite fold_insert_empty_lookup. by rewrite decide_True.
    + intros v u Hp. unfold init_previous in Hp. rewrite fold_insert_empty_lookup in Hp.
      by destruct (decide _).
  - simpl. intros x Hx.
    assert (∃ y, pred_link (init_previous nodes) x y) as [y Hy]
      by (inversion Hx; eauto).
    unfold pred_link, init_previous in Hy. rewrite fold_insert_empty_lookup in Hy.
    by destruct (decide _).
Qed.

(** The guard of the reconstruction loop never fires on acyclic links. *)
Lemma walk_back_no_cycle p fuel : ∀ cur seen acc,
  acyclic p → (∀ x, x ∈ seen → tc (pred_link p) x cur) →
  walk_back fuel p cur seen acc ≠ Returned (inl ()).
Proof.
  induction fuel as [|fuel IH]; intros cur seen acc Hac Hseen; [done|].
  simpl. destruct (decide (cur ∈ seen)) as [Hin|_].
  { destruct (Hac cur). by apply Hseen. }
  destruct (p !! cur) as [[u|]|] eqn:Hp; [|done..].
  apply IH; [done|]. intros x [->%elem_of_singleton|Hx]%elem_of_union.
  - by apply tc_once.
  - eapply tc_r; [by apply Hseen|done].
Qed.

Lemma chain_root_finite nodes lb root v l :
  labels_ok nodes lb → finite_label (distances lb) v →
  DijkstraInv.chain (previous lb) root v l → finite_label (distances lb) root.
Proof.
  intros Hok Hv. induction 1 as [|v u l Hp _ IH]; [done|].
  apply IH. by apply (lo_links_finite _ _ Hok v u).
Qed.

End BellmanFordNonnegative.

Section BellmanFordComplete.
Import BellmanFord BellmanFordInv BellmanFordCost BellmanFordOpt.

(** What [bellmanFord] returns between two different listed nodes when no
    unblocked edge has a negative weight. *)
Lemma bellmanFord_least nodes edges s t :
  endpoints_valid nodes edges → nonnegative edges →
  s ≠ "" → t ≠ "" → s ≠ t → s ∈ ids nodes → t ∈ ids nodes →
  ∃ r, bellmanFord nodes edges s t = Returned r
       ∧ hasNegativeCycle r = Some false
       ∧ (found r = true →
            ∃ z, totalCost r = Num z ∧ walk edges s t z
                 ∧ ∀ c, walk edges s t c → z ≤ c)
       ∧ (found r = false → totalCost r = Num 0 ∧ ∀ c, ¬ walk edges s t c).
Proof.
  intros Hv Hnn Hs0 Ht0 Hst Hs Ht.
  destruct (bellmanFord_returns nodes edges s t) as [r Hr]. exists r.
  split; [done|].
  assert (hasNegativeCycle r = Some false
          ∧ (found r = false → totalCost r = Num 0 ∧ ∀ c, ¬ walk edges s t c))
    as [Hneg Hnone]; [|split; [done|]; split; [|done];
                        by apply (bellmanFord_found_least nodes)].
  destruct (decide (bidirectional (activeEdges edges) = [])) as [Hbi|Hbi].
  { assert (r = failure false (Some "No active edges in graph")) as ->.
    { revert Hr. unfold bellmanFord.
      destruct nodes as [|n0 nodes0] eqn:Hnodes; [by apply elem_of_nil in Hs|].
      rewrite <- Hnodes in *.
      rewrite (bool_decide_eq_false_2 (nodes = [])) by (by rewrite Hnodes).
      rewrite (bool_decide_eq_false_2 (s = "")), (bool_decide_eq_false_2 (t = "")) by done.
      rewrite (bool_decide_eq_false_2 (s = t)) by done.
      rewrite (bool_decide_eq_true_2 (s ∈ nodeIds nodes))
        by (by apply elem_of_list_to_set).
      rewrite (bool_decide_eq_true_2 (t ∈ nodeIds nodes))
        by (by apply elem_of_list_to_set).
      rewrite (bool_decide_eq_true_2 (bidirectional (activeEdges edges) = [])) by done.
      cbn [negb orb]. by intros [= <-]. }
    split; [done|]. intros _. split; [done|]. intros c Hw.
    destruct Hw as [|b c e w _ He Hb Hj]; [done|].
    destruct (edge_bidirectional edges e b c He Hb Hj) as (de & Hde & _).
    rewrite Hbi in Hde. by apply elem_of_nil in Hde. }
  rewrite (bellmanFord_past_guards nodes edges s t) in Hr by done.
  pose proof (final_labels_ok nodes edges s Hs) as Hok.
  pose proof (final_labels_real nodes edges s Hs) as Hreal.
  pose proof (final_labels_stable nodes edges s Hv Hnn Hs) as Hstable.
  pose proof (final_labels_link_inv nodes edges s Hs) as Hli.
  pose proof (final_labels_acyclic nodes edges s Hnn Hs) as Hac.
  revert Hr. unfold bellmanFord_core. unfold tainted.
  rewrite (stable_detect_empty _ _ Hstable).
  rewrite decide_True by done.
  rewrite (bool_decide_eq_false_2 (t ∈ (∅ : gset string))) by set_solver.
  rewrite (bool_decide_eq_true_2 ((∅ : gset string) = ∅)) by done. cbn [negb].
  destruct (is_infinity (distances (final_labels nodes edges s) !! t)) eqn:Hinf.
  { intros [= <-]. split; [done|]. intros _. split; [done|]. intros c Hw.
    destruct (stable_labels_least nodes edges s _ t c Hv Hok Hreal Hstable Hw)
      as (z & Hz & _).
    by rewrite Hz in Hinf. }
  destruct (walk_back (S (length nodes)) (previous (final_labels nodes edges s)) t ∅ [])
    as [[[]|p]| | |] eqn:Hwb; cbn [obind]; try done.
  { exfalso. revert Hwb. apply walk_back_no_cycle; [done|set_solver]. }
  destruct (walk_back_chain _ _ _ _ _ _ Hwb) as (root & l & Hp & Hc).
  rewrite app_nil_r in Hp. subst l.
  destruct (chain_ends _ _ _ _ Hc) as [Hhead Hlast].
  assert (root = s) as ->.
  { assert (finite_label (distances (final_labels nodes edges s)) root) as [z Hz].
    { apply (chain_root_finite nodes _ root t p Hok); [|done].
      destruct (proj2 (lo_dom_dist _ _ Hok t) Ht) as [x Hx].
      destruct (lo_shape _ _ Hok t x Hx) as [->|[z ->]]; [by rewrite Hx in Hinf|].
      by exists z. }
    pose proof (chain_root_link _ _ _ _ Hc) as Hroot.
    apply (li_root _ _ _ Hli) in Hroot. rewrite Hz in Hroot.
    by destruct (decide (root = s)). }
  rewrite (bool_decide_eq_false_2 (head p ≠ Some s)) by (intros H; by apply H).
  rewrite (bool_decide_eq_false_2 (last p ≠ Some t)) by (intros H; by apply H).
  cbn [orb]. intros [= <-]. by split.
Qed.

End BellmanFordComplete.


(** ** The two engines on graphs without negative weights *)

Section BellmanFordOptimal.
Import Dijkstra BellmanFord.

Lemma dijkstra_not_found_cost nodes edges s t r :
  dijkstra nodes edges s t = Returned r → found r = false → totalCost r = Num 0.
Proof.
  unfold dijkstra. destruct (_ || _); [by intros [= <-]|].
  destruct (build_graph nodes edges) as [g| | |]; cbn [obind]; try done.
  destruct (g !! s); [|by intros [= <-]].
  destruct (g !! t); [|by intros [= <-]].
  destruct (loop _ _ _ _) as [st| | |]; cbn [obind]; try done.
  destruct (is_infinity _); [by intros [= <-]|].
  destruct (Dijkstra.walk_back _ _ _ _) as [p| | |]; cbn [obind]; try done.
  by intros [= <-].
Qed.

(** On a snapshot whose unblocked edges join listed nodes, none of them
    called [__proto__], with integer weights within [safe_weights], a route
    that [bellmanFord] reports as found between two different nodes has the
    least weight of all walks along unblocked edges, also when some weights
    are negative: its [totalCost] is the weight of such a walk and no walk
    is lighter. *)
Theorem bellmanFord_found_cost_is_least nodes edges s t r :
  endpoints_valid nodes edges → plain_nodes nodes → safe_weights nodes edges →
  s ≠ t →
  bellmanFord nodes edges s t = Returned r → found r = true →
  ∃ z, totalCost r = Num z ∧ walk edges s t z ∧ ∀ c, walk edges s t c → z ≤ c.
Proof. intros Hv _ _. by apply bellmanFord_found_least. Qed.

Lemma bellmanFord_found_cost_is_least_witness :
  hasNegativeWeights TollAsideSamples.edges = true
  ∧ ∃ z, Num 2 = Num z ∧ walk TollAsideSamples.edges "A" "B" z
         ∧ ∀ c, walk TollAsideSamples.edges "A" "B" c → z ≤ c.
Proof.
  split; [vm_compute; reflexivity|].
  apply (bellmanFord_found_cost_is_least TollAsideSamples.nodes
           TollAsideSamples.edges "A" "B"
           (mkRoute ["A"; "B"] (Num 2) [mkStep "A" "B" 2 "1"] true (Some false) None)).
  - apply (bool_decide_unpack _). vm_compute. exact I.
  - apply (bool_decide_unpack _). vm_compute. exact I.
  - apply (bool_decide_unpack _). vm_compute. exact I.
  - discriminate.
  - vm_compute. reflexivity.
  - reflexivity.
Defined.

(** On a snapshot whose unblocked edges join listed nodes, none of them
    called [__proto__], with integer weights within [safe_weights], when
    [hasNegativeWeights] is false, [bellmanFord] between two different
    listed nodes returns, reports no negative cycle, and finds a route
    exactly when some walk along unblocked edges joins the two nodes. *)
Theorem bellmanFord_without_negative_weights nodes edges s t :
  endpoints_valid nodes edges → plain_nodes nodes → safe_weights nodes edges →
  hasNegativeWeights edges = false →
  s ≠ "" → t ≠ "" → s ≠ t → s ∈ ids nodes → t ∈ ids nodes →
  ∃ r, bellmanFord nodes edges s t = Returned r
       ∧ hasNegativeCycle r = Some false
       ∧ (found r = true ↔ ∃ c, walk edges s t c).
Proof.
  intros Hv _ _ Hn%hasNegativeWeights_false Hs0 Ht0 Hst Hs Ht.
  destruct (bellmanFord_least nodes edges s t) as (r & Hr & Hneg & Hfound & Hnone);
    try done.
  exists r. do 2 (split; [done|]). split.
  - intros (z & _ & Hw & _)%Hfound. by exists z.
  - intros [c Hw]. destruct (found r); [done|].
    destruct (Hnone eq_refl) as [_ H]. destruct (H c Hw).
Qed.

Lemma bellmanFord_without_negative_weights_witness :
  ∃ r, bellmanFord Samples.sampleNodes Samples.sampleEdges "A" "F" = Returned r
       ∧ hasNegativeCycle r = Some false
       ∧ (found r = true ↔ ∃ c, walk Samples.sampleEdges "A" "F" c).
Proof.
  apply bellmanFord_without_negative_weights.
  - apply (bool_decide_unpack _). vm_compute. exact I.
  - apply (bool_decide_unpack _). vm_compute. exact I.
  - apply (bool_decide_unpack _). vm_compute. exact I.
  - vm_compute. reflexivity.
  - discriminate.
  - discriminate.
  - discriminate.
  - apply (bool_decide_unpack _). vm_compute. exact I.
  - apply (bool_decide_unpack _). vm_compute. exact I.
Defined.

Lemma engines_agree nodes edges s t :
  endpoints_valid nodes edges → nonnegative edges → s ≠ t →
  ∃ rd rb, dijkstra nodes edges s t = Returned rd
           ∧ bellmanFord nodes edges s t = Returned rb
           ∧ found rd = found rb ∧ totalCost rd = totalCost rb.
Proof.
  intros Hv Hn Hst.
  destruct (decide (s ≠ "" ∧ t ≠ "" ∧ s ∈ ids nodes ∧ t ∈ ids nodes))
    as [(Hs0 & Ht0 & Hs & Ht)|Hbad].
  - destruct (dijkstra_least nodes edges s t) as (rd & Hrd & Hfd & Hnd); try done.
    destruct (bellmanFord_least nodes edges s t) as (rb & Hrb & _ & Hfb & Hnb);
      try done.
    exists rd, rb. do 2 (split; [done|]).
    destruct (found rd) eqn:Hd, (found rb) eqn:Hb.
    + destruct (Hfd eq_refl) as (zd & -> & Hwd & Hmd).
      destruct (Hfb eq_refl) as (zb & -> & Hwb & Hmb).
      split; [done|]. f_equal. specialize (Hmd _ Hwb). specialize (Hmb _ Hwd). lia.
    + destruct (Hfd eq_refl) as (zd & _ & Hwd & _).
      destruct (Hnb eq_refl) as [_ H]. destruct (H _ Hwd).
    + destruct (Hfb eq_refl) as (zb & _ & Hwb & _). destruct (Hnd eq_refl _ Hwb).
    + split; [done|]. destruct (Hnb eq_refl) as [-> _].
      destruct (dijkstra_not_found_cost nodes edges s t rd Hrd Hd). done.
  - exists Dijkstra.not_found, (failure false
      (Some (if bool_decide (nodes = []) then "Invalid input: nodes and edges are required"
             else if bool_decide (s = "") || bool_decide (t = "")
                  then "Start and end node IDs are required"
                  else "Start or end node not found in graph"))).
    split; [|split; [|done]].
    + unfold dijkstra.
      destruct (bool_decide (s = "") || bool_decide (t = "") || bool_decide (s = t))
        eqn:Hg; [done|].
      apply orb_false_iff in Hg as [[Hs0 Ht0]%orb_false_iff _].
      apply bool_decide_eq_false in Hs0, Ht0.
      destruct (build_graph_returns nodes edges Hv) as [g Hg]. rewrite Hg. cbn [obind].
      pose proof (λ k, build_graph_lookup_is_Some nodes edges g k Hg) as Hdom.
      destruct (g !! s) as [ls|] eqn:Hs; [|done].
      destruct (g !! t) as [lt|] eqn:Ht; [|done].
      destruct Hbad. do 2 (split; [done|]). split; apply Hdom; eauto.
    + unfold bellmanFord.
      destruct (bool_decide (nodes = [])); [done|].
      destruct (bool_decide (s = "") || bool_decide (t = "")) eqn:Hg; [done|].
      apply orb_false_iff in Hg as [Hs0 Ht0].
      apply bool_decide_eq_false in Hs0, Ht0.
      rewrite (bool_decide_eq_false_2 (s = t)) by done.
      destruct (bool_decide (s ∈ nodeIds nodes)) eqn:Hs;
        destruct (bool_decide (t ∈ nodeIds nodes)) eqn:Ht; try done.
      apply bool_decide_eq_true in Hs, Ht. unfold nodeIds in Hs, Ht.
      apply elem_of_list_to_set in Hs, Ht. by destruct Hbad.
Qed.

(** On a snapshot whose unblocked edges join listed nodes, none of them
    called [__proto__], when [hasNegativeWeights] is false, [dijkstra] and
    [bellmanFord] both return and agree on whether a route is found and on
    its [totalCost], for any two different endpoints whose ids are not names
    that plain objects inherit from [Object.prototype]. *)
Theorem engines_agree_without_negative_weights nodes edges s t :
  endpoints_valid nodes edges → plain_nodes nodes →
  plain_key s → plain_key t →
  hasNegativeWeights edges = false → s ≠ t →
  ∃ rd rb, dijkstra nodes edges s t = Returned rd
           ∧ bellmanFord nodes edges s t = Returned rb
           ∧ found rd = found rb ∧ totalCost rd = totalCost rb.
Proof.
  intros Hv _ _ _ Hn%hasNegativeWeights_false Hst. by apply engines_agree.
Qed.

Lemma engines_agree_without_negative_weights_witness :
  ∃ rd rb, dijkstra Samples.sampleNodes Samples.sampleEdges "A" "F" = Returned rd
           ∧ bellmanFord Samples.sampleNodes Samples.sampleEdges "A" "F" = Returned rb
           ∧ found rd = found rb ∧ totalCost rd = totalCost rb.
Proof.
  apply engines_agree_without_negative_weights.
  - apply (bool_decide_unpack _). vm_compute. exact I.
  - apply (bool_decide_unpack _). vm_compute. exact I.
  - apply (bool_decide_unpack _). vm_compute. exact I.
  - apply (bool_decide_unpack _). vm_compute. exact I.
  - vm_compute. reflexivity.
  - discriminate.
Defined.

(** On snapshots without negative weights whose unblocked edges join
    listed nodes, blocking an edge never helps [bellmanFord]: when it finds a
    route between two different nodes with the edge blocked, it finds one
    with the edge open, and that one does not cost more. *)
Theorem bellmanFord_blocking_never_helps nodes l1 l2 i f t w s d r' :
  endpoints_valid nodes (snapshot_with l1 l2 i f t w false) →
  nonnegative (snapshot_with l1 l2 i f t w false) → s ≠ d →
  bellmanFord nodes (snapshot_with l1 l2 i f t w true) s d = Returned r' →
  found r' = true →
  ∃ r z z',
    bellmanFord nodes (snapshot_with l1 l2 i f t w false) s d = Returned r
    ∧ found r = true ∧ totalCost r = Num z ∧ totalCost r' = Num z' ∧ z ≤ z'.
Proof.
  intros Hvalid Hnn Hsd Hr' Hf'.
  destruct (bellmanFord_found_inv _ _ _ _ _ Hr' Hf')
    as [[? _]|(_ & Hs & Hd & _)]; [done|].
  assert (s ≠ "" ∧ d ≠ "") as [Hs0 Hd0].
  { revert Hr' Hf'. unfold bellmanFord.
    destruct (bool_decide (nodes = [])); [by intros [= <-]|].
    destruct (bool_decide (s = "") || bool_decide (d = "")) eqn:Hg;
      [by intros [= <-]|].
    apply orb_false_iff in Hg as [H1 H2]. apply bool_decide_eq_false in H1, H2.
    done. }
  destruct (bellmanFord_found_least nodes (snapshot_with l1 l2 i f t w true) s d r')
    as (z' & Hz' & Hw' & _); try done.
  { by apply snapshot_with_valid. }
  destruct (bellmanFord_least nodes (snapshot_with l1 l2 i f t w false) s d)
    as (r & Hr & _ & Hfound & Hnone); try done.
  assert (walk (snapshot_with l1 l2 i f t w false) s d z') as Hw.
  { eapply walk_mono; [|exact Hw']. intros e. apply snapshot_with_open. }
  destruct (found r) eqn:Hf.
  - destruct (Hfound eq_refl) as (z & Hz & _ & Hmin).
    exists r, z, z'. do 4 (split; [done|]). by apply Hmin.
  - destruct (Hnone eq_refl) as [_ H]. destruct (H z' Hw).
Qed.

Lemma bellmanFord_blocking_never_helps_witness :
  ∃ r z z',
    bellmanFord Samples.sampleNodes
      (snapshot_with [] (tail Samples.sampleEdges) "1" "A" "B" 4 false) "A" "F"
    = Returned r
    ∧ found r = true ∧ totalCost r = Num z ∧ Num 13 = Num z' ∧ z ≤ z'.
Proof.
  apply (bellmanFord_blocking_never_helps Samples.sampleNodes
           [] (tail Samples.sampleEdges) "1" "A" "B" 4 "A" "F"
           (mkRoute ["A"; "C"; "B"; "D"; "E"; "F"] (Num 13)
              [mkStep "A" "C" 2 "2"; mkStep "C" "B" 1 "3"; mkStep "B" "D" 5 "4";
               mkStep "D" "E" 2 "7"; mkStep "E" "F" 3 "9"] true (Some false) None)).
  - apply (bool_decide_unpack _). vm_compute. exact I.
  - unfold nonnegative. apply (bool_decide_unpack _). vm_compute. exact I.
  - discriminate.
  - vm_compute. reflexivity.
  - reflexivity.
Defined.

End BellmanFordOptimal.


(** ** The route calculation of the editor under both engines *)

Section EditorEngines.
Import Editor EditorInv.





End EditorEngines.


(** ** Roads to nodes that are not listed *)

Section DanglingRoads.
Import GraphTheory.

Lemma linked_mono edges edges' a b :
  (∀ e, e ∈ edges → e ∈ edges') → linked edges a b → linked edges' a b.
Proof. intros Hsub (e & He & Hb & Hj). exists e. auto. Qed.

Lemma connected_graph_mono nodes edges edges' :
  (∀ e, e ∈ edges → e ∈ edges') →
  connected_graph nodes edges → connected_graph nodes edges'.
Proof.
  intros Hsub Hc a b Ha Hb. specialize (Hc a b Ha Hb).
  eapply rtc_subrel; [|exact Hc]. intros x y. by apply linked_mono.
Qed.

(** C4, as stated, fails: the 4-cycle with one more open road, from A to a
    node that is not listed, has open edges, and [analyzeEulerian] throws on
    it instead of returning an answer. *)
Lemma analyzeEulerian_dangling_road_counterexample :
  ¬ no_open_edge DanglingSamples.cycleEdges
  ∧ connected_graph Samples.cycleNodes DanglingSamples.cycleEdges
  ∧ analyzeEulerian Samples.cycleNodes DanglingSamples.cycleEdges = Thrown.
Proof.
  split; [|split].
  - intros H. apply Forall_inv in H. discriminate H.
  - apply (connected_graph_mono _ Samples.cycleEdges).
    + intros e He. apply elem_of_app. by left.
    + apply (connected_graph_by_run _ _ (mkConn true 1)).
      * apply (bool_decide_unpack _). vm_compute. exact I.
      * vm_compute. reflexivity.
      * reflexivity.
  - vm_compute. reflexivity.
Qed.

(** C5, as stated, fails: the star on five nodes with one more open road,
    from a leaf to a node that is not listed, is connected, has between 3
    and 8 nodes and meets neither Dirac's nor Ore's condition, and
    [analyzeHamiltonian] throws on it instead of returning an answer. *)
Lemma analyzeHamiltonian_star_dangling_road_counterexample :
  connected_graph Samples.starNodes DanglingSamples.starEdges
  ∧ (3 ≤ length Samples.starNodes ≤ 8)%nat
  ∧ ¬ dirac Samples.starNodes DanglingSamples.starEdges
  ∧ ¬ ore Samples.starNodes DanglingSamples.starEdges
  ∧ analyzeHamiltonian Samples.starNodes DanglingSamples.starEdges = Thrown.
Proof.
  split; [|split; [|split; [|split]]].
  - apply (connected_graph_mono _ Samples.starEdges); [|apply star_hypotheses].
    intros e He. apply elem_of_app. by left.
  - simpl. lia.
  - intros H. specialize (H "L2"). vm_compute in H. apply H; [|done].
    do 2 apply list_elem_of_further. apply list_elem_of_here.
  - intros H. specialize (H "L2" "L3"). vm_compute in H. apply H; try done.
    + do 2 apply list_elem_of_further. apply list_elem_of_here.
    + do 3 apply list_elem_of_further. apply list_elem_of_here.
    + apply (bool_decide_eq_false_1 (linked DanglingSamples.starEdges "L2" "L3")).
      vm_compute. reflexivity.
  - vm_compute. reflexivity.
Qed.

(** C6, as stated, fails: the path on nine nodes with one more open road,
    from its first node to a node that is not listed, is connected, has more
    than 8 nodes and meets neither Dirac's nor Ore's condition, and
    [analyzeHamiltonian] throws on it instead of answering "unknown". *)
Lemma analyzeHamiltonian_path9_dangling_road_counterexample :
  connected_graph Samples.pathNodes9 DanglingSamples.pathEdges9
  ∧ (8 < length Samples.pathNodes9)%nat
  ∧ ¬ dirac Samples.pathNodes9 DanglingSamples.pathEdges9
  ∧ ¬ ore Samples.pathNodes9 DanglingSamples.pathEdges9
  ∧ analyzeHamiltonian Samples.pathNodes9 DanglingSamples.pathEdges9 = Thrown.
Proof.
  split; [|split; [|split; [|split]]].
  - apply (connected_graph_mono _ Samples.pathEdges9); [|apply path9_hypotheses].
    intros e He. apply elem_of_app. by left.
  - simpl. lia.
  - intros H. specialize (H "9"). vm_compute in H. apply H; [|done].
    do 8 apply list_elem_of_further. apply list_elem_of_here.
  - intros H. specialize (H "3" "5"). vm_compute in H. apply H; try done.
    + do 2 apply list_elem_of_further. apply list_elem_of_here.
    + do 4 apply list_elem_of_further. apply list_elem_of_here.
    + apply (bool_decide_eq_false_1 (linked DanglingSamples.pathEdges9 "3" "5")).
      vm_compute. reflexivity.
  - vm_compute. reflexivity.
Qed.

End DanglingRoads.


(** ** [bellmanFord] and roads to nodes that are not listed *)

Section BellmanFordDangling.
Import BellmanFord BellmanFordInv BellmanFordCost BellmanFordOpt.



Lemma valid_part_of_valid nodes edges :
  endpoints_valid nodes edges → valid_part nodes edges = edges.
Proof.
  unfold endpoints_valid, valid_part. induction 1 as [|e l He _ IH]; [done|].
  rewrite filter_cons_True by done. by rewrite IH.
Qed.












End BellmanFordDangling.


(** ** Blocked edges *)

Section BlockedEdges.
Import Dijkstra BellmanFord.







End BlockedEdges.


(** ** Sums formed by [bellmanFord] under [safe_weights] *)

Section SafeSums.
Import BellmanFord BellmanFordInv.

Lemma relax_edge_within nodes lb b e B M :
  labels_ok nodes lb → labels_within B (distances lb) →
  Z.abs (d_weight e) ≤ M →
  labels_within (B + M) (distances (relax_edge (lb, b) e).1).
Proof.
  intros Hok Hin Hw. unfold relax_edge.
  destruct (relaxable (distances lb) e) eqn:Hr.
  - destruct (relaxable_cases _ _ (lo_shape _ _ Hok) Hr) as (zf & Hzf & _ & _).
    rewrite Hzf. simpl. intros v z.
    rewrite lookup_insert_Some. intros [[_ [= <-]]|[_ Hz]].
    + specialize (Hin _ _ Hzf). lia.
    + specialize (Hin _ _ Hz). lia.
  - simpl. intros v z Hz. specialize (Hin _ _ Hz). lia.
Qed.

Lemma foldl_relax_edge_within nodes M l : ∀ lb b B,
  labels_ok nodes lb → labels_within B (distances lb) →
  Forall (λ e, Z.abs (d_weight e) ≤ M) l →
  labels_within (B + Z.of_nat (length l) * M)
    (distances (foldl relax_edge (lb, b) l).1).
Proof.
  induction l as [|e l IH]; intros lb b B Hok Hin Hw.
  { simpl. by rewrite Z.add_0_r. }
  apply Forall_cons in Hw as [He Hw]. cbn [foldl].
  pose proof (relax_edge_labels_ok nodes lb b e Hok) as Hok1.
  pose proof (relax_edge_within nodes lb b e B M Hok Hin He) as Hin1.
  destruct (relax_edge (lb, b) e) as [lb1 b1]. simpl in Hok1, Hin1.
  specialize (IH lb1 b1 (B + M) Hok1 Hin1 Hw).
  replace (B + Z.of_nat (length (e :: l)) * M)
    with (B + M + Z.of_nat (length l) * M) by (simpl length; lia).
  exact IH.
Qed.

Lemma relax_loop_within nodes M bi k : ∀ lb B,
  labels_ok nodes lb → labels_within B (distances lb) → 0 ≤ M →
  Forall (λ e, Z.abs (d_weight e) ≤ M) bi →
  labels_within (B + Z.of_nat k * (Z.of_nat (length bi) * M))
    (distances (relax_loop k bi lb)).
Proof.
  induction k as [|k IH]; intros lb B Hok Hin HM Hw.
  { simpl. by rewrite Z.add_0_r. }
  simpl relax_loop.
  pose proof (relax_pass_labels_ok nodes bi lb Hok) as Hok1.
  pose proof (foldl_relax_edge_within nodes M bi lb false B Hok Hin Hw) as Hin1.
  fold (relax_pass bi lb) in Hin1.
  destruct (relax_pass bi lb) as [lb1 [|]]; simpl in Hok1, Hin1.
  - specialize (IH lb1 _ Hok1 Hin1 HM Hw).
    intros v z Hz. specialize (IH v z Hz). nia.
  - intros v z Hz. specialize (Hin1 v z Hz). nia.
Qed.

Lemma bounded_weights (K B : Z) (edges : list Edge) :
  0 ≤ K → 0 ≤ B →
  Forall (λ e, Z.abs (e_weight e) * K ≤ B) edges →
  ∃ M, 0 ≤ M ∧ M * K ≤ B ∧ Forall (λ e, Z.abs (e_weight e) ≤ M) edges.
Proof.
  intros HK HB. induction 1 as [|e l He _ (M & HM & HMK & Hall)].
  { exists 0. split; [done|]. split; [lia|done]. }
  exists (Z.max (Z.abs (e_weight e)) M). split; [lia|]. split; [nia|].
  apply Forall_cons. split; [lia|].
  eapply Forall_impl; [exact Hall|]. simpl. intros; lia.
Qed.

Lemma bidirectional_length active :
  length (bidirectional active) = (2 * length active)%nat.
Proof.
  unfold bidirectional. induction active as [|e l IH]; [done|].
  simpl. rewrite IH. lia.
Qed.

(** With [safe_weights], every label that [bellmanFord] holds between two
    relaxations, and every candidate that it forms from such a label and the
    weight of an edge, lies between [-2^53] and [2^53], where doubles add
    integers exactly: [j] counts the passes done, [l] is the part of
    [bidirectionalEdges] already handled in the current pass. *)
Lemma safe_weights_keep_sums_exact nodes edges s j l l' b :
  safe_weights nodes edges → s ∈ ids nodes →
  (j < length nodes)%nat →
  bidirectional (activeEdges edges) = l ++ l' →
  let lb0 := mkLabels (<[s := Num 0]> (init_distances nodes)) (init_previous nodes) in
  let lb := (foldl relax_edge
               (relax_loop j (bidirectional (activeEdges edges)) lb0, b) l).1 in
  ∀ v z e, distances lb !! v = Some (Num z) → e ∈ edges →
           Z.abs z ≤ 2 ^ 53 ∧ Z.abs (e_weight e) ≤ 2 ^ 53
           ∧ Z.abs (z + e_weight e) ≤ 2 ^ 53.
Proof.
  intros Hsafe Hs Hj Hbi lb0 lb v z e Hz He.
  set (n := Z.of_nat (length nodes)). set (m := Z.of_nat (length edges)).
  assert (0 ≤ m ∧ 1 ≤ n) as [Hm Hn] by (subst n m; lia).
  destruct (bounded_weights (2 * m * n + 1) (2 ^ 53) edges) as (M & HM & HMK & Hall);
    [nia|lia|exact Hsafe|].
  assert (Forall (λ de, Z.abs (d_weight de) ≤ M) (bidirectional (activeEdges edges)))
    as Hbw.
  { apply Forall_forall. intros de Hde. rewrite Forall_forall in Hall.
    apply elem_of_bidirectional in Hde as (e0 & [_ He0]%list_elem_of_filter & Hde).
    specialize (Hall e0 He0). by destruct Hde as [-> | ->]. }
  assert (labels_within 0 (distances lb0)) as H0.
  { intros u x. subst lb0. simpl. rewrite lookup_insert_Some.
    intros [[_ [= <-]]|[_ Hu]]; [done|].
    unfold init_distances in Hu. rewrite fold_insert_empty_lookup in Hu.
    by destruct (decide _). }
  pose proof (initial_labels_ok nodes s Hs) as Hok0. fold lb0 in Hok0.
  pose proof (relax_loop_within nodes M _ j lb0 0 Hok0 H0 HM Hbw) as H1.
  pose proof (relax_loop_labels_ok nodes j (bidirectional (activeEdges edges))
                lb0 Hok0) as Hok1.
  assert (Forall (λ de, Z.abs (d_weight de) ≤ M) l) as Hlw.
  { rewrite Hbi in Hbw. by apply Forall_app in Hbw as [? _]. }
  pose proof (foldl_relax_edge_within nodes M l _ b _ Hok1 H1 Hlw) as H2.
  fold lb in H2. specialize (H2 v z Hz).
  rewrite Forall_forall in Hall. specialize (Hall e He).
  set (q := Z.of_nat (length (bidirectional (activeEdges edges)))) in *.
  assert (0 ≤ q ≤ 2 * m) as Hq.
  { subst q. rewrite bidirectional_length. subst m. unfold activeEdges.
    pose proof (length_filter (λ e, e_blocked e = false) edges). lia. }
  assert (0 ≤ Z.of_nat (length l) ≤ q) as Hll.
  { subst q. rewrite Hbi, length_app. lia. }
  assert (0 ≤ Z.of_nat j ∧ Z.of_nat j + 1 ≤ n) as [Hj0 Hjn] by (subst n; lia).
  assert (Z.of_nat (length l) * M ≤ 2 * m * M) as E1 by nia.
  assert (q * M ≤ 2 * m * M) as E2 by nia.
  assert (Z.of_nat j * (q * M) ≤ Z.of_nat j * (2 * m * M)) as E3 by nia.
  assert ((Z.of_nat j + 1) * (2 * m * M) ≤ n * (2 * m * M)) as E4 by nia.
  assert (Z.abs z ≤ 2 * m * n * M) as Hzb by lia.
  split; [nia|]. split; [nia|].
  etrans; [apply Z.abs_triangle|]. nia.
Qed.

Lemma walkn_within edges a b c k M :
  Forall (λ e, Z.abs (e_weight e) ≤ M) edges →
  walkn edges a b c k → Z.abs c ≤ Z.of_nat k * M.
Proof.
  rewrite Forall_forall. intros Hall.
  induction 1 as [|b c e w n _ IH He _ _]; [simpl; lia|].
  specialize (Hall e He). lia.
Qed.

(** With [safe_weights], every label that the loop of [dijkstra] holds, and
    every candidate that it forms from such a label and the weight of an
    edge, lies between [-2^53] and [2^53]: this holds in every state that
    satisfies the invariants [path_inv] and [cost_inv] of the loop. *)
Lemma safe_weights_keep_dijkstra_sums_exact nodes edges g s st :
  safe_weights nodes edges →
  Dijkstra.build_graph nodes edges = Returned g →
  DijkstraInv.path_inv g s st → DijkstraCost.cost_inv g s st →
  ∀ v z e, Dijkstra.distances st !! v = Some (Num z) → e ∈ edges →
           Z.abs z ≤ 2 ^ 53 ∧ Z.abs (e_weight e) ≤ 2 ^ 53
           ∧ Z.abs (z + e_weight e) ≤ 2 ^ 53.
Proof.
  intros Hsafe Hg Hinv Hcost v z e Hz He.
  set (n := Z.of_nat (length nodes)). set (m := Z.of_nat (length edges)).
  assert (1 ≤ m) as Hm.
  { subst m. destruct edges; [by apply elem_of_nil in He|simpl; lia]. }
  assert (0 ≤ n) as Hn by (subst n; lia).
  destruct (bounded_weights (2 * m * n + 1) (2 ^ 53) edges) as (M & HM & HMK & Hall);
    [nia|lia|exact Hsafe|].
  destruct (path_inv_chain_to g s st v z Hinv Hz) as (l & Hc & Hnd & Hl).
  destruct (chain_walkn nodes edges g s st v l Hg Hcost Hc) as (z' & Hz' & Hwn).
  rewrite Hz in Hz'. injection Hz' as <-.
  pose proof (walkn_within _ _ _ _ _ _ Hall Hwn) as Hb.
  assert (length l ≤ length nodes)%nat as Hlen.
  { apply (NoDup_length_le_nodes l nodes Hnd). intros y Hy.
    by apply (build_graph_lookup_is_Some nodes edges g y Hg), Hl. }
  rewrite Forall_forall in Hall. specialize (Hall e He).
  assert (Z.of_nat (length l - 1) ≤ n) as Hk by (subst n; lia).
  assert (Z.of_nat (length l - 1) * M ≤ n * M) as E1 by nia.
  assert (n * M ≤ 2 * m * n * M) as E2 by nia.
  split; [nia|]. split; [nia|].
  etrans; [apply Z.abs_triangle|]. nia.
Qed.

End SafeSums.
